(** * The regolae of Nicolaus de Capua for musica ficta (trecento/capua.py)

    A shallow embedding of the rule engine, the ficta bookkeeping, the
    interval classifier and the corpus tallies of [trecento/capua.py],
    together with the properties its specification states about them.

    Python objects that the module mutates in place (the notes of a Stream,
    their [editorial] dictionary, their [pitch.accidental]) are modelled by
    explicit state passing: a Stream is the list of its elements and an
    update of the i-th element is a list insert at i.  A stream that holds
    streams (a Part its Measures) is the list of the notes and rests of its
    flat view, each with the mark whether it is an element of the stream
    itself.  Exceptions are modelled by the [result] monad. *)

From Stdlib Require Import ZArith String List Bool Lia.
From stdpp Require Import base tactics option list strings pretty.

Open Scope string_scope.
Open Scope list_scope.
Open Scope Z_scope.

(** ** Exceptions *)

Inductive Exn : Type :=
  | CapuaException (msg : string)
  | IntervalException
  | KeyError (key : string)
  | AttributeError (attr : string).

Inductive result (T : Type) : Type :=
  | Ok (x : T)
  | Raise (e : Exn).
Arguments Ok {T} x.
Arguments Raise {T} e.

#[global] Instance result_ret : MRet result := @Ok.
#[global] Instance result_bind : MBind result :=
  fun _ _ f m => match m with Ok x => f x | Raise e => Raise e end.

(** The loops of the module run over [range(...)] or over the elements of a
    list; a raised exception leaves the loop. *)
Fixpoint forM {S X : Type} (body : X -> S -> result S) (xs : list X) (st : S)
  : result S :=
  match xs with
  | [] => Ok st
  | x :: xs' => match body x st with
                | Ok st' => forM body xs' st'
                | Raise e => Raise e
                end
  end.

(** ** Pitches (music21.pitch) *)

Module Step.
Inductive t : Set := C | D | E | F | G | A | B.
Definition eqb (x y : t) : bool :=
  match x, y with
  | C, C | D, D | E, E | F, F | G, G | A, A | B, B => true
  | _, _ => false
  end.
End Step.

(** The accidentals music21 knows, by [Accidental.name]. *)
Inductive Accidental : Set :=
  | natural | sharp | double_sharp | triple_sharp | quadruple_sharp
  | flat | double_flat | triple_flat | quadruple_flat
  | half_sharp | one_and_a_half_sharp | half_flat | one_and_a_half_flat.

Definition Accidental_name (a : Accidental) : string :=
  match a with
  | natural => "natural" | sharp => "sharp" | double_sharp => "double-sharp"
  | triple_sharp => "triple-sharp" | quadruple_sharp => "quadruple-sharp"
  | flat => "flat" | double_flat => "double-flat"
  | triple_flat => "triple-flat" | quadruple_flat => "quadruple-flat"
  | half_sharp => "half-sharp" | one_and_a_half_sharp => "one-and-a-half-sharp"
  | half_flat => "half-flat" | one_and_a_half_flat => "one-and-a-half-flat"
  end.

(** [Accidental.alter] in semitones, doubled so that quarter tones stay in Z. *)
Definition alter2 (a : Accidental) : Z :=
  match a with
  | natural => 0 | sharp => 2 | double_sharp => 4
  | triple_sharp => 6 | quadruple_sharp => 8
  | flat => -2 | double_flat => -4 | triple_flat => -6 | quadruple_flat => -8
  | half_sharp => 1 | one_and_a_half_sharp => 3
  | half_flat => -1 | one_and_a_half_flat => -3
  end.

Record Pitch : Set := mkPitch {
  step : Step.t;
  accidental : option Accidental;   (* None: no accidental object *)
  octave : Z
}.

Definition stepNum (s : Step.t) : Z :=
  match s with
  | Step.C => 1 | Step.D => 2 | Step.E => 3 | Step.F => 4
  | Step.G => 5 | Step.A => 6 | Step.B => 7
  end.

Definition stepRef (s : Step.t) : Z :=
  match s with
  | Step.C => 0 | Step.D => 2 | Step.E => 4 | Step.F => 5
  | Step.G => 7 | Step.A => 9 | Step.B => 11
  end.

(** [Pitch.diatonicNoteNum]: C4 is 29. *)
Definition diatonicNoteNum (p : Pitch) : Z := stepNum (step p) + 7 * octave p.

(** [Pitch.ps], the pitch space number (C4 is 60), doubled. *)
Definition ps2 (p : Pitch) : Z :=
  2 * (12 * (octave p + 1) + stepRef (step p))
  + match accidental p with Some a => alter2 a | None => 0 end.

(** ** Intervals (music21.interval) *)

Inductive Specifier : Set :=
  | PERFECT | MAJOR | MINOR | AUGMENTED | DIMINISHED
  | DBLAUG | DBLDIM | TRPAUG | TRPDIM | QUADAUG | QUADDIM.

(** [prefixSpecs] *)
Definition prefixSpec (s : Specifier) : string :=
  match s with
  | PERFECT => "P" | MAJOR => "M" | MINOR => "m"
  | AUGMENTED => "A" | DIMINISHED => "d"
  | DBLAUG => "AA" | DBLDIM => "dd" | TRPAUG => "AAA" | TRPDIM => "ddd"
  | QUADAUG => "AAAA" | QUADDIM => "dddd"
  end.

(** [niceSpecNames] *)
Definition niceSpecName (s : Specifier) : string :=
  match s with
  | PERFECT => "Perfect" | MAJOR => "Major" | MINOR => "Minor"
  | AUGMENTED => "Augmented" | DIMINISHED => "Diminished"
  | DBLAUG => "Doubly-Augmented" | DBLDIM => "Doubly-Diminished"
  | TRPAUG => "Triply-Augmented" | TRPDIM => "Triply-Diminished"
  | QUADAUG => "Quadruply-Augmented" | QUADDIM => "Quadruply-Diminished"
  end.

Definition perfSpecifiers : list Specifier :=
  [QUADDIM; TRPDIM; DBLDIM; DIMINISHED; PERFECT; AUGMENTED; DBLAUG; TRPAUG; QUADAUG].
Definition perfOffset : Z := 4.
Definition specifiers : list Specifier :=
  [QUADDIM; TRPDIM; DBLDIM; DIMINISHED; MINOR; MAJOR; AUGMENTED; DBLAUG; TRPAUG; QUADAUG].
Definition majOffset : Z := 5.

(** Python's [l[k]]: a negative index counts from the end, an index out of
    range raises IndexError (here: no value). *)
Definition py_index {T : Type} (l : list T) (k : Z) : option T :=
  let n := Z.of_nat (length l) in
  if (0 <=? k) && (k <? n) then l !! Z.to_nat k
  else if (- n <=? k) && (k <? 0) then l !! Z.to_nat (n + k)
  else None.

(** [GenericInterval], by its directed size: 1 is a unison, -2 a second
    downwards.  [convertStaffDistanceToInterval] never yields 0 or -1. *)
Record GenericInterval : Set := mkGeneric { directed : Z }.

Definition convertStaffDistanceToInterval (staffDist : Z) : Z :=
  if staffDist =? 0 then 1
  else if 0 <? staffDist then staffDist + 1
  else staffDist - 1.

Definition undirected (g : GenericInterval) : Z := Z.abs (directed g).

(** [steps, octaves = divmod-like split of undirected by 7], a multiple of
    seven counting as step 7 of the octave below. *)
Definition simpleUndirected (g : GenericInterval) : Z :=
  let steps := undirected g mod 7 in
  if steps =? 0 then 7 else steps.
Definition undirectedOctaves (g : GenericInterval) : Z :=
  let steps := undirected g mod 7 in
  if steps =? 0 then undirected g / 7 - 1 else undirected g / 7.
Definition semiSimpleUndirected (g : GenericInterval) : Z :=
  if (simpleUndirected g =? 1) && (1 <=? undirectedOctaves g) then 8
  else simpleUndirected g.
Definition perfectable (g : GenericInterval) : bool :=
  (simpleUndirected g =? 1) || (simpleUndirected g =? 4) || (simpleUndirected g =? 5).

Inductive Direction : Set := DESCENDING | OBLIQUE | ASCENDING.
Definition Direction_eqb (a b : Direction) : bool :=
  match a, b with
  | DESCENDING, DESCENDING | OBLIQUE, OBLIQUE | ASCENDING, ASCENDING => true
  | _, _ => false
  end.

Definition genericDirection (g : GenericInterval) : Direction :=
  if directed g =? 1 then OBLIQUE
  else if 1 <? directed g then ASCENDING else DESCENDING.

(** [ChromaticInterval], by its (doubled) number of semitones. *)
Record ChromaticInterval : Set := mkChromatic { semitones2 : Z }.

Definition chromaticDirection (c : ChromaticInterval) : Direction :=
  if semitones2 c =? 0 then OBLIQUE
  else if 0 <? semitones2 c then ASCENDING else DESCENDING.

Record DiatonicInterval : Set := mkDiatonic {
  specifier : Specifier;
  generic : GenericInterval
}.

Definition DiatonicInterval_name (d : DiatonicInterval) : string :=
  prefixSpec (specifier d) +:+ pretty (undirected (generic d)).
Definition DiatonicInterval_directedName (d : DiatonicInterval) : string :=
  prefixSpec (specifier d) +:+ pretty (directed (generic d)).
Definition DiatonicInterval_simpleName (d : DiatonicInterval) : string :=
  prefixSpec (specifier d) +:+ pretty (simpleUndirected (generic d)).
Definition DiatonicInterval_semiSimpleName (d : DiatonicInterval) : string :=
  prefixSpec (specifier d) +:+ pretty (semiSimpleUndirected (generic d)).

(** [common.musicOrdinals] *)
Definition musicOrdinals : list string :=
  ["Unison"; "Second"; "Third"; "Fourth"; "Fifth"; "Sixth"; "Seventh";
   "Octave"; "Ninth"; "Tenth"; "Eleventh"; "Twelfth"; "Thirteenth";
   "Fourteenth"; "Double-octave"; "Sixteenth"; "Seventeenth"; "Eighteenth";
   "Nineteenth"; "Twentieth"; "Twenty-first"; "Triple-octave"].

Definition GenericInterval_niceName (g : GenericInterval) : string :=
  match musicOrdinals !! Z.to_nat (undirected g - 1) with
  | Some s => s
  | None => pretty (undirected g)
  end.

Definition DiatonicInterval_niceName (d : DiatonicInterval) : string :=
  niceSpecName (specifier d) +:+ " " +:+ GenericInterval_niceName (generic d).

(** An [Interval] object.  Its [diatonic] part is None for an interval
    object that was built without one. *)
Record Interval : Set := mkInterval {
  diatonic : option DiatonicInterval;
  chromatic : ChromaticInterval
}.

Definition overDiatonic (f : DiatonicInterval -> string) (i : Interval) : string :=
  match diatonic i with Some d => f d | None => "" end.

Definition directedName : Interval -> string := overDiatonic DiatonicInterval_directedName.
Definition name : Interval -> string := overDiatonic DiatonicInterval_name.
Definition simpleName : Interval -> string := overDiatonic DiatonicInterval_simpleName.
Definition semiSimpleName : Interval -> string := overDiatonic DiatonicInterval_semiSimpleName.
Definition niceName : Interval -> string := overDiatonic DiatonicInterval_niceName.

(** [notesToGeneric] and [notesToChromatic] *)
Definition notesToGeneric (p1 p2 : Pitch) : GenericInterval :=
  mkGeneric (convertStaffDistanceToInterval (diatonicNoteNum p2 - diatonicNoteNum p1)).
Definition notesToChromatic (p1 p2 : Pitch) : ChromaticInterval :=
  mkChromatic (ps2 p2 - ps2 p1).

(** Semitones of the major or perfect interval of a generic size. *)
Definition normalSemis (g : GenericInterval) : Z :=
  nth (Z.to_nat (simpleUndirected g - 1)) [0; 2; 4; 5; 7; 9; 11] 0
  + 12 * undirectedOctaves g.

(** [_getSpecifierFromGenericChromatic]: the quality of an interval from its
    generic size and its semitones.  Quarter tones are rounded half up. *)
Definition getSpecifierFromGenericChromatic
    (g : GenericInterval) (c : ChromaticInterval) : result Specifier :=
  let theseSemis2 :=
    if negb (Direction_eqb (genericDirection g) (chromaticDirection c))
       && negb (Direction_eqb (genericDirection g) OBLIQUE)
       && negb (Direction_eqb (chromaticDirection c) OBLIQUE)
    then - Z.abs (semitones2 c)
    else if undirected g =? 1 then semitones2 c
    else Z.abs (semitones2 c) in
  let semisRounded := (theseSemis2 + 1) / 2 in
  let found :=
    if perfectable g
    then py_index perfSpecifiers (perfOffset + semisRounded - normalSemis g)
    else py_index specifiers (majOffset + semisRounded - normalSemis g) in
  match found with
  | Some s => Ok s
  | None => Raise IntervalException
  end.

(** [notesToInterval(n1, n2)] on the pitches of two notes. *)
Definition notesToInterval (p1 p2 : Pitch) : result Interval :=
  let gInt := notesToGeneric p1 p2 in
  let cInt := notesToChromatic p1 p2 in
  spec ← getSpecifierFromGenericChromatic gInt cInt;
  mret (mkInterval (Some (mkDiatonic spec gInt)) cInt).

(** ** Notes, rests and their editorial dictionary *)

(** [note.editorial].  music21 predefines the attributes [ficta] and
    [harmonicInterval] as None, so reading them never fails and
    [hasattr(n.editorial, 'ficta')] holds of every note.  The other keys
    are absent from the dictionary until the module stores them: for those
    the outer [None] is "key not in the dictionary", [Some None] the key
    holding Python's None. *)
Record Editorial : Set := mkEditorial {
  ficta : option Accidental;
  harmonicInterval : option Interval;
  pmfcFicta : option (option Accidental);
  capuaFicta : option (option Accidental);
  savedAccidental : option (option Accidental);
  savedFicta : option (option Accidental);
  capuaRuleNumber : option Z
}.

Definition emptyEditorial : Editorial :=
  mkEditorial None None None None None None None.

(** A Note or a Rest of a Stream: a Rest has no pitch. *)
Record GeneralNote : Set := mkNote {
  pitch : option Pitch;
  editorial : Editorial;
  color : option string             (* note.style.color *)
}.

Definition isRest (n : GeneralNote) : bool :=
  match pitch n with Some _ => false | None => true end.

(** The elements of [stream.flat.notesAndRests], in order. *)
Abbreviation Stream := (list GeneralNote) (only parsing).

(** A music21 stream holds streams as well as notes and rests: a Part
    holds Measures, a Measure holds Notes and Rests.  [stream.flat] reaches
    the notes and rests at every depth; [stream.notes] and
    [for n in stream] reach only those that are elements of the stream
    itself.  An [Element] is a Note or a Rest of the flat view with
    [direct], which tells whether it is an element of the stream itself
    (true) or of a stream inside it (false). *)
Record Element : Set := mkElement {
  direct : bool;
  noteOf : GeneralNote
}.

(** A stream as the functions that take one are given it: the notes and
    rests of its flat view, in the order of [stream.flat.notesAndRests].
    In a Part made of Measures no element is direct; in a Measure, and in
    the stream that [part.flat.notesAndRests] gives, every element is. *)
Abbreviation NestedStream := (list Element) (only parsing).

(** [stream.flat.notesAndRests] *)
Definition flatNotesAndRests (s : NestedStream) : Stream := noteOf <$> s.

(** The stream that [part.flat.notesAndRests] gives, of which every note
    and rest is an element. *)
Definition flatStream (ssn : Stream) : NestedStream := mkElement true <$> ssn.

(** The notes are objects changed in place: [setNotes s ssn] is the stream
    [s] once the notes and rests of its flat view have become [ssn]. *)
Definition setNotes (s : NestedStream) (ssn : Stream) : NestedStream :=
  zip_with (fun e n => mkElement (direct e) n) s ssn.

(** A change made to the note of an element. *)
Definition onNote (f : GeneralNote -> GeneralNote) (e : Element) : Element :=
  mkElement (direct e) (f (noteOf e)).

(** Attribute assignments. *)
Definition set_ficta (v : option Accidental) (e : Editorial) : Editorial :=
  mkEditorial v (harmonicInterval e) (pmfcFicta e) (capuaFicta e)
              (savedAccidental e) (savedFicta e) (capuaRuleNumber e).
Definition set_harmonicInterval (v : option Interval) (e : Editorial) : Editorial :=
  mkEditorial (ficta e) v (pmfcFicta e) (capuaFicta e)
              (savedAccidental e) (savedFicta e) (capuaRuleNumber e).
Definition set_pmfcFicta (v : option Accidental) (e : Editorial) : Editorial :=
  mkEditorial (ficta e) (harmonicInterval e) (Some v) (capuaFicta e)
              (savedAccidental e) (savedFicta e) (capuaRuleNumber e).
Definition set_capuaFicta (v : option Accidental) (e : Editorial) : Editorial :=
  mkEditorial (ficta e) (harmonicInterval e) (pmfcFicta e) (Some v)
              (savedAccidental e) (savedFicta e) (capuaRuleNumber e).
Definition set_savedAccidental (v : option Accidental) (e : Editorial) : Editorial :=
  mkEditorial (ficta e) (harmonicInterval e) (pmfcFicta e) (capuaFicta e)
              (Some v) (savedFicta e) (capuaRuleNumber e).
Definition set_savedFicta (v : option Accidental) (e : Editorial) : Editorial :=
  mkEditorial (ficta e) (harmonicInterval e) (pmfcFicta e) (capuaFicta e)
              (savedAccidental e) (Some v) (capuaRuleNumber e).
Definition set_capuaRuleNumber (v : Z) (e : Editorial) : Editorial :=
  mkEditorial (ficta e) (harmonicInterval e) (pmfcFicta e) (capuaFicta e)
              (savedAccidental e) (savedFicta e) (Some v).

Definition with_editorial (f : Editorial -> Editorial) (n : GeneralNote) : GeneralNote :=
  mkNote (pitch n) (f (editorial n)) (color n).
Definition with_color (c : string) (n : GeneralNote) : GeneralNote :=
  mkNote (pitch n) (editorial n) (Some c).
(** [note.pitch.accidental = v]; a Rest has no pitch to assign to. *)
Definition with_accidental (v : option Accidental) (n : GeneralNote) : GeneralNote :=
  mkNote (match pitch n with
          | Some p => Some (mkPitch (step p) v (octave p))
          | None => None
          end) (editorial n) (color n).

Definition pitch_accidental (n : GeneralNote) : option Accidental :=
  match pitch n with Some p => accidental p | None => None end.

(** ** The rules *)

Definition RULE_ONE : Z := 1.
Definition RULE_TWO : Z := 2.
Definition RULE_THREE : Z := 4.
Definition RULE_FOUR_A : Z := 8.
Definition RULE_FOUR_B : Z := 16.

(** [if 'capuaRuleNumber' in n.editorial: n.editorial.capuaRuleNumber += rule
     else: n.editorial.capuaRuleNumber = rule] *)
Definition addCapuaRuleNumber (rule : Z) (n : GeneralNote) : GeneralNote :=
  match capuaRuleNumber (editorial n) with
  | Some k => with_editorial (set_capuaRuleNumber (k + rule)) n
  | None => with_editorial (set_capuaRuleNumber rule) n
  end.

(** [n.pitch.accidental is not None and n.pitch.accidental.name == 'flat'] *)
Definition isFlat (p : Pitch) : bool :=
  match accidental p with
  | Some a => String.eqb (Accidental_name a) "flat"
  | None => false
  end.

Definition hasAccidental (p : Pitch) : bool :=
  match accidental p with Some _ => true | None => false end.

Definition stepIs (p : Pitch) (s : Step.t) : bool := Step.eqb (step p) s.

(** The branch of rules 1, 2 and 4B that takes a flat off the pivot and
    proposes a natural. *)
Definition flatToNatural (n : GeneralNote) : GeneralNote :=
  with_editorial (set_capuaFicta (Some natural))
    (with_editorial (set_ficta (Some natural))
      (with_accidental None
        (with_editorial (set_savedAccidental (pitch_accidental n)) n))).

(** [n.editorial.ficta = Accidental(a); n.editorial.capuaFicta = Accidental(a)] *)
Definition proposeFicta (a : Accidental) (n : GeneralNote) : GeneralNote :=
  with_editorial (set_capuaFicta (Some a)) (with_editorial (set_ficta (Some a)) n).

Definition capuaRuleOne_body (i : nat) (st : Stream * nat) : result (Stream * nat) :=
  let '(ssn, numChanged) := st in
  match ssn !! i, ssn !! (i + 1)%nat, ssn !! (i + 2)%nat with
  | Some n1, Some n2, Some n3 =>
    match pitch n1, pitch n2, pitch n3 with
    | Some p1, Some p2, Some p3 =>
      i1 ← notesToInterval p1 p2;
      i2 ← notesToInterval p2 p3;
      if hasAccidental p1 || hasAccidental p3 then Ok st
      else if stepIs p2 Step.A || stepIs p2 Step.D then Ok st
      else if String.eqb (directedName i1) "M-2"
              && String.eqb (directedName i2) "M2" then
        let n2 := addCapuaRuleNumber RULE_ONE n2 in
        if isFlat p2 then
          Ok (<[(i + 2)%nat := with_color "blue" n3]>
                (<[(i + 1)%nat := with_color "forestGreen" (flatToNatural n2)]>
                   (<[i := with_color "blue" n1]> ssn)),
              (numChanged + 1)%nat)
        else
          Ok (<[(i + 2)%nat := with_color "blue" n3]>
                (<[(i + 1)%nat := with_color "ForestGreen" (proposeFicta sharp n2)]>
                   (<[i := with_color "blue" n1]> ssn)),
              (numChanged + 1)%nat)
      else Ok st
    | _, _, _ => Ok st              (* a rest in the window: continue *)
    end
  | _, _, _ => Ok st
  end.

(** [for i in range(len(ssn) - 2)]: empty when the stream is shorter. *)
Definition capuaRuleOne (srcStream : Stream) : result (Stream * nat) :=
  forM capuaRuleOne_body (seq 0 (length srcStream - 2)) (srcStream, 0%nat).

Definition capuaRuleTwo_body (i : nat) (st : Stream * nat) : result (Stream * nat) :=
  let '(ssn, numChanged) := st in
  match ssn !! i, ssn !! (i + 1)%nat, ssn !! (i + 2)%nat, ssn !! (i + 3)%nat with
  | Some n1, Some n2, Some n3, Some n4 =>
    match pitch n1, pitch n2, pitch n3, pitch n4 with
    | Some p1, Some p2, Some p3, Some p4 =>
      i1 ← notesToInterval p1 p2;
      i2 ← notesToInterval p2 p3;
      i3 ← notesToInterval p3 p4;
      if hasAccidental p1 || hasAccidental p2 || hasAccidental p4 then Ok st
      else if stepIs p3 Step.A || stepIs p3 Step.D then Ok st
      else if String.eqb (directedName i1) "M2"
              && String.eqb (directedName i2) "m2"
              && String.eqb (directedName i3) "M2" then
        let n3 := addCapuaRuleNumber RULE_TWO n3 in
        if isFlat p3 then
          Ok (<[(i + 3)%nat := with_color "purple" n4]>
                (<[(i + 2)%nat := with_color "ForestGreen" (flatToNatural n3)]>
                   (<[(i + 1)%nat := with_color "purple" n2]>
                      (<[i := with_color "purple" n1]> ssn))),
              (numChanged + 1)%nat)
        else
          Ok (<[(i + 3)%nat := with_color "purple" n4]>
                (<[(i + 2)%nat := with_color "ForestGreen" (proposeFicta sharp n3)]>
                   (<[(i + 1)%nat := with_color "purple" n2]>
                      (<[i := with_color "purple" n1]> ssn))),
              (numChanged + 1)%nat)
      else Ok st
    | _, _, _, _ => Ok st
    end
  | _, _, _, _ => Ok st
  end.

Definition capuaRuleTwo (srcStream : Stream) : result (Stream * nat) :=
  forM capuaRuleTwo_body (seq 0 (length srcStream - 3)) (srcStream, 0%nat).

Definition capuaRuleThree_body (i : nat) (st : Stream * nat) : result (Stream * nat) :=
  let '(ssn, numChanged) := st in
  match ssn !! i, ssn !! (i + 1)%nat, ssn !! (i + 2)%nat with
  | Some n1, Some n2, Some n3 =>
    match pitch n1, pitch n2, pitch n3 with
    | Some p1, Some p2, Some p3 =>
      i1 ← notesToInterval p1 p2;
      i2 ← notesToInterval p2 p3;
      if hasAccidental p1 || hasAccidental p2 || hasAccidental p3 then Ok st
      else if stepIs p2 Step.A || stepIs p2 Step.D then Ok st
      else if String.eqb (directedName i1) "M-3"
              && String.eqb (directedName i2) "M2" then
        let n2 := addCapuaRuleNumber RULE_THREE n2 in
        Ok (<[(i + 2)%nat := with_color "DeepPink" n3]>
              (<[(i + 1)%nat := with_color "ForestGreen" (proposeFicta sharp n2)]>
                 (<[i := with_color "DeepPink" n1]> ssn)),
            (numChanged + 1)%nat)
      else Ok st
    | _, _, _ => Ok st
    end
  | _, _, _ => Ok st
  end.

Definition capuaRuleThree (srcStream : Stream) : result (Stream * nat) :=
  forM capuaRuleThree_body (seq 0 (length srcStream - 2)) (srcStream, 0%nat).

Definition capuaRuleFourA_body (i : nat) (st : Stream * nat) : result (Stream * nat) :=
  let '(ssn, numChanged) := st in
  match ssn !! i, ssn !! (i + 1)%nat, ssn !! (i + 2)%nat with
  | Some n1, Some n2, Some n3 =>
    match pitch n1, pitch n2, pitch n3 with
    | Some p1, Some p2, Some p3 =>
      i1 ← notesToInterval p1 p2;
      i2 ← notesToInterval p2 p3;
      if hasAccidental p1 || hasAccidental p2 || hasAccidental p3 then Ok st
      else if stepIs p2 Step.A || stepIs p2 Step.D then Ok st
      else if String.eqb (directedName i1) "m-3"
              && String.eqb (directedName i2) "M-2" then
        let n2 := addCapuaRuleNumber RULE_FOUR_A n2 in
        Ok (<[(i + 2)%nat := with_color "orange" n3]>
              (<[(i + 1)%nat := with_color "ForestGreen" (proposeFicta flat n2)]>
                 (<[i := with_color "orange" n1]> ssn)),
            (numChanged + 1)%nat)
      else Ok st
    | _, _, _ => Ok st
    end
  | _, _, _ => Ok st
  end.

Definition capuaRuleFourA (srcStream : Stream) : result (Stream * nat) :=
  forM capuaRuleFourA_body (seq 0 (length srcStream - 2)) (srcStream, 0%nat).

Definition capuaRuleFourB_body (i : nat) (st : Stream * nat) : result (Stream * nat) :=
  let '(ssn, numChanged) := st in
  match ssn !! i, ssn !! (i + 1)%nat, ssn !! (i + 2)%nat with
  | Some n1, Some n2, Some n3 =>
    match pitch n1, pitch n2, pitch n3 with
    | Some p1, Some p2, Some p3 =>
      i1 ← notesToInterval p1 p2;
      i2 ← notesToInterval p2 p3;
      if hasAccidental p1 || hasAccidental p3 then Ok st
      else if stepIs p2 Step.A || stepIs p2 Step.D then Ok st
      else if String.eqb (directedName i1) "m3"
              && String.eqb (directedName i2) "M2" then
        let n2 := addCapuaRuleNumber RULE_FOUR_B n2 in
        if isFlat p2 then
          Ok (<[(i + 2)%nat := with_color "orange" n3]>
                (<[(i + 1)%nat := with_color "green" (flatToNatural n2)]>
                   (<[i := with_color "orange" n1]> ssn)),
              (numChanged + 1)%nat)
        else
          Ok (<[(i + 2)%nat := with_color "orange" n3]>
                (<[(i + 1)%nat := with_color "green" (proposeFicta sharp n2)]>
                   (<[i := with_color "orange" n1]> ssn)),
              (numChanged + 1)%nat)
      else Ok st
    | _, _, _ => Ok st
    end
  | _, _, _ => Ok st
  end.

Definition capuaRuleFourB (srcStream : Stream) : result (Stream * nat) :=
  forM capuaRuleFourB_body (seq 0 (length srcStream - 2)) (srcStream, 0%nat).

(** ** The ficta store *)

(** [clearFicta]: [for n2 in srcStream1.flat.notes], over the notes at
    every depth, the rests apart. *)
Definition clearFicta_note (n2 : GeneralNote) : GeneralNote :=
  if isRest n2 then n2
  else with_editorial (set_ficta None)
         (with_editorial (set_savedFicta (ficta (editorial n2))) n2).
Definition clearFicta (srcStream1 : NestedStream) : NestedStream :=
  onNote clearFicta_note <$> srcStream1.

(** [restoreFicta]: [for n2 in srcStream1], over the elements of the stream
    itself, notes and rests; the notes of a stream inside it are not
    reached. *)
Definition restoreFicta_note (n2 : GeneralNote) : GeneralNote :=
  match savedFicta (editorial n2) with
  | Some (Some a) =>
      with_editorial (set_savedFicta None) (with_editorial (set_ficta (Some a)) n2)
  | _ => n2
  end.
Definition restoreFicta (srcStream1 : NestedStream) : NestedStream :=
  (fun e => if direct e then onNote restoreFicta_note e else e) <$> srcStream1.

Definition clearAccidental (note1 : GeneralNote) : GeneralNote :=
  match pitch_accidental note1 with
  | Some a => with_accidental None (with_editorial (set_savedAccidental (Some a)) note1)
  | None => note1
  end.

Definition restoreAccidental (note1 : GeneralNote) : GeneralNote :=
  match savedAccidental (editorial note1) with
  | Some saved =>
      with_editorial (set_savedAccidental None) (with_accidental saved note1)
  | None => note1
  end.

Definition fictaToAccidental (note1 : GeneralNote) : GeneralNote :=
  match ficta (editorial note1) with
  | Some a =>
      let note1 := match pitch_accidental note1 with
                   | Some _ => clearAccidental note1
                   | None => note1
                   end in
      with_accidental (Some a) note1
  | None => note1
  end.

Definition pmfcFictaToAccidental (note1 : GeneralNote) : GeneralNote :=
  match pmfcFicta (editorial note1) with
  | Some (Some a) => with_accidental (Some a) (clearAccidental note1)
  | _ => note1
  end.

Definition capuaFictaToAccidental (note1 : GeneralNote) : GeneralNote :=
  match capuaFicta (editorial note1) with
  | Some (Some a) => with_accidental (Some a) (clearAccidental note1)
  | _ => note1
  end.

(** The first loop of [applyCapuaToStream], [for n in thisStream.notes]:
    over the notes that are elements of [thisStream] itself, the rests
    apart.  The notes of a stream inside [thisStream] are not reached. *)
Definition saveEditorsFicta_note (n : GeneralNote) : GeneralNote :=
  if isRest n then n
  else clearAccidental (with_editorial (set_pmfcFicta (ficta (editorial n))) n).
Definition saveEditorsFicta (thisStream : NestedStream) : NestedStream :=
  (fun e => if direct e then onNote saveEditorsFicta_note e else e) <$> thisStream.

(** The rules work on [thisStream.flat.notesAndRests], each on the notes
    as the one before left them. *)
Definition applyCapuaToStream (thisStream : NestedStream) : result NestedStream :=
  let thisStream := clearFicta (saveEditorsFicta thisStream) in
  '(s, _) ← capuaRuleOne (flatNotesAndRests thisStream);
  '(s, _) ← capuaRuleTwo s;
  '(s, _) ← capuaRuleThree s;
  '(s, _) ← capuaRuleFourB s;
  mret (setNotes thisStream s).

(** ** The interval classifier *)

Definition PerfectCons : list string := ["P1"; "P5"; "P8"].
Definition ImperfCons : list string := ["m3"; "M3"; "m6"; "M6"].
Definition Others : list string :=
  ["m2"; "M2"; "A2"; "d3"; "A3"; "d4"; "P4"; "A4"; "d5"; "A5"; "d6";
   "A6"; "d7"; "m7"; "M7"; "A7"].

(** Python's [x in l] on a list of strings. *)
Definition inList (x : string) (l : list string) : bool := existsb (String.eqb x) l.

Definition unrecognized (interval1 : Interval) : Exn :=
  CapuaException
    ("Wow!  The first " +:+ niceName interval1
     +:+ " I have ever seen in 14th century music!  Go publish!  (or check for errors...)").

Definition getIntervalType (interval1 : option Interval) : result (option string) :=
  match interval1 with
  | None => Ok None
  | Some i =>
    match diatonic i with
    | None => Ok None
    | Some d =>
      if inList (DiatonicInterval_name d) PerfectCons then Ok (Some "perfect cons")
      else if inList (DiatonicInterval_name d) ImperfCons then Ok (Some "imperfect cons")
      else if inList (DiatonicInterval_name d) Others then Ok (Some "dissonance")
      else Raise (unrecognized i)
    end
  end.

(** ** Tallies *)

(** A Python dict from category names to counts, in insertion order. *)
Abbreviation Dict := (list (string * Z)) (only parsing).

Fixpoint dict_get (k : string) (d : Dict) : option Z :=
  match d with
  | [] => None
  | (k', v) :: d' => if String.eqb k k' then Some v else dict_get k d'
  end.

(** [d[k] = v]: an existing key keeps its place, a new key goes last. *)
Fixpoint dict_set (k : string) (v : Z) (d : Dict) : Dict :=
  match d with
  | [] => [(k, v)]
  | (k', v') :: d' =>
      if String.eqb k k' then (k', v) :: d' else (k', v') :: dict_set k v d'
  end.

(** [d[k] += v]: KeyError when the key is missing. *)
Definition dict_iadd (k : string) (v : Z) (d : Dict) : result Dict :=
  match dict_get k d with
  | Some x => Ok (dict_set k (x + v) d)
  | None => Raise (KeyError k)
  end.

Definition dict_keys (d : Dict) : list string := fst <$> d.

Definition hasKey {T : Type} (slot : option T) : bool :=
  match slot with Some _ => true | None => false end.

Definition emptyStats : Dict :=
  [("totalNotes", 0); ("pmfcAlt", 0); ("capuaAlt", 0);
   ("pmfcNotCapua", 0); ("capuaNotPmfc", 0); ("pmfcAndCapua", 0)].

Definition compareNoteCapuaToEditor (note1 : GeneralNote) : result Dict :=
  let statsDict := emptyStats in
  if isRest note1 then Ok statsDict
  else
    statsDict ← dict_iadd "totalNotes" 1 statsDict;
    if hasKey (pmfcFicta (editorial note1)) && hasKey (capuaFicta (editorial note1)) then
      statsDict ← dict_iadd "pmfcAlt" 1 statsDict;
      statsDict ← dict_iadd "capuaAlt" 1 statsDict;
      dict_iadd "pmfcAndCapua" 1 statsDict
    else if hasKey (pmfcFicta (editorial note1)) then
      statsDict ← dict_iadd "pmfcAlt" 1 statsDict;
      dict_iadd "pmfcNotCapua" 1 statsDict
    else if hasKey (capuaFicta (editorial note1)) then
      statsDict ← dict_iadd "capuaAlt" 1 statsDict;
      dict_iadd "capuaNotPmfc" 1 statsDict
    else Ok statsDict.

(** [for thisKey in thisDict: totalDict[thisKey] += thisDict[thisKey]] *)
Definition addInto (thisDict : Dict) (totalDict : Dict) : result Dict :=
  forM (fun kv total => dict_iadd (fst kv) (snd kv) total) thisDict totalDict.

Definition compareSrcStreamCapuaToEditor (srcStream1 : Stream) : result Dict :=
  forM (fun note1 totalDict =>
          thisDict ← compareNoteCapuaToEditor note1;
          addInto thisDict totalDict)
       srcStream1 emptyStats.

(** ** The corpus functions *)

(** A word between double quote characters. *)
Definition quoted (s : string) : string :=
  String (Ascii.ascii_of_nat 34) (s +:+ String (Ascii.ascii_of_nat 34) EmptyString).

(** One voice of a snippet: its id ('C' for the cantus, 'T' for the tenor)
    and its [flat.notesAndRests], the stream the corpus functions work
    on. *)
Record Part : Set := mkPart {
  partId : string;
  partNotes : Stream
}.

(** A PolyphonicSnippet: an incipit or a cadence of a work. *)
Record Snippet : Set := mkSnippet {
  classes : list string;
  parts : list Part
}.

(** What [BallataSheet().makeWork(j)] gives. *)
Record Work : Set := mkWork {
  title : string;
  incipit : option Snippet;
  snippets : list (option Snippet)
}.

(** [thisSnippetParts[k]] *)
Definition getPart (k : string) (ps : list Part) : result Stream :=
  match List.find (fun p => String.eqb (partId p) k) ps with
  | Some p => Ok (partNotes p)
  | None => Raise (KeyError k)
  end.

(** [stream.notes]: the elements that are not rests. *)
Definition notes (s : Stream) : Stream := List.filter (fun n => negb (isRest n)) s.

(** [applyCapuaToStream(srcStream)] where [srcStream] is the
    [flat.notesAndRests] of a part, as [findCorrections] and
    [improvedHarmony] call it: every note and rest is an element of the
    stream given. *)
Definition applyCapuaToFlat (srcStream : Stream) : result Stream :=
  match applyCapuaToStream (flatStream srcStream) with
  | Ok s => Ok (flatNotesAndRests s)
  | Raise e => Raise e
  end.

(** The snippets a returned Opus holds, each named by the number of its work
    and its place in [pieceObj.snippets]. *)
Abbreviation Opus := (list (Z * nat)) (only parsing).

Definition harmonicSimpleNameIs (n : GeneralNote) (nm : string) : bool :=
  match harmonicInterval (editorial n) with
  | Some hI => String.eqb (simpleName hI) nm
  | None => false
  end.

Section Corpus.
(** The two collaborators outside this module: the corpus
    ([cadencebook.BallataSheet().makeWork]) and music21's
    [Stream.attachIntervalsBetweenStreams], which stores in the
    [editorial.harmonicInterval] of each element of its first stream the
    interval to what sounds in the second. *)
Variable makeWork : Z -> Work.
Variable attachIntervalsBetweenStreams : Stream -> Stream -> Stream.

(** [foundP8] of the inner loop of [findCorrections]. *)
Definition resolves (correctionType : string) (nextFewNotes : Stream) : bool :=
  fold_left
    (fun foundP8 thisNote =>
       match harmonicInterval (editorial thisNote) with
       | None => foundP8
       | Some hI =>
           if String.eqb correctionType "Maj3" && String.eqb (simpleName hI) "P1"
           then true
           else if String.eqb correctionType "min6"
                   && String.eqb (semiSimpleName hI) "P8"
           then true
           else foundP8
       end)
    nextFewNotes false.

(** The state of the note loops: the totals, the Opus and
    [thisSnippetAppended]. *)
Definition FindState : Type := Dict * Opus * bool.

(** The body of [for (i, note1) in enumerate(srcStreamNotes)]. *)
Definition findCorrections_note (correctionType : string) (notesToCheck : nat)
    (simpleNameToCheck : string) (thisSnippet : Z * nat)
    (srcStreamNotes : Stream) (i : nat) (st : FindState) : result FindState :=
  match srcStreamNotes !! i with
  | None => Ok st
  | Some note1 =>
    if negb (harmonicSimpleNameIs note1 simpleNameToCheck) then Ok st
    else
      let srcStreamLen := length srcStreamNotes in
      if (srcStreamLen - notesToCheck <=? i)%nat && (i =? srcStreamLen - 1)%nat
      then Ok st
      else
        let nextFewNotes :=
          if (srcStreamLen - notesToCheck <=? i)%nat
          then drop (i + 1) srcStreamNotes
          else take notesToCheck (drop (i + 1) srcStreamNotes) in
        if negb (resolves correctionType nextFewNotes) then Ok st
        else
          newResults ← compareNoteCapuaToEditor note1;
          let newResults := dict_set "potentialChange" 1 newResults in
          forM (fun kv (st : FindState) =>
                  let '(totalDict, foundPieceOpus, thisSnippetAppended) := st in
                  if String.eqb (fst kv) "alterAll" then Ok st
                  else
                    let '(foundPieceOpus, thisSnippetAppended) :=
                      if String.eqb (fst kv) "capuaNotPmfc" && (snd kv =? 1)
                         && negb thisSnippetAppended
                      then ((foundPieceOpus ++ [thisSnippet])%list, true)
                      else (foundPieceOpus, thisSnippetAppended) in
                    totalDict ← dict_iadd (fst kv) (snd kv) totalDict;
                    Ok (totalDict, foundPieceOpus, thisSnippetAppended))
               newResults st
  end.

(** The body of [for thisSnippet in pieceObj.snippets]. *)
Definition findCorrections_snippet (correctionType : string) (notesToCheck : nat)
    (simpleNameToCheck : string) (j : Z) (k : nat) (thisSnippet : option Snippet)
    (st : Dict * Opus) : result (Dict * Opus) :=
  let '(totalDict, foundPieceOpus) := st in
  let thisSnippetAppended := false in
  match thisSnippet with
  | None => Ok st
  | Some sn =>
    if inList "Incipit" (classes sn) then Ok st
    else
      let thisSnippetParts := parts sn in
      if (length thisSnippetParts <? 2)%nat then Ok st
      else
        srcStream1 ← getPart "C" thisSnippetParts;
        srcStream2 ← getPart "T" thisSnippetParts;
        let srcStream1 := attachIntervalsBetweenStreams srcStream1 srcStream2 in
        let srcStream2 := attachIntervalsBetweenStreams srcStream2 srcStream1 in
        let '(foundPieceOpus, thisSnippetAppended) :=
          if negb thisSnippetAppended then ((foundPieceOpus ++ [(j, k)])%list, true)
          else (foundPieceOpus, thisSnippetAppended) in
        srcStream1 ← applyCapuaToFlat srcStream1;
        srcStream2 ← applyCapuaToFlat srcStream2;
        '(totalDict, foundPieceOpus, _) ←
          forM (fun ss st =>
                  let srcStreamNotes := notes ss in
                  forM (findCorrections_note correctionType notesToCheck
                          simpleNameToCheck (j, k) srcStreamNotes)
                       (seq 0 (length srcStreamNotes)) st)
               [srcStream1; srcStream2]
               (totalDict, foundPieceOpus, thisSnippetAppended);
        Ok (totalDict, foundPieceOpus)
  end.

(** [for thisSnippet in pieceObj.snippets], the k-th snippet first. *)
Fixpoint forSnippets (body : nat -> option Snippet -> Dict * Opus -> result (Dict * Opus))
    (k : nat) (sns : list (option Snippet)) (st : Dict * Opus) : result (Dict * Opus) :=
  match sns with
  | [] => Ok st
  | sn :: sns' => match body k sn st with
                  | Ok st' => forSnippets body (S k) sns' st'
                  | Raise e => Raise e
                  end
  end.

(** The body of [for j in range(startPiece, endPiece)]. *)
Definition findCorrections_piece (correctionType : string) (notesToCheck : nat)
    (simpleNameToCheck : string) (j : Z) (st : Dict * Opus) : result (Dict * Opus) :=
  let pieceObj := makeWork j in
  match incipit pieceObj with
  | None => Ok st
  | Some _ =>
      forSnippets (findCorrections_snippet correctionType notesToCheck
                     simpleNameToCheck j)
                  0%nat (snippets pieceObj) st
  end.

Definition findCorrections (correctionType : string) (startPiece endPiece : Z)
  : result (Dict * Opus) :=
  let totalDict :=
    [("totalNotes", 0); ("pmfcAlt", 0); ("capuaAlt", 0); ("pmfcNotCapua", 0);
     ("capuaNotPmfc", 0); ("pmfcAndCapua", 0); ("potentialChange", 0)] in
  '(notesToCheck, simpleNameToCheck) ←
    (if String.eqb correctionType "Maj3" then Ok (1%nat, "m3")
     else if String.eqb correctionType "min6" then Ok (2%nat, "M6")
     else Raise (CapuaException
                   ("Invalid correctionType to check; I can check " +:+ quoted "Maj3"
                    +:+ " or " +:+ quoted "min6")));
  let foundPieceOpus : Opus := [] in
  forM (findCorrections_piece correctionType notesToCheck simpleNameToCheck)
       (seqZ startPiece (endPiece - startPiece))
       (totalDict, foundPieceOpus).

(** The body of [for (i, note1) in enumerate(srcStreamNotes)] of
    [improvedHarmony]. *)
Definition improvedHarmony_note (note1 : GeneralNote) (checkDict : Dict) : result Dict :=
  match harmonicInterval (editorial note1) with
  | None => Ok checkDict
  | Some hI =>
    match diatonic hI with
    | None => Raise (AttributeError "perfectable")
    | Some d =>
      if negb (perfectable (generic d)) || (simpleUndirected (generic d) =? 4)
      then Ok checkDict
      else if String.eqb (niceSpecName (specifier d)) "Perfect" then
        if hasKey (capuaFicta (editorial note1))
        then dict_iadd "perfCapua" 1 checkDict
        else dict_iadd "perfIgnored" 1 checkDict
      else
        if hasKey (capuaFicta (editorial note1))
        then dict_iadd "imperfCapua" 1 checkDict
        else dict_iadd "imperfIgnored" 1 checkDict
    end
  end.

Definition improvedHarmony_snippet (thisSnippet : option Snippet) (checkDict : Dict)
  : result Dict :=
  match thisSnippet with
  | None => Ok checkDict
  | Some sn =>
    if inList "Incipit" (classes sn) then Ok checkDict
    else
      let thisSnippetParts := parts sn in
      if (length thisSnippetParts <? 2)%nat then Ok checkDict
      else
        srcStream1 ← getPart "C" thisSnippetParts;
        srcStream2 ← getPart "T" thisSnippetParts;
        let srcStream1 := attachIntervalsBetweenStreams srcStream1 srcStream2 in
        srcStream1 ← applyCapuaToFlat srcStream1;
        forM (fun ss checkDict => forM improvedHarmony_note (notes ss) checkDict)
             [srcStream1; srcStream2] checkDict
  end.

Definition improvedHarmony_piece (j : Z) (checkDict : Dict) : result Dict :=
  let pieceObj := makeWork j in
  match incipit pieceObj with
  | None => Ok checkDict
  | Some _ => forM improvedHarmony_snippet (snippets pieceObj) checkDict
  end.

Definition improvedHarmony (startPiece endPiece : Z) : result Dict :=
  let checkDict :=
    [("perfIgnored", 0); ("perfCapua", 0); ("imperfIgnored", 0); ("imperfCapua", 0)] in
  forM improvedHarmony_piece (seqZ startPiece (endPiece - startPiece)) checkDict.
End Corpus.

(** A reading of [attachIntervalsBetweenStreams] for two voices that move
    in the same rhythm, where the k-th element of one stream sounds with
    the k-th element of the other: a note gets the interval to the note
    sounding with it, and None when that is a rest, is missing, or the
    interval cannot be built. *)
Definition attachAligned (s1 s2 : Stream) : Stream :=
  imap (fun k n =>
          if isRest n then n
          else
            with_editorial
              (set_harmonicInterval
                 match pitch n, s2 !! k ≫= pitch with
                 | Some p, Some q =>
                     match notesToInterval p q with
                     | Ok i => Some i
                     | Raise _ => None
                     end
                 | _, _ => None
                 end) n)
       s1.

(** ** The common shape of the five rules

    The five rule functions differ only in the constants collected in a
    [RuleSpec]; [scan] is their common loop.  It keeps, instead of the
    number of matches, the list of the pivots matched (the places in the
    stream where the rule fired), of which [numChanged] is the length. *)

Record RuleSpec : Type := mkRule {
  rPattern : list string;   (* the directed names asked of the successive intervals *)
  rPivot : nat;             (* the place of the pivot in the window *)
  rPlain : list nat;        (* the places in the window that must carry no accidental *)
  rNumber : Z;              (* the constant added to capuaRuleNumber *)
  rClears : bool;           (* whether a flat on the pivot is taken off *)
  rFicta : Accidental;      (* the accidental proposed otherwise *)
  rOuterColor : string;
  rFlatColor : string;
  rPivotColor : string
}.

Definition rWidth (R : RuleSpec) : nat := S (length (rPattern R)).

Definition ruleOne : RuleSpec :=
  mkRule ["M-2"; "M2"] 1 [0%nat; 2%nat] RULE_ONE true sharp "blue" "forestGreen" "ForestGreen".
Definition ruleTwo : RuleSpec :=
  mkRule ["M2"; "m2"; "M2"] 2 [0%nat; 1%nat; 3%nat] RULE_TWO true sharp
         "purple" "ForestGreen" "ForestGreen".
Definition ruleThree : RuleSpec :=
  mkRule ["M-3"; "M2"] 1 [0%nat; 1%nat; 2%nat] RULE_THREE false sharp
         "DeepPink" "ForestGreen" "ForestGreen".
Definition ruleFourA : RuleSpec :=
  mkRule ["m-3"; "M-2"] 1 [0%nat; 1%nat; 2%nat] RULE_FOUR_A false flat
         "orange" "ForestGreen" "ForestGreen".
Definition ruleFourB : RuleSpec :=
  mkRule ["m3"; "M2"] 1 [0%nat; 2%nat] RULE_FOUR_B true sharp "orange" "green" "green".

(** The directed names of the intervals between the successive pitches of a
    window, built from left to right. *)
Fixpoint windowNames (ps : list Pitch) : result (list string) :=
  match ps with
  | p1 :: ((p2 :: _) as rest) =>
      i ← notesToInterval p1 p2;
      names ← windowNames rest;
      Ok (directedName i :: names)
  | _ => Ok []
  end.

Definition plainAt (ps : list Pitch) (k : nat) : bool :=
  match ps !! k with Some p => negb (hasAccidental p) | None => true end.

Definition pivotStepOk (ps : list Pitch) (k : nat) : bool :=
  match ps !! k with
  | Some p => negb (stepIs p Step.A || stepIs p Step.D)
  | None => false
  end.

Definition ruleCheck (R : RuleSpec) (ps : list Pitch) (names : list string) : bool :=
  forallb (plainAt ps) (rPlain R) && pivotStepOk ps (rPivot R)
  && bool_decide (names = rPattern R).

(** The test a rule makes on a window without rests. *)
Definition rTest (R : RuleSpec) (ps : list Pitch) : result bool :=
  names ← windowNames ps;
  Ok (ruleCheck R ps names).

(** The pitch a rule leaves on its pivot. *)
Definition pivotPitch (R : RuleSpec) (p : Pitch) : Pitch :=
  if rClears R && isFlat p then mkPitch (step p) None (octave p) else p.

Definition noteIsFlat (n : GeneralNote) : bool :=
  match pitch n with Some p => isFlat p | None => false end.

(** What a rule writes on its pivot, the colour apart. *)
Definition pivotUpdate (R : RuleSpec) (n : GeneralNote) : GeneralNote :=
  let n' := addCapuaRuleNumber (rNumber R) n in
  if rClears R && noteIsFlat n then flatToNatural n' else proposeFicta (rFicta R) n'.

Definition rFire (R : RuleSpec) (win : list GeneralNote) : list GeneralNote :=
  imap (fun k n =>
          if (k =? rPivot R)%nat
          then with_color (if rClears R && noteIsFlat n then rFlatColor R else rPivotColor R)
                          (pivotUpdate R n)
          else with_color (rOuterColor R) n)
       win.

Definition scan_body (R : RuleSpec) (i : nat) (st : Stream * list nat)
  : result (Stream * list nat) :=
  let '(ssn, hits) := st in
  let win := take (rWidth R) (drop i ssn) in
  if (length win <? rWidth R)%nat then Ok st
  else
    match mapM pitch win with
    | None => Ok st
    | Some ps =>
        rTest R ps ≫= fun b : bool =>
        if b then Ok (list_inserts i (rFire R win) ssn, hits ++ [(i + rPivot R)%nat])
        else Ok st
    end.

Definition scan (R : RuleSpec) (s : Stream) : result (Stream * list nat) :=
  forM (scan_body R) (seq 0 (length s - length (rPattern R))) (s, []).

(** The same loop on the pitches alone: a rest is None. *)
Definition pscan_body (R : RuleSpec) (i : nat) (st : list (option Pitch) * list nat)
  : result (list (option Pitch) * list nat) :=
  let '(a, hits) := st in
  let win := take (rWidth R) (drop i a) in
  if (length win <? rWidth R)%nat then Ok st
  else
    match mapM id win with
    | None => Ok st
    | Some ps =>
        rTest R ps ≫= fun b : bool =>
        if b then Ok (alter (fmap (pivotPitch R)) (i + rPivot R)%nat a,
                      hits ++ [(i + rPivot R)%nat])
        else Ok st
    end.

Definition pscan (R : RuleSpec) (a : list (option Pitch)) : result (list (option Pitch) * list nat) :=
  forM (pscan_body R) (seq 0 (length a - length (rPattern R))) (a, []).

Definition result_map {X Y : Type} (f : X -> Y) (r : result X) : result Y :=
  match r with Ok x => Ok (f x) | Raise e => Raise e end.

(** A result with its list of pivots counted. *)
Definition counted (r : result (Stream * list nat)) : result (Stream * nat) :=
  result_map (fun st => (fst st, length (snd st))) r.

(** ** Definitions used to state the properties *)

(** The two slots a ficta can be promoted from. *)
Inductive FictaSlot : Set := CapuaSlot | PmfcSlot.

Definition slotValue (slot : FictaSlot) (n : GeneralNote) : option (option Accidental) :=
  match slot with
  | CapuaSlot => capuaFicta (editorial n)
  | PmfcSlot => pmfcFicta (editorial n)
  end.

Definition promote (slot : FictaSlot) (n : GeneralNote) : GeneralNote :=
  match slot with
  | CapuaSlot => capuaFictaToAccidental n
  | PmfcSlot => pmfcFictaToAccidental n
  end.

Definition bFlatWithFicta : GeneralNote :=
  mkNote (Some (mkPitch Step.B (Some flat) 4))
         (set_pmfcFicta (Some sharp) (set_capuaFicta (Some natural) emptyEditorial))
         None.

Definition pitchOf (s : Step.t) (a : option Accidental) (o : Z) : Pitch := mkPitch s a o.

(** Whether a ficta slot is set, in the words of the specification: the
    slot is null until a ficta is stored in it, and absence is a null, not
    a missing key.  A key that holds None is a slot that is not set. *)
Definition isSet (slot : option (option Accidental)) : bool :=
  match slot with Some (Some _) => true | _ => false end.

(** The tally of one note in the words of the specification: nothing for a
    rest; otherwise one note, counted as altered by the editors when the
    editorial ficta is set, as altered by the rules when the rule ficta is
    set, and in exactly one of the three agreement categories when at least
    one of them is set. *)
Definition noteTally_spec (n : GeneralNote) : Dict :=
  if isRest n then
    [("totalNotes", 0); ("pmfcAlt", 0); ("capuaAlt", 0);
     ("pmfcNotCapua", 0); ("capuaNotPmfc", 0); ("pmfcAndCapua", 0)]
  else
    let pm := isSet (pmfcFicta (editorial n)) in
    let ca := isSet (capuaFicta (editorial n)) in
    [("totalNotes", 1); ("pmfcAlt", Z.b2z pm); ("capuaAlt", Z.b2z ca);
     ("pmfcNotCapua", Z.b2z (pm && negb ca)); ("capuaNotPmfc", Z.b2z (ca && negb pm));
     ("pmfcAndCapua", Z.b2z (pm && ca))].

(** The tally of one note as the code counts it, by the keys present in
    the editorial. *)
Definition noteTally (n : GeneralNote) : Dict :=
  if isRest n then
    [("totalNotes", 0); ("pmfcAlt", 0); ("capuaAlt", 0);
     ("pmfcNotCapua", 0); ("capuaNotPmfc", 0); ("pmfcAndCapua", 0)]
  else
    let pm := hasKey (pmfcFicta (editorial n)) in
    let ca := hasKey (capuaFicta (editorial n)) in
    [("totalNotes", 1); ("pmfcAlt", Z.b2z pm); ("capuaAlt", Z.b2z ca);
     ("pmfcNotCapua", Z.b2z (pm && negb ca)); ("capuaNotPmfc", Z.b2z (ca && negb pm));
     ("pmfcAndCapua", Z.b2z (pm && ca))].

(** No key of the two ficta slots holds None: on such a note the key test
    of the code and the null test of the specification agree. *)
Definition keysHoldFicta (n : GeneralNote) : bool :=
  match pmfcFicta (editorial n), capuaFicta (editorial n) with
  | Some None, _ | _, Some None => false
  | _, _ => true
  end.

(** A tally with the six categories of [compareSrcStreamCapuaToEditor]. *)
Definition tally6 (t : Z * Z * Z * Z * Z * Z) : Dict :=
  let '(a, b, c, d, e, f) := t in
  [("totalNotes", a); ("pmfcAlt", b); ("capuaAlt", c);
   ("pmfcNotCapua", d); ("capuaNotPmfc", e); ("pmfcAndCapua", f)].

Definition add6 (t u : Z * Z * Z * Z * Z * Z) : Z * Z * Z * Z * Z * Z :=
  let '(a, b, c, d, e, f) := t in
  let '(a', b', c', d', e', f') := u in
  (a + a', b + b', c + c', d + d', e + e', f + f').

Definition noteVec (n : GeneralNote) : Z * Z * Z * Z * Z * Z :=
  if isRest n then (0, 0, 0, 0, 0, 0)
  else
    let pm := hasKey (pmfcFicta (editorial n)) in
    let ca := hasKey (capuaFicta (editorial n)) in
    (1, Z.b2z pm, Z.b2z ca, Z.b2z (pm && negb ca), Z.b2z (ca && negb pm), Z.b2z (pm && ca)).

Definition streamVec (s : Stream) : Z * Z * Z * Z * Z * Z :=
  fold_left (fun t n => add6 t (noteVec n)) s (0, 0, 0, 0, 0, 0).

Definition plainNote (s : Step.t) (a : option Accidental) (o : Z) : GeneralNote :=
  mkNote (Some (mkPitch s a o)) emptyEditorial None.

(** A cadence for two voices, E4 D4 over C4 D4: a major third closing on a
    unison. *)
Definition cadenceTwoVoices : Snippet :=
  mkSnippet ["PolyphonicSnippet"; "Score"]
    [mkPart "C" [plainNote Step.E None 4; plainNote Step.D None 4];
     mkPart "T" [plainNote Step.C None 4; plainNote Step.D None 4]].

(** The same cadence with its cantus only. *)
Definition cadenceOneVoice : Snippet :=
  mkSnippet ["PolyphonicSnippet"; "Score"]
    [mkPart "C" [plainNote Step.E None 4; plainNote Step.D None 4]].

(** A corpus of two works: work 2 has no incipit, work 3 has one and a
    cadence with a single voice. *)
Definition skippedCorpus (j : Z) : Work :=
  if j =? 2 then mkWork "no incipit" None [Some cadenceTwoVoices]
  else mkWork "one voice" (Some cadenceOneVoice) [Some cadenceOneVoice].

(** A corpus of one work with an incipit and the cadence for two voices. *)
Definition cadenceCorpus (j : Z) : Work :=
  mkWork "cadence"
    (Some (mkSnippet ["Incipit"; "PolyphonicSnippet"; "Score"] (parts cadenceTwoVoices)))
    [Some (mkSnippet ["Incipit"; "PolyphonicSnippet"; "Score"] (parts cadenceTwoVoices));
     Some cadenceTwoVoices].

(** The stream after a rule has fired on the window at place [i]. *)
Definition fireAt (R : RuleSpec) (i : nat) (s : Stream) : Stream :=
  list_inserts i (rFire R (take (rWidth R) (drop i s))) s.

(** What a rule writes on its pivot, colour included. *)
Definition paintPivot (R : RuleSpec) (n : GeneralNote) : GeneralNote :=
  with_color (if rClears R && noteIsFlat n then rFlatColor R else rPivotColor R)
             (pivotUpdate R n).

(** [applyCapuaToStream] with the list of the pivots each rule matched. *)
Definition applyCapuaTraced (thisStream : NestedStream)
  : result (NestedStream * (list nat * list nat * list nat * list nat)) :=
  let thisStream := clearFicta (saveEditorsFicta thisStream) in
  '(s, h1) ← scan ruleOne (flatNotesAndRests thisStream);
  '(s, h2) ← scan ruleTwo s;
  '(s, h3) ← scan ruleThree s;
  '(s, h4) ← scan ruleFourB s;
  mret (setNotes thisStream s, (h1, h2, h3, h4)).

(** A pitch without its accidental. *)
Definition clearAcc (p : Pitch) : Pitch := mkPitch (step p) None (octave p).

(** The directed size of the generic interval from [p] to [q]. *)
Definition dirOf (p q : Pitch) : Z :=
  convertStaffDistanceToInterval (diatonicNoteNum q - diatonicNoteNum p).

Definition isOk {T : Type} (r : result T) : Prop := exists x, r = Ok x.

(** Two readings of the pitches of one stream: [a], a copy as it was before
    any rule ran, and [a'], the stream after some rules have run on it.
    They differ at place [k] when a rule took a flat off the note there:
    the note then stands between two notes without accidental, a second
    below the next one, and either a second below the one before (rule 1)
    or, when [two] allows, a second above it, which is itself a second
    above its own predecessor (rule 2). *)
Definition BadAt (two : bool) (a a' : list (option Pitch)) (k : nat) : Prop :=
  exists k0 p pm pn,
    k = S k0
    /\ a !! k = Some (Some p) /\ isFlat p = true /\ a' !! k = Some (Some (clearAcc p))
    /\ a !! k0 = Some (Some pm) /\ a' !! k0 = Some (Some pm) /\ accidental pm = None
    /\ a !! S k = Some (Some pn) /\ a' !! S k = Some (Some pn) /\ accidental pn = None
    /\ isOk (notesToInterval pm p) /\ isOk (notesToInterval p pn)
    /\ dirOf p pn = 2
    /\ (forall iv, notesToInterval (clearAcc p) pn = Ok iv -> directedName iv <> "M2")
    /\ (dirOf pm p = -2
        \/ (two = true /\ dirOf pm p = 2
            /\ exists k1 pmm, k0 = S k1
                 /\ a !! k1 = Some (Some pmm) /\ a' !! k1 = Some (Some pmm)
                 /\ accidental pmm = None /\ dirOf pmm pm = 2)).

Definition Sim (two : bool) (a a' : list (option Pitch)) : Prop :=
  length a = length a' /\ forall k, a !! k = a' !! k \/ BadAt two a a' k.

(** What one reading of the pitches shows around a place of difference. *)
Definition GenAt (two : bool) (x : list (option Pitch)) (k : nat) : Prop :=
  exists k0 pk pm pn,
    k = S k0
    /\ x !! k = Some (Some pk) /\ x !! k0 = Some (Some pm) /\ x !! S k = Some (Some pn)
    /\ dirOf pk pn = 2
    /\ (dirOf pm pk = -2
        \/ (two = true /\ dirOf pm pk = 2
            /\ exists k1 pmm, k0 = S k1 /\ x !! k1 = Some (Some pmm) /\ dirOf pmm pm = 2)).

(** A note without its colour. *)
Definition core (n : GeneralNote) : option Pitch * Editorial := (pitch n, editorial n).

(** What a run of a rule has done when it comes to the window at place
    [j]: every note keeps its pitch and its editorial, unless it is one of
    the pivots matched so far, which all lie before the pivot of the window
    and were each written once. *)
Definition Progress (R : RuleSpec) (s : Stream) (j : nat) (x : Stream) (hits : list nat)
  : Prop :=
  length x = length s
  /\ NoDup hits
  /\ (forall k, k ∈ hits -> (k < j + rPivot R)%nat)
  /\ forall k n, s !! k = Some n ->
       exists n', x !! k = Some n'
         /\ core n' = core (if bool_decide (k ∈ hits) then pivotUpdate R n else n).

(** The window at place [i] is one on which rule 1 fires. *)
Definition ruleOneWindow (s : Stream) (i : nat) : Prop :=
  exists n1 n2 n3 p1 p2 p3 i1 i2,
    s !! i = Some n1 /\ s !! (i + 1)%nat = Some n2 /\ s !! (i + 2)%nat = Some n3
    /\ pitch n1 = Some p1 /\ pitch n2 = Some p2 /\ pitch n3 = Some p3
    /\ notesToInterval p1 p2 = Ok i1 /\ directedName i1 = "M-2"
    /\ notesToInterval p2 p3 = Ok i2 /\ directedName i2 = "M2"
    /\ accidental p1 = None /\ accidental p3 = None
    /\ step p2 <> Step.A /\ step p2 <> Step.D.

Definition restNote : GeneralNote := mkNote None emptyEditorial None.

(** A line on which each of the four rules of [applyCapuaToStream] fires:
    C5 Bb4 C5 (rule 1, on a flat) - G4 A4 Bb4 C5 D5 (rule 2, twice)
    - E4 C4 D4 (rule 3) F4 G4 (rule 4B, on the D4 of C4 D4 F4 G4). *)
Definition exampleLine : Stream :=
  [plainNote Step.C None 5; plainNote Step.B (Some flat) 4; plainNote Step.C None 5;
   restNote;
   plainNote Step.G None 4; plainNote Step.A None 4; plainNote Step.B (Some flat) 4;
   plainNote Step.C None 5; plainNote Step.D None 5;
   restNote;
   plainNote Step.E None 4; plainNote Step.C None 4; plainNote Step.D None 4;
   plainNote Step.F None 4; plainNote Step.G None 4].

(** The stream a rule leaves, the empty stream if it raised. *)
Definition streamAfter (r : result (Stream * nat)) : Stream :=
  match r with Ok (t, _) => t | Raise _ => [] end.

Definition exampleAfterOne : Stream := streamAfter (capuaRuleOne exampleLine).
Definition exampleAfterTwo : Stream := streamAfter (capuaRuleTwo exampleAfterOne).
Definition exampleAfterThree : Stream := streamAfter (capuaRuleThree exampleAfterTwo).
Definition exampleAfterFourB : Stream := streamAfter (capuaRuleFourB exampleAfterThree).

(** C5 Bb4 C5: a window on which rule 1 fires, with a flat on its pivot. *)
Definition flatCadence : Stream :=
  [plainNote Step.C None 5; plainNote Step.B (Some flat) 4; plainNote Step.C None 5].

Definition flatCadenceAfter : Stream := streamAfter (capuaRuleOne flatCadence).

(** The constant a rule has added to the note at place [k], given the
    pivots the rule matched. *)
Definition ruleBit (R : RuleSpec) (hits : list nat) (k : nat) : Z :=
  if bool_decide (k ∈ hits) then rNumber R else 0.

(** The sum of the constants the four rules have added at place [k]. *)
Definition provenanceSum (tr : list nat * list nat * list nat * list nat) (k : nat) : Z :=
  let '(h1, h2, h3, h4) := tr in
  ruleBit ruleOne h1 k + ruleBit ruleTwo h2 k + ruleBit ruleThree h3 k + ruleBit ruleFourB h4 k.

(** The same constants OR-ed together. *)
Definition provenanceMask (tr : list nat * list nat * list nat * list nat) (k : nat) : Z :=
  let '(h1, h2, h3, h4) := tr in
  Z.lor (Z.lor (Z.lor (ruleBit ruleOne h1 k) (ruleBit ruleTwo h2 k)) (ruleBit ruleThree h3 k))
        (ruleBit ruleFourB h4 k).

(** Whether some rule matched the note at place [k]. *)
Definition matchedAt (tr : list nat * list nat * list nat * list nat) (k : nat) : bool :=
  let '(h1, h2, h3, h4) := tr in
  bool_decide (k ∈ h1) || bool_decide (k ∈ h2) || bool_decide (k ∈ h3) || bool_decide (k ∈ h4).

(** No note of the stream has a [capuaRuleNumber]. *)
Definition unannotated (s : Stream) : bool :=
  forallb (fun n => match capuaRuleNumber (editorial n) with None => true | Some _ => false end)
          s.

(** D4 F4 G4: a window on which rule 4B fires. *)
Definition thirdLine : Stream :=
  [plainNote Step.D None 4; plainNote Step.F None 4; plainNote Step.G None 4].

(** The notes and rests [applyCapuaToStream] leaves, none if it raised. *)
Definition notesAfter (r : result NestedStream) : Stream :=
  match r with Ok t => flatNotesAndRests t | Raise _ => [] end.

Definition thirdLineAfter : Stream := notesAfter (applyCapuaToStream (flatStream thirdLine)).

Definition exampleLineAfter : Stream :=
  notesAfter (applyCapuaToStream (flatStream exampleLine)).

(** A Part of one Measure that holds the notes of [s]: none of them is an
    element of the Part itself. *)
Definition partOfMeasure (s : Stream) : NestedStream := mkElement false <$> s.

(** G4 F4 G4 - D4 E4 F4 G4 - E4 C4 D4 F4 G4: a line without accidentals
    on which each of the four rules of [applyCapuaToStream] fires once. *)
Definition fourRulesLine : Stream :=
  [plainNote Step.G None 4; plainNote Step.F None 4; plainNote Step.G None 4;
   restNote;
   plainNote Step.D None 4; plainNote Step.E None 4; plainNote Step.F None 4;
   plainNote Step.G None 4;
   restNote;
   plainNote Step.E None 4; plainNote Step.C None 4; plainNote Step.D None 4;
   plainNote Step.F None 4; plainNote Step.G None 4].

Definition fourRulesLineAfter : Stream :=
  notesAfter (applyCapuaToStream (flatStream fourRulesLine)).

(** The pitches of the [w] elements from place [i] on, when they all exist
    and none is a rest. *)
Definition pwindow (a : list (option Pitch)) (i w : nat) : option (list Pitch) :=
  let win := take w (drop i a) in
  if (length win <? w)%nat then None else mapM id win.

(** The semitones of the major or perfect interval of [b] steps. *)
Definition stepSemis (b : Z) : Z := nth (Z.to_nat b) [0; 2; 4; 5; 7; 9; 11] 0.


(** ** Definitions used to state further properties *)

(** No place of the list holds a pitch with an accidental. *)
Definition plainPitches (a : list (option Pitch)) : Prop :=
  forall k p, a !! k = Some (Some p) -> accidental p = None.


(** What rules 1, 2, 3 and 4B write on a pivot that is not flat, and rule
    4A on any pivot, the colour apart. *)
Definition annotate (R : RuleSpec) (n : GeneralNote) : GeneralNote :=
  proposeFicta (rFicta R) (addCapuaRuleNumber (rNumber R) n).

Definition markAt (R : RuleSpec) (hits : list nat) (k : nat) (n : GeneralNote) : GeneralNote :=
  if bool_decide (k ∈ hits) then annotate R n else n.

(** [capuaRuleNumber] after a rule that adds [c] has matched the note, or
    has not. *)
Definition bump (b : bool) (c : Z) (x : option Z) : option Z :=
  if b then Some (default 0 x + c) else x.

(** A note after the two loops that come before the rules in
    [applyCapuaToStream]; [d] tells whether the note is an element of the
    stream itself, which the first loop reaches. *)
Definition preambleNote (d : bool) (n : GeneralNote) : GeneralNote :=
  clearFicta_note (if d then saveEditorsFicta_note n else n).

(** A note that is an element of the stream itself after
    [applyCapuaToStream], the colour apart, given the pivots each rule
    matched. *)
Definition pipelineNote (tr : list nat * list nat * list nat * list nat) (k : nat)
    (n : GeneralNote) : GeneralNote :=
  let '(h1, h2, h3, h4) := tr in
  markAt ruleFourB h4 k (markAt ruleThree h3 k (markAt ruleTwo h2 k
    (markAt ruleOne h1 k (preambleNote true n)))).

(** Every note and rest of the stream is an element of the stream itself:
    a Measure, or the stream that [part.flat.notesAndRests] gives. *)
Definition allDirect (s : NestedStream) : bool := forallb direct s.


(** What a rule leaves on the note at place [k], the colour apart, given
    the pivots it matched. *)
Definition hitAt (R : RuleSpec) (hits : list nat) (k : nat) (n : GeneralNote) : GeneralNote :=
  if bool_decide (k ∈ hits) then pivotUpdate R n else n.

(** Any note after [applyCapuaToStream], the colour apart. *)
Definition tracedNote (tr : list nat * list nat * list nat * list nat) (k : nat)
    (e : Element) : GeneralNote :=
  let '(h1, h2, h3, h4) := tr in
  hitAt ruleFourB h4 k (hitAt ruleThree h3 k (hitAt ruleTwo h2 k
    (hitAt ruleOne h1 k (preambleNote (direct e) (noteOf e))))).

(** What [applyCapuaToStream] has done to the pitch and the savedAccidental
    of a note [n] that is now [m]: nothing, or it took the accidental off
    and saved it. *)
Inductive Kept (n m : GeneralNote) : Prop :=
  | kept_same :
      pitch m = pitch n ->
      savedAccidental (editorial m) = savedAccidental (editorial n) -> Kept n m
  | kept_saved (a : Accidental) :
      pitch_accidental n = Some a ->
      pitch m = clearAcc <$> pitch n ->
      savedAccidental (editorial m) = Some (Some a) -> Kept n m.

(** The note at place [k] is reached from the note before it by the
    interval of directed name [nm]. *)
Definition enteredBy (a : list (option Pitch)) (k : nat) (nm : string) : Prop :=
  exists k0 p q iv,
    k = S k0 /\ a !! k0 = Some (Some p) /\ a !! k = Some (Some q)
    /\ notesToInterval p q = Ok iv /\ directedName iv = nm.

(** No note of the stream has a [savedAccidental]. *)
Definition noSavedAccidental (s : Stream) : bool :=
  forallb (fun n => match savedAccidental (editorial n) with None => true | Some _ => false end)
          s.

(** The number of notes of a stream, rests apart. *)
Definition countNotes (s : Stream) : Z :=
  Z.of_nat (length (List.filter (fun n => negb (isRest n)) s)).

(** The number of notes of a stream that have a [capuaFicta]. *)
Definition countCapua (s : Stream) : Z :=
  Z.of_nat (length (List.filter
                      (fun n => negb (isRest n) && hasKey (capuaFicta (editorial n))) s)).



(** At most one of the four rules matched the note at place [k]. *)
Definition exclusive (tr : list nat * list nat * list nat * list nat) (k : nat) : Prop :=
  let '(h1, h2, h3, h4) := tr in
  match bool_decide (k ∈ h1), bool_decide (k ∈ h2), bool_decide (k ∈ h3),
        bool_decide (k ∈ h4) with
  | true, false, false, false | false, true, false, false
  | false, false, true, false | false, false, false, true
  | false, false, false, false => True
  | _, _, _, _ => False
  end.

(** One of the five rules has run on [s], left [s'] and returned [c]. *)
Definition ruleRun (s s' : Stream) (c : nat) : Prop :=
  capuaRuleOne s = Ok (s', c) \/ capuaRuleTwo s = Ok (s', c)
  \/ capuaRuleThree s = Ok (s', c) \/ capuaRuleFourA s = Ok (s', c)
  \/ capuaRuleFourB s = Ok (s', c).

(** The number of notes of a stream that have a [capuaRuleNumber]. *)
Definition countAnnotated (s : Stream) : nat :=
  length (List.filter (fun n => hasKey (capuaRuleNumber (editorial n))) s).

(** The elements at places [i], [i+1], [i+2] are three notes without
    accidentals, the second neither on A nor on D, and the directed names
    of their two intervals are [nm1] and [nm2]: the windows on which rule 3
    (M-3, M2) and rule 4A (m-3, M-2) fire. *)
Definition plainWindow3 (s : Stream) (i : nat) (nm1 nm2 : string) : Prop :=
  exists n1 n2 n3 p1 p2 p3 i1 i2,
    s !! i = Some n1 /\ s !! S i = Some n2 /\ s !! S (S i) = Some n3
    /\ pitch n1 = Some p1 /\ pitch n2 = Some p2 /\ pitch n3 = Some p3
    /\ notesToInterval p1 p2 = Ok i1 /\ directedName i1 = nm1
    /\ notesToInterval p2 p3 = Ok i2 /\ directedName i2 = nm2
    /\ accidental p1 = None /\ accidental p2 = None /\ accidental p3 = None
    /\ step p2 <> Step.A /\ step p2 <> Step.D.

(** Notes and rests in turn: no three elements in a row are notes. *)
Definition brokenLine : Stream :=
  [plainNote Step.G None 4; restNote; plainNote Step.F None 4; plainNote Step.G None 4;
   restNote].

(** B4 G4 A4 D5 B4 A4: rule 3 fires on the first three notes (a major
    third down, a major second up), rule 4A on the last three (a minor
    third down, a major second down). *)
Definition thirdsLine : Stream :=
  [plainNote Step.B None 4; plainNote Step.G None 4; plainNote Step.A None 4;
   plainNote Step.D None 5; plainNote Step.B None 4; plainNote Step.A None 4].

Definition exampleAfterTwoAlone : Stream := streamAfter (capuaRuleTwo exampleLine).
Definition thirdsAfterThree : Stream := streamAfter (capuaRuleThree thirdsLine).
Definition thirdsAfterFourA : Stream := streamAfter (capuaRuleFourA thirdsLine).

(** F4 with a sharp as the editors' ficta. *)
Definition editedNote : GeneralNote :=
  mkNote (Some (mkPitch Step.F None 4)) (set_ficta (Some sharp) emptyEditorial) None.

(** Bb4 with a natural as its ficta. *)
Definition bFlatFicta : GeneralNote :=
  mkNote (Some (mkPitch Step.B (Some flat) 4)) (set_ficta (Some natural) emptyEditorial) None.

(** F4 with a sharp as its capuaFicta, as a rule leaves it. *)
Definition fWithCapua : GeneralNote :=
  mkNote (Some (mkPitch Step.F None 4))
         (set_capuaFicta (Some sharp) (set_ficta (Some sharp) emptyEditorial)) None.

(** The tenth from C4 to E5. *)
Definition tenthLow : Pitch := mkPitch Step.C None 4.
Definition tenthHigh : Pitch := mkPitch Step.E None 5.

(** The totals of [findCorrections] when they start. *)
Definition zeroTotals : Dict :=
  [("totalNotes", 0); ("pmfcAlt", 0); ("capuaAlt", 0); ("pmfcNotCapua", 0);
   ("capuaNotPmfc", 0); ("pmfcAndCapua", 0); ("potentialChange", 0)].

(** Totals in which every note counted is a potential change altered by
    the editors: [n] notes, [c] of them altered by the rules as well. *)
Definition totalsOf (n c d : Z) : Dict :=
  [("totalNotes", n); ("pmfcAlt", n); ("capuaAlt", c); ("pmfcNotCapua", d);
   ("capuaNotPmfc", 0); ("pmfcAndCapua", c); ("potentialChange", n)].

Definition goodTotals (t : Dict) : Prop :=
  exists n c d, t = totalsOf n c d /\ d = n - c /\ 0 <= c <= n.

(** Notes, no rest among them, that all have a pmfcFicta. *)
Definition goodNotes (x : Stream) : Prop :=
  Forall (fun n => isRest n = false /\ hasKey (pmfcFicta (editorial n)) = true) x.

(** The snippets [findCorrections] and [improvedHarmony] work on. *)
Definition eligible (sn : option Snippet) : bool :=
  match sn with
  | Some sn => negb (inList "Incipit" (classes sn)) && negb (length (parts sn) <? 2)%nat
  | None => false
  end.

(** The places of the eligible snippets of a list, counted from [k]. *)
Fixpoint eligiblePlaces (j : Z) (k : nat) (sns : list (option Snippet)) : list (Z * nat) :=
  match sns with
  | [] => []
  | sn :: sns' =>
      (if eligible sn then [(j, k)] else []) ++ eligiblePlaces j (S k) sns'
  end.

(** The snippets worked on in the work of number [j]. *)
Definition workPlaces (makeWork : Z -> Work) (j : Z) : list (Z * nat) :=
  match incipit (makeWork j) with
  | None => []
  | Some _ => eligiblePlaces j 0 (snippets (makeWork j))
  end.

(** A cadence for two voices in which a minor third closes on a unison:
    E4 D4 over C#4 D4. *)
Definition minorThirdCadence : Snippet :=
  mkSnippet ["PolyphonicSnippet"; "Score"]
    [mkPart "C" [plainNote Step.E None 4; plainNote Step.D None 4];
     mkPart "T" [plainNote Step.C (Some sharp) 4; plainNote Step.D None 4]].

(** A corpus of one work with an incipit, a missing snippet and that
    cadence. *)
Definition thirdCorpus (j : Z) : Work :=
  mkWork "minor third"
    (Some (mkSnippet ["Incipit"; "PolyphonicSnippet"; "Score"] (parts minorThirdCadence)))
    [Some (mkSnippet ["Incipit"; "PolyphonicSnippet"; "Score"] (parts minorThirdCadence));
     None; Some minorThirdCadence].

Definition cadenceRun : list (string * Z) * list (Z * nat) :=
  match findCorrections thirdCorpus attachAligned "Maj3" 2 3 with
  | Ok r => r
  | Raise _ => ([], [])
  end.

(** Every snippet worked on in the work has a part C and a part T. *)
Definition hasBothVoices (w : Work) : Prop :=
  forall sn, In (Some sn) (snippets w) -> eligible (Some sn) = true ->
    isOk (getPart "C" (parts sn)) /\ isOk (getPart "T" (parts sn)).

(** The window at place [i] is one on which rule 4B fires: three notes,
    the outer ones without accidental, a minor third up then a major
    second up, the second note neither on A nor on D. *)
Definition ruleFourBWindow (s : Stream) (i : nat) : Prop :=
  exists n1 n2 n3 p1 p2 p3 i1 i2,
    s !! i = Some n1 /\ s !! (i + 1)%nat = Some n2 /\ s !! (i + 2)%nat = Some n3
    /\ pitch n1 = Some p1 /\ pitch n2 = Some p2 /\ pitch n3 = Some p3
    /\ notesToInterval p1 p2 = Ok i1 /\ directedName i1 = "m3"
    /\ notesToInterval p2 p3 = Ok i2 /\ directedName i2 = "M2"
    /\ accidental p1 = None /\ accidental p3 = None
    /\ step p2 <> Step.A /\ step p2 <> Step.D.

(** The window at place [i] is one on which rule 2 fires: four notes, the
    first, second and fourth without accidental, going up a major second,
    a minor second and a major second, the third note neither on A nor on
    D. *)
Definition ruleTwoWindow (s : Stream) (i : nat) : Prop :=
  exists n1 n2 n3 n4 p1 p2 p3 p4 i1 i2 i3,
    s !! i = Some n1 /\ s !! (i + 1)%nat = Some n2 /\ s !! (i + 2)%nat = Some n3
    /\ s !! (i + 3)%nat = Some n4
    /\ pitch n1 = Some p1 /\ pitch n2 = Some p2 /\ pitch n3 = Some p3 /\ pitch n4 = Some p4
    /\ notesToInterval p1 p2 = Ok i1 /\ directedName i1 = "M2"
    /\ notesToInterval p2 p3 = Ok i2 /\ directedName i2 = "m2"
    /\ notesToInterval p3 p4 = Ok i3 /\ directedName i3 = "M2"
    /\ accidental p1 = None /\ accidental p2 = None /\ accidental p4 = None
    /\ step p3 <> Step.A /\ step p3 <> Step.D.

(** G4 A4 Bb4 C5: a window on which rule 2 fires, with a flat on its
    pivot. *)
Definition risingLine : Stream :=
  [plainNote Step.G None 4; plainNote Step.A None 4; plainNote Step.B (Some flat) 4;
   plainNote Step.C None 5].
Definition risingLineAfter : Stream := streamAfter (capuaRuleTwo risingLine).
Definition thirdLineAfterFourB : Stream := streamAfter (capuaRuleFourB thirdLine).

Definition fourRulesLineTwice : Stream :=
  notesAfter (applyCapuaToStream (flatStream fourRulesLineAfter)).

(** A Part of one Measure with G4 Bb4 C5, a window on which rule 4B fires
    with a flat on its pivot. *)
Definition flatThird : Stream :=
  [plainNote Step.G None 4; plainNote Step.B (Some flat) 4; plainNote Step.C None 5].
Definition flatThirdPartAfter : Stream :=
  notesAfter (applyCapuaToStream (partOfMeasure flatThird)).

(** * The rule functions and their common loop *)

Lemma lookup_as_drop {T : Type} (s : list T) (i k : nat) :
  s !! (i + k)%nat = drop i s !! k.
Proof. symmetry. apply lookup_drop. Qed.

Lemma lookup_as_drop0 {T : Type} (s : list T) (i : nat) : s !! i = drop i s !! 0%nat.
Proof. rewrite lookup_drop. f_equal. lia. Qed.

Lemma inserts3 {T : Type} (s : list T) (i : nat) (a b c : T) :
  <[(i + 2)%nat := c]> (<[(i + 1)%nat := b]> (<[i := a]> s)) = list_inserts i [a; b; c] s.
Proof.
  simpl. replace (i + 2)%nat with (S (S i)) by lia. replace (i + 1)%nat with (S i) by lia.
  rewrite (list_insert_insert_ne _ (S (S i)) (S i)) by lia.
  rewrite (list_insert_insert_ne _ (S (S i)) i) by lia.
  rewrite (list_insert_insert_ne _ (S i) i) by lia.
  reflexivity.
Qed.

Lemma inserts4 {T : Type} (s : list T) (i : nat) (a b c d : T) :
  <[(i + 3)%nat := d]> (<[(i + 2)%nat := c]> (<[(i + 1)%nat := b]> (<[i := a]> s)))
  = list_inserts i [a; b; c; d] s.
Proof.
  rewrite inserts3. simpl. replace (i + 3)%nat with (S (S (S i))) by lia.
  rewrite (list_insert_insert_ne _ (S (S (S i))) i) by lia.
  rewrite (list_insert_insert_ne _ (S (S (S i))) (S i)) by lia.
  rewrite (list_insert_insert_ne _ (S (S (S i))) (S (S i))) by lia.
  reflexivity.
Qed.

Lemma names2_decide (a b x y : string) :
  bool_decide ([a; b] = [x; y]) = String.eqb a x && String.eqb b y.
Proof.
  destruct (String.eqb_spec a x), (String.eqb_spec b y); simpl;
    try (apply bool_decide_eq_false_2; congruence).
  apply bool_decide_eq_true_2; congruence.
Qed.

Lemma names3_decide (a b c x y z : string) :
  bool_decide ([a; b; c] = [x; y; z]) = String.eqb a x && String.eqb b y && String.eqb c z.
Proof.
  destruct (String.eqb_spec a x), (String.eqb_spec b y), (String.eqb_spec c z); simpl;
    try (apply bool_decide_eq_false_2; congruence).
  apply bool_decide_eq_true_2; congruence.
Qed.

(** The end of the proof that a rule function is [scan] at its constants:
    the cases of the tests, then the two writings of the stream. *)
Ltac finish_body_scan R Hpiv :=
  cbn [mbind result_bind]; unfold ruleCheck;
  cbn [R rPlain rPivot rPattern rClears rFicta rNumber rOuterColor rFlatColor rPivotColor];
  rewrite ?names2_decide, ?names3_decide;
  cbn [forallb plainAt pivotStepOk lookup list_lookup];
  repeat match goal with
  | |- context [hasAccidental ?p] => destruct (hasAccidental p); try reflexivity
  end;
  cbn [negb andb orb];
  repeat match goal with
  | |- context [stepIs ?p ?x] => destruct (stepIs p x); try reflexivity
  end;
  cbn [negb andb orb];
  repeat match goal with
  | |- context [String.eqb (directedName ?x) ?y] =>
      destruct (String.eqb (directedName x) y); try reflexivity
  end;
  cbn [andb result_map fst snd]; rewrite length_app, ?inserts4, ?inserts3;
  unfold rFire;
  cbn [imap Nat.eqb R rPivot rClears rFicta rNumber rOuterColor rFlatColor rPivotColor
       compose];
  unfold pivotUpdate, noteIsFlat; rewrite Hpiv;
  cbn [R rClears rFicta rNumber rOuterColor rFlatColor rPivotColor andb];
  try match goal with |- context [isFlat ?p] => destruct (isFlat p) end;
  reflexivity.

Ltac body_scan3 R s i :=
  unfold scan_body, counted; change (rWidth R) with 3%nat;
  cbv beta iota zeta;
  rewrite (lookup_as_drop s i 1), (lookup_as_drop s i 2), (lookup_as_drop0 s i);
  destruct (drop i s) as [|n1 [|n2 [|n3 l]]]; try reflexivity;
  cbn [take firstn lookup list_lookup length Nat.ltb Nat.leb];
  change (take 0 l) with (@nil GeneralNote); cbn [mapM];
  destruct (pitch n1) as [p1|] eqn:H1, (pitch n2) as [p2|] eqn:H2,
    (pitch n3) as [p3|] eqn:H3; try reflexivity;
  cbn [mbind option_bind mret option_ret];
  unfold rTest; cbn [windowNames];
  destruct (notesToInterval p1 p2) as [i1|]; [|reflexivity];
  destruct (notesToInterval p2 p3) as [i2|]; [|reflexivity];
  finish_body_scan R H2.

Lemma capuaRuleOne_body_scan (i : nat) (s : Stream) (h : list nat) :
  capuaRuleOne_body i (s, length h) = counted (scan_body ruleOne i (s, h)).
Proof. unfold capuaRuleOne_body. body_scan3 ruleOne s i. Qed.

Lemma capuaRuleThree_body_scan (i : nat) (s : Stream) (h : list nat) :
  capuaRuleThree_body i (s, length h) = counted (scan_body ruleThree i (s, h)).
Proof. unfold capuaRuleThree_body. body_scan3 ruleThree s i. Qed.

Lemma capuaRuleFourA_body_scan (i : nat) (s : Stream) (h : list nat) :
  capuaRuleFourA_body i (s, length h) = counted (scan_body ruleFourA i (s, h)).
Proof. unfold capuaRuleFourA_body. body_scan3 ruleFourA s i. Qed.

Lemma capuaRuleFourB_body_scan (i : nat) (s : Stream) (h : list nat) :
  capuaRuleFourB_body i (s, length h) = counted (scan_body ruleFourB i (s, h)).
Proof. unfold capuaRuleFourB_body. body_scan3 ruleFourB s i. Qed.

Lemma capuaRuleTwo_body_scan (i : nat) (s : Stream) (h : list nat) :
  capuaRuleTwo_body i (s, length h) = counted (scan_body ruleTwo i (s, h)).
Proof.
  unfold capuaRuleTwo_body, scan_body, counted. change (rWidth ruleTwo) with 4%nat.
  cbv beta iota zeta.
  rewrite (lookup_as_drop s i 1), (lookup_as_drop s i 2), (lookup_as_drop s i 3),
    (lookup_as_drop0 s i).
  destruct (drop i s) as [|n1 [|n2 [|n3 [|n4 l]]]]; try reflexivity.
  cbn [take firstn lookup list_lookup length Nat.ltb Nat.leb].
  change (take 0 l) with (@nil GeneralNote). cbn [mapM].
  destruct (pitch n1) as [p1|] eqn:H1, (pitch n2) as [p2|] eqn:H2,
    (pitch n3) as [p3|] eqn:H3, (pitch n4) as [p4|] eqn:H4; try reflexivity.
  cbn [mbind option_bind mret option_ret].
  unfold rTest. cbn [windowNames].
  destruct (notesToInterval p1 p2) as [i1|]; [|reflexivity].
  destruct (notesToInterval p2 p3) as [i2|]; [|reflexivity].
  destruct (notesToInterval p3 p4) as [i3|]; [|reflexivity].
  finish_body_scan ruleTwo H3.
Qed.

(** A loop of a rule function and the loop of [scan] run in step. *)
Lemma forM_counted (R : RuleSpec) (body : nat -> Stream * nat -> result (Stream * nat)) :
  (forall i s h, body i (s, length h) = counted (scan_body R i (s, h))) ->
  forall (l : list nat) s h,
    forM body l (s, length h) = counted (forM (scan_body R) l (s, h)).
Proof.
  intros Hb l. induction l as [|i l IH]; intros s h; [reflexivity|].
  cbn [forM]. rewrite Hb. destruct (scan_body R i (s, h)) as [[s' h']|e]; [|reflexivity].
  cbn [counted result_map fst snd]. apply IH.
Qed.

Lemma capuaRuleOne_scan (s : Stream) : capuaRuleOne s = counted (scan ruleOne s).
Proof. exact (forM_counted ruleOne _ capuaRuleOne_body_scan _ s []). Qed.

Lemma capuaRuleTwo_scan (s : Stream) : capuaRuleTwo s = counted (scan ruleTwo s).
Proof. exact (forM_counted ruleTwo _ capuaRuleTwo_body_scan _ s []). Qed.

Lemma capuaRuleThree_scan (s : Stream) : capuaRuleThree s = counted (scan ruleThree s).
Proof. exact (forM_counted ruleThree _ capuaRuleThree_body_scan _ s []). Qed.

Lemma capuaRuleFourA_scan (s : Stream) : capuaRuleFourA s = counted (scan ruleFourA s).
Proof. exact (forM_counted ruleFourA _ capuaRuleFourA_body_scan _ s []). Qed.

Lemma capuaRuleFourB_scan (s : Stream) : capuaRuleFourB s = counted (scan ruleFourB s).
Proof. exact (forM_counted ruleFourB _ capuaRuleFourB_body_scan _ s []). Qed.

(** ** Loops *)

Lemma forM_app {S X : Type} (body : X -> S -> result S) (l1 l2 : list X) (st : S) :
  forM body (l1 ++ l2) st
  = match forM body l1 st with Ok st' => forM body l2 st' | Raise e => Raise e end.
Proof.
  revert st. induction l1 as [|x l1 IH]; intros st; [reflexivity|].
  cbn [forM app]. destruct (body x st); [apply IH|reflexivity].
Qed.

(** Invariants of a loop over [range(a, a + n)]. *)
Lemma forM_seq_ind {S : Type} (body : nat -> S -> result S) (P : nat -> S -> Prop)
    (n a : nat) (st st' : S) :
  forM body (seq a n) st = Ok st' ->
  P a st ->
  (forall i x y, (a <= i < a + n)%nat -> P i x -> body i x = Ok y -> P (Datatypes.S i) y) ->
  P (a + n)%nat st'.
Proof.
  revert a st. induction n as [|n IH]; intros a st Hrun H0 Hstep.
  - cbn in Hrun. injection Hrun as <-. replace (a + 0)%nat with a by lia. exact H0.
  - cbn [seq forM] in Hrun. destruct (body a st) as [st1|e] eqn:Hb; [|discriminate].
    replace (a + Datatypes.S n)%nat with (Datatypes.S a + n)%nat by lia.
    apply (IH (Datatypes.S a) st1 Hrun).
    + apply (Hstep a st st1); [lia|exact H0|exact Hb].
    + intros i x y Hi. apply Hstep. lia.
Qed.

(** Two loops that run in step: the second returns whenever the first does. *)
Lemma forM_simulation {S T : Type} (body1 : nat -> S -> result S)
    (body2 : nat -> T -> result T) (Rel : S -> T -> Prop) (l : list nat) :
  (forall i x x' y, Rel x y -> body1 i x = Ok x' ->
     exists y', body2 i y = Ok y' /\ Rel x' y') ->
  forall x x' y, Rel x y -> forM body1 l x = Ok x' ->
    exists y', forM body2 l y = Ok y' /\ Rel x' y'.
Proof.
  intros Hstep. induction l as [|i l IH]; intros x x' y HR Hrun.
  - cbn in *. injection Hrun as <-. eauto.
  - cbn [forM] in *. destruct (body1 i x) as [x1|e] eqn:Hb; [|discriminate].
    destruct (Hstep i x x1 y HR Hb) as (y1 & Hb2 & HR1). rewrite Hb2.
    eapply IH; eauto.
Qed.

(** ** Windows *)

Lemma mapM_id_fmap {X Y : Type} (f : X -> option Y) (l : list X) :
  mapM id (f <$> l) = mapM f l.
Proof.
  induction l as [|x l IH]; [reflexivity|].
  change (f <$> x :: l) with (f x :: (f <$> l)). cbn [mapM]. rewrite IH. reflexivity.
Qed.

Lemma pwindow_fmap (s : Stream) (i w : nat) :
  pwindow (pitch <$> s) i w
  = (let win := take w (drop i s) in
     if (length win <? w)%nat then None else mapM pitch win).
Proof.
  unfold pwindow. cbv zeta. rewrite <- fmap_drop, <- fmap_take, length_fmap.
  rewrite mapM_id_fmap. reflexivity.
Qed.

Lemma mapM_id_lookup (l : list (option Pitch)) (ps : list Pitch) :
  mapM id l = Some ps <-> l = Some <$> ps.
Proof.
  rewrite mapM_Some. split.
  - intros H. induction H as [|x p l ps Hx _ IH]; [reflexivity|].
    unfold id in Hx. subst x. rewrite IH. reflexivity.
  - intros ->. induction ps as [|p ps IH]; constructor; [reflexivity|exact IH].
Qed.

Lemma pwindow_Some (a : list (option Pitch)) (i w : nat) (ps : list Pitch) :
  pwindow a i w = Some ps <->
  length ps = w /\ forall t, (t < w)%nat -> a !! (i + t)%nat = Some <$> (ps !! t).
Proof.
  unfold pwindow. cbv zeta. destruct (Nat.ltb_spec (length (take w (drop i a))) w) as [Hl|Hl].
  - split; [discriminate|]. intros [Hlen Hall]. exfalso.
    rewrite length_take, length_drop in Hl.
    assert (Hw : (0 < w)%nat) by lia.
    specialize (Hall (w - 1)%nat ltac:(lia)).
    assert (Hs : is_Some (a !! (i + (w - 1))%nat)).
    { rewrite Hall. destruct (lookup_lt_is_Some_2 ps (w - 1)%nat ltac:(lia)) as [p Hp].
      rewrite Hp. cbn. eauto. }
    apply lookup_lt_is_Some_1 in Hs. lia.
  - rewrite mapM_id_lookup. rewrite length_take, length_drop in Hl. split.
    + intros Heq. split.
      * apply (f_equal length) in Heq. rewrite length_take, length_drop, length_fmap in Heq.
        lia.
      * intros t Ht. rewrite <- list_lookup_fmap, <- Heq.
        rewrite lookup_take_lt by exact Ht. symmetry. apply lookup_drop.
    + intros [Hlen Hall]. apply list_eq. intros t.
      destruct (Nat.lt_ge_cases t w) as [Ht|Ht].
      * rewrite lookup_take_lt by exact Ht. rewrite lookup_drop, list_lookup_fmap.
        apply Hall. exact Ht.
      * rewrite lookup_take_ge by exact Ht. symmetry. apply lookup_ge_None.
        rewrite length_fmap. lia.
Qed.

Lemma pwindow_None_skip (a b : list (option Pitch)) (i w : nat) :
  (forall t, (t < w)%nat -> is_Some <$> (a !! (i + t)%nat) = is_Some <$> (b !! (i + t)%nat)
                            /\ (forall x y, a !! (i + t)%nat = Some x -> b !! (i + t)%nat = Some y ->
                                            (is_Some x <-> is_Some y))) ->
  pwindow a i w = None -> pwindow b i w = None.
Proof.
  intros Hsame Ha. destruct (pwindow b i w) as [ps|] eqn:Hb; [|reflexivity]. exfalso.
  apply pwindow_Some in Hb. destruct Hb as [Hlen Hall].
  assert (Hex : forall t, (t < w)%nat -> exists p, a !! (i + t)%nat = Some (Some p)).
  { intros t Ht. destruct (Hsame t Ht) as [_ H2]. specialize (Hall t Ht).
    destruct (lookup_lt_is_Some_2 ps t ltac:(lia)) as [q Hq]. rewrite Hq in Hall. cbn in Hall.
    destruct (Hsame t Ht) as [H1 _]. rewrite Hall in H1. cbn in H1.
    destruct (a !! (i + t)%nat) as [x|] eqn:Hx; [|discriminate].
    destruct (H2 x (Some q) eq_refl Hall) as [_ Hs]. destruct Hs as [p ->]; eauto. }
  assert (Hwin : exists qs, pwindow a i w = Some qs).
  { clear Ha Hall Hlen Hsame. revert i Hex. induction w as [|w IH]; intros i Hex.
    - exists []. apply pwindow_Some. split; [reflexivity|]. intros t Ht. lia.
    - destruct (Hex 0%nat ltac:(lia)) as [p0 Hp0].
      destruct (IH (Datatypes.S i)) as [qs Hqs].
      { intros t Ht. destruct (Hex (Datatypes.S t) ltac:(lia)) as [p Hp]. exists p.
        rewrite <- Hp. f_equal. lia. }
      exists (p0 :: qs). apply pwindow_Some in Hqs. destruct Hqs as [Hl Hq].
      apply pwindow_Some. split; [cbn; lia|]. intros [|t] Ht.
      + rewrite Hp0. reflexivity.
      + cbn. rewrite <- Hq by lia. f_equal. lia. }
  destruct Hwin as [qs Hqs]. congruence.
Qed.

(** ** One turn of the loop *)

Lemma scan_body_unfold (R : RuleSpec) (i : nat) (s : Stream) (h : list nat) :
  scan_body R i (s, h)
  = match pwindow (pitch <$> s) i (rWidth R) with
    | None => Ok (s, h)
    | Some ps =>
        rTest R ps ≫= fun b : bool =>
        if b then Ok (fireAt R i s, h ++ [(i + rPivot R)%nat]) else Ok (s, h)
    end.
Proof.
  unfold scan_body. rewrite pwindow_fmap. cbv zeta.
  destruct (length (take (rWidth R) (drop i s)) <? rWidth R)%nat; reflexivity.
Qed.

Lemma pscan_body_unfold (R : RuleSpec) (i : nat) (a : list (option Pitch)) (h : list nat) :
  pscan_body R i (a, h)
  = match pwindow a i (rWidth R) with
    | None => Ok (a, h)
    | Some ps =>
        rTest R ps ≫= fun b : bool =>
        if b then Ok (alter (fmap (pivotPitch R)) (i + rPivot R)%nat a,
                      h ++ [(i + rPivot R)%nat])
        else Ok (a, h)
    end.
Proof.
  unfold pscan_body, pwindow. cbv zeta.
  destruct (length (take (rWidth R) (drop i a)) <? rWidth R)%nat; reflexivity.
Qed.

Lemma pwindow_complete (a : list (option Pitch)) (i w : nat) (ps : list Pitch) :
  (0 < w)%nat -> pwindow a i w = Some ps -> (i + w <= length a)%nat.
Proof.
  intros Hw. unfold pwindow. cbv zeta.
  destruct (Nat.ltb_spec (length (take w (drop i a))) w) as [Hl|Hl]; [discriminate|].
  intros _. rewrite length_take, length_drop in Hl. lia.
Qed.

Lemma rWidth_pos (R : RuleSpec) : (0 < rWidth R)%nat.
Proof. unfold rWidth. lia. Qed.

(** What a firing rule leaves at each place of the stream. *)
Lemma fireAt_lookup (R : RuleSpec) (i : nat) (s : Stream) (k : nat) :
  (rPivot R < rWidth R)%nat -> (i + rWidth R <= length s)%nat ->
  fireAt R i s !! k
  = if decide (k = (i + rPivot R)%nat) then paintPivot R <$> s !! k
    else if decide (i <= k < i + rWidth R)%nat then with_color (rOuterColor R) <$> s !! k
    else s !! k.
Proof.
  intros Hpv Hlen. unfold fireAt.
  assert (Hw : length (rFire R (take (rWidth R) (drop i s))) = rWidth R).
  { unfold rFire. rewrite length_imap, length_take, length_drop. lia. }
  destruct (decide (i <= k < i + rWidth R)%nat) as [Hin|Hout].
  - rewrite list_lookup_inserts by (rewrite ?Hw; lia).
    unfold rFire. rewrite list_lookup_imap, lookup_take_lt by lia.
    rewrite lookup_drop. replace (i + (k - i))%nat with k by lia.
    destruct (decide (k = (i + rPivot R)%nat)) as [->|Hne].
    + replace (i + rPivot R - i)%nat with (rPivot R) by lia. rewrite Nat.eqb_refl.
      reflexivity.
    + destruct (Nat.eqb_spec (k - i) (rPivot R)) as [He|_]; [lia|reflexivity].
  - destruct (decide (k = (i + rPivot R)%nat)) as [->|Hne]; [lia|].
    destruct (Nat.lt_ge_cases k i).
    + apply list_lookup_inserts_lt. lia.
    + apply list_lookup_inserts_ge. rewrite Hw. lia.
Qed.

Lemma fireAt_length (R : RuleSpec) (i : nat) (s : Stream) :
  length (fireAt R i s) = length s.
Proof. unfold fireAt. apply length_inserts. Qed.

Lemma pitch_pivotUpdate (R : RuleSpec) (n : GeneralNote) :
  pitch (pivotUpdate R n) = pivotPitch R <$> pitch n.
Proof.
  unfold pivotUpdate, noteIsFlat, pivotPitch, addCapuaRuleNumber.
  destruct (pitch n) as [p|] eqn:Hp; cbn.
  - destruct (rClears R), (isFlat p); cbn; destruct (capuaRuleNumber (editorial n));
      cbn; rewrite ?Hp; reflexivity.
  - rewrite andb_false_r. destruct (capuaRuleNumber (editorial n)); cbn; rewrite ?Hp;
      reflexivity.
Qed.

Lemma pitch_paintPivot (R : RuleSpec) (n : GeneralNote) :
  pitch (paintPivot R n) = pivotPitch R <$> pitch n.
Proof. unfold paintPivot. cbn. apply pitch_pivotUpdate. Qed.

Lemma fireAt_pitches (R : RuleSpec) (i : nat) (s : Stream) :
  (rPivot R < rWidth R)%nat -> (i + rWidth R <= length s)%nat ->
  pitch <$> fireAt R i s = alter (fmap (pivotPitch R)) (i + rPivot R)%nat (pitch <$> s).
Proof.
  intros Hpv Hlen. apply list_eq. intros k.
  rewrite list_lookup_fmap, fireAt_lookup by assumption.
  rewrite list_lookup_alter, list_lookup_fmap.
  destruct (decide (k = (i + rPivot R)%nat)) as [->|Hne].
  - rewrite decide_True by reflexivity. rewrite ?list_lookup_fmap.
    destruct (s !! (i + rPivot R)%nat) as [n|]; [|reflexivity].
    change (Some (pitch (paintPivot R n)) = Some (pivotPitch R <$> pitch n)).
    rewrite pitch_paintPivot. reflexivity.
  - rewrite (decide_False (P := (i + rPivot R)%nat = k)) by lia.
    rewrite ?list_lookup_fmap.
    destruct (decide (i <= k < i + rWidth R)%nat); [|reflexivity].
    destruct (s !! k); reflexivity.
Qed.

(** The loop on the stream and the loop on its pitches go together. *)
Lemma scan_body_pitches (R : RuleSpec) (i : nat) (s s' : Stream) (h h' : list nat) :
  (rPivot R < rWidth R)%nat ->
  scan_body R i (s, h) = Ok (s', h') ->
  pscan_body R i (pitch <$> s, h) = Ok (pitch <$> s', h').
Proof.
  intros Hpv. rewrite scan_body_unfold, pscan_body_unfold.
  destruct (pwindow (pitch <$> s) i (rWidth R)) as [ps|] eqn:Hw.
  - apply pwindow_complete in Hw; [|apply rWidth_pos]. rewrite length_fmap in Hw.
    destruct (rTest R ps) as [[|]|e]; cbn [mbind result_bind]; try discriminate.
    + intros [= <- <-]. rewrite fireAt_pitches by assumption. reflexivity.
    + intros [= <- <-]. reflexivity.
  - intros [= <- <-]. reflexivity.
Qed.

Lemma pscan_body_lift (R : RuleSpec) (i : nat) (s : Stream) (a' : list (option Pitch))
    (h h' : list nat) :
  (rPivot R < rWidth R)%nat ->
  pscan_body R i (pitch <$> s, h) = Ok (a', h') ->
  exists s', scan_body R i (s, h) = Ok (s', h') /\ pitch <$> s' = a'.
Proof.
  intros Hpv. rewrite scan_body_unfold, pscan_body_unfold.
  destruct (pwindow (pitch <$> s) i (rWidth R)) as [ps|] eqn:Hw.
  - apply pwindow_complete in Hw; [|apply rWidth_pos]. rewrite length_fmap in Hw.
    destruct (rTest R ps) as [[|]|e]; cbn [mbind result_bind]; try discriminate.
    + intros [= <- <-]. eexists. split; [reflexivity|]. apply fireAt_pitches; assumption.
    + intros [= <- <-]. eauto.
  - intros [= <- <-]. eauto.
Qed.

Lemma scan_pitches (R : RuleSpec) (s s' : Stream) (h : list nat) :
  (rPivot R < rWidth R)%nat ->
  scan R s = Ok (s', h) -> pscan R (pitch <$> s) = Ok (pitch <$> s', h).
Proof.
  intros Hpv Hrun. unfold scan in Hrun. unfold pscan. rewrite length_fmap.
  destruct (forM_simulation (scan_body R) (pscan_body R)
              (fun x y => y = (pitch <$> fst x, snd x))
              (seq 0 (length s - length (rPattern R)))) with
    (x := (s, @nil nat)) (x' := (s', h)) (y := (pitch <$> s, @nil nat))
    as (y' & Hy & ->); [|reflexivity|exact Hrun|exact Hy].
  intros j [x hx] [x' hx'] y -> Hb. cbn [fst snd]. eexists. split; [|reflexivity].
  apply scan_body_pitches; assumption.
Qed.

Lemma pscan_lift (R : RuleSpec) (s : Stream) (a' : list (option Pitch)) (h : list nat) :
  (rPivot R < rWidth R)%nat ->
  pscan R (pitch <$> s) = Ok (a', h) ->
  exists s', scan R s = Ok (s', h) /\ pitch <$> s' = a'.
Proof.
  intros Hpv Hrun. unfold pscan in Hrun. rewrite length_fmap in Hrun. unfold scan.
  destruct (forM_simulation (pscan_body R) (scan_body R)
              (fun x y => x = (pitch <$> fst y, snd y))
              (seq 0 (length s - length (rPattern R)))) with
    (x := (pitch <$> s, @nil nat)) (x' := (a', h)) (y := (s, @nil nat))
    as ([s' h'] & Hy & Heq); [|reflexivity|exact Hrun|].
  - intros j [x hx] [x' hx'] [y hy] [= -> ->] Hb. cbn [fst snd] in *.
    destruct (pscan_body_lift R j y x' hy hx' Hpv Hb) as (y' & Hy' & <-).
    exists (y', hx'). split; [exact Hy'|reflexivity].
  - cbn [fst snd] in Heq. injection Heq as -> ->. eauto.
Qed.

(** * Intervals: what a directed name says *)

Lemma notesToInterval_Ok (p q : Pitch) (iv : Interval) :
  notesToInterval p q = Ok iv ->
  exists sp,
    getSpecifierFromGenericChromatic (notesToGeneric p q) (notesToChromatic p q) = Ok sp
    /\ iv = mkInterval (Some (mkDiatonic sp (notesToGeneric p q))) (notesToChromatic p q).
Proof.
  unfold notesToInterval.
  destruct (getSpecifierFromGenericChromatic _ _) as [sp|e]; cbn; [|discriminate].
  intros [= <-]. eauto.
Qed.

Lemma directedName_notes (p q : Pitch) (iv : Interval) :
  notesToInterval p q = Ok iv ->
  exists sp, directedName iv = prefixSpec sp +:+ pretty (dirOf p q)
             /\ getSpecifierFromGenericChromatic (mkGeneric (dirOf p q))
                  (mkChromatic (ps2 q - ps2 p)) = Ok sp.
Proof.
  intros H. apply notesToInterval_Ok in H. destruct H as (sp & Hsp & ->).
  exists sp. split; [reflexivity|exact Hsp].
Qed.

(** A name that begins with M or m is a major or a minor interval, and its
    number is the directed size. *)
Lemma name_major (sp : Specifier) (z z0 : Z) :
  prefixSpec sp +:+ pretty z = "M" +:+ pretty z0 -> sp = MAJOR /\ z = z0.
Proof.
  destruct sp; cbn; intros H; try discriminate.
  injection H as H. split; [reflexivity|]. exact (inj pretty _ _ H).
Qed.

Lemma name_minor (sp : Specifier) (z z0 : Z) :
  prefixSpec sp +:+ pretty z = "m" +:+ pretty z0 -> sp = MINOR /\ z = z0.
Proof.
  destruct sp; cbn; intros H; try discriminate.
  injection H as H. split; [reflexivity|]. exact (inj pretty _ _ H).
Qed.

Lemma directedName_major (p q : Pitch) (iv : Interval) (z : Z) :
  notesToInterval p q = Ok iv -> directedName iv = "M" +:+ pretty z ->
  dirOf p q = z
  /\ getSpecifierFromGenericChromatic (mkGeneric z) (mkChromatic (ps2 q - ps2 p)) = Ok MAJOR.
Proof.
  intros H Hn. destruct (directedName_notes p q iv H) as (sp & Hd & Hsp).
  rewrite Hd in Hn. apply name_major in Hn. destruct Hn as [-> Hz].
  rewrite Hz in Hsp. split; assumption.
Qed.

Lemma directedName_minor (p q : Pitch) (iv : Interval) (z : Z) :
  notesToInterval p q = Ok iv -> directedName iv = "m" +:+ pretty z ->
  dirOf p q = z.
Proof.
  intros H Hn. destruct (directedName_notes p q iv H) as (sp & Hd & Hsp).
  rewrite Hd in Hn. apply name_minor in Hn. tauto.
Qed.

Lemma dirOf_clearAcc_l (p q : Pitch) : dirOf (clearAcc p) q = dirOf p q.
Proof. reflexivity. Qed.

Lemma dirOf_clearAcc_r (p q : Pitch) : dirOf p (clearAcc q) = dirOf p q.
Proof. reflexivity. Qed.

Lemma isFlat_inv (p : Pitch) : isFlat p = true -> accidental p = Some flat.
Proof.
  unfold isFlat. destruct (accidental p) as [a|]; [|discriminate].
  destruct a; cbn; intros H; try discriminate. reflexivity.
Qed.

Lemma isFlat_hasAccidental (p : Pitch) : isFlat p = true -> hasAccidental p = true.
Proof. intros H. apply isFlat_inv in H. unfold hasAccidental. rewrite H. reflexivity. Qed.

Lemma plain_not_flat (p : Pitch) : accidental p = None -> isFlat p = false.
Proof. unfold isFlat. intros ->. reflexivity. Qed.

Lemma ps2_clearAcc_flat (p : Pitch) : isFlat p = true -> ps2 (clearAcc p) = ps2 p + 2.
Proof. intros H. apply isFlat_inv in H. unfold ps2, clearAcc. cbn. rewrite H. cbn. lia. Qed.

(** The semitones (doubled) of an ascending second that music21 calls
    major. *)
Lemma major_second_semitones (c : Z) :
  getSpecifierFromGenericChromatic (mkGeneric 2) (mkChromatic c) = Ok MAJOR ->
  c = 3 \/ c = 4 \/ c = -17 \/ c = -16.
Proof.
  unfold getSpecifierFromGenericChromatic.
  assert (Hsemis :
    (if negb (Direction_eqb (genericDirection (mkGeneric 2)) (chromaticDirection (mkChromatic c)))
        && negb (Direction_eqb (genericDirection (mkGeneric 2)) OBLIQUE)
        && negb (Direction_eqb (chromaticDirection (mkChromatic c)) OBLIQUE)
     then - Z.abs (semitones2 (mkChromatic c))
     else if undirected (mkGeneric 2) =? 1 then semitones2 (mkChromatic c)
          else Z.abs (semitones2 (mkChromatic c))) = c).
  { destruct c; reflexivity. }
  cbv zeta. rewrite Hsemis.
  change (perfectable (mkGeneric 2)) with false. cbv iota.
  change (normalSemis (mkGeneric 2)) with 2. change majOffset with 5.
  set (k := (c + 1) / 2).
  assert (Hk : 2 * k <= c + 1 < 2 * k + 2).
  { subst k. pose proof (Z.div_mod (c + 1) 2 ltac:(lia)) as Hd.
    pose proof (Z.mod_pos_bound (c + 1) 2 ltac:(lia)) as Hm. lia. }
  clearbody k. clear Hsemis.
  unfold py_index. change (Z.of_nat (length specifiers)) with 10.
  change (Z.opp 10) with (-10).
  destruct (Z.leb_spec 0 (5 + k - 2)), (Z.ltb_spec (5 + k - 2) 10); cbn [andb].
  - assert (Hc : 5 + k - 2 = 0 \/ 5 + k - 2 = 1 \/ 5 + k - 2 = 2 \/ 5 + k - 2 = 3
                 \/ 5 + k - 2 = 4 \/ 5 + k - 2 = 5 \/ 5 + k - 2 = 6 \/ 5 + k - 2 = 7
                 \/ 5 + k - 2 = 8 \/ 5 + k - 2 = 9) by lia.
    destruct Hc as [H1|[H1|[H1|[H1|[H1|[H1|[H1|[H1|[H1|H1]]]]]]]]]; rewrite H1;
      intros Hs; vm_compute in Hs; try discriminate; clear Hs; lia.
  - destruct (Z.leb_spec (-10) (5 + k - 2)), (Z.ltb_spec (5 + k - 2) 0);
      cbn [andb]; try discriminate; lia.
  - destruct (Z.leb_spec (-10) (5 + k - 2)), (Z.ltb_spec (5 + k - 2) 0); cbn [andb];
      try discriminate.
    assert (Hc : 10 + (5 + k - 2) = 0 \/ 10 + (5 + k - 2) = 1 \/ 10 + (5 + k - 2) = 2
                 \/ 10 + (5 + k - 2) = 3 \/ 10 + (5 + k - 2) = 4 \/ 10 + (5 + k - 2) = 5
                 \/ 10 + (5 + k - 2) = 6 \/ 10 + (5 + k - 2) = 7
                 \/ 10 + (5 + k - 2) = 8 \/ 10 + (5 + k - 2) = 9) by lia.
    destruct Hc as [Hi|[Hi|[Hi|[Hi|[Hi|[Hi|[Hi|[Hi|[Hi|Hi]]]]]]]]]; rewrite Hi;
      intros Hs; vm_compute in Hs; try discriminate; clear Hs; lia.
  - lia.
Qed.

(** Taking the flat off the lower note of a major second upwards leaves a
    second that is not major. *)
Lemma clear_flat_not_major_second (p q : Pitch) (iv iv' : Interval) :
  isFlat p = true ->
  notesToInterval p q = Ok iv -> directedName iv = "M2" ->
  notesToInterval (clearAcc p) q = Ok iv' -> directedName iv' <> "M2".
Proof.
  intros Hf H Hn H' Hn'.
  destruct (directedName_major p q iv 2 H Hn) as [_ Hs].
  destruct (directedName_major (clearAcc p) q iv' 2 H' Hn') as [_ Hs'].
  apply major_second_semitones in Hs, Hs'. rewrite ps2_clearAcc_flat in Hs' by exact Hf.
  lia.
Qed.

Lemma conv_staff_values (d : Z) :
  (convertStaffDistanceToInterval d = 2 <-> d = 1)
  /\ (convertStaffDistanceToInterval d = -2 <-> d = -1)
  /\ (convertStaffDistanceToInterval d = 3 <-> d = 2)
  /\ (convertStaffDistanceToInterval d = -3 <-> d = -2).
Proof.
  unfold convertStaffDistanceToInterval.
  destruct (Z.eqb_spec d 0); [lia|]. destruct (Z.ltb_spec 0 d); lia.
Qed.

(** * The tests of the rules *)

Lemma windowNames_cons (p1 p2 : Pitch) (ps : list Pitch) :
  windowNames (p1 :: p2 :: ps)
  = (notesToInterval p1 p2 ≫= fun i =>
     windowNames (p2 :: ps) ≫= fun names => Ok (directedName i :: names)).
Proof. reflexivity. Qed.

Lemma windowNames_isOk (ps : list Pitch) :
  isOk (windowNames ps) <->
  (forall t p q, ps !! t = Some p -> ps !! Datatypes.S t = Some q -> isOk (notesToInterval p q)).
Proof.
  induction ps as [|p1 ps IH].
  - split; [intros _ t p q H; rewrite lookup_nil in H; discriminate H
           |intros _; exists []; reflexivity].
  - destruct ps as [|p2 ps].
    + split; [intros _ [|t] p q H1 H2; cbn in H2; discriminate H2
             |intros _; exists []; reflexivity].
    + rewrite windowNames_cons. split.
      * intros [names Hn] t p q Hp Hq.
        destruct (notesToInterval p1 p2) as [i1|] eqn:H12; [|discriminate Hn].
        cbn [mbind result_bind] in Hn.
        destruct (windowNames (p2 :: ps)) as [ns|] eqn:Hw;
          [|cbn [mbind result_bind] in Hn; discriminate Hn].
        destruct t as [|t].
        -- cbn in Hp, Hq. injection Hp as <-. injection Hq as <-. eexists; eassumption.
        -- apply (proj1 IH (ex_intro _ ns eq_refl) t p q); assumption.
      * intros Hall. destruct (Hall 0%nat p1 p2 eq_refl eq_refl) as [i1 ->].
        cbn [mbind result_bind].
        destruct (proj2 IH) as [ns ->].
        { intros t p q Hp Hq. apply (Hall (Datatypes.S t)); assumption. }
        eexists. reflexivity.
Qed.

Lemma rTest_false (R : RuleSpec) (ps : list Pitch) :
  isOk (windowNames ps) -> rTest R ps <> Ok true -> rTest R ps = Ok false.
Proof.
  intros [names Hn] Hne. unfold rTest in *. rewrite Hn in *. cbn [mbind result_bind] in *.
  destruct (ruleCheck R ps names); [congruence|reflexivity].
Qed.

Lemma rTest_isOk (R : RuleSpec) (ps : list Pitch) (b : bool) :
  rTest R ps = Ok b -> isOk (windowNames ps).
Proof.
  unfold rTest. destruct (windowNames ps) as [names|]; [eexists; reflexivity|discriminate].
Qed.

Lemma not_hasAccidental (p : Pitch) : hasAccidental p = false <-> accidental p = None.
Proof. unfold hasAccidental. destruct (accidental p); split; congruence. Qed.

(** What a window on which a rule fires looks like. *)
Lemma rTest_three (R : RuleSpec) (n1 n2 : string) (p1 p2 p3 : Pitch) :
  rPattern R = [n1; n2] -> rPivot R = 1%nat ->
  rTest R [p1; p2; p3] = Ok true <->
  exists i1 i2,
    notesToInterval p1 p2 = Ok i1 /\ notesToInterval p2 p3 = Ok i2
    /\ directedName i1 = n1 /\ directedName i2 = n2
    /\ forallb (plainAt [p1; p2; p3]) (rPlain R) = true
    /\ stepIs p2 Step.A = false /\ stepIs p2 Step.D = false.
Proof.
  intros Hpat Hpiv. unfold rTest, ruleCheck. cbn [windowNames]. rewrite Hpat, Hpiv.
  unfold pivotStepOk. cbn [lookup list_lookup].
  destruct (notesToInterval p1 p2) as [i1|e1]; cbn [mbind result_bind].
  2:{ split; [discriminate|]. intros (j1 & j2 & H & _). discriminate. }
  destruct (notesToInterval p2 p3) as [i2|e2]; cbn [mbind result_bind].
  2:{ split; [discriminate|]. intros (j1 & j2 & _ & H & _). discriminate. }
  rewrite names2_decide. split.
  - intros [= H]. apply andb_prop in H. destruct H as [H Hn].
    apply andb_prop in H. destruct H as [Hpl Hst].
    apply andb_prop in Hn. destruct Hn as [Hn1 Hn2].
    apply String.eqb_eq in Hn1, Hn2.
    apply negb_true_iff, orb_false_iff in Hst. destruct Hst as [HA HD].
    exists i1, i2. repeat split; assumption.
  - intros (j1 & j2 & [= <-] & [= <-] & <- & <- & Hpl & HA & HD).
    rewrite Hpl, HA, HD, !String.eqb_refl. reflexivity.
Qed.

Lemma rTest_four (R : RuleSpec) (n1 n2 n3 : string) (p1 p2 p3 p4 : Pitch) :
  rPattern R = [n1; n2; n3] -> rPivot R = 2%nat ->
  rTest R [p1; p2; p3; p4] = Ok true <->
  exists i1 i2 i3,
    notesToInterval p1 p2 = Ok i1 /\ notesToInterval p2 p3 = Ok i2
    /\ notesToInterval p3 p4 = Ok i3
    /\ directedName i1 = n1 /\ directedName i2 = n2 /\ directedName i3 = n3
    /\ forallb (plainAt [p1; p2; p3; p4]) (rPlain R) = true
    /\ stepIs p3 Step.A = false /\ stepIs p3 Step.D = false.
Proof.
  intros Hpat Hpiv. unfold rTest, ruleCheck. cbn [windowNames]. rewrite Hpat, Hpiv.
  unfold pivotStepOk. cbn [lookup list_lookup].
  destruct (notesToInterval p1 p2) as [i1|e1]; cbn [mbind result_bind].
  2:{ split; [discriminate|]. intros (j1 & j2 & j3 & H & _). discriminate. }
  destruct (notesToInterval p2 p3) as [i2|e2]; cbn [mbind result_bind].
  2:{ split; [discriminate|]. intros (j1 & j2 & j3 & _ & H & _). discriminate. }
  destruct (notesToInterval p3 p4) as [i3|e3]; cbn [mbind result_bind].
  2:{ split; [discriminate|]. intros (j1 & j2 & j3 & _ & _ & H & _). discriminate. }
  rewrite names3_decide. split.
  - intros [= H]. apply andb_prop in H. destruct H as [H Hn].
    apply andb_prop in H. destruct H as [Hpl Hst].
    apply andb_prop in Hn. destruct Hn as [Hn Hn3].
    apply andb_prop in Hn. destruct Hn as [Hn1 Hn2].
    apply String.eqb_eq in Hn1, Hn2, Hn3.
    apply negb_true_iff, orb_false_iff in Hst. destruct Hst as [HA HD].
    exists i1, i2, i3. repeat split; assumption.
  - intros (j1 & j2 & j3 & [= <-] & [= <-] & [= <-] & <- & <- & <- & Hpl & HA & HD).
    rewrite Hpl, HA, HD, !String.eqb_refl. reflexivity.
Qed.

Lemma list_length3 {T : Type} (l : list T) :
  length l = 3%nat -> exists a b c, l = [a; b; c].
Proof. destruct l as [|a [|b [|c [|d l]]]]; try discriminate. eauto. Qed.

Lemma list_length4 {T : Type} (l : list T) :
  length l = 4%nat -> exists a b c d, l = [a; b; c; d].
Proof. destruct l as [|a [|b [|c [|d [|e l]]]]]; try discriminate. eauto. Qed.

(** * A copy of the stream and the stream the rules have worked on *)

Lemma Sim_refl (two : bool) (a : list (option Pitch)) : Sim two a a.
Proof. split; [reflexivity|]. intros k. left. reflexivity. Qed.

Lemma Sim_weaken (a a' : list (option Pitch)) : Sim false a a' -> Sim true a a'.
Proof.
  intros [Hl H]. split; [exact Hl|]. intros k. destruct (H k) as [He|Hb]; [left; exact He|].
  right. destruct Hb as (k0 & p & pm & pn & Hk & H1 & H2 & H3 & H4 & H5 & H6 & H7 & H8
                          & H9 & H10 & H11 & H12 & H13 & [H14|(Hf & _)]); [|discriminate].
  exists k0, p, pm, pn. repeat (split; [assumption|]). left. exact H14.
Qed.

(** Notes stay notes and rests stay rests. *)
Lemma Sim_note_l (two : bool) (a a' : list (option Pitch)) (k : nat) (p : Pitch) :
  Sim two a a' -> a !! k = Some (Some p) ->
  a' !! k = Some (Some p) \/ (isFlat p = true /\ a' !! k = Some (Some (clearAcc p))
                              /\ BadAt two a a' k).
Proof.
  intros [_ H] Hp. destruct (H k) as [He|Hb]; [left; congruence|]. right.
  pose proof Hb as Hb'.
  destruct Hb as (k0 & q & pm & pn & Hk & H1 & H2 & H3 & _).
  assert (q = p) by congruence. subst q. auto.
Qed.

Lemma Sim_note_r (two : bool) (a a' : list (option Pitch)) (k : nat) (p' : Pitch) :
  Sim two a a' -> a' !! k = Some (Some p') ->
  a !! k = Some (Some p') \/ (exists p, isFlat p = true /\ p' = clearAcc p
                                        /\ a !! k = Some (Some p) /\ BadAt two a a' k).
Proof.
  intros [_ H] Hp. destruct (H k) as [He|Hb]; [left; congruence|]. right.
  pose proof Hb as Hb'.
  destruct Hb as (k0 & q & pm & pn & Hk & H1 & H2 & H3 & _).
  exists q. repeat split; try assumption. congruence.
Qed.

Lemma clearAcc_not_flat (p : Pitch) : isFlat (clearAcc p) = false.
Proof. reflexivity. Qed.

(** A window of the worked stream that holds notes only holds notes only in
    the copy. *)
Lemma Sim_pwindow (two : bool) (a a' : list (option Pitch)) (i w : nat) (ps' : list Pitch) :
  Sim two a a' -> pwindow a' i w = Some ps' ->
  exists ps, pwindow a i w = Some ps.
Proof.
  intros HS Hw. apply pwindow_Some in Hw. destruct Hw as [Hlen Hall].
  revert i ps' Hlen Hall. induction w as [|w IH]; intros i ps' Hlen Hall.
  - exists []. apply pwindow_Some. split; [reflexivity|]. intros t Ht. lia.
  - destruct ps' as [|p0 ps']; [discriminate|].
    destruct (IH (S i) ps') as [qs Hqs].
    { cbn in Hlen. lia. }
    { intros t Ht. specialize (Hall (S t) ltac:(lia)).
      change ((p0 :: ps') !! S t) with (ps' !! t) in Hall. rewrite <- Hall.
      f_equal. lia. }
    specialize (Hall 0%nat ltac:(lia)). cbn in Hall. rewrite Nat.add_0_r in Hall.
    assert (Hq : exists q0, a !! i = Some (Some q0)).
    { destruct (Sim_note_r two a a' i p0 HS Hall) as [H|(p & _ & _ & H & _)]; eauto. }
    destruct Hq as [q0 Hq0]. exists (q0 :: qs).
    apply pwindow_Some in Hqs. destruct Hqs as [Hl Hq]. apply pwindow_Some.
    split; [cbn; lia|]. intros [|t] Ht.
    + rewrite Nat.add_0_r, Hq0. reflexivity.
    + cbn. rewrite <- Hq by lia. f_equal. lia.
Qed.

Lemma Sim_pwindow_None (two : bool) (a a' : list (option Pitch)) (i w : nat) :
  Sim two a a' -> pwindow a' i w = None -> pwindow a i w = None.
Proof.
  intros HS Hn. destruct (pwindow a i w) as [ps|] eqn:Hw; [|reflexivity]. exfalso.
  apply pwindow_Some in Hw. destruct Hw as [Hlen Hall].
  assert (Hex : exists qs, pwindow a' i w = Some qs); [|destruct Hex; congruence].
  clear Hn. revert i ps Hlen Hall. induction w as [|w IH]; intros i ps Hlen Hall.
  - exists []. apply pwindow_Some. split; [reflexivity|]. intros t Ht. lia.
  - destruct ps as [|p0 ps]; [discriminate|].
    destruct (IH (S i) ps) as [qs Hqs].
    { cbn in Hlen. lia. }
    { intros t Ht. specialize (Hall (S t) ltac:(lia)).
      change ((p0 :: ps) !! S t) with (ps !! t) in Hall. rewrite <- Hall.
      f_equal. lia. }
    specialize (Hall 0%nat ltac:(lia)). cbn in Hall. rewrite Nat.add_0_r in Hall.
    assert (Hq : exists q0, a' !! i = Some (Some q0)).
    { destruct (Sim_note_l two a a' i p0 HS Hall) as [H|(_ & H & _)]; eauto. }
    destruct Hq as [q0 Hq0]. exists (q0 :: qs).
    apply pwindow_Some in Hqs. destruct Hqs as [Hl Hq]. apply pwindow_Some.
    split; [cbn; lia|]. intros [|t] Ht.
    + rewrite Nat.add_0_r, Hq0. reflexivity.
    + cbn. rewrite <- Hq by lia. f_equal. lia.
Qed.

(** Either the copy and the worked stream agree all over a window, or the
    window holds a place where they differ. *)
Lemma Sim_window_cases (two : bool) (a a' : list (option Pitch)) (i w : nat) :
  Sim two a a' ->
  (forall t, (t < w)%nat -> a !! (i + t)%nat = a' !! (i + t)%nat)
  \/ (exists t, (t < w)%nat /\ BadAt two a a' (i + t)%nat).
Proof.
  intros [_ H]. induction w as [|w IH].
  - left. intros t Ht. lia.
  - destruct IH as [IH|(t & Ht & Hb)].
    + destruct (H (i + w)%nat) as [He|Hb].
      * left. intros t Ht. destruct (decide (t = w)) as [->|]; [exact He|apply IH; lia].
      * right. exists w. split; [lia|exact Hb].
    + right. exists t. split; [lia|exact Hb].
Qed.

Lemma pwindow_same (a a' : list (option Pitch)) (i w : nat) :
  (forall t, (t < w)%nat -> a !! (i + t)%nat = a' !! (i + t)%nat) ->
  pwindow a i w = pwindow a' i w.
Proof.
  intros H. unfold pwindow. cbv zeta.
  assert (Heq : take w (drop i a) = take w (drop i a')).
  { apply list_eq. intros t. destruct (Nat.lt_ge_cases t w) as [Ht|Ht].
    - rewrite !lookup_take_lt, !lookup_drop by exact Ht. apply H. exact Ht.
    - rewrite !lookup_take_ge by exact Ht. reflexivity. }
  rewrite Heq. reflexivity.
Qed.

(** An interval between two neighbours that can be built in the worked
    stream can be built in the copy. *)
Lemma Sim_pair_ok (two : bool) (a a' : list (option Pitch)) (j : nat) (x y x' y' : Pitch) :
  Sim two a a' ->
  a !! j = Some (Some x) -> a !! S j = Some (Some y) ->
  a' !! j = Some (Some x') -> a' !! S j = Some (Some y') ->
  isOk (notesToInterval x' y') -> isOk (notesToInterval x y).
Proof.
  intros HS Hx Hy Hx' Hy' Hok.
  destruct (Sim_note_l two a a' j x HS Hx) as [H|(_ & _ & Hb)].
  - destruct (Sim_note_l two a a' (S j) y HS Hy) as [H2|(_ & _ & Hb)].
    + assert (x' = x) by congruence. assert (y' = y) by congruence. subst. exact Hok.
    + destruct Hb as (k0 & p & pm & pn & Hk & H1 & H2 & H3 & H4 & H5 & H6 & H7 & H8
                      & H9 & H10 & H11 & _).
      injection Hk as <-. assert (p = y) by congruence. assert (pm = x) by congruence.
      subst. exact H10.
  - destruct Hb as (k0 & p & pm & pn & Hk & H1 & H2 & H3 & H4 & H5 & H6 & H7 & H8
                    & H9 & H10 & H11 & _).
    assert (p = x) by congruence. assert (pn = y) by congruence. subst. exact H11.
Qed.

Lemma Sim_windowNames (two : bool) (a a' : list (option Pitch)) (i w : nat)
    (ps ps' : list Pitch) :
  Sim two a a' -> pwindow a i w = Some ps -> pwindow a' i w = Some ps' ->
  isOk (windowNames ps') -> isOk (windowNames ps).
Proof.
  intros HS Hw Hw' Hok. apply pwindow_Some in Hw, Hw'.
  destruct Hw as [Hl Hall], Hw' as [Hl' Hall'].
  apply windowNames_isOk. intros t x y Hx Hy.
  assert (Ht : (S t < w)%nat) by (apply lookup_lt_Some in Hy; lia).
  destruct (lookup_lt_is_Some_2 ps' t ltac:(lia)) as [x' Hx'].
  destruct (lookup_lt_is_Some_2 ps' (S t) ltac:(lia)) as [y' Hy'].
  pose proof (Hall t ltac:(lia)) as A1. pose proof (Hall (S t) Ht) as A2.
  pose proof (Hall' t ltac:(lia)) as B1. pose proof (Hall' (S t) Ht) as B2.
  rewrite Hx in A1. rewrite Hy in A2. rewrite Hx' in B1. rewrite Hy' in B2.
  cbn in A1, A2, B1, B2. replace (i + S t)%nat with (S (i + t)) in A2, B2 by lia.
  apply (Sim_pair_ok two a a' (i + t) x y x' y' HS A1 A2 B1 B2).
  apply (proj1 (windowNames_isOk ps') Hok t x' y' Hx' Hy').
Qed.

(** ** Writing a pivot *)

Lemma pivotPitch_plain (R : RuleSpec) (p : Pitch) : isFlat p = false -> pivotPitch R p = p.
Proof. unfold pivotPitch. intros ->. rewrite andb_false_r. reflexivity. Qed.

Lemma pivotPitch_flat (R : RuleSpec) (p : Pitch) :
  rClears R = true -> isFlat p = true -> pivotPitch R p = clearAcc p.
Proof. unfold pivotPitch. intros -> ->. reflexivity. Qed.

Lemma pivotPitch_noclear (R : RuleSpec) (p : Pitch) : rClears R = false -> pivotPitch R p = p.
Proof. unfold pivotPitch. intros ->. reflexivity. Qed.

Lemma lookup_alter_keep (R : RuleSpec) (a : list (option Pitch)) (q j : nat) (p : Pitch) :
  a !! j = Some (Some p) -> (j = q -> isFlat p = false) ->
  alter (fmap (pivotPitch R)) q a !! j = Some (Some p).
Proof.
  intros Hj Hp. rewrite list_lookup_alter. destruct (decide (q = j)) as [->|Hne].
  - rewrite Hj. cbn. rewrite pivotPitch_plain by (apply Hp; reflexivity). reflexivity.
  - exact Hj.
Qed.

Lemma BadAt_mono (two : bool) (a a' : list (option Pitch)) (k : nat) :
  BadAt two a a' k -> BadAt true a a' k.
Proof.
  intros (k0 & p & pm & pn & Hk & H1 & H2 & H3 & H4 & H5 & H6 & H7 & H8
          & H9 & H10 & H11 & H12 & H13 & H14).
  exists k0, p, pm, pn. repeat (split; [assumption|]).
  destruct H14 as [H14|(_ & H15 & H16)]; [left; exact H14|right; auto].
Qed.

Lemma BadAt_differ (two : bool) (a a' : list (option Pitch)) (k : nat) :
  BadAt two a a' k -> a !! k <> a' !! k.
Proof.
  intros (k0 & p & pm & pn & Hk & H1 & H2 & H3 & _) He.
  rewrite H1, H3 in He. injection He as He. rewrite He in H2. discriminate.
Qed.

(** A flat taken off on both sides, at a place where the two agree. *)
Lemma BadAt_alter_both (R : RuleSpec) (two : bool) (a a' : list (option Pitch)) (q k : nat) :
  BadAt two a a' k -> q <> k ->
  BadAt two (alter (fmap (pivotPitch R)) q a) (alter (fmap (pivotPitch R)) q a') k.
Proof.
  intros (k0 & p & pm & pn & Hk & H1 & H2 & H3 & H4 & H5 & H6 & H7 & H8
          & H9 & H10 & H11 & H12 & H13 & H14) Hq.
  exists k0, p, pm, pn. split; [exact Hk|].
  split; [rewrite list_lookup_alter_ne by exact Hq; exact H1|].
  split; [exact H2|].
  split; [rewrite list_lookup_alter_ne by exact Hq; exact H3|].
  split; [apply lookup_alter_keep; [exact H4|intros _; apply plain_not_flat, H6]|].
  split; [apply lookup_alter_keep; [exact H5|intros _; apply plain_not_flat, H6]|].
  split; [exact H6|].
  split; [apply lookup_alter_keep; [exact H7|intros _; apply plain_not_flat, H9]|].
  split; [apply lookup_alter_keep; [exact H8|intros _; apply plain_not_flat, H9]|].
  repeat (split; [assumption|]).
  destruct H14 as [H14|(Ht & Hd & k1 & pmm & Hk1 & G1 & G2 & G3 & G4)]; [left; exact H14|].
  right. split; [exact Ht|]. split; [exact Hd|]. exists k1, pmm. split; [exact Hk1|].
  split; [apply lookup_alter_keep; [exact G1|intros _; apply plain_not_flat, G3]|].
  split; [apply lookup_alter_keep; [exact G2|intros _; apply plain_not_flat, G3]|].
  split; assumption.
Qed.

(** A flat taken off in the worked stream only, elsewhere. *)
Lemma BadAt_alter_right (R : RuleSpec) (two : bool) (a a' : list (option Pitch))
    (q k : nat) (pq : Pitch) :
  BadAt two a a' k -> a' !! q = Some (Some pq) -> isFlat pq = true ->
  BadAt two a (alter (fmap (pivotPitch R)) q a') k.
Proof.
  intros (k0 & p & pm & pn & Hk & H1 & H2 & H3 & H4 & H5 & H6 & H7 & H8
          & H9 & H10 & H11 & H12 & H13 & H14) Hq Hf.
  assert (Hkeep : forall j x, a' !! j = Some (Some x) -> isFlat x = false ->
                    alter (fmap (pivotPitch R)) q a' !! j = Some (Some x)).
  { intros j x Hj Hx. apply lookup_alter_keep; [exact Hj|intros _; exact Hx]. }
  exists k0, p, pm, pn. split; [exact Hk|].
  split; [exact H1|]. split; [exact H2|].
  split; [apply Hkeep; [exact H3|reflexivity]|].
  split; [exact H4|].
  split; [apply Hkeep; [exact H5|apply plain_not_flat, H6]|].
  split; [exact H6|]. split; [exact H7|].
  split; [apply Hkeep; [exact H8|apply plain_not_flat, H9]|].
  repeat (split; [assumption|]).
  destruct H14 as [H14|(Ht & Hd & k1 & pmm & Hk1 & G1 & G2 & G3 & G4)]; [left; exact H14|].
  right. split; [exact Ht|]. split; [exact Hd|]. exists k1, pmm. split; [exact Hk1|].
  split; [exact G1|].
  split; [apply Hkeep; [exact G2|apply plain_not_flat, G3]|].
  split; assumption.
Qed.

Lemma Sim_alter_both (R : RuleSpec) (two : bool) (a a' : list (option Pitch)) (q : nat) :
  Sim two a a' -> a !! q = a' !! q ->
  Sim two (alter (fmap (pivotPitch R)) q a) (alter (fmap (pivotPitch R)) q a').
Proof.
  intros [Hl H] Hq. split; [rewrite !length_alter; exact Hl|]. intros k.
  destruct (decide (k = q)) as [->|Hne].
  - left. rewrite !list_lookup_alter_eq, Hq. reflexivity.
  - destruct (H k) as [He|Hb].
    + left. rewrite !list_lookup_alter_ne by congruence. exact He.
    + right. apply BadAt_alter_both; [exact Hb|congruence].
Qed.

(** ** One turn of a rule on the copy and on the worked stream *)

(** A rule for which every window that holds a place of difference fails,
    on either side, runs in step on the two streams. *)
Lemma sim_step (R : RuleSpec) (two : bool) (a a' b' : list (option Pitch)) (i : nat)
    (h h' : list nat) :
  (rPivot R < rWidth R)%nat ->
  (forall t ps, (t < rWidth R)%nat -> BadAt two a a' (i + t)%nat ->
     pwindow a' i (rWidth R) = Some ps -> rTest R ps <> Ok true) ->
  (forall t ps, (t < rWidth R)%nat -> BadAt two a a' (i + t)%nat ->
     pwindow a i (rWidth R) = Some ps -> rTest R ps <> Ok true) ->
  Sim two a a' ->
  pscan_body R i (a', h) = Ok (b', h') ->
  exists b, pscan_body R i (a, h) = Ok (b, h') /\ Sim two b b'.
Proof.
  intros Hpv Hblk' Hblk HS. rewrite !pscan_body_unfold.
  destruct (pwindow a' i (rWidth R)) as [ps'|] eqn:Hw'.
  - destruct (rTest R ps') as [bb|e] eqn:Ht; [|discriminate]. cbn [mbind result_bind].
    destruct (Sim_window_cases two a a' i (rWidth R) HS) as [Hsame|(t & Htw & Hbad)].
    + rewrite (pwindow_same a a' i (rWidth R) Hsame), Hw', Ht. cbn [mbind result_bind].
      destruct bb; intros [= <- <-].
      * eexists. split; [reflexivity|]. apply Sim_alter_both; [exact HS|].
        apply Hsame. exact Hpv.
      * exists a. split; [reflexivity|exact HS].
    + destruct (Sim_pwindow two a a' i (rWidth R) ps' HS Hw') as [ps Hps]. rewrite Hps.
      assert (bb = false) as ->.
      { destruct bb; [|reflexivity]. exfalso. exact (Hblk' t ps' Htw Hbad eq_refl Ht). }
      intros [= <- <-].
      rewrite (rTest_false R ps).
      * exists a. split; [reflexivity|exact HS].
      * apply (Sim_windowNames two a a' i (rWidth R) ps ps' HS Hps Hw').
        exact (rTest_isOk R ps' false Ht).
      * exact (Hblk t ps Htw Hbad Hps).
  - intros [= <- <-]. rewrite (Sim_pwindow_None two a a' i (rWidth R) HS Hw').
    exists a. split; [reflexivity|exact HS].
Qed.

Lemma sim_run (R : RuleSpec) (two : bool) (a a' b' : list (option Pitch)) (h : list nat) :
  (rPivot R < rWidth R)%nat ->
  (forall x x' i t ps, Sim two x x' -> (t < rWidth R)%nat -> BadAt two x x' (i + t)%nat ->
     pwindow x' i (rWidth R) = Some ps -> rTest R ps <> Ok true) ->
  (forall x x' i t ps, Sim two x x' -> (t < rWidth R)%nat -> BadAt two x x' (i + t)%nat ->
     pwindow x i (rWidth R) = Some ps -> rTest R ps <> Ok true) ->
  Sim two a a' ->
  pscan R a' = Ok (b', h) ->
  exists b, pscan R a = Ok (b, h).
Proof.
  intros Hpv Hblk' Hblk HS Hrun. unfold pscan in *.
  destruct HS as [Hlen HS']. rewrite Hlen.
  destruct (forM_simulation (pscan_body R) (pscan_body R)
              (fun x y => Sim two (fst y) (fst x) /\ snd x = snd y)
              (seq 0 (length a' - length (rPattern R)))) with
    (x := (a', @nil nat)) (x' := (b', h)) (y := (a, @nil nat))
    as ([b hb] & Hy & _ & Heq); [|split; [split; assumption|reflexivity]|exact Hrun|].
  - intros i [x hx] [x' hx'] [y hy] [HSxy Hh] Hb. cbn [fst snd] in *. subst hy.
    destruct (sim_step R two y x x' i hx hx' Hpv) as (y' & Hy' & HS2); try assumption.
    + intros t ps. apply Hblk'. exact HSxy.
    + intros t ps. apply Hblk. exact HSxy.
    + exists (y', hx'). split; [exact Hy'|]. split; [exact HS2|reflexivity].
  - cbn [snd] in Heq. subst hb. eauto.
Qed.

(** * Windows that hold a place of difference never match *)

Lemma dir_M2 (p q : Pitch) (iv : Interval) :
  notesToInterval p q = Ok iv -> directedName iv = "M2" -> dirOf p q = 2.
Proof. intros H Hn. exact (proj1 (directedName_major p q iv 2 H Hn)). Qed.

Lemma dir_m2 (p q : Pitch) (iv : Interval) :
  notesToInterval p q = Ok iv -> directedName iv = "m2" -> dirOf p q = 2.
Proof. intros H Hn. exact (directedName_minor p q iv 2 H Hn). Qed.

Lemma dir_M_2 (p q : Pitch) (iv : Interval) :
  notesToInterval p q = Ok iv -> directedName iv = "M-2" -> dirOf p q = -2.
Proof. intros H Hn. exact (proj1 (directedName_major p q iv (-2) H Hn)). Qed.

Lemma dir_M_3 (p q : Pitch) (iv : Interval) :
  notesToInterval p q = Ok iv -> directedName iv = "M-3" -> dirOf p q = -3.
Proof. intros H Hn. exact (proj1 (directedName_major p q iv (-3) H Hn)). Qed.

Lemma dir_m3 (p q : Pitch) (iv : Interval) :
  notesToInterval p q = Ok iv -> directedName iv = "m3" -> dirOf p q = 3.
Proof. intros H Hn. exact (directedName_minor p q iv 3 H Hn). Qed.

Lemma BadAt_GenAt_l (two : bool) (a a' : list (option Pitch)) (k : nat) :
  BadAt two a a' k -> GenAt two a k.
Proof.
  intros (k0 & p & pm & pn & Hk & H1 & H2 & H3 & H4 & H5 & H6 & H7 & H8
          & H9 & H10 & H11 & H12 & H13 & H14).
  exists k0, p, pm, pn. repeat (split; [assumption|]).
  destruct H14 as [H14|(Ht & Hd & k1 & pmm & Hk1 & G1 & G2 & G3 & G4)]; [left; exact H14|].
  right. split; [exact Ht|]. split; [exact Hd|]. exists k1, pmm. auto.
Qed.

Lemma BadAt_GenAt_r (two : bool) (a a' : list (option Pitch)) (k : nat) :
  BadAt two a a' k -> GenAt two a' k.
Proof.
  intros (k0 & p & pm & pn & Hk & H1 & H2 & H3 & H4 & H5 & H6 & H7 & H8
          & H9 & H10 & H11 & H12 & H13 & H14).
  exists k0, (clearAcc p), pm, pn. repeat (split; [assumption|]).
  destruct H14 as [H14|(Ht & Hd & k1 & pmm & Hk1 & G1 & G2 & G3 & G4)]; [left; exact H14|].
  right. split; [exact Ht|]. split; [exact Hd|]. exists k1, pmm. auto.
Qed.

Lemma pwindow3 (x : list (option Pitch)) (i : nat) (p1 p2 p3 : Pitch) :
  pwindow x i 3 = Some [p1; p2; p3] ->
  x !! i = Some (Some p1) /\ x !! S i = Some (Some p2) /\ x !! S (S i) = Some (Some p3).
Proof.
  intros H. apply pwindow_Some in H. destruct H as [_ H].
  pose proof (H 0%nat ltac:(lia)) as H0. pose proof (H 1%nat ltac:(lia)) as H1.
  pose proof (H 2%nat ltac:(lia)) as H2. cbn in H0, H1, H2.
  rewrite Nat.add_0_r in H0. replace (i + 1)%nat with (S i) in H1 by lia.
  replace (i + 2)%nat with (S (S i)) in H2 by lia. auto.
Qed.

Lemma pwindow4 (x : list (option Pitch)) (i : nat) (p1 p2 p3 p4 : Pitch) :
  pwindow x i 4 = Some [p1; p2; p3; p4] ->
  x !! i = Some (Some p1) /\ x !! S i = Some (Some p2) /\ x !! S (S i) = Some (Some p3)
  /\ x !! S (S (S i)) = Some (Some p4).
Proof.
  intros H. apply pwindow_Some in H. destruct H as [_ H].
  pose proof (H 0%nat ltac:(lia)) as H0. pose proof (H 1%nat ltac:(lia)) as H1.
  pose proof (H 2%nat ltac:(lia)) as H2. pose proof (H 3%nat ltac:(lia)) as H3.
  cbn in H0, H1, H2, H3.
  rewrite Nat.add_0_r in H0. replace (i + 1)%nat with (S i) in H1 by lia.
  replace (i + 2)%nat with (S (S i)) in H2 by lia.
  replace (i + 3)%nat with (S (S (S i))) in H3 by lia. auto.
Qed.

Lemma pwindow_length (x : list (option Pitch)) (i w : nat) (ps : list Pitch) :
  pwindow x i w = Some ps -> length ps = w.
Proof. intros H. apply pwindow_Some in H. tauto. Qed.

(** A window of three whose first interval is a third and whose second is
    a second upwards holds no place of difference. *)
Lemma blocked_three (two : bool) (x : list (option Pitch)) (i t : nat) (p1 p2 p3 : Pitch) :
  GenAt two x (i + t)%nat -> (t < 3)%nat ->
  pwindow x i 3 = Some [p1; p2; p3] ->
  (dirOf p1 p2 = 3 \/ dirOf p1 p2 = -3) -> dirOf p2 p3 = 2 -> False.
Proof.
  intros (k0 & pk & pm & pn & Hk & G1 & G2 & G3 & G4 & G5) Ht Hw Hd1 Hd2.
  apply pwindow3 in Hw. destruct Hw as (W1 & W2 & W3).
  assert (Hc : t = 0%nat \/ t = 1%nat \/ t = 2%nat) by lia.
  destruct Hc as [->|[->| ->]].
  - rewrite Nat.add_0_r in *. assert (pk = p1) by congruence. assert (pn = p2) by congruence.
    subst. lia.
  - replace (i + 1)%nat with (S i) in * by lia. injection Hk as <-.
    assert (pk = p2) by congruence. assert (pm = p1) by congruence. subst.
    destruct G5 as [G5|(_ & G5 & _)]; lia.
  - replace (i + 2)%nat with (S (S i)) in * by lia. injection Hk as <-.
    assert (pk = p3) by congruence. assert (pm = p2) by congruence. subst.
    destruct G5 as [G5|(_ & G5 & k1 & pmm & Hk1 & G6 & G7)]; [lia|].
    injection Hk1 as <-. assert (pmm = p1) by congruence. subst. lia.
Qed.

(** A window of four seconds upwards does not hold, after its first place,
    a place where rule 1 took a flat off. *)
Lemma blocked_four (x : list (option Pitch)) (i t : nat) (p1 p2 p3 p4 : Pitch) :
  GenAt false x (i + t)%nat -> (1 <= t < 4)%nat ->
  pwindow x i 4 = Some [p1; p2; p3; p4] ->
  dirOf p1 p2 = 2 -> dirOf p2 p3 = 2 -> dirOf p3 p4 = 2 -> False.
Proof.
  intros (k0 & pk & pm & pn & Hk & G1 & G2 & G3 & G4 & G5) Ht Hw Hd1 Hd2 Hd3.
  apply pwindow4 in Hw. destruct Hw as (W1 & W2 & W3 & W4).
  destruct G5 as [G5|(Hf & _)]; [|discriminate].
  assert (Hc : t = 1%nat \/ t = 2%nat \/ t = 3%nat) by lia.
  destruct Hc as [->|[->| ->]].
  - replace (i + 1)%nat with (S i) in * by lia. injection Hk as <-.
    assert (pk = p2) by congruence. assert (pm = p1) by congruence. subst. lia.
  - replace (i + 2)%nat with (S (S i)) in * by lia. injection Hk as <-.
    assert (pk = p3) by congruence. assert (pm = p2) by congruence. subst. lia.
  - replace (i + 3)%nat with (S (S (S i))) in * by lia. injection Hk as <-.
    assert (pk = p4) by congruence. assert (pm = p3) by congruence. subst. lia.
Qed.

Lemma ruleThree_blocked (two : bool) (x : list (option Pitch)) (i t : nat) (ps : list Pitch) :
  GenAt two x (i + t)%nat -> (t < 3)%nat ->
  pwindow x i 3 = Some ps -> rTest ruleThree ps <> Ok true.
Proof.
  intros HG Ht Hw Htrue.
  destruct (list_length3 ps (pwindow_length x i 3 ps Hw)) as (p1 & p2 & p3 & ->).
  apply (rTest_three ruleThree "M-3" "M2" p1 p2 p3 eq_refl eq_refl) in Htrue.
  destruct Htrue as (i1 & i2 & H1 & H2 & N1 & N2 & _).
  apply (blocked_three two x i t p1 p2 p3 HG Ht Hw).
  - right. exact (dir_M_3 p1 p2 i1 H1 N1).
  - exact (dir_M2 p2 p3 i2 H2 N2).
Qed.

Lemma ruleFourB_blocked (two : bool) (x : list (option Pitch)) (i t : nat) (ps : list Pitch) :
  GenAt two x (i + t)%nat -> (t < 3)%nat ->
  pwindow x i 3 = Some ps -> rTest ruleFourB ps <> Ok true.
Proof.
  intros HG Ht Hw Htrue.
  destruct (list_length3 ps (pwindow_length x i 3 ps Hw)) as (p1 & p2 & p3 & ->).
  apply (rTest_three ruleFourB "m3" "M2" p1 p2 p3 eq_refl eq_refl) in Htrue.
  destruct Htrue as (i1 & i2 & H1 & H2 & N1 & N2 & _).
  apply (blocked_three two x i t p1 p2 p3 HG Ht Hw).
  - left. exact (dir_m3 p1 p2 i1 H1 N1).
  - exact (dir_M2 p2 p3 i2 H2 N2).
Qed.

Lemma ruleTwo_blocked_r (a a' : list (option Pitch)) (i t : nat) (ps : list Pitch) :
  BadAt false a a' (i + t)%nat -> (t < 4)%nat ->
  pwindow a' i 4 = Some ps -> rTest ruleTwo ps <> Ok true.
Proof.
  intros HB Ht Hw Htrue.
  destruct (list_length4 ps (pwindow_length a' i 4 ps Hw)) as (p1 & p2 & p3 & p4 & ->).
  apply (rTest_four ruleTwo "M2" "m2" "M2" p1 p2 p3 p4 eq_refl eq_refl) in Htrue.
  destruct Htrue as (i1 & i2 & i3 & H1 & H2 & H3 & N1 & N2 & N3 & _).
  destruct (decide (t = 0%nat)) as [->|Hne].
  - rewrite Nat.add_0_r in HB.
    destruct HB as (k0 & p & pm & pn & Hk & B1 & B2 & B3 & B4 & B5 & B6 & B7 & B8
                    & B9 & B10 & B11 & B12 & B13 & B14).
    apply pwindow4 in Hw. destruct Hw as (W1 & W2 & _).
    assert (p1 = clearAcc p) by congruence. assert (p2 = pn) by congruence. subst.
    exact (B13 i1 H1 N1).
  - apply (blocked_four a' i t p1 p2 p3 p4 (BadAt_GenAt_r _ _ _ _ HB) ltac:(lia) Hw).
    + exact (dir_M2 p1 p2 i1 H1 N1).
    + exact (dir_m2 p2 p3 i2 H2 N2).
    + exact (dir_M2 p3 p4 i3 H3 N3).
Qed.

Lemma ruleTwo_blocked_l (a a' : list (option Pitch)) (i t : nat) (ps : list Pitch) :
  BadAt false a a' (i + t)%nat -> (t < 4)%nat ->
  pwindow a i 4 = Some ps -> rTest ruleTwo ps <> Ok true.
Proof.
  intros HB Ht Hw Htrue.
  destruct (list_length4 ps (pwindow_length a i 4 ps Hw)) as (p1 & p2 & p3 & p4 & ->).
  apply (rTest_four ruleTwo "M2" "m2" "M2" p1 p2 p3 p4 eq_refl eq_refl) in Htrue.
  destruct Htrue as (i1 & i2 & i3 & H1 & H2 & H3 & N1 & N2 & N3 & Hpl & _).
  destruct (decide (t = 0%nat)) as [->|Hne].
  - rewrite Nat.add_0_r in HB.
    destruct HB as (k0 & p & pm & pn & Hk & B1 & B2 & _).
    apply pwindow4 in Hw. destruct Hw as (W1 & _).
    assert (p1 = p) by congruence. subst.
    cbn in Hpl. rewrite (isFlat_hasAccidental p B2) in Hpl. discriminate.
  - apply (blocked_four a i t p1 p2 p3 p4 (BadAt_GenAt_l _ _ _ _ HB) ltac:(lia) Hw).
    + exact (dir_M2 p1 p2 i1 H1 N1).
    + exact (dir_m2 p2 p3 i2 H2 N2).
    + exact (dir_M2 p3 p4 i3 H3 N3).
Qed.

(** Rules 2, 3 and 4B make on the copy the matches they make on the stream
    the earlier rules have worked on. *)
Lemma ruleTwo_sim (a a' b' : list (option Pitch)) (h : list nat) :
  Sim false a a' -> pscan ruleTwo a' = Ok (b', h) -> exists b, pscan ruleTwo a = Ok (b, h).
Proof.
  apply sim_run; [unfold rWidth; cbn; lia| |].
  - intros x x' i t ps _ Ht HB. exact (ruleTwo_blocked_r x x' i t ps HB Ht).
  - intros x x' i t ps _ Ht HB. exact (ruleTwo_blocked_l x x' i t ps HB Ht).
Qed.

Lemma ruleThree_sim (two : bool) (a a' b' : list (option Pitch)) (h : list nat) :
  Sim two a a' -> pscan ruleThree a' = Ok (b', h) -> exists b, pscan ruleThree a = Ok (b, h).
Proof.
  apply sim_run; [unfold rWidth; cbn; lia| |].
  - intros x x' i t ps _ Ht HB.
    exact (ruleThree_blocked two x' i t ps (BadAt_GenAt_r _ _ _ _ HB) Ht).
  - intros x x' i t ps _ Ht HB.
    exact (ruleThree_blocked two x i t ps (BadAt_GenAt_l _ _ _ _ HB) Ht).
Qed.

Lemma ruleFourB_sim (two : bool) (a a' b' : list (option Pitch)) (h : list nat) :
  Sim two a a' -> pscan ruleFourB a' = Ok (b', h) -> exists b, pscan ruleFourB a = Ok (b, h).
Proof.
  apply sim_run; [unfold rWidth; cbn; lia| |].
  - intros x x' i t ps _ Ht HB.
    exact (ruleFourB_blocked two x' i t ps (BadAt_GenAt_r _ _ _ _ HB) Ht).
  - intros x x' i t ps _ Ht HB.
    exact (ruleFourB_blocked two x i t ps (BadAt_GenAt_l _ _ _ _ HB) Ht).
Qed.

(** * The places where rules 1 and 2 take a flat off *)

Lemma pscan_body_noclear (R : RuleSpec) (a' b' : list (option Pitch)) (i : nat)
    (h h' : list nat) :
  rClears R = false -> pscan_body R i (a', h) = Ok (b', h') -> b' = a'.
Proof.
  intros Hc. rewrite pscan_body_unfold.
  destruct (pwindow a' i (rWidth R)) as [ps|]; [|intros [= <- <-]; reflexivity].
  destruct (rTest R ps) as [[|]|e]; cbn [mbind result_bind]; try discriminate;
    intros [= <- <-]; [|reflexivity].
  apply list_alter_id. intros [p|]; [|reflexivity]. cbn.
  rewrite pivotPitch_noclear by exact Hc. reflexivity.
Qed.

Lemma plainAt_true (ps : list Pitch) (k : nat) (p : Pitch) :
  ps !! k = Some p -> plainAt ps k = true -> accidental p = None.
Proof.
  unfold plainAt. intros ->. intros H. apply negb_true_iff in H.
  apply not_hasAccidental. exact H.
Qed.

(** A place of difference stands between two places without accidental in
    the worked stream, and carries none itself there. *)
Lemma BadAt_plain_r (two : bool) (a a' : list (option Pitch)) (k : nat) (p' : Pitch) :
  BadAt two a a' k ->
  (a' !! k = Some (Some p') -> isFlat p' = false)
  /\ (a' !! S k = Some (Some p') -> isFlat p' = false)
  /\ (forall k0, k = S k0 -> a' !! k0 = Some (Some p') -> isFlat p' = false).
Proof.
  intros (k0 & p & pm & pn & Hk & H1 & H2 & H3 & H4 & H5 & H6 & H7 & H8 & H9 & _).
  split; [|split].
  - intros H. assert (p' = clearAcc p) by congruence. subst. reflexivity.
  - intros H. assert (p' = pn) by congruence. subst. apply plain_not_flat, H9.
  - intros j Hj H. assert (j = k0) by lia. subst j.
    assert (p' = pm) by congruence. subst. apply plain_not_flat, H6.
Qed.

(** Rule 1 does not match on a window of the worked stream that holds a
    place of difference. *)
Lemma ruleOne_blocked_r (two : bool) (a a' : list (option Pitch)) (i t : nat)
    (ps : list Pitch) :
  BadAt two a a' (i + t)%nat -> (t < 3)%nat ->
  pwindow a' i 3 = Some ps -> rTest ruleOne ps <> Ok true.
Proof.
  intros HB Ht Hw Htrue.
  destruct (list_length3 ps (pwindow_length a' i 3 ps Hw)) as (p1 & p2 & p3 & ->).
  apply (rTest_three ruleOne "M-2" "M2" p1 p2 p3 eq_refl eq_refl) in Htrue.
  destruct Htrue as (i1 & i2 & N1 & N2 & D1 & D2 & _).
  pose proof (dir_M_2 p1 p2 i1 N1 D1) as E1. pose proof (dir_M2 p2 p3 i2 N2 D2) as E2.
  pose proof (pwindow3 a' i p1 p2 p3 Hw) as (W1 & W2 & W3).
  destruct HB as (k0 & p & pm & pn & Hk & B1 & B2 & B3 & B4 & B5 & B6 & B7 & B8
                  & B9 & B10 & B11 & B12 & B13 & B14).
  assert (Hc : t = 0%nat \/ t = 1%nat \/ t = 2%nat) by lia.
  destruct Hc as [->|[->| ->]].
  - rewrite Nat.add_0_r in *. assert (p1 = clearAcc p) by congruence.
    assert (p2 = pn) by congruence. subst. rewrite dirOf_clearAcc_l in E1. lia.
  - replace (i + 1)%nat with (S i) in * by lia. injection Hk as <-.
    assert (p2 = clearAcc p) by congruence. assert (p3 = pn) by congruence. subst.
    exact (B13 i2 N2 D2).
  - replace (i + 2)%nat with (S (S i)) in * by lia. injection Hk as <-.
    assert (p3 = clearAcc p) by congruence. assert (p2 = pm) by congruence. subst.
    rewrite dirOf_clearAcc_r in E2.
    destruct B14 as [B14|(_ & B14 & k1 & pmm & Hk1 & G1 & G2 & G3 & G4)]; [lia|].
    injection Hk1 as <-. assert (p1 = pmm) by congruence. subst. lia.
Qed.

(** One turn of rule 1 on the worked stream. *)
Lemma ruleOne_establish_step (two : bool) (a a' b' : list (option Pitch)) (i : nat)
    (h h' : list nat) :
  Sim two a a' -> pscan_body ruleOne i (a', h) = Ok (b', h') ->
  Sim two a b'
  /\ (h' = h
      \/ (h' = h ++ [(i + 1)%nat]
          /\ exists ps, pwindow a i 3 = Some ps /\ rTest ruleOne ps = Ok true)).
Proof.
  intros HS. rewrite pscan_body_unfold. change (rWidth ruleOne) with 3%nat.
  destruct (pwindow a' i 3) as [ps|] eqn:Hw; [|intros [= <- <-]; auto].
  destruct (rTest ruleOne ps) as [[|]|e] eqn:Ht; cbn [mbind result_bind]; try discriminate;
    intros [= <- <-]; [|auto].
  change (rPivot ruleOne) with 1%nat.
  (* the window is the same in the copy *)
  assert (Hsame : forall t, (t < 3)%nat -> a !! (i + t)%nat = a' !! (i + t)%nat).
  { destruct (Sim_window_cases two a a' i 3 HS) as [Hs|(t & Htl & Hb)]; [exact Hs|].
    exfalso. exact (ruleOne_blocked_r two a a' i t ps Hb Htl Hw Ht). }
  assert (Hwa : pwindow a i 3 = Some ps) by (rewrite (pwindow_same a a' i 3 Hsame); exact Hw).
  split; [|right; split; [reflexivity|exists ps; split; assumption]].
  destruct (list_length3 ps (pwindow_length a' i 3 ps Hw)) as (p1 & p2 & p3 & ->).
  apply (rTest_three ruleOne "M-2" "M2" p1 p2 p3 eq_refl eq_refl) in Ht.
  destruct Ht as (i1 & i2 & N1 & N2 & D1 & D2 & Hpl & _).
  cbn [ruleOne rPlain forallb] in Hpl.
  apply andb_prop in Hpl. destruct Hpl as [Hp1 Hpl]. apply andb_prop in Hpl.
  destruct Hpl as [Hp3 _].
  apply (plainAt_true [p1; p2; p3] 0%nat p1 eq_refl) in Hp1.
  apply (plainAt_true [p1; p2; p3] 2%nat p3 eq_refl) in Hp3.
  pose proof (pwindow3 a' i p1 p2 p3 Hw) as (W1 & W2 & W3).
  pose proof (pwindow3 a i p1 p2 p3 Hwa) as (A1 & A2 & A3).
  replace (i + 1)%nat with (S i) by lia.
  destruct (isFlat p2) eqn:Hf.
  2:{ (* nothing is taken off: the stream stays as it was *)
    assert (Hid : alter (fmap (pivotPitch ruleOne)) (S i) a' = a').
    { apply list_eq. intros j. rewrite list_lookup_alter.
      destruct (decide (S i = j)) as [<-|]; [|reflexivity].
      rewrite W2. cbn. rewrite pivotPitch_plain by exact Hf. reflexivity. }
    rewrite Hid. exact HS. }
  destruct HS as [Hl HS]. split; [rewrite length_alter; exact Hl|]. intros k.
  destruct (decide (k = S i)) as [->|Hne].
  - right. exists i, p2, p1, p3. split; [reflexivity|].
    split; [exact A2|]. split; [exact Hf|].
    split; [rewrite list_lookup_alter_eq, W2; cbn;
            rewrite pivotPitch_flat by (reflexivity || exact Hf); reflexivity|].
    split; [exact A1|].
    split; [rewrite list_lookup_alter_ne by lia; exact W1|].
    split; [exact Hp1|]. split; [exact A3|].
    split; [rewrite list_lookup_alter_ne by lia; exact W3|].
    split; [exact Hp3|].
    split; [eexists; exact N1|]. split; [eexists; exact N2|].
    split; [exact (dir_M2 p2 p3 i2 N2 D2)|].
    split; [intros iv Hiv; exact (clear_flat_not_major_second p2 p3 i2 iv Hf N2 D2 Hiv)|].
    left. exact (dir_M_2 p1 p2 i1 N1 D1).
  - destruct (HS k) as [He|Hb].
    + left. rewrite list_lookup_alter_ne by congruence. exact He.
    + right. exact (BadAt_alter_right ruleOne two a a' (S i) k p2 Hb W2 Hf).
Qed.

Lemma Sim_mono (two : bool) (a a' : list (option Pitch)) : Sim two a a' -> Sim true a a'.
Proof.
  intros [Hl H]. split; [exact Hl|]. intros k. destruct (H k) as [He|Hb]; [left; exact He|].
  right. exact (BadAt_mono two a a' k Hb).
Qed.

(** One turn of rule 2 on the worked stream. *)
Lemma ruleTwo_establish_step (two : bool) (a a' b' : list (option Pitch)) (i : nat)
    (h h' : list nat) :
  Sim two a a' -> pscan_body ruleTwo i (a', h) = Ok (b', h') -> Sim true a b'.
Proof.
  intros HS. rewrite pscan_body_unfold. change (rWidth ruleTwo) with 4%nat.
  destruct (pwindow a' i 4) as [ps|] eqn:Hw;
    [|intros [= <- <-]; exact (Sim_mono two a a' HS)].
  destruct (rTest ruleTwo ps) as [[|]|e] eqn:Ht; cbn [mbind result_bind]; try discriminate;
    intros [= <- <-]; [|exact (Sim_mono two a a' HS)].
  change (rPivot ruleTwo) with 2%nat.
  destruct (list_length4 ps (pwindow_length a' i 4 ps Hw)) as (p1 & p2 & p3 & p4 & ->).
  apply (rTest_four ruleTwo "M2" "m2" "M2" p1 p2 p3 p4 eq_refl eq_refl) in Ht.
  destruct Ht as (i1 & i2 & i3 & N1 & N2 & N3 & D1 & D2 & D3 & Hpl & _).
  cbn [ruleTwo rPlain forallb] in Hpl.
  apply andb_prop in Hpl. destruct Hpl as [Hp1 Hpl]. apply andb_prop in Hpl.
  destruct Hpl as [Hp2 Hpl]. apply andb_prop in Hpl. destruct Hpl as [Hp4 _].
  apply (plainAt_true [p1; p2; p3; p4] 0%nat p1 eq_refl) in Hp1.
  apply (plainAt_true [p1; p2; p3; p4] 1%nat p2 eq_refl) in Hp2.
  apply (plainAt_true [p1; p2; p3; p4] 3%nat p4 eq_refl) in Hp4.
  pose proof (pwindow4 a' i p1 p2 p3 p4 Hw) as (W1 & W2 & W3 & W4).
  replace (i + 2)%nat with (S (S i)) by lia.
  destruct (isFlat p3) eqn:Hf.
  2:{ assert (Hid : alter (fmap (pivotPitch ruleTwo)) (S (S i)) a' = a').
      { apply list_eq. intros j. rewrite list_lookup_alter.
        destruct (decide (S (S i) = j)) as [<-|]; [|reflexivity].
        rewrite W3. cbn. rewrite pivotPitch_plain by exact Hf. reflexivity. }
      rewrite Hid. exact (Sim_mono two a a' HS). }
  assert (A3 : a !! S (S i) = Some (Some p3)).
  { destruct (Sim_note_r two a a' (S (S i)) p3 HS W3) as [H|(p & _ & -> & _)]; [exact H|].
    discriminate Hf. }
  assert (A2 : a !! S i = Some (Some p2)).
  { destruct (Sim_note_r two a a' (S i) p2 HS W2) as [H|(p & _ & _ & _ & Hb)]; [exact H|].
    exfalso. destruct (BadAt_plain_r two a a' (S i) p3 Hb) as (_ & Hn & _).
    rewrite (Hn W3) in Hf. discriminate. }
  assert (A4 : a !! S (S (S i)) = Some (Some p4)).
  { destruct (Sim_note_r two a a' (S (S (S i))) p4 HS W4) as [H|(p & _ & _ & _ & Hb)];
      [exact H|].
    exfalso. destruct (BadAt_plain_r two a a' (S (S (S i))) p3 Hb) as (_ & _ & Hn).
    rewrite (Hn (S (S i)) eq_refl W3) in Hf. discriminate. }
  assert (A1 : a !! i = Some (Some p1)).
  { destruct (Sim_note_r two a a' i p1 HS W1) as [H|(p & _ & _ & _ & Hb)]; [exact H|].
    exfalso.
    destruct Hb as (k0 & q & pm & pn & Hk & B1 & B2 & B3 & B4 & B5 & B6 & B7 & B8
                    & B9 & B10 & B11 & B12 & B13 & B14).
    assert (p1 = clearAcc q) by congruence. assert (p2 = pn) by congruence. subst.
    exact (B13 i1 N1 D1). }
  destruct HS as [Hl HS]. split; [rewrite length_alter; exact Hl|]. intros k.
  destruct (decide (k = S (S i))) as [->|Hne].
  - right. exists (S i), p3, p2, p4. split; [reflexivity|].
    split; [exact A3|]. split; [exact Hf|].
    split; [rewrite list_lookup_alter_eq, W3; cbn;
            rewrite pivotPitch_flat by (reflexivity || exact Hf); reflexivity|].
    split; [exact A2|].
    split; [rewrite list_lookup_alter_ne by lia; exact W2|].
    split; [exact Hp2|]. split; [exact A4|].
    split; [rewrite list_lookup_alter_ne by lia; exact W4|].
    split; [exact Hp4|].
    split; [eexists; exact N2|]. split; [eexists; exact N3|].
    split; [exact (dir_M2 p3 p4 i3 N3 D3)|].
    split; [intros iv Hiv; exact (clear_flat_not_major_second p3 p4 i3 iv Hf N3 D3 Hiv)|].
    right. split; [reflexivity|]. split; [exact (dir_m2 p2 p3 i2 N2 D2)|].
    exists i, p1. split; [reflexivity|]. split; [exact A1|].
    split; [rewrite list_lookup_alter_ne by lia; exact W1|].
    split; [exact Hp1|]. exact (dir_M2 p1 p2 i1 N1 D1).
  - destruct (HS k) as [He|Hb].
    + left. rewrite list_lookup_alter_ne by congruence. exact He.
    + right. apply BadAt_mono with (two := two).
      exact (BadAt_alter_right ruleTwo two a a' (S (S i)) k p3 Hb W3 Hf).
Qed.

(** ** Whole runs *)

Lemma ruleOne_establish (two : bool) (a a' b' : list (option Pitch)) (h : list nat) :
  Sim two a a' -> pscan ruleOne a' = Ok (b', h) ->
  Sim two a b'
  /\ forall k, k ∈ h ->
       exists i ps, k = (i + 1)%nat /\ pwindow a i 3 = Some ps /\ rTest ruleOne ps = Ok true.
Proof.
  intros HS Hrun. unfold pscan in Hrun.
  apply (forM_seq_ind (pscan_body ruleOne)
           (fun _ st => Sim two a (fst st)
              /\ forall k, k ∈ snd st ->
                   exists i ps, k = (i + 1)%nat /\ pwindow a i 3 = Some ps
                                /\ rTest ruleOne ps = Ok true)
           _ _ _ _ Hrun).
  - split; [exact HS|]. intros k Hk. cbn in Hk. apply elem_of_nil in Hk. destruct Hk.
  - intros i [x hx] [y hy] _ [HSx Hh] Hb. cbn [fst snd] in *.
    destruct (ruleOne_establish_step two a x y i hx hy HSx Hb) as [HSy Hhy].
    split; [exact HSy|]. intros k Hk.
    destruct Hhy as [->|(-> & ps & Hw & Ht)]; [exact (Hh k Hk)|].
    apply elem_of_app in Hk. destruct Hk as [Hk|Hk]; [exact (Hh k Hk)|].
    apply list_elem_of_singleton in Hk. subst k. eauto.
Qed.

Lemma ruleTwo_establish (two : bool) (a a' b' : list (option Pitch)) (h : list nat) :
  Sim two a a' -> pscan ruleTwo a' = Ok (b', h) -> Sim true a b'.
Proof.
  intros HS Hrun. unfold pscan in Hrun.
  apply (forM_seq_ind (pscan_body ruleTwo) (fun _ st => Sim true a (fst st))
           _ _ _ _ Hrun).
  - exact (Sim_mono two a a' HS).
  - intros i [x hx] [y hy] _ HSx Hb. cbn [fst snd] in *.
    exact (ruleTwo_establish_step true a x y i hx hy HSx Hb).
Qed.

Lemma pscan_noclear (R : RuleSpec) (a' b' : list (option Pitch)) (h : list nat) :
  rClears R = false -> pscan R a' = Ok (b', h) -> b' = a'.
Proof.
  intros Hc Hrun. unfold pscan in Hrun.
  apply (forM_seq_ind (pscan_body R) (fun _ st => fst st = a') _ _ _ _ Hrun).
  - reflexivity.
  - intros i [x hx] [y hy] _ Hx Hb. cbn [fst snd] in *. subst x.
    exact (pscan_body_noclear R a' y i hx hy Hc Hb).
Qed.

(** * What a run of a rule leaves on the notes *)

Lemma core_with_color (c : string) (n : GeneralNote) : core (with_color c n) = core n.
Proof. reflexivity. Qed.

Lemma core_paintPivot (R : RuleSpec) (n : GeneralNote) :
  core (paintPivot R n) = core (pivotUpdate R n).
Proof. reflexivity. Qed.

Lemma pivotUpdate_core (R : RuleSpec) (n n' : GeneralNote) :
  core n = core n' -> core (pivotUpdate R n) = core (pivotUpdate R n').
Proof.
  destruct n as [p e c], n' as [p' e' c']. unfold core. cbn. intros [= -> ->].
  unfold pivotUpdate, noteIsFlat, addCapuaRuleNumber. cbn.
  destruct (capuaRuleNumber e'), (rClears R && match p' with Some q => isFlat q | None => false end);
    reflexivity.
Qed.

Lemma scan_body_cases (R : RuleSpec) (i : nat) (x x' : Stream) (h h' : list nat) :
  scan_body R i (x, h) = Ok (x', h') ->
  (x' = x /\ h' = h)
  \/ (x' = fireAt R i x /\ h' = h ++ [(i + rPivot R)%nat]
      /\ (i + rWidth R <= length x)%nat
      /\ exists ps, pwindow (pitch <$> x) i (rWidth R) = Some ps /\ rTest R ps = Ok true).
Proof.
  rewrite scan_body_unfold.
  destruct (pwindow (pitch <$> x) i (rWidth R)) as [ps|] eqn:Hw; [|intros [= <- <-]; auto].
  destruct (rTest R ps) as [[|]|e] eqn:Ht; cbn [mbind result_bind]; try discriminate;
    intros [= <- <-]; [|auto].
  right. split; [reflexivity|]. split; [reflexivity|]. split.
  - apply pwindow_complete in Hw; [|apply rWidth_pos]. rewrite length_fmap in Hw. exact Hw.
  - eauto.
Qed.

Lemma Progress_start (R : RuleSpec) (s : Stream) : Progress R s 0 s [].
Proof.
  split; [reflexivity|]. split; [constructor|]. split.
  - intros k Hk. apply elem_of_nil in Hk. destruct Hk.
  - intros k n Hk. exists n. split; [exact Hk|]. reflexivity.
Qed.

Lemma Progress_step (R : RuleSpec) (s : Stream) (j : nat) (x x' : Stream) (h h' : list nat) :
  (rPivot R < rWidth R)%nat ->
  Progress R s j x h -> scan_body R j (x, h) = Ok (x', h') -> Progress R s (S j) x' h'.
Proof.
  intros Hpv (Hl & Hnd & Hlt & Hcore) Hb.
  destruct (scan_body_cases R j x x' h h' Hb) as [[-> ->]|(-> & -> & Hlen & _)].
  - split; [exact Hl|]. split; [exact Hnd|]. split; [|exact Hcore].
    intros k Hk. specialize (Hlt k Hk). lia.
  - split; [rewrite fireAt_length; exact Hl|].
    assert (Hfresh : (j + rPivot R)%nat ∉ h).
    { intros Hin. specialize (Hlt _ Hin). lia. }
    split.
    { apply NoDup_app. split; [exact Hnd|]. split; [|apply NoDup_singleton].
      intros k Hk Hk2. apply list_elem_of_singleton in Hk2. subst k. exact (Hfresh Hk). }
    split.
    { intros k Hk. apply elem_of_app in Hk. destruct Hk as [Hk|Hk].
      - specialize (Hlt k Hk). lia.
      - apply list_elem_of_singleton in Hk. lia. }
    intros k n Hk. destruct (Hcore k n Hk) as (n' & Hn' & Hc).
    rewrite fireAt_lookup by assumption. rewrite Hn'.
    destruct (decide (k = (j + rPivot R)%nat)) as [->|Hne].
    + eexists. split; [reflexivity|]. rewrite core_paintPivot.
      rewrite bool_decide_eq_false_2 in Hc by exact Hfresh.
      rewrite bool_decide_eq_true_2 by (apply elem_of_app; right; apply list_elem_of_singleton;
                                        reflexivity).
      apply pivotUpdate_core. exact Hc.
    + assert (Hiff : bool_decide (k ∈ h ++ [(j + rPivot R)%nat]) = bool_decide (k ∈ h)).
      { apply bool_decide_ext. rewrite elem_of_app, list_elem_of_singleton. tauto. }
      rewrite Hiff.
      destruct (decide (j <= k < j + rWidth R)%nat); eexists; (split; [reflexivity|]);
        rewrite ?core_with_color; exact Hc.
Qed.

Lemma Progress_run (R : RuleSpec) (s : Stream) (j0 m : nat) (x x' : Stream) (h h' : list nat) :
  (rPivot R < rWidth R)%nat ->
  Progress R s j0 x h ->
  forM (scan_body R) (seq j0 m) (x, h) = Ok (x', h') ->
  Progress R s (j0 + m) x' h' /\ (forall k, k ∈ h -> k ∈ h').
Proof.
  intros Hpv HP Hrun.
  apply (forM_seq_ind (scan_body R)
           (fun j st => Progress R s j (fst st) (snd st) /\ forall k, k ∈ h -> k ∈ snd st)
           m j0 (x, h) (x', h') Hrun).
  - split; [exact HP|]. auto.
  - intros i [y hy] [y' hy'] _ [HPy Hsub] Hb. cbn [fst snd] in *. split.
    + exact (Progress_step R s i y y' hy hy' Hpv HPy Hb).
    + intros k Hk. specialize (Hsub k Hk).
      destruct (scan_body_cases R i y y' hy hy' Hb) as [[_ ->]|(_ & -> & _)]; [exact Hsub|].
      apply elem_of_app. left. exact Hsub.
Qed.

Lemma scan_Progress (R : RuleSpec) (s s' : Stream) (h : list nat) :
  (rPivot R < rWidth R)%nat ->
  scan R s = Ok (s', h) -> Progress R s (length s - length (rPattern R)) s' h.
Proof.
  intros Hpv Hrun.
  exact (proj1 (Progress_run R s 0 _ s s' [] h Hpv (Progress_start R s) Hrun)).
Qed.

(** * Notes without accidentals: the rules return *)

Lemma generic_parts (a b : Z) (dd : Z) :
  0 <= a -> 0 <= b <= 6 -> Z.abs dd = 7 * a + b + 1 ->
  simpleUndirected (mkGeneric dd) = b + 1 /\ undirectedOctaves (mkGeneric dd) = a.
Proof.
  intros Ha Hb Hd. unfold simpleUndirected, undirectedOctaves, undirected. cbn [directed].
  rewrite Hd. cbv zeta.
  destruct (Z.eq_dec b 6) as [->|Hne].
  - replace (7 * a + 6 + 1) with ((a + 1) * 7) by lia.
    rewrite Z.mod_mul, Z.div_mul by lia. cbn. lia.
  - replace (7 * a + b + 1) with ((b + 1) + a * 7) by lia.
    rewrite Z.mod_add, Z.div_add by lia.
    rewrite Z.mod_small, Z.div_small by lia.
    destruct (Z.eqb_spec (b + 1) 0); lia.
Qed.

(** The quality of an interval of [a] octaves and [b] steps, upwards or
    downwards, whose semitones are those of the major or perfect interval
    of that size, or one more, or one less. *)
Lemma specifier_found (dd c2 a b semis : Z) :
  0 <= a -> 0 <= b <= 6 -> 0 < 7 * a + b -> 0 < semis ->
  (dd = 7 * a + b + 1 /\ c2 = 2 * semis) \/ (dd = - (7 * a + b + 1) /\ c2 = - (2 * semis)) ->
  -1 <= semis - (stepSemis b + 12 * a) <= 1 ->
  isOk (getSpecifierFromGenericChromatic (mkGeneric dd) (mkChromatic c2)).
Proof.
  intros Ha Hb Hpos Hs Hdir Hdiff.
  assert (Habs : Z.abs dd = 7 * a + b + 1) by lia.
  destruct (generic_parts a b dd Ha Hb Habs) as [Hsimple Hoct].
  unfold getSpecifierFromGenericChromatic, normalSemis, perfectable.
  rewrite Hsimple, Hoct. cbv zeta.
  assert (Hsemis :
    (if negb (Direction_eqb (genericDirection (mkGeneric dd))
                (chromaticDirection (mkChromatic c2)))
        && negb (Direction_eqb (genericDirection (mkGeneric dd)) OBLIQUE)
        && negb (Direction_eqb (chromaticDirection (mkChromatic c2)) OBLIQUE)
     then - Z.abs (semitones2 (mkChromatic c2))
     else if undirected (mkGeneric dd) =? 1 then semitones2 (mkChromatic c2)
          else Z.abs (semitones2 (mkChromatic c2))) = 2 * semis).
  { unfold genericDirection, chromaticDirection, undirected. cbn [directed semitones2].
    destruct Hdir as [[-> ->]|[-> ->]].
    - destruct (Z.eqb_spec (7 * a + b + 1) 1); [lia|].
      destruct (Z.ltb_spec 1 (7 * a + b + 1)); [|lia].
      destruct (Z.eqb_spec (2 * semis) 0); [lia|].
      destruct (Z.ltb_spec 0 (2 * semis)); [|lia]. cbn.
      destruct (Z.eqb_spec (Z.abs (7 * a + b + 1)) 1); lia.
    - destruct (Z.eqb_spec (- (7 * a + b + 1)) 1); [lia|].
      destruct (Z.ltb_spec 1 (- (7 * a + b + 1))); [lia|].
      destruct (Z.eqb_spec (- (2 * semis)) 0); [lia|].
      destruct (Z.ltb_spec 0 (- (2 * semis))); [lia|]. cbn.
      destruct (Z.eqb_spec (Z.abs (- (7 * a + b + 1))) 1); lia. }
  rewrite Hsemis.
  replace ((2 * semis + 1) / 2) with semis
    by (apply (Z.div_unique (2 * semis + 1) 2 semis 1); lia).
  replace (b + 1 - 1) with b by lia. fold (stepSemis b).
  set (diff := semis - (stepSemis b + 12 * a)) in *.
  replace (perfOffset + semis - (stepSemis b + 12 * a)) with (4 + diff)
    by (unfold perfOffset, diff; lia).
  replace (majOffset + semis - (stepSemis b + 12 * a)) with (5 + diff)
    by (unfold majOffset, diff; lia).
  clearbody diff.
  assert (Hb' : b = 0 \/ b = 1 \/ b = 2 \/ b = 3 \/ b = 4 \/ b = 5 \/ b = 6) by lia.
  assert (Hd' : diff = -1 \/ diff = 0 \/ diff = 1) by lia.
  destruct Hb' as [->|[->|[->|[->|[->|[->| ->]]]]]];
    destruct Hd' as [->|[->| ->]]; eexists; vm_compute; reflexivity.
Qed.

Ltac step_semis :=
  repeat match goal with
         | |- context [stepSemis ?b] =>
             let v := eval vm_compute in (stepSemis b) in change (stepSemis b) with v
         end.

(** music21 names the interval between any two notes without accidentals. *)
Lemma notesToInterval_plain (p q : Pitch) :
  accidental p = None -> accidental q = None -> isOk (notesToInterval p q).
Proof.
  intros Hp Hq. unfold notesToInterval.
  assert (H : isOk (getSpecifierFromGenericChromatic (notesToGeneric p q)
                      (notesToChromatic p q))).
  { unfold notesToGeneric, notesToChromatic, diatonicNoteNum, ps2. rewrite Hp, Hq.
    destruct p as [s1 a1 o1], q as [s2 a2 o2]. cbn [step octave accidental].
    set (k := o2 - o1).
    replace o2 with (o1 + k) by (unfold k; lia). clearbody k.
    unfold convertStaffDistanceToInterval.
    destruct (Z.eqb_spec (stepNum s2 + 7 * (o1 + k) - (stepNum s1 + 7 * o1)) 0) as [Hz|Hnz].
    - assert (k = 0) as -> by (destruct s1, s2; cbn [stepNum] in Hz; lia).
      assert (s1 = s2) as -> by (destruct s1, s2; cbn [stepNum] in Hz; try lia; reflexivity).
      replace (2 * (12 * (o1 + 0 + 1) + stepRef s2) + 0 - (2 * (12 * (o1 + 1) + stepRef s2) + 0))
        with 0 by lia.
      eexists. vm_compute. reflexivity.
    - destruct (Z.ltb_spec 0 (stepNum s2 + 7 * (o1 + k) - (stepNum s1 + 7 * o1))) as [Hup|Hdn].
      + destruct (Z_le_gt_dec (stepNum s1) (stepNum s2)) as [Hle|Hgt].
        * apply (specifier_found _ _ k (stepNum s2 - stepNum s1)
                   (12 * k + stepRef s2 - stepRef s1));
            destruct s1, s2; cbn [stepNum stepRef] in *; step_semis; lia.
        * apply (specifier_found _ _ (k - 1) (stepNum s2 - stepNum s1 + 7)
                   (12 * k + stepRef s2 - stepRef s1));
            destruct s1, s2; cbn [stepNum stepRef] in *; step_semis; lia.
      + destruct (Z_le_gt_dec (stepNum s2) (stepNum s1)) as [Hle|Hgt].
        * apply (specifier_found _ _ (- k) (stepNum s1 - stepNum s2)
                   (- (12 * k + stepRef s2 - stepRef s1)));
            destruct s1, s2; cbn [stepNum stepRef] in *; step_semis; lia.
        * apply (specifier_found _ _ (- k - 1) (stepNum s1 - stepNum s2 + 7)
                   (- (12 * k + stepRef s2 - stepRef s1)));
            destruct s1, s2; cbn [stepNum stepRef] in *; step_semis; lia. }
  destruct H as [sp ->]. eexists. reflexivity.
Qed.

Lemma windowNames_plain (ps : list Pitch) :
  Forall (fun p => accidental p = None) ps -> isOk (windowNames ps).
Proof.
  intros Hall. apply windowNames_isOk. intros t p q Hp Hq.
  rewrite Forall_lookup in Hall.
  apply notesToInterval_plain; [exact (Hall t p Hp)|exact (Hall (S t) q Hq)].
Qed.

Lemma pwindow_plain (a : list (option Pitch)) (i w : nat) (ps : list Pitch) :
  plainPitches a -> pwindow a i w = Some ps -> Forall (fun p => accidental p = None) ps.
Proof.
  intros Ha Hw. apply pwindow_Some in Hw. destruct Hw as [Hlen Hw].
  apply Forall_lookup. intros t p Ht.
  assert (Hlt : (t < w)%nat) by (apply lookup_lt_Some in Ht; lia).
  specialize (Hw t Hlt). rewrite Ht in Hw. exact (Ha _ p Hw).
Qed.

Lemma alter_pivot_plain (R : RuleSpec) (k : nat) (a : list (option Pitch)) :
  plainPitches a -> alter (fmap (pivotPitch R)) k a = a.
Proof.
  intros Ha. apply list_eq. intros j. destruct (decide (j = k)) as [->|Hne].
  - rewrite list_lookup_alter_eq. destruct (a !! k) as [[p|]|] eqn:Hk; try reflexivity.
    cbn. rewrite pivotPitch_plain; [reflexivity|].
    apply plain_not_flat. exact (Ha k p Hk).
  - rewrite list_lookup_alter_ne by congruence. reflexivity.
Qed.

(** On pitches without accidentals a rule tests every window without
    raising, and takes no flat off. *)
Lemma pscan_body_plain (R : RuleSpec) (i : nat) (a : list (option Pitch)) (h : list nat) :
  plainPitches a -> exists h', pscan_body R i (a, h) = Ok (a, h').
Proof.
  intros Ha. rewrite pscan_body_unfold.
  destruct (pwindow a i (rWidth R)) as [ps|] eqn:Hw; [|eauto].
  destruct (windowNames_plain ps (pwindow_plain a i _ ps Ha Hw)) as [names Hn].
  unfold rTest. rewrite Hn. cbn [mbind result_bind].
  destruct (ruleCheck R ps names); [|eauto].
  rewrite (alter_pivot_plain R _ a Ha). eauto.
Qed.

Lemma forM_pscan_plain (R : RuleSpec) (a : list (option Pitch)) (l : list nat) (h : list nat) :
  plainPitches a -> exists h', forM (pscan_body R) l (a, h) = Ok (a, h').
Proof.
  intros Ha. revert h. induction l as [|i l IH]; intros h; [cbn; eauto|].
  cbn [forM]. destruct (pscan_body_plain R i a h Ha) as [h1 ->]. apply IH.
Qed.

Lemma pscan_plain (R : RuleSpec) (a : list (option Pitch)) :
  plainPitches a -> exists h, pscan R a = Ok (a, h).
Proof. intros Ha. apply forM_pscan_plain. exact Ha. Qed.

Lemma scan_plain (R : RuleSpec) (s : Stream) :
  (rPivot R < rWidth R)%nat -> plainPitches (pitch <$> s) ->
  exists s' h, scan R s = Ok (s', h) /\ pitch <$> s' = pitch <$> s.
Proof.
  intros Hpv Ha. destruct (pscan_plain R _ Ha) as [h Hh].
  destruct (pscan_lift R s _ h Hpv Hh) as (s' & Hs & Hp). eauto.
Qed.

(** On pitches without accidentals the pivots a rule matches are those of
    the windows that pass its test as the pitches stand. *)
Lemma pscan_plain_hits (R : RuleSpec) (a a' : list (option Pitch)) (h : list nat) :
  plainPitches a -> pscan R a = Ok (a', h) ->
  a' = a
  /\ forall k, k ∈ h ->
       exists i ps, k = (i + rPivot R)%nat /\ pwindow a i (rWidth R) = Some ps
                    /\ rTest R ps = Ok true.
Proof.
  intros Ha Hrun. unfold pscan in Hrun.
  apply (forM_seq_ind (pscan_body R)
           (fun _ st => fst st = a
              /\ forall k, k ∈ snd st ->
                   exists i ps, k = (i + rPivot R)%nat /\ pwindow a i (rWidth R) = Some ps
                                /\ rTest R ps = Ok true)
           _ _ _ _ Hrun).
  - split; [reflexivity|]. intros k Hk. apply elem_of_nil in Hk. destruct Hk.
  - intros i [x hx] [y hy] _ [Hx Hh] Hb. cbn [fst snd] in *. subst x.
    rewrite pscan_body_unfold in Hb.
    destruct (pwindow a i (rWidth R)) as [ps|] eqn:Hw.
    + destruct (rTest R ps) as [[|]|e] eqn:Ht; cbn [mbind result_bind] in Hb;
        try discriminate; injection Hb as <- <-.
      * split; [apply alter_pivot_plain; exact Ha|]. intros k Hk.
        apply elem_of_app in Hk. destruct Hk as [Hk|Hk]; [exact (Hh k Hk)|].
        apply list_elem_of_singleton in Hk. subst k. eauto.
      * split; [reflexivity|exact Hh].
    + injection Hb as <- <-. split; [reflexivity|exact Hh].
Qed.

Lemma enteredBy_three (R : RuleSpec) (n1 n2 : string) (a : list (option Pitch)) (k : nat) :
  rPattern R = [n1; n2] -> rPivot R = 1%nat ->
  (exists i ps, k = (i + rPivot R)%nat /\ pwindow a i (rWidth R) = Some ps
                /\ rTest R ps = Ok true) ->
  enteredBy a k n1.
Proof.
  intros Hpat Hpiv (i & ps & -> & Hw & Ht).
  assert (Hwd : rWidth R = 3%nat) by (unfold rWidth; rewrite Hpat; reflexivity).
  rewrite Hwd in Hw. rewrite Hpiv.
  destruct (list_length3 ps (pwindow_length _ i 3 ps Hw)) as (p1 & p2 & p3 & ->).
  apply (rTest_three R n1 n2 p1 p2 p3 Hpat Hpiv) in Ht.
  destruct Ht as (i1 & i2 & N1 & _ & D1 & _).
  apply pwindow3 in Hw. destruct Hw as (W1 & W2 & _).
  exists i, p1, p2, i1. replace (i + 1)%nat with (S i) by lia. auto.
Qed.

Lemma enteredBy_four (R : RuleSpec) (n1 n2 n3 : string) (a : list (option Pitch)) (k : nat) :
  rPattern R = [n1; n2; n3] -> rPivot R = 2%nat ->
  (exists i ps, k = (i + rPivot R)%nat /\ pwindow a i (rWidth R) = Some ps
                /\ rTest R ps = Ok true) ->
  enteredBy a k n2.
Proof.
  intros Hpat Hpiv (i & ps & -> & Hw & Ht).
  assert (Hwd : rWidth R = 4%nat) by (unfold rWidth; rewrite Hpat; reflexivity).
  rewrite Hwd in Hw. rewrite Hpiv.
  destruct (list_length4 ps (pwindow_length _ i 4 ps Hw)) as (p1 & p2 & p3 & p4 & ->).
  apply (rTest_four R n1 n2 n3 p1 p2 p3 p4 Hpat Hpiv) in Ht.
  destruct Ht as (i1 & i2 & i3 & _ & N2 & _ & _ & D2 & _).
  apply pwindow4 in Hw. destruct Hw as (_ & W2 & W3 & _).
  exists (S i), p2, p3, i2. replace (i + 2)%nat with (S (S i)) by lia. auto.
Qed.

Lemma enteredBy_unique (a : list (option Pitch)) (k : nat) (n1 n2 : string) :
  enteredBy a k n1 -> enteredBy a k n2 -> n1 = n2.
Proof.
  intros (k0 & p & q & iv & -> & Hp & Hq & Hi & <-) (k1 & p' & q' & iv' & [= <-] & Hp' & Hq' & Hi' & <-).
  rewrite Hp in Hp'. rewrite Hq in Hq'. injection Hp' as <-. injection Hq' as <-.
  rewrite Hi in Hi'. injection Hi' as <-. reflexivity.
Qed.

(** * Properties *)

(** ** The ficta store: promotion and restoration *)

Lemma clearAccidental_saves (n : GeneralNote) (a : Accidental) :
  pitch_accidental n = Some a ->
  savedAccidental (editorial (clearAccidental n)) = Some (Some a)
  /\ pitch_accidental (clearAccidental n) = None.
Proof.
  intros Ha. unfold clearAccidental. rewrite Ha. split; [reflexivity|].
  unfold pitch_accidental in *. simpl. destruct (pitch n); [reflexivity|discriminate].
Qed.

(** Promotion is effective: the promoted note sounds with the proposed
    accidental. *)
Lemma promote_sets_accidental (slot : FictaSlot) (n : GeneralNote) (a v : Accidental) :
  pitch_accidental n = Some a ->
  slotValue slot n = Some (Some v) ->
  pitch_accidental (promote slot n) = Some v.
Proof.
  intros Ha Hv. unfold pitch_accidental in *.
  destruct slot; simpl in Hv; unfold promote, capuaFictaToAccidental,
    pmfcFictaToAccidental; rewrite Hv; unfold clearAccidental, pitch_accidental;
    rewrite Ha; simpl; destruct (pitch n); simpl in *; congruence.
Qed.

(** C1. Promote/restore round trip: on a note that carries a real accidental
    A, promoting a non-null ficta V from either slot
    ([capuaFictaToAccidental], [pmfcFictaToAccidental]) and then calling
    [restoreAccidental] gives back the pitch of the note, with accidental
    exactly A. *)
Theorem promote_restore_roundtrip (slot : FictaSlot) (n : GeneralNote) (a v : Accidental) :
  pitch_accidental n = Some a ->
  slotValue slot n = Some (Some v) ->
  pitch_accidental (restoreAccidental (promote slot n)) = Some a
  /\ pitch (restoreAccidental (promote slot n)) = pitch n.
Proof.
  intros Ha Hv.
  assert (Hp : pitch (restoreAccidental (promote slot n)) = pitch n).
  { unfold pitch_accidental in Ha.
    destruct slot; simpl in Hv; unfold promote, capuaFictaToAccidental,
      pmfcFictaToAccidental; rewrite Hv; unfold clearAccidental, pitch_accidental;
      destruct (pitch n) as [[s acc o]|] eqn:Hpn; simpl in *; try discriminate;
      subst acc; unfold restoreAccidental; simpl; rewrite Hpn; reflexivity. }
  split; [|exact Hp].
  unfold pitch_accidental. rewrite Hp. exact Ha.
Qed.

Lemma promote_restore_roundtrip_witness :
  pitch_accidental (restoreAccidental (promote CapuaSlot bFlatWithFicta)) = Some flat
  /\ pitch (restoreAccidental (promote CapuaSlot bFlatWithFicta)) = pitch bFlatWithFicta.
Proof.
  apply (promote_restore_roundtrip CapuaSlot bFlatWithFicta flat natural); reflexivity.
Defined.

(** X19. A note without a real accidental and without an
    earlier [savedAccidental] keeps the promoted accidental after
    [restoreAccidental], since [clearAccidental] saved nothing. *)
Lemma promote_restore_without_accidental (slot : FictaSlot) (n : GeneralNote)
    (p : Pitch) (v : Accidental) :
  pitch n = Some p -> accidental p = None ->
  savedAccidental (editorial n) = None ->
  slotValue slot n = Some (Some v) ->
  pitch_accidental (restoreAccidental (promote slot n)) = Some v.
Proof.
  intros Hp Ha Hs Hv.
  destruct slot; simpl in Hv; unfold promote, capuaFictaToAccidental,
    pmfcFictaToAccidental; rewrite Hv; unfold clearAccidental, pitch_accidental;
    rewrite Hp, Ha; unfold restoreAccidental; simpl; rewrite Hs; simpl;
    rewrite Hp; reflexivity.
Qed.

(** ** The interval classifier *)

Lemma inList_In (x : string) (l : list string) : inList x l = true <-> In x l.
Proof.
  unfold inList. rewrite existsb_exists. split.
  - intros [y [Hy He]]. apply String.eqb_eq in He. subst. exact Hy.
  - intros H. exists x. split; [exact H|apply String.eqb_refl].
Qed.

Lemma inList_not_In (x : string) (l : list string) : inList x l = false <-> ~ In x l.
Proof.
  rewrite <- inList_In. destruct (inList x l); split; intros; congruence.
Qed.

Lemma PerfectCons_not_ImperfCons (x : string) : In x ImperfCons -> ~ In x PerfectCons.
Proof. unfold ImperfCons, PerfectCons; simpl; intros H1 H2; intuition (subst; discriminate). Qed.

Lemma Others_not_Cons (x : string) :
  In x Others -> ~ In x PerfectCons /\ ~ In x ImperfCons.
Proof.
  unfold Others, ImperfCons, PerfectCons; simpl; intros H1.
  split; intros H2; intuition (subst; discriminate).
Qed.

(** C4. Classifier totality: a name of the perfect list gives 'perfect
    cons', a name of the imperfect list 'imperfect cons', a name of the
    list of the others 'dissonance'; no interval, or an interval without a
    diatonic part, gives None; every other name raises the CapuaException
    of the unrecognized interval. *)
Theorem getIntervalType_total :
  getIntervalType None = Ok None
  /\ (forall i, diatonic i = None -> getIntervalType (Some i) = Ok None)
  /\ (forall i d, diatonic i = Some d ->
        In (DiatonicInterval_name d) PerfectCons ->
        getIntervalType (Some i) = Ok (Some "perfect cons"))
  /\ (forall i d, diatonic i = Some d ->
        In (DiatonicInterval_name d) ImperfCons ->
        getIntervalType (Some i) = Ok (Some "imperfect cons"))
  /\ (forall i d, diatonic i = Some d ->
        In (DiatonicInterval_name d) Others ->
        getIntervalType (Some i) = Ok (Some "dissonance"))
  /\ (forall i d, diatonic i = Some d ->
        ~ In (DiatonicInterval_name d) PerfectCons ->
        ~ In (DiatonicInterval_name d) ImperfCons ->
        ~ In (DiatonicInterval_name d) Others ->
        getIntervalType (Some i) = Raise (unrecognized i)).
Proof.
  split; [reflexivity|].
  split; [intros i Hd; unfold getIntervalType; rewrite Hd; reflexivity|].
  split; [|split; [|split]].
  - intros i d Hd Hin. unfold getIntervalType. rewrite Hd.
    apply inList_In in Hin. rewrite Hin. reflexivity.
  - intros i d Hd Hin. unfold getIntervalType. rewrite Hd.
    pose proof (PerfectCons_not_ImperfCons _ Hin) as Hn.
    apply inList_not_In in Hn. apply inList_In in Hin. rewrite Hn, Hin. reflexivity.
  - intros i d Hd Hin. unfold getIntervalType. rewrite Hd.
    destruct (Others_not_Cons _ Hin) as [Hn1 Hn2].
    apply inList_not_In in Hn1, Hn2. apply inList_In in Hin.
    rewrite Hn1, Hn2, Hin. reflexivity.
  - intros i d Hd H1 H2 H3. unfold getIntervalType. rewrite Hd.
    apply inList_not_In in H1, H2, H3. rewrite H1, H2, H3. reflexivity.
Qed.

(** The classifier on intervals built from notes: C4-G4, C4-E4, F4-B4 and
    the augmented unison C4-C#4. *)
Lemma getIntervalType_total_witness :
  (notesToInterval (pitchOf Step.C None 4) (pitchOf Step.G None 4) ≫= fun i =>
     getIntervalType (Some i)) = Ok (Some "perfect cons")
  /\ (notesToInterval (pitchOf Step.C None 4) (pitchOf Step.E None 4) ≫= fun i =>
     getIntervalType (Some i)) = Ok (Some "imperfect cons")
  /\ (notesToInterval (pitchOf Step.F None 4) (pitchOf Step.B None 4) ≫= fun i =>
     getIntervalType (Some i)) = Ok (Some "dissonance")
  /\ (notesToInterval (pitchOf Step.C None 4) (pitchOf Step.C (Some sharp) 4) ≫= fun i =>
     getIntervalType (Some i))
     = Raise (CapuaException
         "Wow!  The first Augmented Unison I have ever seen in 14th century music!  Go publish!  (or check for errors...)").
Proof.
  destruct getIntervalType_total as (_ & _ & Hp & Hi & Ho & He).
  split; [|split; [|split]].
  - apply (Hp _ (mkDiatonic PERFECT (mkGeneric 5))); [reflexivity|vm_compute; tauto].
  - apply (Hi _ (mkDiatonic MAJOR (mkGeneric 3))); [reflexivity|vm_compute; tauto].
  - apply (Ho _ (mkDiatonic AUGMENTED (mkGeneric 4))); [reflexivity|vm_compute; tauto].
  - apply (He (mkInterval (Some (mkDiatonic AUGMENTED (mkGeneric 1))) (mkChromatic 2))
               (mkDiatonic AUGMENTED (mkGeneric 1)));
      [reflexivity|vm_compute; intuition discriminate..].
Defined.

(** ** The tallies *)

Lemma compareNote_tally (n : GeneralNote) :
  compareNoteCapuaToEditor n = Ok (noteTally n).
Proof.
  unfold compareNoteCapuaToEditor, noteTally.
  destruct (isRest n); [reflexivity|].
  destruct (pmfcFicta (editorial n)), (capuaFicta (editorial n)); reflexivity.
Qed.

(** Where no key of the two ficta slots holds None, the tally of the code
    is the tally of the specification. *)
Lemma compareNote_agrees (n : GeneralNote) :
  keysHoldFicta n = true -> compareNoteCapuaToEditor n = Ok (noteTally_spec n).
Proof.
  intros Hk. rewrite compareNote_tally. f_equal. unfold noteTally, noteTally_spec.
  destruct (isRest n); [reflexivity|]. unfold keysHoldFicta in Hk.
  destruct (pmfcFicta (editorial n)) as [[a|]|], (capuaFicta (editorial n)) as [[b|]|];
    try discriminate Hk; reflexivity.
Qed.

(** C6. [compareNoteCapuaToEditor] tests whether the keys pmfcFicta and
    capuaFicta are in the editorial of the note, not whether a ficta is
    set under them.  On the F of D4 F4 G4 as [applyCapuaToStream] leaves
    it, with the key pmfcFicta holding None (the editors gave no ficta) and
    a sharp as capuaFicta, it counts pmfcAlt, capuaAlt and pmfcAndCapua,
    where only the rule ficta is set and the per-note comparison of the
    specification counts capuaAlt and capuaNotPmfc. *)
Theorem compareNoteCapuaToEditor_counts_empty_key :
  exists n,
    applyCapuaToStream (flatStream thirdLine) = Ok (flatStream thirdLineAfter)
    /\ thirdLineAfter !! 1%nat = Some n
    /\ isRest n = false
    /\ pmfcFicta (editorial n) = Some None
    /\ capuaFicta (editorial n) = Some (Some sharp)
    /\ compareNoteCapuaToEditor n
       = Ok [("totalNotes", 1); ("pmfcAlt", 1); ("capuaAlt", 1);
             ("pmfcNotCapua", 0); ("capuaNotPmfc", 0); ("pmfcAndCapua", 1)]
    /\ noteTally_spec n
       = [("totalNotes", 1); ("pmfcAlt", 0); ("capuaAlt", 1);
          ("pmfcNotCapua", 0); ("capuaNotPmfc", 1); ("pmfcAndCapua", 0)]
    /\ compareNoteCapuaToEditor n <> Ok (noteTally_spec n).
Proof.
  eexists. split; [vm_compute; reflexivity|]. split; [vm_compute; reflexivity|].
  repeat (split; [reflexivity|]). discriminate.
Qed.

(** The scenario of the specification: both ficta set. *)
Example compareNote_both_set :
  compareNoteCapuaToEditor bFlatWithFicta
  = Ok [("totalNotes", 1); ("pmfcAlt", 1); ("capuaAlt", 1);
        ("pmfcNotCapua", 0); ("capuaNotPmfc", 0); ("pmfcAndCapua", 1)].
Proof. reflexivity. Qed.

Lemma noteTally_vec (n : GeneralNote) : noteTally n = tally6 (noteVec n).
Proof. unfold noteTally, noteVec. destruct (isRest n); reflexivity. Qed.

Lemma addInto_tally6 (t u : Z * Z * Z * Z * Z * Z) :
  addInto (tally6 u) (tally6 t) = Ok (tally6 (add6 t u)).
Proof.
  destruct t as [[[[[a b] c] d] e] f], u as [[[[[a' b'] c'] d'] e'] f'].
  reflexivity.
Qed.

Lemma add6_assoc (t u v : Z * Z * Z * Z * Z * Z) : add6 (add6 t u) v = add6 t (add6 u v).
Proof.
  destruct t as [[[[[a b] c] d] e] f], u as [[[[[a' b'] c'] d'] e'] f'],
    v as [[[[[a'' b''] c''] d''] e''] f''].
  unfold add6. rewrite !Z.add_assoc. reflexivity.
Qed.

Lemma add6_zero_l (t : Z * Z * Z * Z * Z * Z) : add6 (0, 0, 0, 0, 0, 0) t = t.
Proof. destruct t as [[[[[a b] c] d] e] f]. reflexivity. Qed.

Lemma fold_add6_from (s : Stream) (t : Z * Z * Z * Z * Z * Z) :
  fold_left (fun t n => add6 t (noteVec n)) s t = add6 t (streamVec s).
Proof.
  unfold streamVec. revert t.
  induction s as [|n s IH] using rev_ind; intros t.
  - destruct t as [[[[[a b] c] d] e] f]. simpl. rewrite !Z.add_0_r. reflexivity.
  - rewrite !fold_left_app. simpl. rewrite IH. apply add6_assoc.
Qed.

Lemma streamVec_app (s1 s2 : Stream) :
  streamVec (s1 ++ s2) = add6 (streamVec s1) (streamVec s2).
Proof.
  unfold streamVec at 1. rewrite fold_left_app. rewrite fold_add6_from.
  fold (streamVec s1). reflexivity.
Qed.

Lemma compareSrcStream_from (s : Stream) (t : Z * Z * Z * Z * Z * Z) :
  forM (fun note1 totalDict =>
          thisDict ← compareNoteCapuaToEditor note1;
          addInto thisDict totalDict) s (tally6 t)
  = Ok (tally6 (fold_left (fun t n => add6 t (noteVec n)) s t)).
Proof.
  revert t. induction s as [|n s IH]; intros t; [reflexivity|].
  cbn [forM fold_left]. rewrite compareNote_tally, noteTally_vec.
  cbn [mbind result_bind]. rewrite addInto_tally6. apply IH.
Qed.

Lemma compareSrcStream_vec (s : Stream) :
  compareSrcStreamCapuaToEditor s = Ok (tally6 (streamVec s)).
Proof. apply (compareSrcStream_from s (0, 0, 0, 0, 0, 0)). Qed.

Lemma dict_get_tally6_add (k : string) (t u : Z * Z * Z * Z * Z * Z) :
  In k (dict_keys emptyStats) ->
  exists a b, dict_get k (tally6 t) = Some a /\ dict_get k (tally6 u) = Some b
              /\ dict_get k (tally6 (add6 t u)) = Some (a + b).
Proof.
  destruct t as [[[[[a b] c] d] e] f], u as [[[[[a' b'] c'] d'] e'] f'].
  simpl. intros [H|[H|[H|[H|[H|[H|[]]]]]]]; subst k; simpl; eauto.
Qed.

(** C7. Tally additivity: the tally of [compareSrcStreamCapuaToEditor] over
    the concatenation of two note sequences is, category by category, the
    sum of the tallies over the two sequences (and none of the three runs
    raises). *)
Theorem tally_additivity (sA sB : Stream) :
  exists tA tB tAB : Dict,
    compareSrcStreamCapuaToEditor sA = Ok tA
    /\ compareSrcStreamCapuaToEditor sB = Ok tB
    /\ compareSrcStreamCapuaToEditor (sA ++ sB) = Ok tAB
    /\ dict_keys tAB = dict_keys emptyStats
    /\ forall k, In k (dict_keys emptyStats) ->
         exists a b, dict_get k tA = Some a /\ dict_get k tB = Some b
                     /\ dict_get k tAB = Some (a + b).
Proof.
  exists (tally6 (streamVec sA)), (tally6 (streamVec sB)),
         (tally6 (add6 (streamVec sA) (streamVec sB))).
  split; [apply compareSrcStream_vec|].
  split; [apply compareSrcStream_vec|].
  split; [rewrite compareSrcStream_vec, streamVec_app; reflexivity|].
  split.
  - destruct (add6 (streamVec sA) (streamVec sB)) as [[[[[a b] c] d] e] f]. reflexivity.
  - intros k Hk. apply dict_get_tally6_add. exact Hk.
Qed.

(** ** The corpus loops *)

Section CorpusProperties.
Variable makeWork : Z -> Work.
Variable attach : Stream -> Stream -> Stream.

(** C8. Defensive skipping: in [findCorrections] and in [improvedHarmony]
    a piece whose incipit is unset, and a snippet with fewer than two
    parts, raises nothing and leaves every total (and the Opus) as it
    was; the loop goes on with the next piece or snippet. *)
Theorem defensive_skipping :
  (forall ct nc nm j st, incipit (makeWork j) = None ->
     findCorrections_piece makeWork attach ct nc nm j st = Ok st)
  /\ (forall ct nc nm j k sn st, (length (parts sn) < 2)%nat ->
     findCorrections_snippet attach ct nc nm j k (Some sn) st = Ok st)
  /\ (forall j checkDict, incipit (makeWork j) = None ->
     improvedHarmony_piece makeWork attach j checkDict = Ok checkDict)
  /\ (forall sn checkDict, (length (parts sn) < 2)%nat ->
     improvedHarmony_snippet attach (Some sn) checkDict = Ok checkDict)
  /\ (forall ct nc nm j js st, incipit (makeWork j) = None ->
     forM (findCorrections_piece makeWork attach ct nc nm) (j :: js) st
     = forM (findCorrections_piece makeWork attach ct nc nm) js st)
  /\ (forall ct nc nm j k sn sns st, (length (parts sn) < 2)%nat ->
     forSnippets (findCorrections_snippet attach ct nc nm j) k (Some sn :: sns) st
     = forSnippets (findCorrections_snippet attach ct nc nm j) (S k) sns st)
  /\ (forall j js checkDict, incipit (makeWork j) = None ->
     forM (improvedHarmony_piece makeWork attach) (j :: js) checkDict
     = forM (improvedHarmony_piece makeWork attach) js checkDict)
  /\ (forall sn sns checkDict, (length (parts sn) < 2)%nat ->
     forM (improvedHarmony_snippet attach) (Some sn :: sns) checkDict
     = forM (improvedHarmony_snippet attach) sns checkDict).
Proof.
  assert (H1 : forall ct nc nm j st, incipit (makeWork j) = None ->
     findCorrections_piece makeWork attach ct nc nm j st = Ok st).
  { intros ct nc nm j st Hi. unfold findCorrections_piece. rewrite Hi. reflexivity. }
  assert (H2 : forall ct nc nm j k sn st, (length (parts sn) < 2)%nat ->
     findCorrections_snippet attach ct nc nm j k (Some sn) st = Ok st).
  { intros ct nc nm j k sn [td op] Hl. unfold findCorrections_snippet.
    apply Nat.ltb_lt in Hl. rewrite Hl.
    destruct (inList "Incipit" (classes sn)); reflexivity. }
  assert (H3 : forall j checkDict, incipit (makeWork j) = None ->
     improvedHarmony_piece makeWork attach j checkDict = Ok checkDict).
  { intros j cd Hi. unfold improvedHarmony_piece. rewrite Hi. reflexivity. }
  assert (H4 : forall sn checkDict, (length (parts sn) < 2)%nat ->
     improvedHarmony_snippet attach (Some sn) checkDict = Ok checkDict).
  { intros sn cd Hl. unfold improvedHarmony_snippet.
    apply Nat.ltb_lt in Hl. rewrite Hl.
    destruct (inList "Incipit" (classes sn)); reflexivity. }
  repeat apply conj; try assumption.
  - intros ct nc nm j js st Hi. cbn [forM]. rewrite H1 by exact Hi. reflexivity.
  - intros ct nc nm j k sn sns st Hl. cbn [forSnippets]. rewrite H2 by exact Hl.
    reflexivity.
  - intros j js cd Hi. cbn [forM]. rewrite H3 by exact Hi. reflexivity.
  - intros sn sns cd Hl. cbn [forM]. rewrite H4 by exact Hl. reflexivity.
Qed.
End CorpusProperties.

Lemma defensive_skipping_witness :
  findCorrections_piece skippedCorpus attachAligned "Maj3" 1 "m3" 2
    ([("totalNotes", 5)], [(1, 0%nat)]) = Ok ([("totalNotes", 5)], [(1, 0%nat)])
  /\ findCorrections_snippet attachAligned "Maj3" 1 "m3" 3 0 (Some cadenceOneVoice)
       ([("totalNotes", 5)], [(1, 0%nat)]) = Ok ([("totalNotes", 5)], [(1, 0%nat)])
  /\ improvedHarmony_piece skippedCorpus attachAligned 2 [("perfCapua", 7)]
     = Ok [("perfCapua", 7)]
  /\ improvedHarmony_snippet attachAligned (Some cadenceOneVoice) [("perfCapua", 7)]
     = Ok [("perfCapua", 7)].
Proof.
  destruct (defensive_skipping skippedCorpus attachAligned)
    as (H1 & H2 & H3 & H4 & _).
  split; [apply H1; reflexivity|].
  split; [apply H2; simpl; lia|].
  split; [apply H3; reflexivity|].
  apply H4; simpl; lia.
Defined.

(** Over the whole of that corpus both functions return totals of zero and
    [findCorrections] an empty Opus. *)
Example findCorrections_skippedCorpus :
  findCorrections skippedCorpus attachAligned "Maj3" 2 4
  = Ok ([("totalNotes", 0); ("pmfcAlt", 0); ("capuaAlt", 0); ("pmfcNotCapua", 0);
         ("capuaNotPmfc", 0); ("pmfcAndCapua", 0); ("potentialChange", 0)], [])
  /\ improvedHarmony skippedCorpus attachAligned 2 4
     = Ok [("perfIgnored", 0); ("perfCapua", 0); ("imperfIgnored", 0); ("imperfCapua", 0)].
Proof. split; vm_compute; reflexivity. Qed.

(** C9, as the code behaves: in the cadence E4 D4 over C4 D4 no note
    sounds a minor third, so no note qualifies and every total stays zero,
    yet the Opus returned by [findCorrections] holds the cadence: the
    insertion before the note loops is unconditional, and the insertion on
    the first qualifying note never runs. *)
Theorem findCorrections_opus_unfiltered :
  findCorrections cadenceCorpus attachAligned "Maj3" 2 3
  = Ok ([("totalNotes", 0); ("pmfcAlt", 0); ("capuaAlt", 0); ("pmfcNotCapua", 0);
         ("capuaNotPmfc", 0); ("pmfcAndCapua", 0); ("potentialChange", 0)],
        [(2, 1%nat)]).
Proof. vm_compute. reflexivity. Qed.

(** * The rules run in their order and each rule run alone *)

Lemma counted_Ok (r : result (Stream * list nat)) (s' : Stream) (c : nat) :
  counted r = Ok (s', c) -> exists h, r = Ok (s', h) /\ c = length h.
Proof.
  destruct r as [[s h]|e]; cbn; [|discriminate]. intros [= <- <-]. eauto.
Qed.

Lemma pivot_inside_ruleOne : (rPivot ruleOne < rWidth ruleOne)%nat.
Proof. unfold rWidth. cbn. lia. Qed.
Lemma pivot_inside_ruleTwo : (rPivot ruleTwo < rWidth ruleTwo)%nat.
Proof. unfold rWidth. cbn. lia. Qed.
Lemma pivot_inside_ruleThree : (rPivot ruleThree < rWidth ruleThree)%nat.
Proof. unfold rWidth. cbn. lia. Qed.
Lemma pivot_inside_ruleFourB : (rPivot ruleFourB < rWidth ruleFourB)%nat.
Proof. unfold rWidth. cbn. lia. Qed.

(** A run on the pitches of a stream is a run on the stream, with the same
    pivots. *)
Lemma pscan_counted (R : RuleSpec) (s : Stream) (b : list (option Pitch)) (h : list nat) :
  (rPivot R < rWidth R)%nat ->
  pscan R (pitch <$> s) = Ok (b, h) ->
  exists t, counted (scan R s) = Ok (t, length h).
Proof.
  intros Hpv Hrun. destruct (pscan_lift R s b h Hpv Hrun) as (t & Ht & _).
  exists t. rewrite Ht. reflexivity.
Qed.

(** The four rules of [applyCapuaToStream], run one after the other on a
    stream, match the same pivots as each of them run alone on a copy of
    the stream as it was. *)
Lemma ordering_pivots (s0 s1 s2 s3 s4 copy : Stream) (h1 h2 h3 h4 : list nat) :
  pitch <$> copy = pitch <$> s0 ->
  scan ruleOne s0 = Ok (s1, h1) -> scan ruleTwo s1 = Ok (s2, h2) ->
  scan ruleThree s2 = Ok (s3, h3) -> scan ruleFourB s3 = Ok (s4, h4) ->
  (exists b, pscan ruleOne (pitch <$> copy) = Ok (b, h1))
  /\ (exists b, pscan ruleTwo (pitch <$> copy) = Ok (b, h2))
  /\ (exists b, pscan ruleThree (pitch <$> copy) = Ok (b, h3))
  /\ (exists b, pscan ruleFourB (pitch <$> copy) = Ok (b, h4)).
Proof.
  intros Hcopy R1 R2 R3 R4. rewrite Hcopy.
  apply (scan_pitches _ _ _ _ pivot_inside_ruleOne) in R1.
  apply (scan_pitches _ _ _ _ pivot_inside_ruleTwo) in R2.
  apply (scan_pitches _ _ _ _ pivot_inside_ruleThree) in R3.
  apply (scan_pitches _ _ _ _ pivot_inside_ruleFourB) in R4.
  destruct (ruleOne_establish false _ _ _ _ (Sim_refl false (pitch <$> s0)) R1) as [S1 _].
  pose proof (ruleTwo_establish false _ _ _ _ S1 R2) as S2.
  pose proof (pscan_noclear ruleThree _ _ _ eq_refl R3) as E3.
  split; [eauto|]. split; [exact (ruleTwo_sim _ _ _ _ S1 R2)|].
  split; [exact (ruleThree_sim true _ _ _ _ S2 R3)|].
  rewrite E3 in R4. exact (ruleFourB_sim true _ _ _ _ S2 R4).
Qed.

(** C2. Rule ordering independence: when capuaRuleOne, capuaRuleTwo,
    capuaRuleThree and capuaRuleFourB are run in this order on a stream,
    each on what the one before left, every rule returns the count that it
    returns when run alone on a copy of the stream as it was before the
    first rule (a copy with the same notes and rests, whatever its
    annotations). *)
Theorem rule_ordering_independence (s0 s1 s2 s3 s4 copy : Stream) (c1 c2 c3 c4 : nat) :
  pitch <$> copy = pitch <$> s0 ->
  capuaRuleOne s0 = Ok (s1, c1) -> capuaRuleTwo s1 = Ok (s2, c2) ->
  capuaRuleThree s2 = Ok (s3, c3) -> capuaRuleFourB s3 = Ok (s4, c4) ->
  (exists t, capuaRuleOne copy = Ok (t, c1))
  /\ (exists t, capuaRuleTwo copy = Ok (t, c2))
  /\ (exists t, capuaRuleThree copy = Ok (t, c3))
  /\ (exists t, capuaRuleFourB copy = Ok (t, c4)).
Proof.
  intros Hcopy R1 R2 R3 R4.
  rewrite capuaRuleOne_scan in R1. rewrite capuaRuleTwo_scan in R2.
  rewrite capuaRuleThree_scan in R3. rewrite capuaRuleFourB_scan in R4.
  apply counted_Ok in R1, R2, R3, R4.
  destruct R1 as (h1 & R1 & ->), R2 as (h2 & R2 & ->), R3 as (h3 & R3 & ->),
    R4 as (h4 & R4 & ->).
  destruct (ordering_pivots s0 s1 s2 s3 s4 copy h1 h2 h3 h4 Hcopy R1 R2 R3 R4)
    as ((b1 & P1) & (b2 & P2) & (b3 & P3) & (b4 & P4)).
  rewrite capuaRuleOne_scan, capuaRuleTwo_scan, capuaRuleThree_scan, capuaRuleFourB_scan.
  split; [exact (pscan_counted _ _ _ _ pivot_inside_ruleOne P1)|].
  split; [exact (pscan_counted _ _ _ _ pivot_inside_ruleTwo P2)|].
  split; [exact (pscan_counted _ _ _ _ pivot_inside_ruleThree P3)|].
  exact (pscan_counted _ _ _ _ pivot_inside_ruleFourB P4).
Qed.

Lemma rule_ordering_independence_witness :
  (capuaRuleOne exampleLine = Ok (exampleAfterOne, 1%nat)
   /\ capuaRuleTwo exampleAfterOne = Ok (exampleAfterTwo, 2%nat)
   /\ capuaRuleThree exampleAfterTwo = Ok (exampleAfterThree, 1%nat)
   /\ capuaRuleFourB exampleAfterThree = Ok (exampleAfterFourB, 1%nat))
  /\ (exists t, capuaRuleOne exampleLine = Ok (t, 1%nat))
  /\ (exists t, capuaRuleTwo exampleLine = Ok (t, 2%nat))
  /\ (exists t, capuaRuleThree exampleLine = Ok (t, 1%nat))
  /\ (exists t, capuaRuleFourB exampleLine = Ok (t, 1%nat)).
Proof.
  assert (R1 : capuaRuleOne exampleLine = Ok (exampleAfterOne, 1%nat))
    by (vm_compute; reflexivity).
  assert (R2 : capuaRuleTwo exampleAfterOne = Ok (exampleAfterTwo, 2%nat))
    by (vm_compute; reflexivity).
  assert (R3 : capuaRuleThree exampleAfterTwo = Ok (exampleAfterThree, 1%nat))
    by (vm_compute; reflexivity).
  assert (R4 : capuaRuleFourB exampleAfterThree = Ok (exampleAfterFourB, 1%nat))
    by (vm_compute; reflexivity).
  split; [repeat split; assumption|].
  exact (rule_ordering_independence exampleLine exampleAfterOne exampleAfterTwo
           exampleAfterThree exampleAfterFourB exampleLine 1 2 1 1 eq_refl R1 R2 R3 R4).
Defined.

(** * Rule 1 *)

Lemma stepIs_false (p : Pitch) (x : Step.t) : stepIs p x = false <-> step p <> x.
Proof.
  unfold stepIs. destruct (step p), x; cbn; split; intros H; try congruence;
    try reflexivity; try (exfalso; apply H; reflexivity).
Qed.

Lemma ruleOneWindow_test (s : Stream) (i : nat) :
  ruleOneWindow s i <->
  exists ps, pwindow (pitch <$> s) i 3 = Some ps /\ rTest ruleOne ps = Ok true.
Proof.
  split.
  - intros (n1 & n2 & n3 & p1 & p2 & p3 & i1 & i2 & L1 & L2 & L3 & P1 & P2 & P3
            & N1 & D1 & N2 & D2 & A1 & A3 & SA & SD).
    exists [p1; p2; p3]. split.
    + apply pwindow_Some. split; [reflexivity|]. intros [|[|[|t]]] Ht; cbn.
      * rewrite Nat.add_0_r, list_lookup_fmap, L1. cbn. rewrite P1. reflexivity.
      * rewrite list_lookup_fmap, L2. cbn. rewrite P2. reflexivity.
      * rewrite list_lookup_fmap, L3. cbn. rewrite P3. reflexivity.
      * lia.
    + apply (rTest_three ruleOne "M-2" "M2" p1 p2 p3 eq_refl eq_refl).
      exists i1, i2. repeat (split; [assumption|]). split.
      * cbn. unfold plainAt. cbn.
        rewrite (proj2 (not_hasAccidental p1) A1), (proj2 (not_hasAccidental p3) A3).
        reflexivity.
      * split; apply stepIs_false; assumption.
  - intros (ps & Hw & Ht).
    destruct (list_length3 ps (pwindow_length _ i 3 ps Hw)) as (p1 & p2 & p3 & ->).
    apply (rTest_three ruleOne "M-2" "M2" p1 p2 p3 eq_refl eq_refl) in Ht.
    destruct Ht as (i1 & i2 & N1 & N2 & D1 & D2 & Hpl & SA & SD).
    cbn [ruleOne rPlain forallb] in Hpl.
    apply andb_prop in Hpl. destruct Hpl as [Hp1 Hpl]. apply andb_prop in Hpl.
    destruct Hpl as [Hp3 _].
    apply (plainAt_true [p1; p2; p3] 0%nat p1 eq_refl) in Hp1.
    apply (plainAt_true [p1; p2; p3] 2%nat p3 eq_refl) in Hp3.
    apply pwindow3 in Hw. destruct Hw as (W1 & W2 & W3).
    rewrite list_lookup_fmap in W1, W2, W3.
    destruct (s !! i) as [n1|] eqn:L1; [|discriminate].
    destruct (s !! S i) as [n2|] eqn:L2; [|discriminate].
    destruct (s !! S (S i)) as [n3|] eqn:L3; [|discriminate].
    cbn in W1, W2, W3. injection W1 as W1. injection W2 as W2. injection W3 as W3.
    exists n1, n2, n3, p1, p2, p3, i1, i2.
    replace (i + 1)%nat with (S i) by lia. replace (i + 2)%nat with (S (S i)) by lia.
    repeat (split; [assumption|]). split; apply stepIs_false; assumption.
Qed.

Lemma NoDup_all_eq (h : list nat) (x : nat) :
  NoDup h -> (forall k, k ∈ h -> k = x) -> (length h <= 1)%nat.
Proof.
  intros Hnd Hall. destruct h as [|a [|b h]]; cbn; try lia. exfalso.
  assert (a = x) by (apply Hall; constructor).
  assert (b = x) by (apply Hall; constructor; constructor). subst.
  apply NoDup_cons in Hnd. destruct Hnd as [Hn _]. apply Hn. constructor.
Qed.

(** What rule 1 writes on its pivot. *)
Lemma pivotUpdate_ruleOne (n2 : GeneralNote) (p2 : Pitch) :
  pitch n2 = Some p2 ->
  capuaRuleNumber (editorial (pivotUpdate ruleOne n2))
    = Some (default 0 (capuaRuleNumber (editorial n2)) + RULE_ONE)
  /\ capuaFicta (editorial (pivotUpdate ruleOne n2))
     = Some (Some (if isFlat p2 then natural else sharp))
  /\ ficta (editorial (pivotUpdate ruleOne n2)) = Some (if isFlat p2 then natural else sharp)
  /\ pitch (pivotUpdate ruleOne n2) = Some (if isFlat p2 then clearAcc p2 else p2)
  /\ (isFlat p2 = true ->
      savedAccidental (editorial (pivotUpdate ruleOne n2)) = Some (accidental p2)).
Proof.
  intros Hp. unfold pivotUpdate, noteIsFlat, addCapuaRuleNumber. rewrite Hp.
  cbn [rClears ruleOne rNumber rFicta andb].
  destruct (isFlat p2), (capuaRuleNumber (editorial n2)) as [k|]; cbn;
    unfold pitch_accidental; cbn; rewrite ?Hp; cbn; repeat split; try reflexivity;
    try discriminate; f_equal; unfold RULE_ONE; lia.
Qed.

(** A note of [x] that is not a pivot matched so far is as it was in [s]. *)
Lemma Progress_untouched (R : RuleSpec) (s x : Stream) (j k : nat) (h : list nat)
    (n : GeneralNote) :
  Progress R s j x h -> s !! k = Some n -> (j + rPivot R <= k)%nat ->
  pitch <$> x !! k = Some (pitch n).
Proof.
  intros (_ & _ & Hlt & Hcore) Hk Hle. destruct (Hcore k n Hk) as (n' & -> & Hc).
  rewrite bool_decide_eq_false_2 in Hc.
  - cbn. injection Hc as -> _. reflexivity.
  - intros Hin. specialize (Hlt k Hin). lia.
Qed.

(** A note without accidental keeps its pitch whatever the rule did. *)
Lemma Progress_plain (R : RuleSpec) (s x : Stream) (j k : nat) (h : list nat)
    (n : GeneralNote) (p : Pitch) :
  Progress R s j x h -> s !! k = Some n -> pitch n = Some p -> accidental p = None ->
  pitch <$> x !! k = Some (Some p).
Proof.
  intros (_ & _ & _ & Hcore) Hk Hp Hacc. destruct (Hcore k n Hk) as (n' & -> & Hc).
  cbn. injection Hc as -> _. destruct (bool_decide (k ∈ h)); [|rewrite Hp; reflexivity].
  rewrite pitch_pivotUpdate, Hp. cbn.
  rewrite pivotPitch_plain by (apply plain_not_flat; exact Hacc). reflexivity.
Qed.

(** When the run comes to a window on which rule 1 fires, it still finds
    the pitches the window had at first, and fires. *)
Lemma ruleOne_window_step (s x : Stream) (i : nat) (h : list nat) :
  ruleOneWindow s i -> Progress ruleOne s i x h ->
  scan_body ruleOne i (x, h) = Ok (fireAt ruleOne i x, h ++ [(i + 1)%nat]).
Proof.
  intros Hwin HP. pose proof Hwin as Hwin'.
  destruct Hwin' as (n1 & n2 & n3 & p1 & p2 & p3 & i1 & i2 & L1 & L2 & L3 & P1 & P2 & P3
                     & N1 & D1 & N2 & D2 & A1 & A3 & SA & SD).
  apply ruleOneWindow_test in Hwin. destruct Hwin as (ps & Hw & Ht).
  assert (ps = [p1; p2; p3]) as ->.
  { destruct (list_length3 ps (pwindow_length _ i 3 ps Hw)) as (q1 & q2 & q3 & ->).
    apply pwindow3 in Hw. destruct Hw as (W1 & W2 & W3).
    rewrite list_lookup_fmap in W1, W2, W3.
    replace (i + 1)%nat with (S i) in L2 by lia.
    replace (i + 2)%nat with (S (S i)) in L3 by lia.
    rewrite L1 in W1. rewrite L2 in W2. rewrite L3 in W3. cbn in W1, W2, W3. congruence. }
  rewrite scan_body_unfold.
  assert (Hx : pwindow (pitch <$> x) i (rWidth ruleOne) = Some [p1; p2; p3]).
  { apply pwindow_Some. split; [reflexivity|]. intros [|[|[|t]]] Hlt; cbn.
    - rewrite Nat.add_0_r, list_lookup_fmap.
      exact (Progress_plain ruleOne s x i i h n1 p1 HP L1 P1 A1).
    - rewrite list_lookup_fmap, <- P2.
      apply (Progress_untouched ruleOne s x i (i + 1) h n2 HP L2). cbn. lia.
    - rewrite list_lookup_fmap, <- P3.
      apply (Progress_untouched ruleOne s x i (i + 2) h n3 HP L3). cbn. lia.
    - unfold rWidth in Hlt. cbn in Hlt. lia. }
  rewrite Hx, Ht. reflexivity.
Qed.

(** Rule 1 matches the pivot of every window on which it fires. *)
Lemma ruleOne_window_hit (s s' : Stream) (i : nat) (h : list nat) :
  ruleOneWindow s i -> scan ruleOne s = Ok (s', h) -> (i + 1)%nat ∈ h.
Proof.
  intros Hwin Hrun.
  assert (Hlen : (i + 2 < length s)%nat).
  { destruct Hwin as (n1 & n2 & n3 & ? & ? & ? & ? & ? & _ & _ & L3 & _).
    apply lookup_lt_Some in L3. exact L3. }
  unfold scan in Hrun. cbn [ruleOne rPattern length] in Hrun.
  replace (length s - 2)%nat with (i + S (length s - 3 - i))%nat in Hrun by lia.
  rewrite seq_app, forM_app in Hrun.
  destruct (forM (scan_body ruleOne) (seq 0 i) (s, [])) as [[x hx]|e] eqn:Hpre;
    [|discriminate].
  destruct (Progress_run ruleOne s 0 i s x [] hx pivot_inside_ruleOne (Progress_start _ s) Hpre)
    as [HP _].
  cbn [seq forM Nat.add] in Hrun. rewrite (ruleOne_window_step s x i hx Hwin HP) in Hrun.
  assert (HP' : Progress ruleOne s (S i) (fireAt ruleOne i x) (hx ++ [(i + 1)%nat])).
  { apply (Progress_step ruleOne s i x _ hx _ pivot_inside_ruleOne HP).
    exact (ruleOne_window_step s x i hx Hwin HP). }
  destruct (Progress_run ruleOne s (S i) _ _ _ _ _ pivot_inside_ruleOne HP' Hrun) as [_ Hsub].
  apply Hsub. apply elem_of_app. right. apply list_elem_of_singleton. reflexivity.
Qed.

(** Every pivot rule 1 matches is the pivot of a window on which it fires. *)
Lemma ruleOne_hit_window (s s' : Stream) (h : list nat) (k : nat) :
  scan ruleOne s = Ok (s', h) -> k ∈ h -> exists i, k = (i + 1)%nat /\ ruleOneWindow s i.
Proof.
  intros Hrun Hk. apply (scan_pitches _ _ _ _ pivot_inside_ruleOne) in Hrun.
  destruct (ruleOne_establish false _ _ _ _ (Sim_refl false (pitch <$> s)) Hrun) as [_ Hh].
  destruct (Hh k Hk) as (i & ps & -> & Hw & Ht). exists i. split; [reflexivity|].
  apply ruleOneWindow_test. eauto.
Qed.

(** On a stream of three notes forming such a window the rule returns. *)
Lemma ruleOne_three_notes (s : Stream) :
  ruleOneWindow s 0 -> length s = 3%nat ->
  capuaRuleOne s = Ok (fireAt ruleOne 0 s, 1%nat).
Proof.
  intros Hwin Hlen. rewrite capuaRuleOne_scan. unfold scan. rewrite Hlen.
  cbn [ruleOne rPattern length Nat.sub seq forM].
  rewrite (ruleOne_window_step s s 0 [] Hwin (Progress_start _ s)). reflexivity.
Qed.

(** C5. Rule 1 fires correctly: let the notes at places i, i+1, i+2 of a
    stream be three notes, none of them a rest, forming the directed
    intervals M-2 then M2, with no accidental on the outer notes and a
    pivot whose step is neither A nor D.  A stream made of these three
    notes is one on which capuaRuleOne returns; and whenever capuaRuleOne
    returns on the stream, the pivot has been matched once (RULE_ONE added
    once to its capuaRuleNumber), its capuaFicta and ficta are sharp, or
    natural with the flat taken off the pitch and saved if the pivot was
    flat, the count is at least 1, and it is 1 when this window is the
    only such window of the stream. *)
Theorem capuaRuleOne_fires (s : Stream) (i : nat) (n2 : GeneralNote) (p2 : Pitch) :
  ruleOneWindow s i -> s !! (i + 1)%nat = Some n2 -> pitch n2 = Some p2 ->
  (length s = 3%nat -> exists s', capuaRuleOne s = Ok (s', 1%nat))
  /\ forall s' c, capuaRuleOne s = Ok (s', c) ->
       (exists n2', s' !! (i + 1)%nat = Some n2'
          /\ capuaRuleNumber (editorial n2')
             = Some (default 0 (capuaRuleNumber (editorial n2)) + RULE_ONE)
          /\ capuaFicta (editorial n2') = Some (Some (if isFlat p2 then natural else sharp))
          /\ ficta (editorial n2') = Some (if isFlat p2 then natural else sharp)
          /\ pitch n2' = Some (if isFlat p2 then clearAcc p2 else p2)
          /\ (isFlat p2 = true -> savedAccidental (editorial n2') = Some (accidental p2)))
       /\ (1 <= c)%nat
       /\ ((forall j, ruleOneWindow s j -> j = i) -> c = 1%nat).
Proof.
  intros Hwin L2 P2. split.
  - intros Hlen. assert (i = 0%nat) as ->.
    { apply lookup_lt_Some in L2.
      destruct Hwin as (? & ? & n3 & ? & ? & ? & ? & ? & _ & _ & L3 & _).
      apply lookup_lt_Some in L3. lia. }
    eexists. apply ruleOne_three_notes; assumption.
  - intros s' c Hrun. rewrite capuaRuleOne_scan in Hrun. apply counted_Ok in Hrun.
    destruct Hrun as (h & Hrun & ->).
    pose proof (ruleOne_window_hit s s' i h Hwin Hrun) as Hin.
    destruct (scan_Progress ruleOne s s' h pivot_inside_ruleOne Hrun)
      as (_ & Hnd & _ & Hcore).
    split; [|split].
    + destruct (Hcore _ n2 L2) as (n2' & L2' & Hc).
      rewrite bool_decide_eq_true_2 in Hc by exact Hin.
      exists n2'. split; [exact L2'|]. injection Hc as Hp He. rewrite Hp, He.
      destruct (pivotUpdate_ruleOne n2 p2 P2) as (E1 & E2 & E3 & E4 & E5).
      repeat (split; [assumption|]). assumption.
    + destruct h as [|k h]; [|cbn; lia]. apply elem_of_nil in Hin. destruct Hin.
    + intros Huniq. assert (Hle : (length h <= 1)%nat).
      { apply (NoDup_all_eq h (i + 1)%nat Hnd). intros k Hk.
        destruct (ruleOne_hit_window s s' h k Hrun Hk) as (j & -> & Hj).
        rewrite (Huniq j Hj). reflexivity. }
      destruct h as [|k h]; [|cbn in *; lia]. apply elem_of_nil in Hin. destruct Hin.
Qed.

Lemma capuaRuleOne_fires_witness :
  ruleOneWindow flatCadence 0
  /\ (exists s', capuaRuleOne flatCadence = Ok (s', 1%nat))
  /\ exists n2', flatCadenceAfter !! 1%nat = Some n2'
       /\ capuaRuleNumber (editorial n2') = Some 1
       /\ capuaFicta (editorial n2') = Some (Some natural)
       /\ ficta (editorial n2') = Some natural
       /\ pitch n2' = Some (mkPitch Step.B None 4)
       /\ savedAccidental (editorial n2') = Some (Some flat).
Proof.
  assert (W : ruleOneWindow flatCadence 0).
  { unfold ruleOneWindow. do 8 eexists.
    repeat (split; [vm_compute; reflexivity|]). split; discriminate. }
  split; [exact W|].
  destruct (capuaRuleOne_fires flatCadence 0 (plainNote Step.B (Some flat) 4)
              (mkPitch Step.B (Some flat) 4) W eq_refl eq_refl) as [H3 Hrun].
  split; [exact (H3 eq_refl)|].
  assert (R : capuaRuleOne flatCadence = Ok (flatCadenceAfter, 1%nat))
    by (vm_compute; reflexivity).
  destruct (Hrun flatCadenceAfter 1%nat R) as ((n2' & L & E1 & E2 & E3 & E4 & E5) & _).
  exists n2'. split; [exact L|]. split; [exact E1|]. split; [exact E2|].
  split; [exact E3|]. split; [exact E4|]. exact (E5 eq_refl).
Defined.

(** * Streams that hold streams *)

Lemma flatNotesAndRests_length (t : NestedStream) : length (flatNotesAndRests t) = length t.
Proof. unfold flatNotesAndRests. apply length_fmap. Qed.

Lemma flatNotesAndRests_flatStream (s : Stream) : flatNotesAndRests (flatStream s) = s.
Proof.
  unfold flatNotesAndRests, flatStream. rewrite <- list_fmap_compose.
  induction s as [|n s IH]; [reflexivity|]. cbn. rewrite IH. reflexivity.
Qed.

Lemma flatNotesAndRests_setNotes (t : NestedStream) (s : Stream) :
  length s = length t -> flatNotesAndRests (setNotes t s) = s.
Proof.
  revert s. induction t as [|e t IH]; intros [|n s] Hl; try discriminate Hl; [reflexivity|].
  cbn. f_equal. apply IH. cbn in Hl. lia.
Qed.

Lemma setNotes_length (t : NestedStream) (s : Stream) :
  length s = length t -> length (setNotes t s) = length t.
Proof.
  revert s. induction t as [|e t IH]; intros [|n s] Hl; try discriminate Hl; [reflexivity|].
  cbn. f_equal. apply IH. cbn in Hl. lia.
Qed.

Lemma setNotes_direct (t : NestedStream) (s : Stream) :
  length s = length t -> direct <$> setNotes t s = direct <$> t.
Proof.
  revert s. induction t as [|e t IH]; intros [|n s] Hl; try discriminate Hl; [reflexivity|].
  cbn. f_equal. apply IH. cbn in Hl. lia.
Qed.

Lemma setNotes_flatStream (a s : Stream) :
  length s = length a -> setNotes (flatStream a) s = flatStream s.
Proof.
  revert s. induction a as [|e a IH]; intros [|n s] Hl; try discriminate Hl; [reflexivity|].
  cbn. f_equal. apply IH. cbn in Hl. lia.
Qed.

Lemma flatStream_lookup (s : Stream) (k : nat) :
  flatStream s !! k = mkElement true <$> s !! k.
Proof. unfold flatStream. apply list_lookup_fmap. Qed.

Lemma flatNotesAndRests_lookup (t : NestedStream) (k : nat) :
  flatNotesAndRests t !! k = noteOf <$> t !! k.
Proof. unfold flatNotesAndRests. apply list_lookup_fmap. Qed.

(** The notes after the two loops that come before the rules. *)
Lemma preamble_lookup (t : NestedStream) (k : nat) :
  flatNotesAndRests (clearFicta (saveEditorsFicta t)) !! k
  = (fun e => preambleNote (direct e) (noteOf e)) <$> t !! k.
Proof.
  unfold flatNotesAndRests, clearFicta, saveEditorsFicta. rewrite !list_lookup_fmap.
  destruct (t !! k) as [[[|] n]|]; reflexivity.
Qed.

Lemma preamble_length (t : NestedStream) :
  length (clearFicta (saveEditorsFicta t)) = length t.
Proof. unfold clearFicta, saveEditorsFicta. rewrite !length_fmap. reflexivity. Qed.

Lemma preamble_direct (t : NestedStream) :
  direct <$> clearFicta (saveEditorsFicta t) = direct <$> t.
Proof.
  unfold clearFicta, saveEditorsFicta. rewrite <- !list_fmap_compose.
  apply list_fmap_ext. intros k [[|] n] _; reflexivity.
Qed.

Lemma preamble_flatStream (s : Stream) :
  flatNotesAndRests (clearFicta (saveEditorsFicta (flatStream s)))
  = preambleNote true <$> s.
Proof.
  apply list_eq. intros k. rewrite preamble_lookup, flatStream_lookup, list_lookup_fmap.
  destruct (s !! k); reflexivity.
Qed.

(** * The rule numbers left by [applyCapuaToStream] *)

Lemma applyCapuaToStream_traced (s : NestedStream) :
  applyCapuaToStream s = result_map fst (applyCapuaTraced s).
Proof.
  unfold applyCapuaToStream, applyCapuaTraced. cbv zeta.
  rewrite capuaRuleOne_scan.
  destruct (scan ruleOne _) as [[s1 h1]|e]; [|reflexivity]. cbn [counted result_map fst snd mbind result_bind].
  rewrite capuaRuleTwo_scan.
  destruct (scan ruleTwo _) as [[s2 h2]|e]; [|reflexivity]. cbn [counted result_map fst snd mbind result_bind].
  rewrite capuaRuleThree_scan.
  destruct (scan ruleThree _) as [[s3 h3]|e]; [|reflexivity]. cbn [counted result_map fst snd mbind result_bind].
  rewrite capuaRuleFourB_scan.
  destruct (scan ruleFourB _) as [[s4 h4]|e]; reflexivity.
Qed.

Lemma capuaRuleNumber_pivotUpdate (R : RuleSpec) (n : GeneralNote) :
  capuaRuleNumber (editorial (pivotUpdate R n))
  = Some (default 0 (capuaRuleNumber (editorial n)) + rNumber R).
Proof.
  unfold pivotUpdate, addCapuaRuleNumber.
  destruct (capuaRuleNumber (editorial n)) as [k|], (rClears R && noteIsFlat _);
    reflexivity.
Qed.

(** The two loops that come before the rules leave the rule numbers. *)
Lemma preamble_numbers (s : NestedStream) (k : nat) (n' : GeneralNote) :
  flatNotesAndRests (clearFicta (saveEditorsFicta s)) !! k = Some n' ->
  exists n, flatNotesAndRests s !! k = Some n
            /\ capuaRuleNumber (editorial n') = capuaRuleNumber (editorial n).
Proof.
  rewrite preamble_lookup, flatNotesAndRests_lookup.
  destruct (s !! k) as [[d n]|]; [|discriminate]. cbn. intros [= <-]. exists n.
  split; [reflexivity|].
  unfold preambleNote, clearFicta_note, saveEditorsFicta_note, clearAccidental,
    pitch_accidental, isRest.
  destruct d, n as [[[st [a|] o]|] e c]; reflexivity.
Qed.

(** The rule numbers after a run of one rule. *)
Lemma scan_numbers (R : RuleSpec) (s s' : Stream) (h : list nat) (f : nat -> option Z) :
  (rPivot R < rWidth R)%nat ->
  scan R s = Ok (s', h) ->
  (forall k n, s !! k = Some n -> capuaRuleNumber (editorial n) = f k) ->
  NoDup h
  /\ length s' = length s
  /\ forall k n', s' !! k = Some n' ->
       capuaRuleNumber (editorial n')
       = if bool_decide (k ∈ h) then Some (default 0 (f k) + rNumber R) else f k.
Proof.
  intros Hpv Hrun Hf.
  destruct (scan_Progress R s s' h Hpv Hrun) as (Hlen & Hnd & _ & Hcore).
  split; [exact Hnd|]. split; [exact Hlen|]. intros k n' Hk.
  destruct (s !! k) as [n|] eqn:Hs.
  - destruct (Hcore k n Hs) as (m & Hm & Hc). rewrite Hk in Hm. injection Hm as <-.
    injection Hc as _ ->. destruct (bool_decide (k ∈ h)).
    + rewrite capuaRuleNumber_pivotUpdate, (Hf k n Hs). reflexivity.
    + exact (Hf k n Hs).
  - apply lookup_lt_Some in Hk. apply lookup_ge_None in Hs. lia.
Qed.

Lemma unannotated_lookup (s : Stream) (k : nat) (n : GeneralNote) :
  unannotated s = true -> s !! k = Some n -> capuaRuleNumber (editorial n) = None.
Proof.
  unfold unannotated. rewrite forallb_forall. intros Hall Hk.
  specialize (Hall n). destruct (capuaRuleNumber (editorial n)); [|reflexivity].
  assert (false = true); [|discriminate]. apply Hall.
  apply list_elem_of_In. apply (list_elem_of_lookup_2 s k n Hk).
Qed.

(** The pivots a rule matches are places of the stream. *)
Lemma scan_hits_bound (R : RuleSpec) (s s' : Stream) (h : list nat) (k : nat) :
  (rPivot R < rWidth R)%nat -> scan R s = Ok (s', h) -> k ∈ h -> (k < length s)%nat.
Proof.
  intros Hpv Hrun Hk.
  destruct (le_lt_dec (length (rPattern R)) (length s)) as [Hle|Hlt].
  - destruct (scan_Progress R s s' h Hpv Hrun) as (_ & _ & Hb & _).
    specialize (Hb k Hk). unfold rWidth in Hpv. lia.
  - unfold scan in Hrun. replace (length s - length (rPattern R))%nat with 0%nat in Hrun by lia.
    cbn in Hrun. injection Hrun as _ <-. apply elem_of_nil in Hk. destruct Hk.
Qed.

(** The rule numbers after the four rules. *)
Lemma traced_numbers (s s' : NestedStream)
    (tr : list nat * list nat * list nat * list nat) :
  unannotated (flatNotesAndRests s) = true -> applyCapuaTraced s = Ok (s', tr) ->
  let '(h1, h2, h3, h4) := tr in
  NoDup h1 /\ NoDup h2 /\ NoDup h3 /\ NoDup h4
  /\ length s' = length s
  /\ (forall k, k ∈ h4 -> (k < length s)%nat)
  /\ forall k n', flatNotesAndRests s' !! k = Some n' ->
       capuaRuleNumber (editorial n')
       = if matchedAt tr k then Some (provenanceSum tr k) else None.
Proof.
  intros Hun. unfold applyCapuaTraced. cbv zeta.
  destruct (scan ruleOne _) as [[s1 h1]|e] eqn:R1; [|discriminate].
  cbn [mbind result_bind].
  destruct (scan ruleTwo _) as [[s2 h2]|e] eqn:R2; [|discriminate].
  cbn [mbind result_bind].
  destruct (scan ruleThree _) as [[s3 h3]|e] eqn:R3; [|discriminate].
  cbn [mbind result_bind].
  destruct (scan ruleFourB _) as [[s4 h4]|e] eqn:R4; [|discriminate].
  cbn [mbind result_bind mret result_ret]. intros [= <- <-].
  destruct (scan_numbers _ _ _ _ (fun _ => None) pivot_inside_ruleOne R1) as (N1 & L1 & F1).
  { intros k n Hk. destruct (preamble_numbers s k n Hk) as (m & Hm & ->).
    exact (unannotated_lookup _ k m Hun Hm). }
  destruct (scan_numbers _ _ _ _ _ pivot_inside_ruleTwo R2 F1) as (N2 & L2 & F2).
  destruct (scan_numbers _ _ _ _ _ pivot_inside_ruleThree R3 F2) as (N3 & L3 & F3).
  destruct (scan_numbers _ _ _ _ _ pivot_inside_ruleFourB R4 F3) as (N4 & L4 & F4).
  assert (Hlen : length s4 = length s).
  { rewrite L4, L3, L2, L1, flatNotesAndRests_length. apply preamble_length. }
  assert (Hlen' : length s4 = length (clearFicta (saveEditorsFicta s)))
    by (rewrite preamble_length; exact Hlen).
  repeat (split; [assumption|]). split; [|split].
  - rewrite setNotes_length by exact Hlen'. apply preamble_length.
  - intros k Hk. rewrite <- Hlen, L4. exact (scan_hits_bound _ _ _ _ k pivot_inside_ruleFourB R4 Hk).
  - intros k n' Hk. rewrite flatNotesAndRests_setNotes in Hk by exact Hlen'.
    rewrite (F4 k n' Hk). unfold matchedAt, provenanceSum, ruleBit.
    destruct (bool_decide (k ∈ h1)), (bool_decide (k ∈ h2)), (bool_decide (k ∈ h3)),
      (bool_decide (k ∈ h4)); reflexivity.
Qed.

(** The sum of the constants of the rules that fired is their bitwise OR,
    and each bit of it tells whether its rule fired. *)
Lemma provenance_decodes (tr : list nat * list nat * list nat * list nat) (k : nat) :
  let '(h1, h2, h3, h4) := tr in
  provenanceSum tr k = provenanceMask tr k
  /\ Z.testbit (provenanceSum tr k) 0 = bool_decide (k ∈ h1)
  /\ Z.testbit (provenanceSum tr k) 1 = bool_decide (k ∈ h2)
  /\ Z.testbit (provenanceSum tr k) 2 = bool_decide (k ∈ h3)
  /\ Z.testbit (provenanceSum tr k) 3 = false
  /\ Z.testbit (provenanceSum tr k) 4 = bool_decide (k ∈ h4)
  /\ forall b, 4 < b -> Z.testbit (provenanceSum tr k) b = false.
Proof.
  destruct tr as [[[h1 h2] h3] h4]. unfold provenanceSum, provenanceMask, ruleBit.
  assert (Hhigh : forall m b, 0 <= m < 32 -> 4 < b -> Z.testbit m b = false).
  { intros m b Hm Hb. destruct (Z.eq_dec m 0) as [->|Hne]; [apply Z.testbit_0_l|].
    apply Z.bits_above_log2; [lia|]. apply Z.lt_le_trans with 5; [|lia].
    apply Z.log2_lt_pow2; [lia|]. change (2 ^ 5) with 32. lia. }
  destruct (bool_decide (k ∈ h1)), (bool_decide (k ∈ h2)), (bool_decide (k ∈ h3)),
    (bool_decide (k ∈ h4));
    (repeat (split; [reflexivity|])); intros b Hb; apply Hhigh; try exact Hb;
    vm_compute; split; congruence.
Qed.

(** C10. Provenance-mask invariant: in a run of applyCapuaToStream on a
    stream none of whose notes has a capuaRuleNumber, whether the stream
    holds its notes itself or in streams inside it, each rule matches a
    given place at most once (the pivots of each rule are without
    repetition); the capuaRuleNumber of every note is then absent when no
    rule matched the note, and otherwise the sum of the constants of the
    rules that matched it, taken among RULE_ONE = 1, RULE_TWO = 2,
    RULE_THREE = 4 and RULE_FOUR_B = 16, each at most once; this sum is the
    bitwise OR of these constants, and its bits 0, 1, 2 and 4 tell which of
    the rules matched the note, every other bit being clear. *)
Theorem provenance_mask_invariant (s s' : NestedStream) (h1 h2 h3 h4 : list nat) :
  unannotated (flatNotesAndRests s) = true ->
  applyCapuaTraced s = Ok (s', (h1, h2, h3, h4)) ->
  applyCapuaToStream s = Ok s'
  /\ (rNumber ruleOne, rNumber ruleTwo, rNumber ruleThree, rNumber ruleFourB) = (1, 2, 4, 16)
  /\ NoDup h1 /\ NoDup h2 /\ NoDup h3 /\ NoDup h4
  /\ forall k n', flatNotesAndRests s' !! k = Some n' ->
       capuaRuleNumber (editorial n')
       = (if matchedAt (h1, h2, h3, h4) k then Some (provenanceSum (h1, h2, h3, h4) k)
          else None)
       /\ provenanceSum (h1, h2, h3, h4) k = provenanceMask (h1, h2, h3, h4) k
       /\ Z.testbit (provenanceSum (h1, h2, h3, h4) k) 0 = bool_decide (k ∈ h1)
       /\ Z.testbit (provenanceSum (h1, h2, h3, h4) k) 1 = bool_decide (k ∈ h2)
       /\ Z.testbit (provenanceSum (h1, h2, h3, h4) k) 2 = bool_decide (k ∈ h3)
       /\ Z.testbit (provenanceSum (h1, h2, h3, h4) k) 4 = bool_decide (k ∈ h4)
       /\ forall b, 0 <= b -> b <> 0 -> b <> 1 -> b <> 2 -> b <> 4 ->
            Z.testbit (provenanceSum (h1, h2, h3, h4) k) b = false.
Proof.
  intros Hun Hrun.
  split; [rewrite applyCapuaToStream_traced, Hrun; reflexivity|].
  split; [reflexivity|].
  destruct (traced_numbers s s' (h1, h2, h3, h4) Hun Hrun) as (N1 & N2 & N3 & N4 & _ & _ & HF).
  repeat (split; [assumption|]).
  intros k n' Hk. split; [exact (HF k n' Hk)|].
  destruct (provenance_decodes (h1, h2, h3, h4) k) as (E & B0 & B1 & B2 & B3 & B4 & Bh).
  repeat (split; [assumption|]).
  intros b Hb0 N0 Nb1 Nb2 Nb4.
  destruct (Z.eq_dec b 3) as [->|N3']; [exact B3|]. apply Bh. lia.
Qed.

Lemma provenance_mask_invariant_witness :
  unannotated fourRulesLine = true
  /\ applyCapuaTraced (flatStream fourRulesLine)
     = Ok (flatStream fourRulesLineAfter, ([1%nat], [6%nat], [10%nat], [12%nat]))
  /\ applyCapuaToStream (flatStream fourRulesLine) = Ok (flatStream fourRulesLineAfter)
  /\ forall k n', fourRulesLineAfter !! k = Some n' ->
       capuaRuleNumber (editorial n')
       = if matchedAt ([1%nat], [6%nat], [10%nat], [12%nat]) k
         then Some (provenanceSum ([1%nat], [6%nat], [10%nat], [12%nat]) k) else None.
Proof.
  assert (Hun : unannotated (flatNotesAndRests (flatStream fourRulesLine)) = true)
    by reflexivity.
  assert (Hrun : applyCapuaTraced (flatStream fourRulesLine)
                 = Ok (flatStream fourRulesLineAfter,
                       ([1%nat], [6%nat], [10%nat], [12%nat])))
    by (vm_compute; reflexivity).
  split; [reflexivity|]. split; [exact Hrun|].
  destruct (provenance_mask_invariant (flatStream fourRulesLine) (flatStream fourRulesLineAfter)
              [1%nat] [6%nat] [10%nat] [12%nat] Hun Hrun) as (Happ & _ & _ & _ & _ & _ & HF).
  split; [exact Happ|]. intros k n' Hk. apply (HF k n').
  rewrite flatNotesAndRests_flatStream. exact Hk.
Defined.

(** * The constant of rule 4B *)

(** On D4 F4 G4 rule 4B of applyCapuaToStream matches the F, and the
    capuaRuleNumber it leaves there is 16, in which the bit of value 8 is
    clear. *)
Lemma ruleFourB_number_is_not_eight :
  applyCapuaToStream (flatStream thirdLine) = Ok (flatStream thirdLineAfter)
  /\ applyCapuaTraced (flatStream thirdLine)
     = Ok (flatStream thirdLineAfter, ([], [], [], [1%nat]))
  /\ (capuaRuleNumber ∘ editorial) <$> thirdLineAfter !! 1%nat = Some (Some 16)
  /\ Z.land 16 8 = 0
  /\ Z.testbit 16 3 = false.
Proof. vm_compute. repeat split; reflexivity. Qed.

(** C3, amended. In a run of applyCapuaToStream on a stream none of whose
    notes has a capuaRuleNumber, whether the stream holds its notes itself
    or in streams inside it, the capuaRuleNumber of every pivot matched
    by the fourth rule of the run, rule 4B, carries the bit of value
    RULE_FOUR_B = 16, and does not carry the bit of value 8, which is the
    constant RULE_FOUR_A of rule 4A, a rule the run does not apply; the
    constants are RULE_ONE = 1, RULE_TWO = 2, RULE_THREE = 4,
    RULE_FOUR_A = 8 and RULE_FOUR_B = 16. *)
Theorem ruleFourB_provenance_bit (s s' : NestedStream) (h1 h2 h3 h4 : list nat) (k : nat) :
  unannotated (flatNotesAndRests s) = true ->
  applyCapuaTraced s = Ok (s', (h1, h2, h3, h4)) ->
  k ∈ h4 ->
  (RULE_ONE, RULE_TWO, RULE_THREE, RULE_FOUR_A, RULE_FOUR_B) = (1, 2, 4, 8, 16)
  /\ applyCapuaToStream s = Ok s'
  /\ exists n' m, flatNotesAndRests s' !! k = Some n'
       /\ capuaRuleNumber (editorial n') = Some m
       /\ Z.land m RULE_FOUR_B = RULE_FOUR_B
       /\ Z.land m RULE_FOUR_A = 0.
Proof.
  intros Hun Hrun Hk. split; [reflexivity|].
  split; [rewrite applyCapuaToStream_traced, Hrun; reflexivity|].
  destruct (traced_numbers s s' (h1, h2, h3, h4) Hun Hrun)
    as (_ & _ & _ & _ & Hlen & Hb & HF).
  destruct (lookup_lt_is_Some_2 (flatNotesAndRests s') k) as [n' Hn'].
  { rewrite flatNotesAndRests_length, Hlen. exact (Hb k Hk). }
  exists n', (provenanceSum (h1, h2, h3, h4) k). split; [exact Hn'|].
  rewrite (HF k n' Hn'). unfold matchedAt, provenanceSum, ruleBit.
  rewrite (bool_decide_eq_true_2 _ Hk).
  destruct (bool_decide (k ∈ h1)), (bool_decide (k ∈ h2)), (bool_decide (k ∈ h3));
    repeat split; reflexivity.
Qed.

Lemma ruleFourB_provenance_bit_witness :
  unannotated thirdLine = true
  /\ applyCapuaTraced (flatStream thirdLine)
     = Ok (flatStream thirdLineAfter, ([], [], [], [1%nat]))
  /\ exists n' m, flatNotesAndRests (flatStream thirdLineAfter) !! 1%nat = Some n'
       /\ capuaRuleNumber (editorial n') = Some m
       /\ Z.land m 16 = 16
       /\ Z.land m 8 = 0.
Proof.
  assert (Hun : unannotated (flatNotesAndRests (flatStream thirdLine)) = true)
    by reflexivity.
  assert (Hrun : applyCapuaTraced (flatStream thirdLine)
                 = Ok (flatStream thirdLineAfter, ([], [], [], [1%nat])))
    by (vm_compute; reflexivity).
  split; [reflexivity|]. split; [exact Hrun|].
  assert (Hk : 1%nat ∈ [1%nat]) by (apply list_elem_of_singleton; reflexivity).
  exact (proj2 (proj2 (ruleFourB_provenance_bit (flatStream thirdLine)
                         (flatStream thirdLineAfter) [] [] [] [1%nat]
                         1%nat Hun Hrun Hk))).
Defined.
(** * What [applyCapuaToStream] does to a stream *)

(** ** On any stream *)

Lemma scan_hitAt (R : RuleSpec) (s s' : Stream) (h : list nat) :
  (rPivot R < rWidth R)%nat -> scan R s = Ok (s', h) ->
  length s' = length s
  /\ forall k n, s !! k = Some n ->
       exists n', s' !! k = Some n' /\ core n' = core (hitAt R h k n).
Proof.
  intros Hpv Hrun. destruct (scan_Progress R s s' h Hpv Hrun) as (Hlen & _ & _ & Hcore).
  split; [exact Hlen|]. exact Hcore.
Qed.

Lemma hitAt_core (R : RuleSpec) (h : list nat) (k : nat) (n m : GeneralNote) :
  core n = core m -> core (hitAt R h k n) = core (hitAt R h k m).
Proof.
  intros Hc. unfold hitAt. destruct (bool_decide (k ∈ h)); [|exact Hc].
  apply pivotUpdate_core. exact Hc.
Qed.

(** The whole of [applyCapuaToStream], note by note. *)
Lemma applyCapuaTraced_trace (t t' : NestedStream)
    (tr : list nat * list nat * list nat * list nat) :
  applyCapuaTraced t = Ok (t', tr) ->
  length t' = length t
  /\ direct <$> t' = direct <$> t
  /\ forall k e, t !! k = Some e ->
       exists n', flatNotesAndRests t' !! k = Some n' /\ core n' = core (tracedNote tr k e).
Proof.
  unfold applyCapuaTraced. cbv zeta.
  set (t0 := clearFicta (saveEditorsFicta t)).
  destruct (scan ruleOne _) as [[s1 h1]|e] eqn:R1; [|discriminate].
  cbn [mbind result_bind].
  destruct (scan ruleTwo s1) as [[s2 h2]|e] eqn:R2; [|discriminate].
  cbn [mbind result_bind].
  destruct (scan ruleThree s2) as [[s3 h3]|e] eqn:R3; [|discriminate].
  cbn [mbind result_bind].
  destruct (scan ruleFourB s3) as [[s4 h4]|e] eqn:R4; [|discriminate].
  cbn [mbind result_bind mret result_ret]. intros [= <- <-].
  destruct (scan_hitAt _ _ _ _ pivot_inside_ruleOne R1) as [L1 C1].
  destruct (scan_hitAt _ _ _ _ pivot_inside_ruleTwo R2) as [L2 C2].
  destruct (scan_hitAt _ _ _ _ pivot_inside_ruleThree R3) as [L3 C3].
  destruct (scan_hitAt _ _ _ _ pivot_inside_ruleFourB R4) as [L4 C4].
  assert (Hlen : length s4 = length t0).
  { rewrite L4, L3, L2, L1. apply flatNotesAndRests_length. }
  split; [rewrite setNotes_length by exact Hlen; apply preamble_length|].
  split; [rewrite setNotes_direct by exact Hlen; apply preamble_direct|].
  intros k e Hk. rewrite flatNotesAndRests_setNotes by exact Hlen.
  assert (Hk0 : flatNotesAndRests t0 !! k = Some (preambleNote (direct e) (noteOf e))).
  { unfold t0. rewrite preamble_lookup, Hk. reflexivity. }
  destruct (C1 k _ Hk0) as (n1 & Hn1 & E1). destruct (C2 k _ Hn1) as (n2 & Hn2 & E2).
  destruct (C3 k _ Hn2) as (n3 & Hn3 & E3). destruct (C4 k _ Hn3) as (n4 & Hn4 & E4).
  exists n4. split; [exact Hn4|]. unfold tracedNote.
  rewrite E4. apply hitAt_core. rewrite E3. apply hitAt_core.
  rewrite E2. apply hitAt_core. exact E1.
Qed.

Lemma applyCapuaToStream_Ok_traced (s s' : NestedStream) :
  applyCapuaToStream s = Ok s' <-> exists tr, applyCapuaTraced s = Ok (s', tr).
Proof.
  rewrite applyCapuaToStream_traced.
  destruct (applyCapuaTraced s) as [[t tr]|e]; cbn; split.
  - intros [= <-]. eauto.
  - intros [tr' [= <- _]]. reflexivity.
  - discriminate.
  - intros [tr' H]. discriminate H.
Qed.

Lemma applyCapuaToStream_trace (t t' : NestedStream) :
  applyCapuaToStream t = Ok t' ->
  exists tr,
    length t' = length t
    /\ direct <$> t' = direct <$> t
    /\ forall k e, t !! k = Some e ->
         exists n', flatNotesAndRests t' !! k = Some n'
                    /\ core n' = core (tracedNote tr k e).
Proof.
  intros Hrun. apply applyCapuaToStream_Ok_traced in Hrun. destruct Hrun as [tr Hrun].
  exists tr. exact (applyCapuaTraced_trace t t' tr Hrun).
Qed.

(** What a rule writes in the slots of its pivot. *)
Lemma pivotUpdate_fields (R : RuleSpec) (m : GeneralNote) :
  pitch (pivotUpdate R m)
    = (if rClears R && noteIsFlat m then clearAcc <$> pitch m else pitch m)
  /\ savedAccidental (editorial (pivotUpdate R m))
     = (if rClears R && noteIsFlat m then Some (pitch_accidental m)
        else savedAccidental (editorial m))
  /\ capuaFicta (editorial (pivotUpdate R m))
     = Some (Some (if rClears R && noteIsFlat m then natural else rFicta R))
  /\ pmfcFicta (editorial (pivotUpdate R m)) = pmfcFicta (editorial m)
  /\ savedFicta (editorial (pivotUpdate R m)) = savedFicta (editorial m).
Proof.
  unfold pivotUpdate, addCapuaRuleNumber, noteIsFlat, pitch_accidental.
  destruct m as [[[st acc o]|] e c]; cbn;
    destruct (capuaRuleNumber e), (rClears R); cbn;
    try destruct (isFlat _); repeat split; reflexivity.
Qed.

Lemma Kept_core (n m m' : GeneralNote) : core m' = core m -> Kept n m -> Kept n m'.
Proof.
  unfold core. intros [= Hp He] [H1 H2|a H1 H2 H3].
  - apply kept_same; rewrite ?Hp, ?He; assumption.
  - apply (kept_saved n m' a); rewrite ?Hp, ?He; assumption.
Qed.

Lemma Kept_preamble (d : bool) (n : GeneralNote) : Kept n (preambleNote d n).
Proof.
  unfold preambleNote, clearFicta_note, saveEditorsFicta_note, clearAccidental,
    pitch_accidental, isRest.
  destruct d, n as [[[st [a|] o]|] e c]; cbn;
    first [ apply kept_same; reflexivity | apply (kept_saved _ _ a); reflexivity ].
Qed.

Lemma Kept_flat (n m : GeneralNote) :
  Kept n m -> noteIsFlat m = true ->
  pitch m = pitch n /\ savedAccidental (editorial m) = savedAccidental (editorial n)
  /\ pitch_accidental m = Some flat /\ pitch_accidental n = Some flat.
Proof.
  unfold noteIsFlat, pitch_accidental. intros [Hp Hs|a Ha Hp Hs] Hf.
  - destruct (pitch m) as [q|] eqn:Hq; [|discriminate]. apply isFlat_inv in Hf.
    rewrite <- Hp. auto.
  - rewrite Hp in Hf. destruct (pitch n) as [q|]; [|discriminate]. discriminate Hf.
Qed.

Lemma Kept_hitAt (R : RuleSpec) (h : list nat) (k : nat) (n m : GeneralNote) :
  Kept n m -> Kept n (hitAt R h k m).
Proof.
  intros HK. unfold hitAt. destruct (bool_decide (k ∈ h)); [|exact HK].
  destruct (pivotUpdate_fields R m) as (Fp & Fs & _).
  destruct (rClears R && noteIsFlat m) eqn:Hb.
  - apply andb_true_iff in Hb. destruct Hb as [_ Hb].
    destruct (Kept_flat n m HK Hb) as (Hp & _ & Ha & Hn).
    apply (kept_saved _ _ flat); [exact Hn| |].
    + rewrite Fp, Hp. reflexivity.
    + rewrite Fs, Ha. reflexivity.
  - destruct HK as [Hp Hs|a Ha Hp Hs].
    + apply kept_same; [rewrite Fp; exact Hp|rewrite Fs; exact Hs].
    + apply (kept_saved _ _ a); [exact Ha|rewrite Fp; exact Hp|rewrite Fs; exact Hs].
Qed.

Lemma Kept_traced (tr : list nat * list nat * list nat * list nat) (k : nat) (e : Element) :
  Kept (noteOf e) (tracedNote tr k e).
Proof.
  destruct tr as [[[h1 h2] h3] h4]. unfold tracedNote.
  repeat apply Kept_hitAt. apply Kept_preamble.
Qed.



(** The slots pmfcFicta and savedFicta are written by the two loops that
    come before the rules, and by them only. *)
Lemma tracedNote_ficta_slots (tr : list nat * list nat * list nat * list nat) (k : nat)
    (e : Element) :
  isRest (noteOf e) = false ->
  pmfcFicta (editorial (tracedNote tr k e))
    = (if direct e then Some (ficta (editorial (noteOf e)))
       else pmfcFicta (editorial (noteOf e)))
  /\ savedFicta (editorial (tracedNote tr k e)) = Some (ficta (editorial (noteOf e))).
Proof.
  intros Hr. destruct tr as [[[h1 h2] h3] h4]. unfold tracedNote.
  assert (Hh : forall R h m,
            pmfcFicta (editorial (hitAt R h k m)) = pmfcFicta (editorial m)
            /\ savedFicta (editorial (hitAt R h k m)) = savedFicta (editorial m)).
  { intros R h m. unfold hitAt. destruct (bool_decide (k ∈ h)); [|split; reflexivity].
    destruct (pivotUpdate_fields R m) as (_ & _ & _ & F4 & F5). split; assumption. }
  destruct (Hh ruleFourB h4 (hitAt ruleThree h3 k (hitAt ruleTwo h2 k
              (hitAt ruleOne h1 k (preambleNote (direct e) (noteOf e)))))) as [-> ->].
  destruct (Hh ruleThree h3 (hitAt ruleTwo h2 k
              (hitAt ruleOne h1 k (preambleNote (direct e) (noteOf e))))) as [-> ->].
  destruct (Hh ruleTwo h2 (hitAt ruleOne h1 k (preambleNote (direct e) (noteOf e))))
    as [-> ->].
  destruct (Hh ruleOne h1 (preambleNote (direct e) (noteOf e))) as [-> ->].
  unfold preambleNote, clearFicta_note, saveEditorsFicta_note, clearAccidental,
    pitch_accidental, isRest in *.
  destruct (direct e), (noteOf e) as [[[st [a|] o]|] ed c]; try discriminate Hr;
    split; reflexivity.
Qed.

(** ** On a stream that holds its notes itself *)

Lemma allDirect_flatStream (t : NestedStream) :
  allDirect t = true -> t = flatStream (flatNotesAndRests t).
Proof.
  unfold allDirect, flatStream, flatNotesAndRests.
  induction t as [|[d n] t IH]; [reflexivity|]. cbn. intros H.
  apply andb_true_iff in H. destruct H as [-> H]. f_equal. apply IH. exact H.
Qed.

Lemma flatStream_allDirect (s : Stream) : allDirect (flatStream s) = true.
Proof. unfold allDirect, flatStream. induction s as [|n s IH]; [reflexivity|exact IH]. Qed.

Lemma flatStream_inj (s s' : Stream) : flatStream s = flatStream s' -> s = s'.
Proof.
  intros H. rewrite <- (flatNotesAndRests_flatStream s), H.
  apply flatNotesAndRests_flatStream.
Qed.

Lemma preamble_flatStream_eq (s : Stream) :
  clearFicta (saveEditorsFicta (flatStream s)) = flatStream (preambleNote true <$> s).
Proof.
  unfold clearFicta, saveEditorsFicta, flatStream. rewrite <- !list_fmap_compose.
  apply list_fmap_ext. intros k n _. reflexivity.
Qed.

Lemma preambleNote_pitch (n : GeneralNote) :
  pitch (preambleNote true n) = clearAcc <$> pitch n.
Proof.
  unfold preambleNote, clearFicta_note, saveEditorsFicta_note, clearAccidental,
    pitch_accidental, isRest.
  destruct n as [[[st [a|] o]|] e c]; reflexivity.
Qed.

Lemma preamble_plain (s : Stream) : plainPitches (pitch <$> (preambleNote true <$> s)).
Proof.
  intros k p Hk. rewrite !list_lookup_fmap in Hk.
  destruct (s !! k) as [n|]; [|discriminate]. cbn in Hk.
  rewrite preambleNote_pitch in Hk. destruct (pitch n) as [q|]; [|discriminate].
  cbn in Hk. injection Hk as <-. reflexivity.
Qed.

Lemma pivotUpdate_not_flat (R : RuleSpec) (n : GeneralNote) :
  noteIsFlat n = false -> pivotUpdate R n = annotate R n.
Proof.
  intros Hf. unfold pivotUpdate, annotate.
  replace (noteIsFlat (addCapuaRuleNumber (rNumber R) n)) with (noteIsFlat n)
    by (unfold noteIsFlat, addCapuaRuleNumber;
        destruct (capuaRuleNumber (editorial n)); reflexivity).
  rewrite Hf, andb_false_r. reflexivity.
Qed.

Lemma annotate_core (R : RuleSpec) (n n0 : GeneralNote) :
  core n = core n0 -> core (annotate R n) = core (annotate R n0).
Proof.
  destruct n as [p e c], n0 as [p0 e0 c0]. unfold core. cbn. intros [= -> ->].
  unfold annotate, addCapuaRuleNumber. cbn. destruct (capuaRuleNumber e0); reflexivity.
Qed.

Lemma markAt_core (R : RuleSpec) (h : list nat) (k : nat) (n n0 : GeneralNote) :
  core n = core n0 -> core (markAt R h k n) = core (markAt R h k n0).
Proof.
  intros Hc. unfold markAt. destruct (bool_decide (k ∈ h)); [|exact Hc].
  apply annotate_core. exact Hc.
Qed.

Lemma markAt_pitch (R : RuleSpec) (h : list nat) (k : nat) (n : GeneralNote) :
  pitch (markAt R h k n) = pitch n.
Proof.
  unfold markAt, annotate, addCapuaRuleNumber.
  destruct (bool_decide (k ∈ h)), (capuaRuleNumber (editorial n)); reflexivity.
Qed.

(** On a note without a flat a rule writes its sharp. *)
Lemma hitAt_markAt (R : RuleSpec) (h : list nat) (k : nat) (n : GeneralNote) :
  noteIsFlat n = false -> hitAt R h k n = markAt R h k n.
Proof.
  intros Hf. unfold hitAt, markAt. destruct (bool_decide (k ∈ h)); [|reflexivity].
  apply pivotUpdate_not_flat. exact Hf.
Qed.

(** A note that the first loop reached has no flat for a rule to take
    off. *)
Lemma tracedNote_direct (tr : list nat * list nat * list nat * list nat) (k : nat)
    (n : GeneralNote) :
  tracedNote tr k (mkElement true n) = pipelineNote tr k n.
Proof.
  destruct tr as [[[h1 h2] h3] h4]. unfold tracedNote, pipelineNote. cbn [direct noteOf].
  assert (H0 : noteIsFlat (preambleNote true n) = false).
  { unfold noteIsFlat. rewrite preambleNote_pitch. destruct (pitch n); reflexivity. }
  assert (Hm : forall R h m, noteIsFlat m = false -> noteIsFlat (markAt R h k m) = false).
  { intros R h m Hf. unfold noteIsFlat. rewrite markAt_pitch. exact Hf. }
  rewrite (hitAt_markAt ruleOne h1 k _ H0).
  pose proof (Hm ruleOne h1 _ H0) as H1. rewrite (hitAt_markAt ruleTwo h2 k _ H1).
  pose proof (Hm ruleTwo h2 _ H1) as H2. rewrite (hitAt_markAt ruleThree h3 k _ H2).
  pose proof (Hm ruleThree h3 _ H2) as H3. rewrite (hitAt_markAt ruleFourB h4 k _ H3).
  reflexivity.
Qed.

(** A run of a rule on a stream without accidentals: it returns, keeps the
    pitches, and writes its annotation on the pivots it matched. *)
Lemma scan_plain_core (R : RuleSpec) (s : Stream) :
  (rPivot R < rWidth R)%nat -> plainPitches (pitch <$> s) ->
  exists s' h,
    scan R s = Ok (s', h)
    /\ pitch <$> s' = pitch <$> s
    /\ length s' = length s
    /\ (forall k, k ∈ h ->
          exists i ps, k = (i + rPivot R)%nat
                       /\ pwindow (pitch <$> s) i (rWidth R) = Some ps
                       /\ rTest R ps = Ok true)
    /\ forall k n, s !! k = Some n ->
         exists n', s' !! k = Some n' /\ core n' = core (markAt R h k n).
Proof.
  intros Hpv Ha. destruct (scan_plain R s Hpv Ha) as (s' & h & Hrun & Hp).
  exists s', h. split; [exact Hrun|]. split; [exact Hp|].
  destruct (scan_Progress R s s' h Hpv Hrun) as (Hlen & _ & _ & Hcore).
  split; [exact Hlen|].
  split; [exact (proj2 (pscan_plain_hits R _ _ h Ha (scan_pitches R s s' h Hpv Hrun)))|].
  intros k n Hk. destruct (Hcore k n Hk) as (n' & Hn' & Hc).
  exists n'. split; [exact Hn'|]. rewrite Hc. unfold markAt.
  destruct (bool_decide (k ∈ h)); [|reflexivity].
  rewrite pivotUpdate_not_flat; [reflexivity|].
  unfold noteIsFlat. destruct (pitch n) as [p|] eqn:Hpn; [|reflexivity].
  apply plain_not_flat. apply (Ha k p). rewrite list_lookup_fmap, Hk. cbn. rewrite Hpn.
  reflexivity.
Qed.

(** The whole of [applyCapuaToStream] on such a stream, note by note: it
    returns, and no note is the pivot of two rules. *)
Lemma applyCapuaTraced_notes (s : Stream) :
  exists s' tr,
    applyCapuaTraced (flatStream s) = Ok (flatStream s', tr)
    /\ length s' = length s
    /\ (forall k, exclusive tr k)
    /\ forall k n, s !! k = Some n ->
         exists n', s' !! k = Some n' /\ core n' = core (pipelineNote tr k n).
Proof.
  unfold applyCapuaTraced. cbv zeta. rewrite preamble_flatStream_eq.
  rewrite flatNotesAndRests_flatStream.
  set (s0 := preambleNote true <$> s).
  assert (H0 : plainPitches (pitch <$> s0)) by apply preamble_plain.
  destruct (scan_plain_core ruleOne s0 pivot_inside_ruleOne H0)
    as (s1 & h1 & R1 & P1 & L1 & T1 & C1).
  assert (H1 : plainPitches (pitch <$> s1)) by (rewrite P1; exact H0).
  destruct (scan_plain_core ruleTwo s1 pivot_inside_ruleTwo H1)
    as (s2 & h2 & R2 & P2 & L2 & T2 & C2).
  assert (H2 : plainPitches (pitch <$> s2)) by (rewrite P2; exact H1).
  destruct (scan_plain_core ruleThree s2 pivot_inside_ruleThree H2)
    as (s3 & h3 & R3 & P3 & L3 & T3 & C3).
  assert (H3 : plainPitches (pitch <$> s3)) by (rewrite P3; exact H2).
  destruct (scan_plain_core ruleFourB s3 pivot_inside_ruleFourB H3)
    as (s4 & h4 & R4 & P4 & L4 & T4 & C4).
  exists s4, (h1, h2, h3, h4).
  rewrite R1. cbn [mbind result_bind]. rewrite R2. cbn [mbind result_bind].
  rewrite R3. cbn [mbind result_bind]. rewrite R4. cbn [mbind result_bind].
  assert (Hlen : length s4 = length s0) by (rewrite L4, L3, L2, L1; reflexivity).
  split; [cbn [mret result_ret]; rewrite (setNotes_flatStream s0 s4 Hlen); reflexivity|].
  split; [|split].
  - rewrite Hlen. unfold s0. apply length_fmap.
  - intros k. rewrite P3, P2, P1 in T4. rewrite P2, P1 in T3. rewrite P1 in T2.
    unfold exclusive.
    destruct (bool_decide (k ∈ h1)) eqn:B1, (bool_decide (k ∈ h2)) eqn:B2,
      (bool_decide (k ∈ h3)) eqn:B3, (bool_decide (k ∈ h4)) eqn:B4; try reflexivity; exfalso;
      try apply bool_decide_eq_true_1 in B1; try apply bool_decide_eq_true_1 in B2;
      try apply bool_decide_eq_true_1 in B3; try apply bool_decide_eq_true_1 in B4;
      try pose proof (enteredBy_three ruleOne _ _ _ k eq_refl eq_refl (T1 k B1)) as E1;
      try pose proof (enteredBy_four ruleTwo _ _ _ _ k eq_refl eq_refl (T2 k B2)) as E2;
      try pose proof (enteredBy_three ruleThree _ _ _ k eq_refl eq_refl (T3 k B3)) as E3;
      try pose proof (enteredBy_three ruleFourB _ _ _ k eq_refl eq_refl (T4 k B4)) as E4;
      first [ discriminate (enteredBy_unique _ _ _ _ E1 E2)
            | discriminate (enteredBy_unique _ _ _ _ E1 E3)
            | discriminate (enteredBy_unique _ _ _ _ E1 E4)
            | discriminate (enteredBy_unique _ _ _ _ E2 E3)
            | discriminate (enteredBy_unique _ _ _ _ E2 E4)
            | discriminate (enteredBy_unique _ _ _ _ E3 E4) ].
  - intros k n Hk.
    assert (Hk0 : s0 !! k = Some (preambleNote true n)).
    { unfold s0. rewrite list_lookup_fmap, Hk. reflexivity. }
    destruct (C1 k _ Hk0) as (n1 & Hn1 & E1). destruct (C2 k _ Hn1) as (n2 & Hn2 & E2).
    destruct (C3 k _ Hn2) as (n3 & Hn3 & E3). destruct (C4 k _ Hn3) as (n4 & Hn4 & E4).
    exists n4. split; [exact Hn4|]. unfold pipelineNote.
    rewrite E4. apply markAt_core. rewrite E3. apply markAt_core.
    rewrite E2. apply markAt_core. exact E1.
Qed.

(** The same for a stream given with its marks. *)
Lemma applyCapuaToStream_notes (t t' : NestedStream) :
  allDirect t = true -> applyCapuaToStream t = Ok t' ->
  exists tr,
    length t' = length t
    /\ allDirect t' = true
    /\ (forall k, exclusive tr k)
    /\ forall k n, flatNotesAndRests t !! k = Some n ->
         exists n', flatNotesAndRests t' !! k = Some n'
                    /\ core n' = core (pipelineNote tr k n).
Proof.
  intros Hd Hrun. rewrite (allDirect_flatStream t Hd) in Hrun.
  destruct (applyCapuaTraced_notes (flatNotesAndRests t)) as (s' & tr & Ht & Hlen & Hex & Hn).
  assert (t' = flatStream s') as ->.
  { rewrite applyCapuaToStream_traced, Ht in Hrun. cbn in Hrun. congruence. }
  exists tr. split.
  { unfold flatStream. rewrite length_fmap, Hlen. apply flatNotesAndRests_length. }
  split; [apply flatStream_allDirect|]. split; [exact Hex|].
  rewrite flatNotesAndRests_flatStream. exact Hn.
Qed.

Lemma applyCapuaToStream_total (t : NestedStream) :
  allDirect t = true -> exists t', applyCapuaToStream t = Ok t'.
Proof.
  intros Hd. rewrite (allDirect_flatStream t Hd).
  destruct (applyCapuaTraced_notes (flatNotesAndRests t)) as (s' & tr & Hrun & _).
  exists (flatStream s'). apply applyCapuaToStream_Ok_traced. eauto.
Qed.

Lemma pipelineNote_pitch (tr : list nat * list nat * list nat * list nat) (k : nat)
    (n : GeneralNote) :
  pitch (pipelineNote tr k n) = clearAcc <$> pitch n.
Proof.
  destruct tr as [[[h1 h2] h3] h4]. unfold pipelineNote.
  rewrite !markAt_pitch. apply preambleNote_pitch.
Qed.

Lemma markAt_fields (R : RuleSpec) (h : list nat) (k : nat) (n : GeneralNote) :
  capuaRuleNumber (editorial (markAt R h k n))
    = bump (bool_decide (k ∈ h)) (rNumber R) (capuaRuleNumber (editorial n))
  /\ ficta (editorial (markAt R h k n))
     = (if bool_decide (k ∈ h) then Some (rFicta R) else ficta (editorial n))
  /\ capuaFicta (editorial (markAt R h k n))
     = (if bool_decide (k ∈ h) then Some (Some (rFicta R)) else capuaFicta (editorial n))
  /\ pmfcFicta (editorial (markAt R h k n)) = pmfcFicta (editorial n)
  /\ savedFicta (editorial (markAt R h k n)) = savedFicta (editorial n)
  /\ savedAccidental (editorial (markAt R h k n)) = savedAccidental (editorial n).
Proof.
  unfold markAt, annotate, addCapuaRuleNumber, bump.
  destruct (bool_decide (k ∈ h)), (capuaRuleNumber (editorial n)); repeat split; reflexivity.
Qed.

(** The editorial of a note after the first two loops. *)
Lemma preambleNote_fields (n : GeneralNote) (p : Pitch) :
  pitch n = Some p ->
  capuaRuleNumber (editorial (preambleNote true n)) = capuaRuleNumber (editorial n)
  /\ ficta (editorial (preambleNote true n)) = None
  /\ capuaFicta (editorial (preambleNote true n)) = capuaFicta (editorial n)
  /\ pmfcFicta (editorial (preambleNote true n)) = Some (ficta (editorial n))
  /\ savedFicta (editorial (preambleNote true n)) = Some (ficta (editorial n))
  /\ savedAccidental (editorial (preambleNote true n))
     = match accidental p with
       | Some a => Some (Some a)
       | None => savedAccidental (editorial n)
       end.
Proof.
  intros Hp. destruct n as [q e c]. cbn in Hp. subst q. destruct p as [st [a|] o];
    repeat split; reflexivity.
Qed.

(** The editorial of a note after [applyCapuaToStream]. *)
Lemma pipelineNote_fields (h1 h2 h3 h4 : list nat) (k : nat) (n : GeneralNote) (p : Pitch) :
  pitch n = Some p ->
  let m := pipelineNote (h1, h2, h3, h4) k n in
  let b1 := bool_decide (k ∈ h1) in
  let b2 := bool_decide (k ∈ h2) in
  let b3 := bool_decide (k ∈ h3) in
  let b4 := bool_decide (k ∈ h4) in
  capuaRuleNumber (editorial m)
    = bump b4 RULE_FOUR_B (bump b3 RULE_THREE (bump b2 RULE_TWO
        (bump b1 RULE_ONE (capuaRuleNumber (editorial n)))))
  /\ ficta (editorial m) = (if b4 || b3 || b2 || b1 then Some sharp else None)
  /\ capuaFicta (editorial m)
     = (if b4 || b3 || b2 || b1 then Some (Some sharp) else capuaFicta (editorial n))
  /\ pmfcFicta (editorial m) = Some (ficta (editorial n))
  /\ savedFicta (editorial m) = Some (ficta (editorial n))
  /\ savedAccidental (editorial m)
     = match accidental p with
       | Some a => Some (Some a)
       | None => savedAccidental (editorial n)
       end.
Proof.
  intros Hp. cbv zeta. unfold pipelineNote.
  destruct (preambleNote_fields n p Hp) as (P1 & P2 & P3 & P4 & P5 & P6).
  set (n0 := preambleNote true n) in *.
  destruct (markAt_fields ruleOne h1 k n0) as (A1 & A2 & A3 & A4 & A5 & A6).
  set (n1 := markAt ruleOne h1 k n0) in *.
  destruct (markAt_fields ruleTwo h2 k n1) as (B1 & B2 & B3 & B4 & B5 & B6).
  set (n2 := markAt ruleTwo h2 k n1) in *.
  destruct (markAt_fields ruleThree h3 k n2) as (C1 & C2 & C3 & C4 & C5 & C6).
  set (n3 := markAt ruleThree h3 k n2) in *.
  destruct (markAt_fields ruleFourB h4 k n3) as (D1 & D2 & D3 & D4 & D5 & D6).
  rewrite D1, C1, B1, A1, P1, D2, C2, B2, A2, P2, D3, C3, B3, A3, P3,
    D4, C4, B4, A4, P4, D5, C5, B5, A5, P5, D6, C6, B6, A6, P6.
  change (rNumber ruleOne) with RULE_ONE. change (rNumber ruleTwo) with RULE_TWO.
  change (rNumber ruleThree) with RULE_THREE. change (rNumber ruleFourB) with RULE_FOUR_B.
  change (rFicta ruleOne) with sharp. change (rFicta ruleTwo) with sharp.
  change (rFicta ruleThree) with sharp. change (rFicta ruleFourB) with sharp.
  destruct (bool_decide (k ∈ h1)), (bool_decide (k ∈ h2)), (bool_decide (k ∈ h3)),
    (bool_decide (k ∈ h4)); repeat split; reflexivity.
Qed.

Lemma pipelineNote_rest (tr : list nat * list nat * list nat * list nat) (k : nat)
    (n : GeneralNote) :
  isRest (pipelineNote tr k n) = isRest n.
Proof. unfold isRest. rewrite pipelineNote_pitch. destruct (pitch n); reflexivity. Qed.

(** ** What a run leaves *)

(** X1. On a stream that holds its notes itself (a Measure, the stream
    that [part.flat.notesAndRests] gives) [applyCapuaToStream] never raises:
    the first loop takes every accidental off, and music21 names the
    interval between any two notes without accidentals.  The stream it
    leaves has the notes and rests of the one it was given, place by place,
    each note on its step and in its octave, without accidental. *)
Theorem applyCapuaToStream_returns (s : NestedStream) :
  allDirect s = true ->
  exists s',
    applyCapuaToStream s = Ok s'
    /\ length s' = length s
    /\ allDirect s' = true
    /\ forall k n, flatNotesAndRests s !! k = Some n ->
         exists n', flatNotesAndRests s' !! k = Some n' /\ pitch n' = clearAcc <$> pitch n.
Proof.
  intros Hd. destruct (applyCapuaToStream_total s Hd) as [s' Hrun].
  exists s'. split; [exact Hrun|].
  destruct (applyCapuaToStream_notes s s' Hd Hrun) as (tr & Hlen & Hd' & _ & Hn).
  split; [exact Hlen|]. split; [exact Hd'|].
  intros k n Hk. destruct (Hn k n Hk) as (n' & Hn' & Hc).
  exists n'. split; [exact Hn'|]. injection Hc as Hp _. rewrite Hp.
  apply pipelineNote_pitch.
Qed.

Lemma applyCapuaToStream_returns_witness :
  exists s', applyCapuaToStream (flatStream exampleLine) = Ok s' /\ length s' = 15%nat.
Proof.
  destruct (applyCapuaToStream_returns (flatStream exampleLine) eq_refl)
    as (s' & Hrun & Hlen & _).
  exists s'. split; [exact Hrun|exact Hlen].
Defined.

(** Where the notes lie in a stream inside the stream, the first loop
    reaches none and the accidentals stay: on a Part whose Measure holds
    C4 with four flats, D4 with four sharps and E4, the interval of the
    first two notes has no name and the run raises. *)
Example applyCapuaToStream_inner_raises :
  applyCapuaToStream
    (partOfMeasure [plainNote Step.C (Some quadruple_flat) 4;
                    plainNote Step.D (Some quadruple_sharp) 4; plainNote Step.E None 4])
  = Raise IntervalException.
Proof. vm_compute. reflexivity. Qed.

(** X2. What [applyCapuaToStream] leaves in the editorial of a note, rests
    apart.  The ficta the note had is under savedFicta, wherever the note
    lies.  If the note is an element of the stream itself, the first loop
    has reached it: the ficta it had is under pmfcFicta as well, and the
    accidental it had is under savedAccidental.  If it lies in a stream
    inside the stream (a Measure of a Part), pmfcFicta is as it was: the
    key is not stored. *)
Theorem applyCapuaToStream_saves (s s' : NestedStream) (k : nat) (e : Element) :
  applyCapuaToStream s = Ok s' -> s !! k = Some e -> isRest (noteOf e) = false ->
  exists n', flatNotesAndRests s' !! k = Some n'
    /\ savedFicta (editorial n') = Some (ficta (editorial (noteOf e)))
    /\ pmfcFicta (editorial n')
       = (if direct e then Some (ficta (editorial (noteOf e)))
          else pmfcFicta (editorial (noteOf e)))
    /\ (direct e = true ->
        savedAccidental (editorial n')
        = match pitch_accidental (noteOf e) with
          | Some a => Some (Some a)
          | None => savedAccidental (editorial (noteOf e))
          end).
Proof.
  intros Hrun Hk Hrest. destruct (applyCapuaToStream_trace s s' Hrun) as (tr & _ & _ & Hn).
  destruct (Hn k e Hk) as (n' & Hn' & Hc). exists n'. split; [exact Hn'|].
  set (m := tracedNote tr k e) in *. injection Hc as _ He. rewrite He. subst m.
  destruct (tracedNote_ficta_slots tr k e Hrest) as [F1 F2].
  split; [exact F2|]. split; [exact F1|].
  intros Hd. destruct e as [d n]. cbn in Hd. subst d. rewrite tracedNote_direct.
  cbn [noteOf] in *. unfold isRest in Hrest. unfold pitch_accidental.
  destruct (pitch n) as [p|] eqn:Hp; [|discriminate Hrest].
  destruct tr as [[[h1 h2] h3] h4].
  destruct (pipelineNote_fields h1 h2 h3 h4 k n p Hp) as (_ & _ & _ & _ & _ & F6).
  exact F6.
Qed.

Lemma applyCapuaToStream_saves_witness :
  (exists n', exampleLineAfter !! 1%nat = Some n'
     /\ savedFicta (editorial n') = Some None
     /\ pmfcFicta (editorial n') = Some None
     /\ savedAccidental (editorial n') = Some (Some flat))
  /\ (exists n', flatThirdPartAfter !! 1%nat = Some n'
        /\ savedFicta (editorial n') = Some None
        /\ pmfcFicta (editorial n') = None).
Proof.
  assert (R1 : applyCapuaToStream (flatStream exampleLine) = Ok (flatStream exampleLineAfter))
    by (vm_compute; reflexivity).
  assert (R2 : applyCapuaToStream (partOfMeasure flatThird)
               = Ok (partOfMeasure flatThirdPartAfter))
    by (vm_compute; reflexivity).
  split.
  - destruct (applyCapuaToStream_saves (flatStream exampleLine) (flatStream exampleLineAfter) 1
                (mkElement true (plainNote Step.B (Some flat) 4)) R1 eq_refl eq_refl)
      as (n' & Hn' & H1 & H2 & H3).
    exists n'. split; [rewrite flatNotesAndRests_flatStream in Hn'; exact Hn'|].
    split; [exact H1|]. split; [exact H2|]. exact (H3 eq_refl).
  - destruct (applyCapuaToStream_saves (partOfMeasure flatThird)
                (partOfMeasure flatThirdPartAfter) 1
                (mkElement false (plainNote Step.B (Some flat) 4)) R2 eq_refl eq_refl)
      as (n' & Hn' & H1 & H2 & _).
    exists n'. split; [exact Hn'|]. split; [exact H1|exact H2].
Defined.

Lemma noSavedAccidental_lookup (s : Stream) (k : nat) (n : GeneralNote) :
  noSavedAccidental s = true -> s !! k = Some n -> savedAccidental (editorial n) = None.
Proof.
  unfold noSavedAccidental. rewrite forallb_forall. intros Hall Hk.
  specialize (Hall n). destruct (savedAccidental (editorial n)); [|reflexivity].
  assert (false = true); [|discriminate]. apply Hall.
  apply list_elem_of_In. apply (list_elem_of_lookup_2 s k n Hk).
Qed.

Lemma restoreAccidental_pitch (n : GeneralNote) :
  pitch (restoreAccidental n)
  = match savedAccidental (editorial n) with
    | Some saved => (fun p => mkPitch (step p) saved (octave p)) <$> pitch n
    | None => pitch n
    end.
Proof.
  unfold restoreAccidental. destruct (savedAccidental (editorial n)); [|reflexivity].
  cbn. destruct (pitch n); reflexivity.
Qed.

(** [restoreAccidental] puts back what the run took off. *)
Lemma Kept_restoreAccidental (n m : GeneralNote) :
  savedAccidental (editorial n) = None -> Kept n m -> pitch (restoreAccidental m) = pitch n.
Proof.
  intros Hs [Hp Hsv|a Ha Hp Hsv]; rewrite restoreAccidental_pitch, Hsv.
  - rewrite Hs. exact Hp.
  - rewrite Hp. unfold pitch_accidental in Ha.
    destruct (pitch n) as [[st acc o]|]; [|discriminate Ha]. cbn in *. subst acc.
    reflexivity.
Qed.

(** X3. [restoreAccidental] on every note undoes what [applyCapuaToStream]
    did to the pitches, on a stream that came without savedAccidental,
    whether the stream holds its notes itself or in streams inside it. *)
Theorem applyCapuaToStream_restoreAccidental (s s' : NestedStream) :
  noSavedAccidental (flatNotesAndRests s) = true -> applyCapuaToStream s = Ok s' ->
  pitch <$> (restoreAccidental <$> flatNotesAndRests s') = pitch <$> flatNotesAndRests s.
Proof.
  intros Hns Hrun. destruct (applyCapuaToStream_trace s s' Hrun) as (tr & Hlen & _ & Hn).
  apply list_eq. intros k. rewrite !list_lookup_fmap.
  destruct (s !! k) as [e|] eqn:Hk.
  - destruct (Hn k e Hk) as (n' & Hn' & Hc). rewrite Hn', flatNotesAndRests_lookup, Hk.
    cbn. f_equal. apply Kept_restoreAccidental.
    + apply (noSavedAccidental_lookup (flatNotesAndRests s) k).
      * exact Hns.
      * rewrite flatNotesAndRests_lookup, Hk. reflexivity.
    + apply (Kept_core _ (tracedNote tr k e)); [exact Hc|apply Kept_traced].
  - rewrite !flatNotesAndRests_lookup, Hk.
    apply lookup_ge_None in Hk. rewrite <- Hlen in Hk. apply lookup_ge_None in Hk.
    rewrite Hk. reflexivity.
Qed.

Lemma applyCapuaToStream_restoreAccidental_witness :
  pitch <$> (restoreAccidental <$> exampleLineAfter) = pitch <$> exampleLine
  /\ pitch <$> (restoreAccidental <$> flatThirdPartAfter) = pitch <$> flatThird.
Proof.
  assert (R1 : applyCapuaToStream (flatStream exampleLine) = Ok (flatStream exampleLineAfter))
    by (vm_compute; reflexivity).
  assert (R2 : applyCapuaToStream (partOfMeasure flatThird)
               = Ok (partOfMeasure flatThirdPartAfter))
    by (vm_compute; reflexivity).
  split.
  - pose proof (applyCapuaToStream_restoreAccidental (flatStream exampleLine)
                  (flatStream exampleLineAfter) eq_refl R1) as H.
    rewrite !flatNotesAndRests_flatStream in H. exact H.
  - exact (applyCapuaToStream_restoreAccidental (partOfMeasure flatThird)
             (partOfMeasure flatThirdPartAfter) eq_refl R2).
Defined.





(** X5. In a run of [applyCapuaToStream] on a stream that holds its notes
    itself and came without capuaRuleNumber, no note is the pivot of two
    rules: a note that is not a rest is left either without
    capuaRuleNumber and without ficta, or with one of the constants 1, 2,
    4, 16 as its capuaRuleNumber and a sharp as its ficta and its
    capuaFicta.  The branch of the rules that proposes a natural is not
    taken there, the first loop having taken the accidentals off before
    the rules run; on a Part that holds its notes in Measures it is taken
    (see [applyCapuaToStream_inner_natural]). *)
Theorem applyCapuaToStream_one_rule (s s' : NestedStream) (k : nat) (n' : GeneralNote) :
  allDirect s = true ->
  unannotated (flatNotesAndRests s) = true -> applyCapuaToStream s = Ok s' ->
  flatNotesAndRests s' !! k = Some n' -> isRest n' = false ->
  (capuaRuleNumber (editorial n') = None /\ ficta (editorial n') = None)
  \/ ((capuaRuleNumber (editorial n') = Some RULE_ONE
       \/ capuaRuleNumber (editorial n') = Some RULE_TWO
       \/ capuaRuleNumber (editorial n') = Some RULE_THREE
       \/ capuaRuleNumber (editorial n') = Some RULE_FOUR_B)
      /\ ficta (editorial n') = Some sharp
      /\ capuaFicta (editorial n') = Some (Some sharp)).
Proof.
  intros Hd Hun Hrun Hk' Hrest.
  destruct (applyCapuaToStream_notes s s' Hd Hrun) as (tr & Hlen & _ & Hex & Hn).
  destruct (lookup_lt_is_Some_2 (flatNotesAndRests s) k) as [n Hk].
  { rewrite flatNotesAndRests_length, <- Hlen, <- (flatNotesAndRests_length s').
    apply lookup_lt_Some in Hk'. exact Hk'. }
  destruct (Hn k n Hk) as (m & Hm & Hc). rewrite Hk' in Hm. injection Hm as <-.
  pose proof (unannotated_lookup _ k n Hun Hk) as Hcrn.
  specialize (Hex k). unfold isRest in Hrest.
  set (q := pipelineNote tr k n) in *. injection Hc as Hp He. subst q.
  rewrite Hp, pipelineNote_pitch in Hrest. rewrite He. clear He Hp Hn.
  destruct (pitch n) as [p|] eqn:Hpn; [|discriminate Hrest].
  destruct tr as [[[h1 h2] h3] h4].
  destruct (pipelineNote_fields h1 h2 h3 h4 k n p Hpn) as (F1 & F2 & F3 & _).
  rewrite F1, F2, F3, Hcrn. unfold exclusive in Hex. unfold bump.
  destruct (bool_decide (k ∈ h1)), (bool_decide (k ∈ h2)), (bool_decide (k ∈ h3)),
    (bool_decide (k ∈ h4)); try destruct Hex; cbn; auto 10.
Qed.

Lemma applyCapuaToStream_one_rule_witness :
  exists n', fourRulesLineAfter !! 12%nat = Some n'
    /\ capuaRuleNumber (editorial n') = Some 16
    /\ ficta (editorial n') = Some sharp.
Proof.
  assert (R1 : applyCapuaToStream (flatStream fourRulesLine)
               = Ok (flatStream fourRulesLineAfter))
    by (vm_compute; reflexivity).
  destruct (fourRulesLineAfter !! 12%nat) as [n'|] eqn:Hn'; [|vm_compute in Hn'; discriminate].
  exists n'. split; [reflexivity|].
  assert (Hk : flatNotesAndRests (flatStream fourRulesLineAfter) !! 12%nat = Some n')
    by (rewrite flatNotesAndRests_flatStream; exact Hn').
  destruct (applyCapuaToStream_one_rule (flatStream fourRulesLine)
              (flatStream fourRulesLineAfter) 12 n' eq_refl eq_refl R1 Hk)
    as [[H1 H2]|[H1 [H2 H3]]].
  - vm_compute in Hn'. injection Hn' as <-. reflexivity.
  - vm_compute in Hn'. injection Hn' as <-. discriminate.
  - split; [|exact H2]. vm_compute in Hn'. injection Hn' as <-. reflexivity.
Defined.

(** On a Part whose Measure holds G4 Bb4 C5 the first loop reaches no
    note: rule 4B finds the flat on its pivot, takes it off, saves it and
    proposes a natural, and no pmfcFicta is stored. *)
Example applyCapuaToStream_inner_natural :
  exists n',
    applyCapuaToStream (partOfMeasure flatThird) = Ok (partOfMeasure flatThirdPartAfter)
    /\ flatThirdPartAfter !! 1%nat = Some n'
    /\ pitch n' = Some (mkPitch Step.B None 4)
    /\ ficta (editorial n') = Some natural
    /\ capuaFicta (editorial n') = Some (Some natural)
    /\ savedAccidental (editorial n') = Some (Some flat)
    /\ pmfcFicta (editorial n') = None
    /\ capuaRuleNumber (editorial n') = Some RULE_FOUR_B.
Proof. eexists. split; [vm_compute; reflexivity|]. vm_compute. repeat split; reflexivity. Qed.

Lemma streamVec_cons (n : GeneralNote) (x : Stream) :
  streamVec (n :: x) = add6 (noteVec n) (streamVec x).
Proof.
  change (n :: x) with ([n] ++ x). rewrite streamVec_app.
  unfold streamVec at 1. cbn [fold_left]. rewrite add6_zero_l. reflexivity.
Qed.

Lemma countNotes_cons (n : GeneralNote) (x : Stream) :
  countNotes (n :: x) = Z.b2z (negb (isRest n)) + countNotes x.
Proof.
  unfold countNotes. cbn [List.filter]. destruct (negb (isRest n)); cbn [length Z.b2z]; lia.
Qed.

Lemma countCapua_cons (n : GeneralNote) (x : Stream) :
  countCapua (n :: x)
  = Z.b2z (negb (isRest n) && hasKey (capuaFicta (editorial n))) + countCapua x.
Proof.
  unfold countCapua. cbn [List.filter].
  destruct (negb (isRest n) && hasKey (capuaFicta (editorial n))); cbn [length Z.b2z]; lia.
Qed.

Lemma countCapua_bounds (x : Stream) : 0 <= countCapua x <= countNotes x.
Proof.
  induction x as [|n x IH]; [unfold countCapua, countNotes; cbn; lia|].
  rewrite countCapua_cons, countNotes_cons.
  destruct (negb (isRest n)), (hasKey (capuaFicta (editorial n))); cbn [andb Z.b2z]; lia.
Qed.

(** The tally of a stream in which every note has a pmfcFicta. *)
Lemma streamVec_all_pmfc (x : Stream) :
  Forall (fun n => isRest n = false -> hasKey (pmfcFicta (editorial n)) = true) x ->
  streamVec x
  = (countNotes x, countNotes x, countCapua x, countNotes x - countCapua x, 0, countCapua x).
Proof.
  induction 1 as [|n x Hn _ IH]; [reflexivity|].
  rewrite streamVec_cons, IH, countNotes_cons, countCapua_cons.
  unfold noteVec. destruct (isRest n) eqn:Hr; cbn [negb andb Z.b2z add6].
  - repeat f_equal; lia.
  - rewrite (Hn eq_refl). destruct (hasKey (capuaFicta (editorial n)));
      cbn [negb andb Z.b2z]; repeat f_equal; lia.
Qed.

(** Every note [applyCapuaToStream] leaves in a stream that holds its notes
    itself has a pmfcFicta. *)
Lemma applyCapuaToStream_pmfc (s s' : NestedStream) :
  allDirect s = true -> applyCapuaToStream s = Ok s' ->
  Forall (fun n => isRest n = false -> hasKey (pmfcFicta (editorial n)) = true)
         (flatNotesAndRests s').
Proof.
  intros Hd Hrun. destruct (applyCapuaToStream_notes s s' Hd Hrun) as (tr & Hlen & _ & _ & Hn).
  apply Forall_lookup. intros k n' Hk' Hrest.
  destruct (lookup_lt_is_Some_2 (flatNotesAndRests s) k) as [n Hk].
  { rewrite flatNotesAndRests_length, <- Hlen, <- (flatNotesAndRests_length s').
    apply lookup_lt_Some in Hk'. exact Hk'. }
  destruct (Hn k n Hk) as (m & Hm & Hc). rewrite Hk' in Hm. injection Hm as <-.
  set (q := pipelineNote tr k n) in *. injection Hc as Hpn He. subst q.
  unfold isRest in Hrest. rewrite Hpn, pipelineNote_pitch in Hrest.
  rewrite He. destruct (pitch n) as [p|] eqn:Hp; [|discriminate Hrest].
  destruct tr as [[[h1 h2] h3] h4].
  destruct (pipelineNote_fields h1 h2 h3 h4 k n p Hp) as (_ & _ & _ & F4 & _).
  rewrite F4. reflexivity.
Qed.

(** X6. After [applyCapuaToStream] on a stream that holds its notes itself
    every note has the key pmfcFicta, whether the editors gave it a ficta
    or not, so that [compareSrcStreamCapuaToEditor], which tests the key,
    counts every note as altered by the editors: pmfcAlt is totalNotes,
    capuaNotPmfc is 0, and pmfcAndCapua is capuaAlt. *)
Theorem compare_after_applyCapua (s : NestedStream) :
  allDirect s = true ->
  exists s',
    applyCapuaToStream s = Ok s'
    /\ compareSrcStreamCapuaToEditor (flatNotesAndRests s')
       = Ok [("totalNotes", countNotes (flatNotesAndRests s));
             ("pmfcAlt", countNotes (flatNotesAndRests s));
             ("capuaAlt", countCapua (flatNotesAndRests s'));
             ("pmfcNotCapua",
              countNotes (flatNotesAndRests s) - countCapua (flatNotesAndRests s'));
             ("capuaNotPmfc", 0);
             ("pmfcAndCapua", countCapua (flatNotesAndRests s'))]
    /\ 0 <= countCapua (flatNotesAndRests s') <= countNotes (flatNotesAndRests s).
Proof.
  intros Hd. destruct (applyCapuaToStream_total s Hd) as [s' Hrun].
  exists s'. split; [exact Hrun|].
  destruct (applyCapuaToStream_notes s s' Hd Hrun) as (tr & Hlen & _ & _ & Hn).
  set (a := flatNotesAndRests s) in *. set (a' := flatNotesAndRests s') in *.
  assert (Hlen' : length a' = length a).
  { unfold a, a'. rewrite !flatNotesAndRests_length. exact Hlen. }
  assert (Hp : pitch <$> a' = (fun n => clearAcc <$> pitch n) <$> a).
  { apply list_eq. intros k. rewrite !list_lookup_fmap.
    destruct (a !! k) as [n|] eqn:Hk.
    - destruct (Hn k n Hk) as (n' & -> & Hc). cbn. f_equal.
      set (q := pipelineNote tr k n) in *. injection Hc as -> _. subst q.
      apply pipelineNote_pitch.
    - apply lookup_ge_None in Hk. rewrite <- Hlen' in Hk. apply lookup_ge_None in Hk.
      rewrite Hk. reflexivity. }
  assert (Hcount : countNotes a' = countNotes a).
  { clear -Hp. revert Hp. generalize a. induction a' as [|n' x IH]; intros [|n y] Hp;
      try discriminate Hp; [reflexivity|].
    injection Hp as Hn Hrest. rewrite !countNotes_cons, (IH y Hrest).
    unfold isRest. rewrite Hn. destruct (pitch n); reflexivity. }
  split.
  - rewrite compareSrcStream_vec, streamVec_all_pmfc, Hcount; [reflexivity|].
    exact (applyCapuaToStream_pmfc s s' Hd Hrun).
  - rewrite <- Hcount. apply countCapua_bounds.
Qed.

Lemma compare_after_applyCapua_witness :
  exists s',
    applyCapuaToStream (flatStream thirdLine) = Ok s'
    /\ compareSrcStreamCapuaToEditor (flatNotesAndRests s')
       = Ok [("totalNotes", 3); ("pmfcAlt", 3);
             ("capuaAlt", countCapua (flatNotesAndRests s'));
             ("pmfcNotCapua", 3 - countCapua (flatNotesAndRests s'));
             ("capuaNotPmfc", 0);
             ("pmfcAndCapua", countCapua (flatNotesAndRests s'))].
Proof.
  destruct (compare_after_applyCapua (flatStream thirdLine) eq_refl) as (s' & Hrun & Hc & _).
  exists s'. split; [exact Hrun|exact Hc].
Defined.

(** On a Part that holds D4 F4 G4 in a Measure no pmfcFicta is stored, and
    the F that rule 4B matched is counted under capuaNotPmfc. *)
Example compare_after_applyCapua_inner :
  exists s',
    applyCapuaToStream (partOfMeasure thirdLine) = Ok s'
    /\ compareSrcStreamCapuaToEditor (flatNotesAndRests s')
       = Ok [("totalNotes", 3); ("pmfcAlt", 0); ("capuaAlt", 1);
             ("pmfcNotCapua", 0); ("capuaNotPmfc", 1); ("pmfcAndCapua", 0)].
Proof. eexists. split; vm_compute; reflexivity. Qed.

(** ** [applyCapuaToStream] run twice *)

(** The pivots the four rules match are read off the pitches the first
    loop leaves. *)
Lemma applyCapuaTraced_hits (s s' : Stream) (h1 h2 h3 h4 : list nat) :
  applyCapuaTraced (flatStream s) = Ok (flatStream s', (h1, h2, h3, h4)) ->
  let a := pitch <$> (preambleNote true <$> s) in
  pitch <$> s' = a
  /\ pscan ruleOne a = Ok (a, h1) /\ pscan ruleTwo a = Ok (a, h2)
  /\ pscan ruleThree a = Ok (a, h3) /\ pscan ruleFourB a = Ok (a, h4).
Proof.
  unfold applyCapuaTraced. cbv zeta.
  rewrite preamble_flatStream_eq, flatNotesAndRests_flatStream.
  set (s0 := preambleNote true <$> s).
  assert (H0 : plainPitches (pitch <$> s0)) by apply preamble_plain.
  destruct (scan ruleOne s0) as [[s1 g1]|e] eqn:R1; [|discriminate].
  cbn [mbind result_bind].
  destruct (scan ruleTwo s1) as [[s2 g2]|e] eqn:R2; [|discriminate].
  cbn [mbind result_bind].
  destruct (scan ruleThree s2) as [[s3 g3]|e] eqn:R3; [|discriminate].
  cbn [mbind result_bind].
  destruct (scan ruleFourB s3) as [[s4 g4]|e] eqn:R4; [|discriminate].
  cbn [mbind result_bind mret result_ret]. intros H. injection H as Hs <- <- <- <-.
  assert (Hlen : length s4 = length s0).
  { destruct (scan_hitAt _ _ _ _ pivot_inside_ruleOne R1) as [L1 _].
    destruct (scan_hitAt _ _ _ _ pivot_inside_ruleTwo R2) as [L2 _].
    destruct (scan_hitAt _ _ _ _ pivot_inside_ruleThree R3) as [L3 _].
    destruct (scan_hitAt _ _ _ _ pivot_inside_ruleFourB R4) as [L4 _].
    rewrite L4, L3, L2, L1. reflexivity. }
  rewrite (setNotes_flatStream s0 s4 Hlen) in Hs. apply flatStream_inj in Hs. subst s'.
  apply (scan_pitches _ _ _ _ pivot_inside_ruleOne) in R1.
  apply (scan_pitches _ _ _ _ pivot_inside_ruleTwo) in R2.
  apply (scan_pitches _ _ _ _ pivot_inside_ruleThree) in R3.
  apply (scan_pitches _ _ _ _ pivot_inside_ruleFourB) in R4.
  destruct (pscan_plain_hits _ _ _ _ H0 R1) as [E1 _]. rewrite E1 in R1, R2.
  destruct (pscan_plain_hits _ _ _ _ H0 R2) as [E2 _]. rewrite E2 in R2, R3.
  destruct (pscan_plain_hits _ _ _ _ H0 R3) as [E3 _]. rewrite E3 in R3, R4.
  destruct (pscan_plain_hits _ _ _ _ H0 R4) as [E4 _]. rewrite E4 in R4.
  auto.
Qed.

Lemma preamble_pitches_again (s : Stream) :
  pitch <$> (preambleNote true <$> (preambleNote true <$> s))
  = pitch <$> (preambleNote true <$> s).
Proof.
  apply list_eq. intros k. rewrite !list_lookup_fmap.
  destruct (s !! k) as [n|]; [|reflexivity]. cbn. f_equal.
  rewrite !preambleNote_pitch. destruct (pitch n); reflexivity.
Qed.

Lemma preamble_pitches_cong (s t : Stream) :
  pitch <$> s = pitch <$> t ->
  pitch <$> (preambleNote true <$> s) = pitch <$> (preambleNote true <$> t).
Proof.
  intros H. apply list_eq. intros k. rewrite !list_lookup_fmap.
  assert (Hk : pitch <$> s !! k = pitch <$> t !! k) by (rewrite <- !list_lookup_fmap, H; reflexivity).
  destruct (s !! k) as [n|], (t !! k) as [m|]; try discriminate Hk; [|reflexivity].
  cbn in *. injection Hk as Hk. rewrite !preambleNote_pitch, Hk. reflexivity.
Qed.

(** X26. [applyCapuaToStream] is not to be run twice on a stream that holds
    its notes itself: the second run matches the notes the first run
    matched, so that on a stream that came without capuaRuleNumber every
    capuaRuleNumber is doubled (1 becomes 2, the constant of another
    rule) and the ficta the first run proposed is saved under pmfcFicta
    as if it were the editors'.  (On a Part that holds its notes in
    Measures the second run works on other pitches, a flat taken off by
    the first run being still off.) *)
Theorem applyCapuaToStream_twice (s s' s'' : NestedStream) (k : nat) (n' : GeneralNote) :
  allDirect s = true ->
  unannotated (flatNotesAndRests s) = true ->
  applyCapuaToStream s = Ok s' -> applyCapuaToStream s' = Ok s'' ->
  flatNotesAndRests s' !! k = Some n' -> isRest n' = false ->
  exists n'', flatNotesAndRests s'' !! k = Some n''
    /\ capuaRuleNumber (editorial n'')
       = (fun c => 2 * c) <$> capuaRuleNumber (editorial n')
    /\ pmfcFicta (editorial n'') = Some (ficta (editorial n'))
    /\ ficta (editorial n'') = ficta (editorial n').
Proof.
  intros Hd Hun H1 H2 Hk' Hrest.
  destruct (applyCapuaToStream_notes s s' Hd H1) as (_ & _ & Hd' & _ & _).
  destruct (applyCapuaToStream_notes s' s'' Hd' H2) as (_ & _ & Hd'' & _ & _).
  rewrite (allDirect_flatStream s Hd) in H1.
  rewrite (allDirect_flatStream s' Hd') in H1, H2.
  rewrite (allDirect_flatStream s'' Hd'') in H2.
  set (a := flatNotesAndRests s) in *. set (a' := flatNotesAndRests s') in *.
  set (a'' := flatNotesAndRests s'') in *.
  apply applyCapuaToStream_Ok_traced in H1, H2.
  destruct H1 as [[[[h1 h2] h3] h4] H1], H2 as [[[[g1 g2] g3] g4] H2].
  destruct (applyCapuaTraced_hits _ _ _ _ _ _ H1) as (Hp1 & A1 & A2 & A3 & A4).
  destruct (applyCapuaTraced_hits _ _ _ _ _ _ H2) as (_ & B1 & B2 & B3 & B4).
  cbv zeta in *.
  assert (Ha : pitch <$> (preambleNote true <$> a') = pitch <$> (preambleNote true <$> a)).
  { rewrite <- (preamble_pitches_again a). apply preamble_pitches_cong. exact Hp1. }
  rewrite Ha in B1, B2, B3, B4.
  rewrite A1 in B1. rewrite A2 in B2. rewrite A3 in B3. rewrite A4 in B4.
  injection B1 as <-. injection B2 as <-. injection B3 as <-. injection B4 as <-.
  destruct (applyCapuaTraced_notes a) as (t1 & tr1 & T1 & L1 & X1 & N1).
  rewrite H1 in T1. injection T1 as T1 <-. apply flatStream_inj in T1. subst t1.
  destruct (applyCapuaTraced_notes a') as (t2 & tr2 & T2 & L2 & _ & N2).
  rewrite H2 in T2. injection T2 as T2 <-. apply flatStream_inj in T2. subst t2.
  destruct (lookup_lt_is_Some_2 a k) as [n Hk].
  { rewrite <- L1. apply lookup_lt_Some in Hk'. exact Hk'. }
  destruct (N1 k n Hk) as (m & Hm & Hc1). rewrite Hk' in Hm. injection Hm as <-.
  destruct (N2 k n' Hk') as (n'' & Hn'' & Hc2). exists n''. split; [exact Hn''|].
  pose proof (unannotated_lookup a k n Hun Hk) as Hcrn.
  specialize (X1 k). unfold isRest in Hrest.
  set (m1 := pipelineNote (h1, h2, h3, h4) k n) in *.
  set (m2 := pipelineNote (h1, h2, h3, h4) k n') in *.
  injection Hc1 as Hq1 He1. injection Hc2 as _ He2. subst m1 m2.
  destruct (pitch n') as [p'|] eqn:Hp'; [|discriminate Hrest].
  rewrite pipelineNote_pitch in Hq1.
  destruct (pitch n) as [p|] eqn:Hp; [|discriminate Hq1].
  destruct (pipelineNote_fields h1 h2 h3 h4 k n' p' Hp') as (F1 & F2 & _ & F4 & _).
  destruct (pipelineNote_fields h1 h2 h3 h4 k n p Hp) as (G1 & G2 & _).
  rewrite He2, F1, F2, F4, He1, G1, G2, Hcrn. unfold exclusive in X1. unfold bump.
  destruct (bool_decide (k ∈ h1)), (bool_decide (k ∈ h2)), (bool_decide (k ∈ h3)),
    (bool_decide (k ∈ h4)); try destruct X1; cbn; auto.
Qed.

Lemma applyCapuaToStream_twice_witness :
  exists n'', fourRulesLineTwice !! 1%nat = Some n''
    /\ capuaRuleNumber (editorial n'') = Some 2
    /\ pmfcFicta (editorial n'') = Some (Some sharp).
Proof.
  assert (R1 : applyCapuaToStream (flatStream fourRulesLine)
               = Ok (flatStream fourRulesLineAfter))
    by (vm_compute; reflexivity).
  assert (R2 : applyCapuaToStream (flatStream fourRulesLineAfter)
               = Ok (flatStream fourRulesLineTwice))
    by (vm_compute; reflexivity).
  destruct (fourRulesLineAfter !! 1%nat) as [n'|] eqn:Hn'; [|vm_compute in Hn'; discriminate].
  assert (Hk : flatNotesAndRests (flatStream fourRulesLineAfter) !! 1%nat = Some n')
    by (rewrite flatNotesAndRests_flatStream; exact Hn').
  destruct (applyCapuaToStream_twice (flatStream fourRulesLine) (flatStream fourRulesLineAfter)
              (flatStream fourRulesLineTwice) 1 n' eq_refl eq_refl R1 R2 Hk)
    as (n'' & L & E1 & E2 & _).
  { vm_compute in Hn'. injection Hn' as <-. reflexivity. }
  rewrite flatNotesAndRests_flatStream in L.
  exists n''. split; [exact L|]. rewrite E1, E2.
  vm_compute in Hn'. injection Hn' as <-. split; reflexivity.
Defined.

(** On a Part whose Measure holds G4 Bb4 C5 a second run matches nothing:
    the flat the first run took off is still off, the capuaRuleNumber of
    the B stays 16 and its ficta ends as None. *)
Example applyCapuaToStream_twice_inner :
  exists t n'',
    applyCapuaToStream (partOfMeasure flatThirdPartAfter) = Ok t
    /\ flatNotesAndRests t !! 1%nat = Some n''
    /\ capuaRuleNumber (editorial n'') = Some 16
    /\ pmfcFicta (editorial n'') = None
    /\ ficta (editorial n'') = None.
Proof. eexists. eexists. split; [vm_compute; reflexivity|]. vm_compute. repeat split; reflexivity. Qed.

(** * The five rules *)

Lemma ruleRun_scan (s s' : Stream) (c : nat) :
  ruleRun s s' c ->
  exists R h, scan R s = Ok (s', h) /\ c = length h /\ (rPivot R < rWidth R)%nat
              /\ (2 <= length (rPattern R))%nat
              /\ (R = ruleOne \/ R = ruleTwo \/ R = ruleThree \/ R = ruleFourA \/ R = ruleFourB).
Proof.
  unfold ruleRun.
  rewrite capuaRuleOne_scan, capuaRuleTwo_scan, capuaRuleThree_scan, capuaRuleFourA_scan,
    capuaRuleFourB_scan.
  intros [H|[H|[H|[H|H]]]]; apply counted_Ok in H; destruct H as (h & H & ->);
    [exists ruleOne|exists ruleTwo|exists ruleThree|exists ruleFourA|exists ruleFourB];
    exists h; (split; [exact H|]); (split; [reflexivity|]);
    (split; [unfold rWidth; cbn; lia|]); (split; [cbn; lia|]); tauto.
Qed.

Lemma forM_scan_count (R : RuleSpec) (l : list nat) (x x' : Stream) (h h' : list nat) :
  forM (scan_body R) l (x, h) = Ok (x', h') -> (length h' <= length h + length l)%nat.
Proof.
  revert x h. induction l as [|i l IH]; intros x h Hrun.
  - cbn in Hrun. injection Hrun as _ <-. lia.
  - cbn [forM] in Hrun. destruct (scan_body R i (x, h)) as [[y hy]|e] eqn:Hb; [|discriminate].
    specialize (IH y hy Hrun). cbn [length].
    destruct (scan_body_cases R i x y h hy Hb) as [[_ ->]|(_ & -> & _)];
      rewrite ?length_app in IH; cbn [length] in IH; lia.
Qed.

Lemma scan_frame (R : RuleSpec) (s s' : Stream) (h : list nat) :
  (rPivot R < rWidth R)%nat -> scan R s = Ok (s', h) ->
  length s' = length s
  /\ (length h <= length s - length (rPattern R))%nat
  /\ forall k n, s !! k = Some n ->
       exists n', s' !! k = Some n'
         /\ (pitch n' = pitch n
             \/ exists p, pitch n = Some p /\ isFlat p = true /\ pitch n' = Some (clearAcc p))
         /\ pmfcFicta (editorial n') = pmfcFicta (editorial n)
         /\ savedFicta (editorial n') = savedFicta (editorial n)
         /\ harmonicInterval (editorial n') = harmonicInterval (editorial n).
Proof.
  intros Hpv Hrun. destruct (scan_Progress R s s' h Hpv Hrun) as (Hlen & _ & _ & Hcore).
  split; [exact Hlen|]. split.
  - pose proof (forM_scan_count R _ s s' [] h Hrun) as Hc. rewrite length_seq in Hc.
    cbn in Hc. exact Hc.
  - intros k n Hk. destruct (Hcore k n Hk) as (n' & Hn' & Hc). exists n'.
    split; [exact Hn'|]. injection Hc as Hp He. rewrite Hp, He. clear Hp He Hn' Hcore.
    destruct (bool_decide (k ∈ h)); [|auto].
    destruct n as [q [f hi pm cf sa sf crn] c].
    unfold pivotUpdate, noteIsFlat, addCapuaRuleNumber, flatToNatural, proposeFicta. cbn.
    destruct q as [p|]; cbn.
    + destruct (rClears R), (isFlat p) eqn:Hf, crn; cbn; repeat split; eauto.
    + rewrite andb_false_r. destruct crn; cbn; auto.
Qed.

(** X7. What no rule does: each of the five rules, when it returns, leaves a
    stream of the same length, with a rest where there was a rest and a
    note on the same step and in the same octave where there was a note;
    the one change a rule makes to a pitch is taking off a flat; pmfcFicta,
    savedFicta and harmonicInterval are left as they were; and the count
    returned is at most the number of windows, the length less two. *)
Theorem rules_frame (s s' : Stream) (c : nat) :
  ruleRun s s' c ->
  length s' = length s
  /\ (c <= length s - 2)%nat
  /\ forall k n, s !! k = Some n ->
       exists n', s' !! k = Some n'
         /\ (pitch n' = pitch n
             \/ exists p, pitch n = Some p /\ isFlat p = true /\ pitch n' = Some (clearAcc p))
         /\ pmfcFicta (editorial n') = pmfcFicta (editorial n)
         /\ savedFicta (editorial n') = savedFicta (editorial n)
         /\ harmonicInterval (editorial n') = harmonicInterval (editorial n).
Proof.
  intros Hrun. destruct (ruleRun_scan s s' c Hrun) as (R & h & Hs & -> & Hpv & Hpat & _).
  destruct (scan_frame R s s' h Hpv Hs) as (Hlen & Hc & Hn).
  split; [exact Hlen|]. split; [lia|exact Hn].
Qed.

Lemma rules_frame_witness :
  length exampleAfterOne = length exampleLine /\ (1 <= length exampleLine - 2)%nat.
Proof.
  assert (R1 : ruleRun exampleLine exampleAfterOne 1).
  { left. vm_compute. reflexivity. }
  destruct (rules_frame exampleLine exampleAfterOne 1 R1) as (Hlen & Hc & _).
  split; [exact Hlen|exact Hc].
Defined.

(** A run in which no window is without a rest. *)
Lemma scan_no_window (R : RuleSpec) (s : Stream) :
  (forall i, pwindow (pitch <$> s) i (rWidth R) = None) -> scan R s = Ok (s, []).
Proof.
  intros Hnone. unfold scan. generalize (seq 0 (length s - length (rPattern R))).
  intros l. induction l as [|i l IH]; [reflexivity|].
  cbn [forM]. rewrite scan_body_unfold, Hnone. exact IH.
Qed.

Lemma pwindow_rest (a : list (option Pitch)) (i w t : nat) :
  (t < w)%nat -> a !! (i + t)%nat ≫= id = None -> pwindow a i w = None.
Proof.
  intros Ht Hr. destruct (pwindow a i w) as [ps|] eqn:Hw; [|reflexivity]. exfalso.
  apply pwindow_Some in Hw. destruct Hw as [Hlen Hw]. specialize (Hw t Ht).
  rewrite Hw in Hr. destruct (ps !! t) as [p|] eqn:Hp; [discriminate Hr|].
  apply lookup_ge_None in Hp. lia.
Qed.

(** X8. The rules do not look across a rest: on a stream in which any three
    elements in a row hold a rest, or that has fewer than three elements,
    each of the five rules returns 0 and leaves the stream as it was,
    whatever the accidentals of its notes. *)
Theorem rules_skip_rests (s : Stream) :
  (forall i, exists t, (t < 3)%nat /\ s !! (i + t)%nat ≫= pitch = None) ->
  capuaRuleOne s = Ok (s, 0%nat) /\ capuaRuleTwo s = Ok (s, 0%nat)
  /\ capuaRuleThree s = Ok (s, 0%nat) /\ capuaRuleFourA s = Ok (s, 0%nat)
  /\ capuaRuleFourB s = Ok (s, 0%nat).
Proof.
  intros Hrest.
  assert (Hnone : forall R, (3 <= rWidth R)%nat ->
                    forall i, pwindow (pitch <$> s) i (rWidth R) = None).
  { intros R Hw i. destruct (Hrest i) as (t & Ht & Hr).
    apply (pwindow_rest _ i _ t); [lia|]. rewrite list_lookup_fmap.
    destruct (s !! (i + t)%nat) as [n|]; [exact Hr|reflexivity]. }
  rewrite capuaRuleOne_scan, capuaRuleTwo_scan, capuaRuleThree_scan, capuaRuleFourA_scan,
    capuaRuleFourB_scan.
  rewrite !scan_no_window by (apply Hnone; unfold rWidth; cbn; lia).
  repeat split; reflexivity.
Qed.

Lemma rules_skip_rests_witness :
  capuaRuleOne brokenLine = Ok (brokenLine, 0%nat)
  /\ capuaRuleTwo brokenLine = Ok (brokenLine, 0%nat)
  /\ capuaRuleThree brokenLine = Ok (brokenLine, 0%nat)
  /\ capuaRuleFourA brokenLine = Ok (brokenLine, 0%nat)
  /\ capuaRuleFourB brokenLine = Ok (brokenLine, 0%nat).
Proof.
  apply rules_skip_rests. intros i.
  destruct i as [|[|[|i]]].
  - exists 1%nat. split; [lia|reflexivity].
  - exists 0%nat. split; [lia|reflexivity].
  - exists 2%nat. split; [lia|reflexivity].
  - exists 2%nat. split; [lia|].
    replace (S (S (S i)) + 2)%nat with (S (S (S (S (S i))))) by lia. reflexivity.
Defined.

(** ** The count and the annotations *)

Lemma filter_length_snoc {T : Type} (f : T -> bool) (l : list T) (x : T) :
  length (List.filter f (l ++ [x])) = (length (List.filter f l) + Nat.b2n (f x))%nat.
Proof.
  rewrite List.filter_app, length_app. cbn [List.filter]. destruct (f x); reflexivity.
Qed.

(** Counting the places of a list by the list of the places that count. *)
Lemma filter_length_places {T : Type} (f : T -> bool) (l : list T) (h : list nat) :
  NoDup h -> (forall k, k ∈ h -> (k < length l)%nat) ->
  (forall k x, l !! k = Some x -> f x = bool_decide (k ∈ h)) ->
  length (List.filter f l) = length h.
Proof.
  revert h. induction l as [|x l IH] using rev_ind; intros h Hnd Hlt Hf.
  - destruct h as [|k h]; [reflexivity|]. specialize (Hlt k ltac:(constructor)).
    cbn in Hlt. lia.
  - rewrite filter_length_snoc.
    assert (Hx : f x = bool_decide (length l ∈ h)).
    { apply Hf. rewrite lookup_app_r by lia. rewrite Nat.sub_diag. reflexivity. }
    rewrite Hx. destruct (decide (length l ∈ h)) as [Hin|Hnin].
    + rewrite bool_decide_eq_true_2 by exact Hin.
      apply elem_of_Permutation in Hin. destruct Hin as [h' Hperm].
      rewrite Hperm in Hnd. apply NoDup_cons in Hnd. destruct Hnd as [Hfresh Hnd'].
      rewrite (Permutation_length Hperm). cbn [length Nat.b2n].
      rewrite (IH h' Hnd'); [lia| |].
      * intros k Hk. assert (Hk' : k ∈ h) by (rewrite Hperm; right; exact Hk).
        specialize (Hlt k Hk'). rewrite length_app in Hlt. cbn in Hlt.
        assert (k <> length l) by (intros ->; exact (Hfresh Hk)). lia.
      * intros k y Hk. rewrite (Hf k y) by (rewrite lookup_app_l by (apply lookup_lt_Some in Hk; exact Hk); exact Hk).
        apply bool_decide_ext. rewrite Hperm. split; [|intros H; right; exact H].
        intros H. apply elem_of_cons in H. destruct H as [->|H]; [|exact H].
        apply lookup_lt_Some in Hk. lia.
    + rewrite bool_decide_eq_false_2 by exact Hnin. cbn [Nat.b2n]. rewrite Nat.add_0_r.
      apply IH; [exact Hnd| |].
      * intros k Hk. specialize (Hlt k Hk). rewrite length_app in Hlt. cbn in Hlt.
        assert (k <> length l) by (intros ->; exact (Hnin Hk)). lia.
      * intros k y Hk. apply Hf. rewrite lookup_app_l by (apply lookup_lt_Some in Hk; exact Hk).
        exact Hk.
Qed.

Lemma scan_count_annotated (R : RuleSpec) (s s' : Stream) (h : list nat) :
  (rPivot R < rWidth R)%nat -> unannotated s = true -> scan R s = Ok (s', h) ->
  length h = countAnnotated s'.
Proof.
  intros Hpv Hun Hrun. symmetry. unfold countAnnotated.
  destruct (scan_numbers R s s' h (fun _ => None) Hpv Hrun) as (Hnd & Hlen & Hnum).
  { intros k n Hk. exact (unannotated_lookup s k n Hun Hk). }
  apply filter_length_places; [exact Hnd| |].
  - intros k Hk. rewrite Hlen. exact (scan_hits_bound R s s' h k Hpv Hrun Hk).
  - intros k n' Hk. rewrite (Hnum k n' Hk). destruct (bool_decide (k ∈ h)); reflexivity.
Qed.

(** X9. The count a rule returns is the number of notes it has annotated: on
    a stream without capuaRuleNumber, each of the five rules returns the
    number of notes that have a capuaRuleNumber when it is done, no pivot
    being counted twice. *)
Theorem rule_count_is_annotated (s s' : Stream) (c : nat) :
  unannotated s = true -> ruleRun s s' c -> c = countAnnotated s'.
Proof.
  intros Hun Hrun. destruct (ruleRun_scan s s' c Hrun) as (R & h & Hs & -> & Hpv & _).
  exact (scan_count_annotated R s s' h Hpv Hun Hs).
Qed.

Lemma rule_count_is_annotated_witness : 2%nat = countAnnotated exampleAfterTwoAlone.
Proof.
  assert (R2 : ruleRun exampleLine exampleAfterTwoAlone 2).
  { right. left. vm_compute. reflexivity. }
  exact (rule_count_is_annotated exampleLine exampleAfterTwoAlone 2 eq_refl R2).
Defined.

(** ** Rules 3 and 4A: the windows matched *)

(** A rule that takes no flat off matches the windows that pass its test
    as the stream stands when the rule starts. *)
Lemma pscan_noclear_hits (R : RuleSpec) (a a' : list (option Pitch)) (h : list nat) :
  rClears R = false -> pscan R a = Ok (a', h) ->
  forall k, k ∈ h <->
    exists i ps, k = (i + rPivot R)%nat /\ pwindow a i (rWidth R) = Some ps
                 /\ rTest R ps = Ok true.
Proof.
  intros Hc Hrun. unfold pscan in Hrun.
  assert (Hinv : fst (a', h) = a
            /\ forall k, k ∈ snd (a', h) <->
                 exists i ps, (i < 0 + (length a - length (rPattern R)))%nat
                              /\ k = (i + rPivot R)%nat
                              /\ pwindow a i (rWidth R) = Some ps /\ rTest R ps = Ok true).
  { apply (forM_seq_ind (pscan_body R)
             (fun j st => fst st = a
                /\ forall k, k ∈ snd st <->
                     exists i ps, (i < j)%nat /\ k = (i + rPivot R)%nat
                                  /\ pwindow a i (rWidth R) = Some ps
                                  /\ rTest R ps = Ok true)
             _ _ _ _ Hrun).
    - split; [reflexivity|]. intros k. split.
      + intros Hk. apply elem_of_nil in Hk. destruct Hk.
      + intros (i & _ & Hi & _). lia.
    - intros i [x hx] [y hy] _ [Hx Hh] Hb. cbn [fst snd] in *. subst x.
      split; [exact (pscan_body_noclear R a y i hx hy Hc Hb)|].
      rewrite pscan_body_unfold in Hb. intros k.
      destruct (pwindow a i (rWidth R)) as [ps|] eqn:Hw.
      + destruct (rTest R ps) as [[|]|e] eqn:Ht; cbn [mbind result_bind] in Hb;
          try discriminate; injection Hb as _ <-.
        * rewrite elem_of_app, list_elem_of_singleton, Hh. split.
          -- intros [(i' & ps' & Hi' & H)| ->]; [exists i', ps'; split; [lia|exact H]|].
             exists i, ps. split; [lia|]. auto.
          -- intros (i' & ps' & Hi' & Hk & Hw' & Ht').
             destruct (decide (i' = i)) as [->|Hne]; [right; exact Hk|].
             left. exists i', ps'. split; [lia|]. auto.
        * rewrite Hh. split.
          -- intros (i' & ps' & Hi' & H). exists i', ps'. split; [lia|exact H].
          -- intros (i' & ps' & Hi' & Hk & Hw' & Ht').
             destruct (decide (i' = i)) as [->|Hne]; [congruence|].
             exists i', ps'. split; [lia|]. auto.
      + injection Hb as _ <-. rewrite Hh. split.
        * intros (i' & ps' & Hi' & H). exists i', ps'. split; [lia|exact H].
        * intros (i' & ps' & Hi' & Hk & Hw' & Ht').
          destruct (decide (i' = i)) as [->|Hne]; [congruence|].
          exists i', ps'. split; [lia|]. auto. }
  destruct Hinv as [_ Hh]. cbn [snd] in Hh. intros k. rewrite Hh. split.
  - intros (i & ps & _ & H). eauto.
  - intros (i & ps & Hk & Hw & Ht). exists i, ps. split; [|auto].
    apply pwindow_complete in Hw; [|apply rWidth_pos]. unfold rWidth in Hw. lia.
Qed.

Lemma plainWindow3_test (R : RuleSpec) (nm1 nm2 : string) (s : Stream) (i : nat) :
  rPattern R = [nm1; nm2] -> rPivot R = 1%nat -> rPlain R = [0%nat; 1%nat; 2%nat] ->
  plainWindow3 s i nm1 nm2 <->
  exists ps, pwindow (pitch <$> s) i (rWidth R) = Some ps /\ rTest R ps = Ok true.
Proof.
  intros Hpat Hpiv Hpl.
  assert (Hwd : rWidth R = 3%nat) by (unfold rWidth; rewrite Hpat; reflexivity).
  rewrite Hwd. split.
  - intros (n1 & n2 & n3 & p1 & p2 & p3 & i1 & i2 & L1 & L2 & L3 & P1 & P2 & P3
            & N1 & D1 & N2 & D2 & A1 & A2 & A3 & SA & SD).
    exists [p1; p2; p3]. split.
    + apply pwindow_Some. split; [reflexivity|]. intros [|[|[|t]]] Ht; cbn.
      * rewrite Nat.add_0_r, list_lookup_fmap, L1. cbn. rewrite P1. reflexivity.
      * replace (i + 1)%nat with (S i) by lia.
        rewrite list_lookup_fmap, L2. cbn. rewrite P2. reflexivity.
      * replace (i + 2)%nat with (S (S i)) by lia.
        rewrite list_lookup_fmap, L3. cbn. rewrite P3. reflexivity.
      * lia.
    + apply (rTest_three R nm1 nm2 p1 p2 p3 Hpat Hpiv).
      exists i1, i2. repeat (split; [assumption|]). split.
      * rewrite Hpl. cbn. unfold plainAt. cbn.
        rewrite (proj2 (not_hasAccidental p1) A1), (proj2 (not_hasAccidental p2) A2),
          (proj2 (not_hasAccidental p3) A3). reflexivity.
      * split; apply stepIs_false; assumption.
  - intros (ps & Hw & Ht).
    destruct (list_length3 ps (pwindow_length _ i 3 ps Hw)) as (p1 & p2 & p3 & ->).
    apply (rTest_three R nm1 nm2 p1 p2 p3 Hpat Hpiv) in Ht.
    destruct Ht as (i1 & i2 & N1 & N2 & D1 & D2 & Hplain & SA & SD).
    rewrite Hpl in Hplain. cbn [forallb] in Hplain.
    apply andb_prop in Hplain. destruct Hplain as [Hp1 Hplain].
    apply andb_prop in Hplain. destruct Hplain as [Hp2 Hplain].
    apply andb_prop in Hplain. destruct Hplain as [Hp3 _].
    apply (plainAt_true [p1; p2; p3] 0%nat p1 eq_refl) in Hp1.
    apply (plainAt_true [p1; p2; p3] 1%nat p2 eq_refl) in Hp2.
    apply (plainAt_true [p1; p2; p3] 2%nat p3 eq_refl) in Hp3.
    apply pwindow3 in Hw. destruct Hw as (W1 & W2 & W3).
    rewrite list_lookup_fmap in W1, W2, W3.
    destruct (s !! i) as [n1|] eqn:L1; [|discriminate].
    destruct (s !! S i) as [n2|] eqn:L2; [|discriminate].
    destruct (s !! S (S i)) as [n3|] eqn:L3; [|discriminate].
    cbn in W1, W2, W3. injection W1 as W1. injection W2 as W2. injection W3 as W3.
    exists n1, n2, n3, p1, p2, p3, i1, i2.
    repeat (split; [assumption|]). split; apply stepIs_false; assumption.
Qed.

(** A rule on windows of three notes without accidentals that takes no
    flat off: it keeps every pitch, annotates the second note of each such
    window of the stream as it was, and leaves the editorial of every other
    note. *)
Lemma scan_plain_rule (R : RuleSpec) (nm1 nm2 : string) (s s' : Stream) (h : list nat) :
  rPattern R = [nm1; nm2] -> rPivot R = 1%nat -> rPlain R = [0%nat; 1%nat; 2%nat] ->
  rClears R = false ->
  scan R s = Ok (s', h) ->
  pitch <$> s' = pitch <$> s
  /\ forall k n, s !! k = Some n ->
       exists n', s' !! k = Some n'
         /\ ((exists i, k = S i /\ plainWindow3 s i nm1 nm2) ->
             capuaRuleNumber (editorial n')
             = Some (default 0 (capuaRuleNumber (editorial n)) + rNumber R)
             /\ ficta (editorial n') = Some (rFicta R)
             /\ capuaFicta (editorial n') = Some (Some (rFicta R)))
         /\ (~ (exists i, k = S i /\ plainWindow3 s i nm1 nm2) ->
             editorial n' = editorial n).
Proof.
  intros Hpat Hpiv Hpl Hc Hrun.
  assert (Hpv : (rPivot R < rWidth R)%nat) by (unfold rWidth; rewrite Hpat, Hpiv; cbn; lia).
  pose proof (scan_pitches R s s' h Hpv Hrun) as Hps.
  pose proof (pscan_noclear R _ _ h Hc Hps) as Hsame.
  pose proof (pscan_noclear_hits R _ _ h Hc Hps) as Hh.
  destruct (scan_Progress R s s' h Hpv Hrun) as (_ & _ & _ & Hcore).
  split; [exact Hsame|]. intros k n Hk. destruct (Hcore k n Hk) as (n' & Hn' & Hcn).
  exists n'. split; [exact Hn'|].
  assert (Hiff : k ∈ h <-> exists i, k = S i /\ plainWindow3 s i nm1 nm2).
  { rewrite Hh. split.
    - intros (i & ps & -> & Hw & Ht). exists i. split; [rewrite Hpiv; lia|].
      apply (plainWindow3_test R nm1 nm2 s i Hpat Hpiv Hpl). eauto.
    - intros (i & -> & Hw). apply (plainWindow3_test R nm1 nm2 s i Hpat Hpiv Hpl) in Hw.
      destruct Hw as (ps & Hw & Ht). exists i, ps. split; [rewrite Hpiv; lia|]. auto. }
  injection Hcn as _ He. split.
  - intros Hwin. apply Hiff in Hwin. rewrite bool_decide_eq_true_2 in He by exact Hwin.
    rewrite He. unfold pivotUpdate. rewrite Hc. cbn [andb].
    unfold proposeFicta, addCapuaRuleNumber.
    destruct (capuaRuleNumber (editorial n)); cbn; auto.
  - intros Hwin. rewrite bool_decide_eq_false_2 in He; [exact He|].
    intros Hin. apply Hwin. apply Hiff. exact Hin.
Qed.

(** X11. Rule 3 changes no pitch.  It writes on the second note of every
    window of three notes without accidentals that go a major third down
    and a major second up, the second note not on A or D, as the stream
    stood when the rule began: RULE_THREE is added to the capuaRuleNumber,
    ficta and capuaFicta are a sharp.  The editorial of any other note is
    left as it was. *)
Theorem capuaRuleThree_exact (s s' : Stream) (c : nat) :
  capuaRuleThree s = Ok (s', c) ->
  pitch <$> s' = pitch <$> s
  /\ forall k n, s !! k = Some n ->
       exists n', s' !! k = Some n'
         /\ ((exists i, k = S i /\ plainWindow3 s i "M-3" "M2") ->
             capuaRuleNumber (editorial n')
             = Some (default 0 (capuaRuleNumber (editorial n)) + RULE_THREE)
             /\ ficta (editorial n') = Some sharp
             /\ capuaFicta (editorial n') = Some (Some sharp))
         /\ (~ (exists i, k = S i /\ plainWindow3 s i "M-3" "M2") ->
             editorial n' = editorial n).
Proof.
  rewrite capuaRuleThree_scan. intros H. apply counted_Ok in H. destruct H as (h & H & _).
  exact (scan_plain_rule ruleThree "M-3" "M2" s s' h eq_refl eq_refl eq_refl eq_refl H).
Qed.

Lemma capuaRuleThree_exact_witness :
  pitch <$> thirdsAfterThree = pitch <$> thirdsLine.
Proof.
  assert (R3 : capuaRuleThree thirdsLine = Ok (thirdsAfterThree, 1%nat))
    by (vm_compute; reflexivity).
  exact (proj1 (capuaRuleThree_exact thirdsLine thirdsAfterThree 1 R3)).
Defined.

(** X12. Rule 4A changes no pitch.  It writes on the second note of every
    window of three notes without accidentals that go a minor third down
    and a major second down, the second note not on A or D, as the stream
    stood when the rule began: RULE_FOUR_A is added to the capuaRuleNumber,
    ficta and capuaFicta are a flat.  The editorial of any other note is
    left as it was. *)
Theorem capuaRuleFourA_exact (s s' : Stream) (c : nat) :
  capuaRuleFourA s = Ok (s', c) ->
  pitch <$> s' = pitch <$> s
  /\ forall k n, s !! k = Some n ->
       exists n', s' !! k = Some n'
         /\ ((exists i, k = S i /\ plainWindow3 s i "m-3" "M-2") ->
             capuaRuleNumber (editorial n')
             = Some (default 0 (capuaRuleNumber (editorial n)) + RULE_FOUR_A)
             /\ ficta (editorial n') = Some flat
             /\ capuaFicta (editorial n') = Some (Some flat))
         /\ (~ (exists i, k = S i /\ plainWindow3 s i "m-3" "M-2") ->
             editorial n' = editorial n).
Proof.
  rewrite capuaRuleFourA_scan. intros H. apply counted_Ok in H. destruct H as (h & H & _).
  exact (scan_plain_rule ruleFourA "m-3" "M-2" s s' h eq_refl eq_refl eq_refl eq_refl H).
Qed.

Lemma capuaRuleFourA_exact_witness :
  exists n', thirdsAfterFourA !! 4%nat = Some n'
    /\ capuaRuleNumber (editorial n') = Some 8
    /\ ficta (editorial n') = Some flat
    /\ capuaFicta (editorial n') = Some (Some flat).
Proof.
  assert (R4 : capuaRuleFourA thirdsLine = Ok (thirdsAfterFourA, 1%nat))
    by (vm_compute; reflexivity).
  destruct (capuaRuleFourA_exact thirdsLine thirdsAfterFourA 1 R4) as [_ Hn].
  destruct (Hn 4%nat (plainNote Step.B None 4) eq_refl) as (n' & Hn' & Hfire & _).
  exists n'. split; [exact Hn'|]. apply Hfire. exists 3%nat. split; [reflexivity|].
  unfold plainWindow3. do 8 eexists.
  repeat (split; [vm_compute; reflexivity|]). split; discriminate.
Defined.

(** * Rules 2 and 4B: a window on which the rule fires *)

Lemma rTest_plain_places (R : RuleSpec) (ps : list Pitch) :
  rTest R ps = Ok true -> forallb (plainAt ps) (rPlain R) = true.
Proof.
  unfold rTest. destruct (windowNames ps) as [names|e]; [|discriminate].
  cbn [mbind result_bind]. unfold ruleCheck. intros [= H].
  apply andb_prop in H. destruct H as [H _]. apply andb_prop in H. tauto.
Qed.

(** When a run comes to a window that passed the test as the stream
    stood at first, it finds the same pitches, provided the test asks the
    places before the pivot to be without accidental, and fires. *)
Lemma scan_window_step (R : RuleSpec) (s x : Stream) (i : nat) (h : list nat)
    (ps : list Pitch) :
  (forall t, (t < rPivot R)%nat -> In t (rPlain R)) ->
  pwindow (pitch <$> s) i (rWidth R) = Some ps -> rTest R ps = Ok true ->
  Progress R s i x h ->
  scan_body R i (x, h) = Ok (fireAt R i x, h ++ [(i + rPivot R)%nat]).
Proof.
  intros Hbefore Hw Ht HP. rewrite scan_body_unfold.
  assert (Hx : pwindow (pitch <$> x) i (rWidth R) = Some ps).
  { pose proof Hw as Hw'. apply pwindow_Some in Hw'. destruct Hw' as [Hlen Hall].
    apply pwindow_Some. split; [exact Hlen|]. intros t Hlt.
    specialize (Hall t Hlt). rewrite list_lookup_fmap in Hall |- *.
    destruct (lookup_lt_is_Some_2 ps t ltac:(lia)) as [p Hp]. rewrite Hp in Hall |- *.
    destruct (s !! (i + t)%nat) as [n|] eqn:Hn; [|discriminate Hall].
    cbn in Hall. injection Hall as Hpn. cbn.
    destruct (le_lt_dec (rPivot R) t) as [Hge|Hlt'].
    - rewrite <- Hpn. apply (Progress_untouched R s x i (i + t) h n HP Hn). lia.
    - apply (Progress_plain R s x i (i + t) h n p HP Hn Hpn).
      apply (plainAt_true ps t p Hp).
      pose proof (rTest_plain_places R ps Ht) as Hpl. rewrite forallb_forall in Hpl.
      apply Hpl. apply Hbefore. exact Hlt'. }
  rewrite Hx, Ht. reflexivity.
Qed.

(** The pivot of such a window is among the pivots the run matches. *)
Lemma scan_window_hit (R : RuleSpec) (s s' : Stream) (i : nat) (h : list nat)
    (ps : list Pitch) :
  (rPivot R < rWidth R)%nat ->
  (forall t, (t < rPivot R)%nat -> In t (rPlain R)) ->
  pwindow (pitch <$> s) i (rWidth R) = Some ps -> rTest R ps = Ok true ->
  scan R s = Ok (s', h) -> (i + rPivot R)%nat ∈ h.
Proof.
  intros Hpv Hbefore Hw Ht Hrun.
  assert (Hlen : (i < length s - length (rPattern R))%nat).
  { pose proof (pwindow_complete _ i _ ps (rWidth_pos R) Hw) as H.
    rewrite length_fmap in H. unfold rWidth in H. lia. }
  unfold scan in Hrun.
  replace (length s - length (rPattern R))%nat
    with (i + S (length s - length (rPattern R) - S i))%nat in Hrun by lia.
  rewrite seq_app, forM_app in Hrun.
  destruct (forM (scan_body R) (seq 0 i) (s, [])) as [[x hx]|e] eqn:Hpre; [|discriminate].
  destruct (Progress_run R s 0 i s x [] hx Hpv (Progress_start _ s) Hpre) as [HP _].
  cbn [seq forM Nat.add] in Hrun.
  pose proof (scan_window_step R s x i hx ps Hbefore Hw Ht HP) as Hstep.
  rewrite Hstep in Hrun.
  pose proof (Progress_step R s i x _ hx _ Hpv HP Hstep) as HP'.
  destruct (Progress_run R s (S i) _ _ _ _ _ Hpv HP' Hrun) as [_ Hsub].
  apply Hsub. apply elem_of_app. right. apply list_elem_of_singleton. reflexivity.
Qed.

(** What a rule that takes flats off writes on its pivot. *)
Lemma pivotUpdate_clearing (R : RuleSpec) (n2 : GeneralNote) (p2 : Pitch) :
  rClears R = true -> pitch n2 = Some p2 ->
  capuaRuleNumber (editorial (pivotUpdate R n2))
    = Some (default 0 (capuaRuleNumber (editorial n2)) + rNumber R)
  /\ capuaFicta (editorial (pivotUpdate R n2))
     = Some (Some (if isFlat p2 then natural else rFicta R))
  /\ ficta (editorial (pivotUpdate R n2)) = Some (if isFlat p2 then natural else rFicta R)
  /\ pitch (pivotUpdate R n2) = Some (if isFlat p2 then clearAcc p2 else p2)
  /\ (isFlat p2 = true ->
      savedAccidental (editorial (pivotUpdate R n2)) = Some (accidental p2)).
Proof.
  intros Hc Hp. unfold pivotUpdate, noteIsFlat, addCapuaRuleNumber. rewrite Hp, Hc.
  cbn [andb].
  destruct n2 as [q [f hi pm cf sa sf crn] c]. cbn in Hp. subst q.
  destruct (isFlat p2), crn as [k|]; cbn; repeat split; try reflexivity; try discriminate.
Qed.

Lemma scan_window_fires (R : RuleSpec) (s s' : Stream) (i : nat) (h : list nat)
    (ps : list Pitch) (n2 : GeneralNote) (p2 : Pitch) :
  (rPivot R < rWidth R)%nat -> rClears R = true ->
  (forall t, (t < rPivot R)%nat -> In t (rPlain R)) ->
  pwindow (pitch <$> s) i (rWidth R) = Some ps -> rTest R ps = Ok true ->
  s !! (i + rPivot R)%nat = Some n2 -> pitch n2 = Some p2 ->
  scan R s = Ok (s', h) ->
  (exists n2', s' !! (i + rPivot R)%nat = Some n2'
     /\ capuaRuleNumber (editorial n2')
        = Some (default 0 (capuaRuleNumber (editorial n2)) + rNumber R)
     /\ capuaFicta (editorial n2') = Some (Some (if isFlat p2 then natural else rFicta R))
     /\ ficta (editorial n2') = Some (if isFlat p2 then natural else rFicta R)
     /\ pitch n2' = Some (if isFlat p2 then clearAcc p2 else p2)
     /\ (isFlat p2 = true -> savedAccidental (editorial n2') = Some (accidental p2)))
  /\ (1 <= length h)%nat.
Proof.
  intros Hpv Hc Hbefore Hw Ht L2 P2 Hrun.
  pose proof (scan_window_hit R s s' i h ps Hpv Hbefore Hw Ht Hrun) as Hin.
  destruct (scan_Progress R s s' h Hpv Hrun) as (_ & _ & _ & Hcore). split.
  - destruct (Hcore _ n2 L2) as (n2' & L2' & Hcn).
    rewrite bool_decide_eq_true_2 in Hcn by exact Hin.
    exists n2'. split; [exact L2'|]. injection Hcn as Hp He. rewrite Hp, He.
    exact (pivotUpdate_clearing R n2 p2 Hc P2).
  - destruct h as [|k h]; [|cbn; lia]. apply elem_of_nil in Hin. destruct Hin.
Qed.

Lemma ruleFourBWindow_test (s : Stream) (i : nat) :
  ruleFourBWindow s i ->
  exists ps, pwindow (pitch <$> s) i (rWidth ruleFourB) = Some ps
             /\ rTest ruleFourB ps = Ok true.
Proof.
  intros (n1 & n2 & n3 & p1 & p2 & p3 & i1 & i2 & L1 & L2 & L3 & P1 & P2 & P3
          & N1 & D1 & N2 & D2 & A1 & A3 & SA & SD).
  exists [p1; p2; p3]. split.
  - apply pwindow_Some. split; [reflexivity|]. intros [|[|[|t]]] Ht; cbn.
    + rewrite Nat.add_0_r, list_lookup_fmap, L1. cbn. rewrite P1. reflexivity.
    + rewrite list_lookup_fmap, L2. cbn. rewrite P2. reflexivity.
    + rewrite list_lookup_fmap, L3. cbn. rewrite P3. reflexivity.
    + unfold rWidth in Ht. cbn in Ht. lia.
  - apply (rTest_three ruleFourB "m3" "M2" p1 p2 p3 eq_refl eq_refl).
    exists i1, i2. repeat (split; [assumption|]). split.
    + cbn. unfold plainAt. cbn.
      rewrite (proj2 (not_hasAccidental p1) A1), (proj2 (not_hasAccidental p3) A3).
      reflexivity.
    + split; apply stepIs_false; assumption.
Qed.

Lemma ruleTwoWindow_test (s : Stream) (i : nat) :
  ruleTwoWindow s i ->
  exists ps, pwindow (pitch <$> s) i (rWidth ruleTwo) = Some ps
             /\ rTest ruleTwo ps = Ok true.
Proof.
  intros (n1 & n2 & n3 & n4 & p1 & p2 & p3 & p4 & i1 & i2 & i3 & L1 & L2 & L3 & L4
          & P1 & P2 & P3 & P4 & N1 & D1 & N2 & D2 & N3 & D3 & A1 & A2 & A4 & SA & SD).
  exists [p1; p2; p3; p4]. split.
  - apply pwindow_Some. split; [reflexivity|]. intros [|[|[|[|t]]]] Ht; cbn.
    + rewrite Nat.add_0_r, list_lookup_fmap, L1. cbn. rewrite P1. reflexivity.
    + rewrite list_lookup_fmap, L2. cbn. rewrite P2. reflexivity.
    + rewrite list_lookup_fmap, L3. cbn. rewrite P3. reflexivity.
    + rewrite list_lookup_fmap, L4. cbn. rewrite P4. reflexivity.
    + unfold rWidth in Ht. cbn in Ht. lia.
  - apply (rTest_four ruleTwo "M2" "m2" "M2" p1 p2 p3 p4 eq_refl eq_refl).
    exists i1, i2, i3. repeat (split; [assumption|]). split.
    + cbn. unfold plainAt. cbn.
      rewrite (proj2 (not_hasAccidental p1) A1), (proj2 (not_hasAccidental p2) A2),
        (proj2 (not_hasAccidental p4) A4). reflexivity.
    + split; apply stepIs_false; assumption.
Qed.

(** X13. Rule 4B fires: let the notes at places i, i+1, i+2 be three notes that
    go a minor third up and a major second up, the outer ones without
    accidental, the middle one neither on A nor on D.  Whenever
    capuaRuleFourB returns on the stream, whatever it matched before, the
    middle note has RULE_FOUR_B added once to its capuaRuleNumber, its
    ficta and capuaFicta are a sharp, or a natural with the flat taken off
    the pitch and saved if the note was flat, and the count is at least
    1. *)
Theorem capuaRuleFourB_fires (s s' : Stream) (c i : nat) (n2 : GeneralNote) (p2 : Pitch) :
  ruleFourBWindow s i -> s !! (i + 1)%nat = Some n2 -> pitch n2 = Some p2 ->
  capuaRuleFourB s = Ok (s', c) ->
  (exists n2', s' !! (i + 1)%nat = Some n2'
     /\ capuaRuleNumber (editorial n2')
        = Some (default 0 (capuaRuleNumber (editorial n2)) + RULE_FOUR_B)
     /\ capuaFicta (editorial n2') = Some (Some (if isFlat p2 then natural else sharp))
     /\ ficta (editorial n2') = Some (if isFlat p2 then natural else sharp)
     /\ pitch n2' = Some (if isFlat p2 then clearAcc p2 else p2)
     /\ (isFlat p2 = true -> savedAccidental (editorial n2') = Some (accidental p2)))
  /\ (1 <= c)%nat.
Proof.
  intros Hwin L2 P2 Hrun. rewrite capuaRuleFourB_scan in Hrun. apply counted_Ok in Hrun.
  destruct Hrun as (h & Hrun & ->). destruct (ruleFourBWindow_test s i Hwin) as (ps & Hw & Ht).
  apply (scan_window_fires ruleFourB s s' i h ps n2 p2 pivot_inside_ruleFourB eq_refl);
    try assumption.
  intros t Hlt. cbn in Hlt. assert (t = 0%nat) as -> by lia. left. reflexivity.
Qed.

Lemma capuaRuleFourB_fires_witness :
  exists n2', thirdLineAfterFourB !! 1%nat = Some n2'
    /\ capuaRuleNumber (editorial n2') = Some 16
    /\ capuaFicta (editorial n2') = Some (Some sharp).
Proof.
  assert (W : ruleFourBWindow thirdLine 0).
  { unfold ruleFourBWindow. do 8 eexists.
    repeat (split; [vm_compute; reflexivity|]). split; discriminate. }
  assert (R : capuaRuleFourB thirdLine = Ok (thirdLineAfterFourB, 1%nat))
    by (vm_compute; reflexivity).
  destruct (capuaRuleFourB_fires thirdLine thirdLineAfterFourB 1 0
              (plainNote Step.F None 4) (mkPitch Step.F None 4) W eq_refl eq_refl R)
    as ((n2' & L & E1 & E2 & _) & _).
  exists n2'. split; [exact L|]. split; [exact E1|exact E2].
Defined.

(** X10. Rule 2 fires: let the notes at places i to i+3 be four notes that go
    up a major second, a minor second and a major second, the first,
    second and fourth without accidental, the third neither on A nor on D.
    Whenever capuaRuleTwo returns on the stream, whatever it matched
    before, the third note has RULE_TWO added once to its capuaRuleNumber,
    its ficta and capuaFicta are a sharp, or a natural with the flat taken
    off the pitch and saved if the note was flat, and the count is at
    least 1. *)
Theorem capuaRuleTwo_fires (s s' : Stream) (c i : nat) (n3 : GeneralNote) (p3 : Pitch) :
  ruleTwoWindow s i -> s !! (i + 2)%nat = Some n3 -> pitch n3 = Some p3 ->
  capuaRuleTwo s = Ok (s', c) ->
  (exists n3', s' !! (i + 2)%nat = Some n3'
     /\ capuaRuleNumber (editorial n3')
        = Some (default 0 (capuaRuleNumber (editorial n3)) + RULE_TWO)
     /\ capuaFicta (editorial n3') = Some (Some (if isFlat p3 then natural else sharp))
     /\ ficta (editorial n3') = Some (if isFlat p3 then natural else sharp)
     /\ pitch n3' = Some (if isFlat p3 then clearAcc p3 else p3)
     /\ (isFlat p3 = true -> savedAccidental (editorial n3') = Some (accidental p3)))
  /\ (1 <= c)%nat.
Proof.
  intros Hwin L3 P3 Hrun. rewrite capuaRuleTwo_scan in Hrun. apply counted_Ok in Hrun.
  destruct Hrun as (h & Hrun & ->). destruct (ruleTwoWindow_test s i Hwin) as (ps & Hw & Ht).
  apply (scan_window_fires ruleTwo s s' i h ps n3 p3 pivot_inside_ruleTwo eq_refl);
    try assumption.
  intros t Hlt. cbn in Hlt. cbn.
  destruct t as [|[|t]]; [left; reflexivity|right; left; reflexivity|lia].
Qed.

Lemma capuaRuleTwo_fires_witness :
  exists n3', risingLineAfter !! 2%nat = Some n3'
    /\ capuaRuleNumber (editorial n3') = Some 2
    /\ capuaFicta (editorial n3') = Some (Some natural)
    /\ pitch n3' = Some (mkPitch Step.B None 4).
Proof.
  assert (W : ruleTwoWindow risingLine 0).
  { unfold ruleTwoWindow. do 11 eexists.
    repeat (split; [vm_compute; reflexivity|]). split; discriminate. }
  assert (R : capuaRuleTwo risingLine = Ok (risingLineAfter, 1%nat))
    by (vm_compute; reflexivity).
  destruct (capuaRuleTwo_fires risingLine risingLineAfter 1 0
              (plainNote Step.B (Some flat) 4) (mkPitch Step.B (Some flat) 4)
              W eq_refl eq_refl R)
    as ((n3' & L & E1 & E2 & _ & E4 & _) & _).
  exists n3'. split; [exact L|]. split; [exact E1|]. split; [exact E2|exact E4].
Defined.

(** * Saving and restoring ficta and accidentals *)

(** X14. [restoreFicta] undoes [clearFicta] on the notes that are elements
    of the stream itself: the note is as it was, with its ficta, but for
    the key savedFicta, which now holds None.  A note of a stream inside
    the stream (a Measure of a Part) is reached by [clearFicta], which
    flattens, and not by [restoreFicta], which does not: it stays as
    [clearFicta] left it, without ficta, its ficta under savedFicta. *)
Theorem clearFicta_restoreFicta (s : NestedStream) (k : nat) (e : Element) :
  s !! k = Some e -> isRest (noteOf e) = false ->
  flatNotesAndRests (restoreFicta (clearFicta s)) !! k
  = Some (if direct e then with_editorial (set_savedFicta None) (noteOf e)
          else with_editorial (set_ficta None)
                 (with_editorial (set_savedFicta (ficta (editorial (noteOf e))))
                    (noteOf e))).
Proof.
  intros Hk Hr. unfold flatNotesAndRests, restoreFicta, clearFicta.
  rewrite !list_lookup_fmap, Hk. destruct e as [d n]. cbn in *. f_equal.
  destruct d; unfold onNote; cbn [noteOf direct]; unfold clearFicta_note; rewrite Hr;
    destruct n as [p [[a|] hi pm cf sa sf crn] c]; reflexivity.
Qed.

Lemma clearFicta_restoreFicta_witness :
  flatNotesAndRests (restoreFicta (clearFicta (flatStream [restNote; editedNote]))) !! 1%nat
  = Some (with_editorial (set_savedFicta None) editedNote)
  /\ (ficta ∘ editorial)
       <$> flatNotesAndRests
             (restoreFicta (clearFicta (partOfMeasure [restNote; editedNote]))) !! 1%nat
     = Some None.
Proof.
  split.
  - exact (clearFicta_restoreFicta (flatStream [restNote; editedNote]) 1
             (mkElement true editedNote) eq_refl eq_refl).
  - rewrite (clearFicta_restoreFicta (partOfMeasure [restNote; editedNote]) 1
               (mkElement false editedNote) eq_refl eq_refl).
    reflexivity.
Defined.

(** X15. [clearFicta] run twice before [restoreFicta] loses the ficta: the
    second run saves the None the first run left, and [restoreFicta] has
    nothing to put back, wherever the note lies in the stream. *)
Theorem clearFicta_twice_loses (s : NestedStream) (k : nat) (e : Element) :
  s !! k = Some e -> isRest (noteOf e) = false ->
  exists n', flatNotesAndRests (restoreFicta (clearFicta (clearFicta s))) !! k = Some n'
    /\ ficta (editorial n') = None
    /\ savedFicta (editorial n') = Some None
    /\ pitch n' = pitch (noteOf e).
Proof.
  intros Hk Hr. unfold flatNotesAndRests, restoreFicta, clearFicta.
  rewrite !list_lookup_fmap, Hk. destruct e as [d n]. cbn in *.
  eexists. split; [reflexivity|].
  assert (Hr' : isRest (with_editorial (set_ficta None)
                          (with_editorial (set_savedFicta (ficta (editorial n))) n)) = false)
    by exact Hr.
  destruct d; unfold onNote; cbn [noteOf direct]; unfold clearFicta_note;
    rewrite Hr; rewrite Hr'; destruct n as [p [f hi pm cf sa sf crn] c]; cbn; auto.
Qed.

Lemma clearFicta_twice_loses_witness :
  exists n',
    flatNotesAndRests (restoreFicta (clearFicta (clearFicta (flatStream [editedNote]))))
      !! 0%nat = Some n'
    /\ ficta (editorial n') = None.
Proof.
  destruct (clearFicta_twice_loses (flatStream [editedNote]) 0 (mkElement true editedNote)
              eq_refl eq_refl)
    as (n' & Hn' & Hf & _).
  exists n'. split; [exact Hn'|exact Hf].
Defined.

(** X16. [restoreAccidental] undoes [clearAccidental] on the pitch of a note
    that has an accidental, and of a note that has neither an accidental
    nor a savedAccidental. *)
Theorem clearAccidental_restoreAccidental (n : GeneralNote) :
  pitch_accidental n <> None \/ savedAccidental (editorial n) = None ->
  pitch (restoreAccidental (clearAccidental n)) = pitch n.
Proof.
  unfold clearAccidental, restoreAccidental, pitch_accidental.
  destruct n as [[[st [a|] o]|] [f hi pm cf sa sf crn] c]; cbn.
  - intros _. reflexivity.
  - intros [H|H]; [congruence|]. rewrite H. reflexivity.
  - intros [H|H]; [congruence|]. rewrite H. reflexivity.
Qed.

Lemma clearAccidental_restoreAccidental_witness :
  pitch (restoreAccidental (clearAccidental bFlatWithFicta)) = pitch bFlatWithFicta.
Proof.
  apply clearAccidental_restoreAccidental. left. discriminate.
Defined.

(** X17. [restoreAccidental] is not to be run twice: once the savedAccidental
    of a note has been put back the key holds None, and a second run puts
    this None in the pitch, taking the accidental off. *)
Theorem restoreAccidental_twice (n : GeneralNote) (p : Pitch) (v : option Accidental) :
  pitch n = Some p -> savedAccidental (editorial n) = Some v ->
  pitch_accidental (restoreAccidental n) = v
  /\ pitch_accidental (restoreAccidental (restoreAccidental n)) = None.
Proof.
  intros Hp Hs. destruct n as [q [f hi pm cf sa sf crn] c], p as [st acc o].
  cbn in Hp, Hs. subst q sa. split; reflexivity.
Qed.

Lemma restoreAccidental_twice_witness :
  pitch_accidental (restoreAccidental (clearAccidental bFlatWithFicta)) = Some flat
  /\ pitch_accidental (restoreAccidental (restoreAccidental (clearAccidental bFlatWithFicta)))
     = None.
Proof.
  exact (restoreAccidental_twice (clearAccidental bFlatWithFicta)
           (mkPitch Step.B None 4) (Some flat) eq_refl eq_refl).
Defined.

(** X18. [fictaToAccidental] puts the ficta of a note in its pitch, and
    [restoreAccidental] gives a note that had an accidental its pitch
    back. *)
Theorem fictaToAccidental_roundtrip (n : GeneralNote) (p : Pitch) (a v : Accidental) :
  pitch n = Some p -> accidental p = Some a -> ficta (editorial n) = Some v ->
  pitch_accidental (fictaToAccidental n) = Some v
  /\ pitch (restoreAccidental (fictaToAccidental n)) = Some p.
Proof.
  intros Hp Ha Hf. destruct n as [q [f hi pm cf sa sf crn] c], p as [st acc o].
  cbn in Hp, Ha, Hf. subst q acc f. split; reflexivity.
Qed.

Lemma fictaToAccidental_roundtrip_witness :
  pitch_accidental (fictaToAccidental bFlatFicta) = Some natural
  /\ pitch (restoreAccidental (fictaToAccidental bFlatFicta)) = pitch bFlatFicta.
Proof.
  exact (fictaToAccidental_roundtrip bFlatFicta (mkPitch Step.B (Some flat) 4) flat natural
           eq_refl eq_refl eq_refl).
Defined.

Lemma promote_restore_without_accidental_witness :
  pitch_accidental (restoreAccidental (promote CapuaSlot fWithCapua)) = Some sharp.
Proof.
  exact (promote_restore_without_accidental CapuaSlot fWithCapua (mkPitch Step.F None 4)
           sharp eq_refl eq_refl eq_refl eq_refl).
Defined.

(** * The classifier on intervals wider than an octave *)

Lemma pretty_reads (n k : Z) (s : string) : pretty k = s -> pretty n = s -> n = k.
Proof. intros <- H. exact (inj pretty _ _ H). Qed.

Lemma simple_name_number (sp : Specifier) (n : Z) (e : string) :
  In e (PerfectCons ++ ImperfCons ++ Others) ->
  prefixSpec sp +:+ pretty n = e -> 1 <= n <= 8.
Proof.
  intros Hin Heq. cbn in Hin.
  repeat (destruct Hin as [<-|Hin]); try contradiction;
    destruct sp; cbn in Heq; try discriminate Heq; injection Heq as Heq;
    try discriminate Heq; change ("" +:+ pretty n) with (pretty n) in Heq;
    first [ apply (pretty_reads n 1) in Heq; [|vm_compute; reflexivity]
          | apply (pretty_reads n 2) in Heq; [|vm_compute; reflexivity]
          | apply (pretty_reads n 3) in Heq; [|vm_compute; reflexivity]
          | apply (pretty_reads n 4) in Heq; [|vm_compute; reflexivity]
          | apply (pretty_reads n 5) in Heq; [|vm_compute; reflexivity]
          | apply (pretty_reads n 6) in Heq; [|vm_compute; reflexivity]
          | apply (pretty_reads n 7) in Heq; [|vm_compute; reflexivity]
          | apply (pretty_reads n 8) in Heq; [|vm_compute; reflexivity] ];
    lia.
Qed.

Lemma inList_false (x : string) (l : list string) : ~ In x l -> inList x l = false.
Proof.
  intros H. destruct (inList x l) eqn:E; [|reflexivity]. apply inList_In in E. contradiction.
Qed.

(** X20. [getIntervalType] looks the whole name of the interval up, not its
    simple name, and its lists stop at the octave: every interval wider
    than an octave raises the exception of the unrecognized intervals. *)
Theorem getIntervalType_compound (i : Interval) (d : DiatonicInterval) :
  diatonic i = Some d -> 8 < undirected (generic d) ->
  getIntervalType (Some i) = Raise (unrecognized i).
Proof.
  intros Hd Hwide. unfold getIntervalType. rewrite Hd.
  assert (Hnot : forall l, (forall e, In e l -> In e (PerfectCons ++ ImperfCons ++ Others)) ->
                   inList (DiatonicInterval_name d) l = false).
  { intros l Hl. apply inList_false. intros Hin.
    pose proof (simple_name_number (specifier d) (undirected (generic d))
                  (DiatonicInterval_name d) (Hl _ Hin) eq_refl). lia. }
  rewrite !Hnot; [reflexivity| | |].
  - intros e He. apply in_or_app. right. apply in_or_app. right. exact He.
  - intros e He. apply in_or_app. right. apply in_or_app. left. exact He.
  - intros e He. apply in_or_app. left. exact He.
Qed.

Lemma getIntervalType_compound_witness :
  (notesToInterval tenthLow tenthHigh ≫= fun i => getIntervalType (Some i))
  = Raise (CapuaException
      "Wow!  The first Major Tenth I have ever seen in 14th century music!  Go publish!  (or check for errors...)").
Proof.
  destruct (notesToInterval tenthLow tenthHigh) as [i|e] eqn:Hi; [|vm_compute in Hi; discriminate].
  cbn [mbind result_bind].
  destruct (diatonic i) as [d|] eqn:Hd; [|vm_compute in Hi; injection Hi as <-; discriminate].
  rewrite (getIntervalType_compound i d Hd).
  - vm_compute in Hi. injection Hi as <-. vm_compute. reflexivity.
  - vm_compute in Hi. injection Hi as <-. cbn in Hd. injection Hd as <-. vm_compute. reflexivity.
Defined.

(** * What the tallies always satisfy *)

Lemma streamVec_invariants (s : Stream) :
  let '(a, b, c, d, e, f) := streamVec s in
  a = countNotes s /\ b = d + f /\ c = e + f /\ d + e + f <= a
  /\ 0 <= d /\ 0 <= e /\ 0 <= f.
Proof.
  induction s as [|n s IH]; [unfold countNotes; cbn; lia|].
  rewrite streamVec_cons, countNotes_cons.
  destruct (streamVec s) as [[[[[a b] c] d] e] f]. unfold noteVec.
  destruct (isRest n); cbn [negb Z.b2z add6]; [lia|].
  destruct (hasKey (pmfcFicta (editorial n))), (hasKey (capuaFicta (editorial n)));
    cbn [negb andb Z.b2z]; lia.
Qed.

(** X21. [compareSrcStreamCapuaToEditor] never raises, and in the tally it
    returns totalNotes is the number of notes of the stream, rests apart,
    pmfcAlt is pmfcNotCapua + pmfcAndCapua, capuaAlt is capuaNotPmfc +
    pmfcAndCapua, and the three categories of agreement, none of them
    negative, count no note twice. *)
Theorem compareSrcStream_invariants (s : Stream) :
  exists b c d e f : Z,
    compareSrcStreamCapuaToEditor s
    = Ok [("totalNotes", countNotes s); ("pmfcAlt", b); ("capuaAlt", c);
          ("pmfcNotCapua", d); ("capuaNotPmfc", e); ("pmfcAndCapua", f)]
    /\ b = d + f /\ c = e + f /\ d + e + f <= countNotes s
    /\ 0 <= d /\ 0 <= e /\ 0 <= f.
Proof.
  pose proof (streamVec_invariants s) as H. rewrite compareSrcStream_vec.
  destruct (streamVec s) as [[[[[a b] c] d] e] f].
  destruct H as (-> & Hb & Hc & Hsum & Hd & He & Hf).
  exists b, c, d, e, f. split; [reflexivity|]. auto 10.
Qed.

(** * [findCorrections]: the totals and the Opus *)

Section FindCorrections.
Variable makeWork : Z -> Work.
Variable attach : Stream -> Stream -> Stream.

(** [applyCapuaToStream] as the corpus functions call it, on the flat
    stream of a part. *)
Lemma applyCapuaToFlat_total (s : Stream) : exists s', applyCapuaToFlat s = Ok s'.
Proof.
  unfold applyCapuaToFlat.
  destruct (applyCapuaToStream_total (flatStream s) (flatStream_allDirect s)) as [t ->].
  eauto.
Qed.

Lemma notes_good (s s' : Stream) : applyCapuaToFlat s = Ok s' -> goodNotes (notes s').
Proof.
  unfold applyCapuaToFlat. intros Hrun.
  destruct (applyCapuaToStream (flatStream s)) as [t|e] eqn:Ht; [|discriminate Hrun].
  injection Hrun as <-.
  pose proof (applyCapuaToStream_pmfc (flatStream s) t (flatStream_allDirect s) Ht) as Hall.
  unfold goodNotes, notes. apply List.Forall_forall. intros n Hin.
  apply List.filter_In in Hin. destruct Hin as [Hin Hr].
  rewrite List.Forall_forall in Hall. apply negb_true_iff in Hr. split; [exact Hr|].
  exact (Hall n Hin Hr).
Qed.

(** One turn of the note loop: the Opus and the flag stay, the totals
    stay good. *)
Lemma findCorrections_note_good (ct : string) (nc : nat) (nm : string) (sn : Z * nat)
    (x : Stream) (i : nat) (t : Dict) (op : list (Z * nat)) (ap : bool) :
  goodNotes x -> goodTotals t ->
  exists t', findCorrections_note ct nc nm sn x i (t, op, ap) = Ok (t', op, ap)
             /\ goodTotals t'.
Proof.
  intros Hx Ht. unfold findCorrections_note.
  destruct (x !! i) as [note1|] eqn:Hi; [|eauto].
  destruct (negb (harmonicSimpleNameIs note1 nm)); [eauto|].
  destruct ((length x - nc <=? i)%nat && (i =? length x - 1)%nat); [eauto|].
  destruct (negb (resolves ct _)); [eauto|].
  rewrite compareNote_tally. unfold noteTally.
  unfold goodNotes in Hx. rewrite Forall_lookup in Hx. destruct (Hx i note1 Hi) as [Hr Hp].
  rewrite Hr, Hp. destruct Ht as (n & c & d & -> & Hd & Hc).
  destruct (hasKey (capuaFicta (editorial note1))); cbn.
  - exists (totalsOf (n + 1) (c + 1) (d + 0)). split; [reflexivity|].
    exists (n + 1), (c + 1), (d + 0). split; [reflexivity|]. lia.
  - exists (totalsOf (n + 1) (c + 0) (d + 1)). split; [reflexivity|].
    exists (n + 1), (c + 0), (d + 1). split; [reflexivity|]. lia.
Qed.

Lemma findCorrections_notes_good (ct : string) (nc : nat) (nm : string) (sn : Z * nat)
    (x : Stream) (l : list nat) (t : Dict) (op : list (Z * nat)) (ap : bool) :
  goodNotes x -> goodTotals t ->
  exists t', forM (findCorrections_note ct nc nm sn x) l (t, op, ap) = Ok (t', op, ap)
             /\ goodTotals t'.
Proof.
  intros Hx. revert t. induction l as [|i l IH]; intros t Ht; [cbn; eauto|].
  cbn [forM]. destruct (findCorrections_note_good ct nc nm sn x i t op ap Hx Ht)
    as (t1 & -> & Ht1). apply IH. exact Ht1.
Qed.

(** One snippet: it raises only for want of a part C or T; its place goes
    into the Opus when it is eligible, whatever its notes; the totals stay
    good. *)
Lemma findCorrections_snippet_good (ct : string) (nc : nat) (nm : string) (j : Z) (k : nat)
    (sn : option Snippet) (t t' : Dict) (op op' : list (Z * nat)) :
  goodTotals t ->
  findCorrections_snippet attach ct nc nm j k sn (t, op) = Ok (t', op') ->
  goodTotals t' /\ op' = op ++ (if eligible sn then [(j, k)] else []).
Proof.
  intros Ht. unfold findCorrections_snippet, eligible.
  destruct sn as [sn|]; [|intros [= <- <-]; rewrite app_nil_r; auto].
  destruct (inList "Incipit" (classes sn)); [intros [= <- <-]; rewrite app_nil_r; auto|].
  destruct (length (parts sn) <? 2)%nat; [intros [= <- <-]; rewrite app_nil_r; auto|].
  destruct (getPart "C" (parts sn)) as [s1|e]; [|discriminate]. cbn [mbind result_bind].
  destruct (getPart "T" (parts sn)) as [s2|e]; [|discriminate]. cbn [mbind result_bind negb].
  destruct (applyCapuaToFlat (attach s1 s2)) as [x1|e] eqn:H1; [|discriminate].
  cbn [mbind result_bind].
  destruct (applyCapuaToFlat (attach s2 (attach s1 s2))) as [x2|e] eqn:H2; [|discriminate].
  cbn [mbind result_bind forM].
  destruct (findCorrections_notes_good ct nc nm (j, k) (notes x1) (seq 0 (length (notes x1)))
              t (op ++ [(j, k)]) true (notes_good _ _ H1) Ht) as (t1 & -> & Ht1).
  destruct (findCorrections_notes_good ct nc nm (j, k) (notes x2) (seq 0 (length (notes x2)))
              t1 (op ++ [(j, k)]) true (notes_good _ _ H2) Ht1) as (t2 & -> & Ht2).
  cbn. intros [= <- <-]. auto.
Qed.

Lemma forSnippets_good (ct : string) (nc : nat) (nm : string) (j : Z)
    (sns : list (option Snippet)) (k : nat) (t t' : Dict) (op op' : list (Z * nat)) :
  goodTotals t ->
  forSnippets (findCorrections_snippet attach ct nc nm j) k sns (t, op) = Ok (t', op') ->
  goodTotals t' /\ op' = op ++ eligiblePlaces j k sns.
Proof.
  revert k t op. induction sns as [|sn sns IH]; intros k t op Ht Hrun.
  - cbn in Hrun. injection Hrun as <- <-. cbn. rewrite app_nil_r. auto.
  - cbn [forSnippets] in Hrun.
    destruct (findCorrections_snippet attach ct nc nm j k sn (t, op)) as [[t1 op1]|e] eqn:H1;
      [|discriminate].
    destruct (findCorrections_snippet_good ct nc nm j k sn t t1 op op1 Ht H1) as [Ht1 ->].
    destruct (IH (S k) t1 _ Ht1 Hrun) as [Ht' ->]. split; [exact Ht'|].
    cbn [eligiblePlaces]. rewrite app_assoc. reflexivity.
Qed.

Lemma findCorrections_pieces_good (ct : string) (nc : nat) (nm : string) (js : list Z)
    (t t' : Dict) (op op' : list (Z * nat)) :
  goodTotals t ->
  forM (findCorrections_piece makeWork attach ct nc nm) js (t, op) = Ok (t', op') ->
  goodTotals t' /\ op' = op ++ flat_map (workPlaces makeWork) js.
Proof.
  revert t op. induction js as [|j js IH]; intros t op Ht Hrun.
  - cbn in Hrun. injection Hrun as <- <-. cbn. rewrite app_nil_r. auto.
  - cbn [forM] in Hrun.
    destruct (findCorrections_piece makeWork attach ct nc nm j (t, op)) as [[t1 op1]|e] eqn:H1;
      [|discriminate].
    assert (Hp : goodTotals t1 /\ op1 = op ++ workPlaces makeWork j).
    { unfold findCorrections_piece in H1. unfold workPlaces.
      destruct (incipit (makeWork j)).
      - exact (forSnippets_good ct nc nm j _ 0 t t1 op op1 Ht H1).
      - injection H1 as <- <-. rewrite app_nil_r. auto. }
    destruct Hp as [Ht1 ->]. destruct (IH t1 _ Ht1 Hrun) as [Ht' ->].
    split; [exact Ht'|]. cbn [flat_map]. rewrite app_assoc. reflexivity.
Qed.

Lemma findCorrections_run (ct : string) (a b : Z) (t : Dict) (op : list (Z * nat)) :
  findCorrections makeWork attach ct a b = Ok (t, op) ->
  (ct = "Maj3" \/ ct = "min6")
  /\ goodTotals t /\ op = flat_map (workPlaces makeWork) (seqZ a (b - a)).
Proof.
  unfold findCorrections. cbv zeta.
  assert (H0 : goodTotals zeroTotals).
  { exists 0, 0, 0. split; [reflexivity|]. lia. }
  destruct (String.eqb_spec ct "Maj3") as [->|N1].
  - cbn [mbind result_bind]. intros H. split; [auto|].
    exact (findCorrections_pieces_good _ _ _ _ _ _ [] _ H0 H).
  - destruct (String.eqb_spec ct "min6") as [->|N2]; [|discriminate].
    cbn [mbind result_bind]. intros H. split; [auto|].
    exact (findCorrections_pieces_good _ _ _ _ _ _ [] _ H0 H).
Qed.

(** X22. The totals [findCorrections] returns: every note it counts is counted
    as a potential change and, having gone through [applyCapuaToStream]
    in the flat stream of its part, where the first loop gives every note
    the key pmfcFicta, as altered by the editors, so that totalNotes, pmfcAlt and
    potentialChange are one number, capuaNotPmfc is 0, and capuaAlt is
    pmfcAndCapua. *)
Theorem findCorrections_totals (ct : string) (a b : Z) (t : Dict) (op : list (Z * nat)) :
  findCorrections makeWork attach ct a b = Ok (t, op) ->
  exists n c : Z,
    t = [("totalNotes", n); ("pmfcAlt", n); ("capuaAlt", c); ("pmfcNotCapua", n - c);
         ("capuaNotPmfc", 0); ("pmfcAndCapua", c); ("potentialChange", n)]
    /\ 0 <= c <= n.
Proof.
  intros H. destruct (findCorrections_run ct a b t op H) as (_ & (n & c & d & -> & -> & Hc) & _).
  exists n, c. split; [reflexivity|exact Hc].
Qed.

(** X23. The Opus [findCorrections] returns holds, in the order of the corpus,
    every snippet that is not None, is no incipit and has two parts or
    more, of every work that has an incipit: the snippets worked on, with
    or without a note that qualifies. *)
Theorem findCorrections_opus (ct : string) (a b : Z) (t : Dict) (op : list (Z * nat)) :
  findCorrections makeWork attach ct a b = Ok (t, op) ->
  op = flat_map (workPlaces makeWork) (seqZ a (b - a)).
Proof.
  intros H. exact (proj2 (proj2 (findCorrections_run ct a b t op H))).
Qed.

(** X24. [findCorrections] checks its correctionType before it opens any work:
    a type other than Maj3 and min6 raises CapuaException whatever the
    range; with one of the two types, a range that is empty (endPiece at
    or below startPiece) gives totals of zero and an empty Opus. *)
Theorem findCorrections_edges (ct : string) (a b : Z) :
  (ct <> "Maj3" -> ct <> "min6" ->
   exists msg, findCorrections makeWork attach ct a b = Raise (CapuaException msg))
  /\ ((ct = "Maj3" \/ ct = "min6") -> b <= a ->
      findCorrections makeWork attach ct a b = Ok (zeroTotals, [])).
Proof.
  unfold findCorrections. cbv zeta. split.
  - intros N1 N2. destruct (String.eqb_spec ct "Maj3"); [contradiction|].
    destruct (String.eqb_spec ct "min6"); [contradiction|]. eexists. reflexivity.
  - intros Hct Hle. rewrite seqZ_nil by lia. destruct Hct as [->| ->]; reflexivity.
Qed.
Lemma findCorrections_snippet_returns (ct : string) (nc : nat) (nm : string) (j : Z) (k : nat)
    (sn : option Snippet) (t : Dict) (op : list (Z * nat)) :
  goodTotals t ->
  (forall x, sn = Some x -> eligible sn = true ->
     isOk (getPart "C" (parts x)) /\ isOk (getPart "T" (parts x))) ->
  exists t' op', findCorrections_snippet attach ct nc nm j k sn (t, op) = Ok (t', op').
Proof.
  intros Ht Hv. unfold findCorrections_snippet.
  destruct sn as [sn|]; [|eauto]. specialize (Hv sn eq_refl). unfold eligible in Hv.
  destruct (inList "Incipit" (classes sn)); [eauto|].
  destruct (length (parts sn) <? 2)%nat; [eauto|].
  destruct (Hv eq_refl) as [[s1 ->] [s2 ->]]. cbn [mbind result_bind negb].
  destruct (applyCapuaToFlat_total (attach s1 s2)) as [x1 H1]. rewrite H1.
  cbn [mbind result_bind].
  destruct (applyCapuaToFlat_total (attach s2 (attach s1 s2))) as [x2 H2]. rewrite H2.
  cbn [mbind result_bind forM].
  destruct (findCorrections_notes_good ct nc nm (j, k) (notes x1) (seq 0 (length (notes x1)))
              t (op ++ [(j, k)]) true (notes_good _ _ H1) Ht) as (t1 & -> & Ht1).
  destruct (findCorrections_notes_good ct nc nm (j, k) (notes x2) (seq 0 (length (notes x2)))
              t1 (op ++ [(j, k)]) true (notes_good _ _ H2) Ht1) as (t2 & -> & Ht2).
  cbn. eauto.
Qed.

Lemma forSnippets_returns (ct : string) (nc : nat) (nm : string) (j : Z)
    (sns : list (option Snippet)) (k : nat) (t : Dict) (op : list (Z * nat)) :
  goodTotals t ->
  (forall x, In (Some x) sns -> eligible (Some x) = true ->
     isOk (getPart "C" (parts x)) /\ isOk (getPart "T" (parts x))) ->
  exists t' op',
    forSnippets (findCorrections_snippet attach ct nc nm j) k sns (t, op) = Ok (t', op')
    /\ goodTotals t'.
Proof.
  revert k t op. induction sns as [|sn sns IH]; intros k t op Ht Hv; [cbn; eauto|].
  cbn [forSnippets].
  destruct (findCorrections_snippet_returns ct nc nm j k sn t op Ht) as (t1 & op1 & H1).
  { intros x -> He. apply Hv; [left; reflexivity|exact He]. }
  rewrite H1. destruct (findCorrections_snippet_good ct nc nm j k sn t t1 op op1 Ht H1)
    as [Ht1 _].
  apply IH; [exact Ht1|]. intros x Hx. apply Hv. right. exact Hx.
Qed.

Lemma findCorrections_pieces_returns (ct : string) (nc : nat) (nm : string) (js : list Z)
    (t : Dict) (op : list (Z * nat)) :
  goodTotals t -> (forall j, In j js -> hasBothVoices (makeWork j)) ->
  exists t' op',
    forM (findCorrections_piece makeWork attach ct nc nm) js (t, op) = Ok (t', op').
Proof.
  revert t op. induction js as [|j js IH]; intros t op Ht Hv; [cbn; eauto|].
  cbn [forM]. unfold findCorrections_piece at 1.
  destruct (incipit (makeWork j)).
  - destruct (forSnippets_returns ct nc nm j (snippets (makeWork j)) 0 t op Ht)
      as (t1 & op1 & -> & Ht1).
    { apply Hv. left. reflexivity. }
    apply IH; [exact Ht1|]. intros j' Hj'. apply Hv. right. exact Hj'.
  - apply IH; [exact Ht|]. intros j' Hj'. apply Hv. right. exact Hj'.
Qed.

(** X25. [findCorrections] raises only for a correctionType it does not know
    or for a snippet without a part C or a part T: when every snippet it
    works on has both parts, it returns, whatever the notes. *)
Theorem findCorrections_returns (ct : string) (a b : Z) :
  ct = "Maj3" \/ ct = "min6" ->
  (forall j, a <= j < b -> hasBothVoices (makeWork j)) ->
  exists t op, findCorrections makeWork attach ct a b = Ok (t, op).
Proof.
  intros Hct Hv. unfold findCorrections. cbv zeta.
  assert (H0 : goodTotals zeroTotals).
  { exists 0, 0, 0. split; [reflexivity|]. lia. }
  assert (Hin : forall j, In j (seqZ a (b - a)) -> hasBothVoices (makeWork j)).
  { intros j Hj. apply Hv. apply list_elem_of_In in Hj. apply elem_of_seqZ in Hj. lia. }
  destruct Hct as [->| ->]; cbn [mbind result_bind];
    exact (findCorrections_pieces_returns _ _ _ _ _ [] H0 Hin).
Qed.
End FindCorrections.

Lemma findCorrections_totals_witness :
  exists n c : Z,
    fst (cadenceRun) = [("totalNotes", n); ("pmfcAlt", n); ("capuaAlt", c);
                        ("pmfcNotCapua", n - c); ("capuaNotPmfc", 0); ("pmfcAndCapua", c);
                        ("potentialChange", n)]
    /\ 0 <= c <= n.
Proof.
  assert (H : findCorrections thirdCorpus attachAligned "Maj3" 2 3
              = Ok (fst cadenceRun, snd cadenceRun)) by (vm_compute; reflexivity).
  exact (findCorrections_totals thirdCorpus attachAligned "Maj3" 2 3 _ _ H).
Defined.

Lemma findCorrections_opus_witness :
  snd cadenceRun = flat_map (workPlaces thirdCorpus) (seqZ 2 (3 - 2)).
Proof.
  assert (H : findCorrections thirdCorpus attachAligned "Maj3" 2 3
              = Ok (fst cadenceRun, snd cadenceRun)) by (vm_compute; reflexivity).
  exact (findCorrections_opus thirdCorpus attachAligned "Maj3" 2 3 _ _ H).
Defined.

Lemma findCorrections_edges_witness :
  (exists msg, findCorrections thirdCorpus attachAligned "Min3" 2 3
               = Raise (CapuaException msg))
  /\ findCorrections thirdCorpus attachAligned "min6" 5 5 = Ok (zeroTotals, []).
Proof.
  destruct (findCorrections_edges thirdCorpus attachAligned "Min3" 2 3) as [H1 _].
  destruct (findCorrections_edges thirdCorpus attachAligned "min6" 5 5) as [_ H2].
  split; [apply H1; discriminate|apply H2; [right; reflexivity|lia]].
Defined.

Lemma findCorrections_returns_witness :
  exists t op, findCorrections thirdCorpus attachAligned "min6" 2 5 = Ok (t, op).
Proof.
  apply findCorrections_returns; [right; reflexivity|].
  intros j _ sn Hin He. cbn in Hin.
  destruct Hin as [H|[H|[H|[]]]]; try discriminate H; injection H as <-.
  - discriminate He.
  - split; eexists; reflexivity.
Defined.
